(** * Levikno: object pool, raw allocation primitives and containers

    A shallow embedding of the memory substrate of the Levikno framework
    ([src/levikno.cpp], [include/levikno/levikno.h]) and the properties its
    specification states about it.

    Conventions of the embedding.
    - [uint64_t] and [size_t] counters are [Z] with the wrap-around written
      out ([wrap64]).
    - Sizes of, and indices into, arrays that exist in memory are [nat]:
      they are bounded by the address space, so the [size_t] arithmetic the
      containers do on them does not wrap.
    - An array is a [list]; [l !! i] reads and [<[i:=x]> l] writes.  A read
      or write outside the array is undefined behaviour in the source; the
      operations that can get there return [None].
    - A table indexed by an enumeration is a total function from the
      enumeration. *)

From Stdlib Require Import ZArith Bool Lia String Ascii.
From stdpp Require Import base tactics option list numbers functions.

Local Open Scope Z_scope.

(** ** Machine integers *)

Definition wrap64 (z : Z) : Z := z mod 2 ^ 64.

Lemma wrap64_range z : 0 <= wrap64 z < 2 ^ 64.
Proof. unfold wrap64. apply Z.mod_pos_bound. lia. Qed.

Lemma wrap64_small z : 0 <= z < 2 ^ 64 -> wrap64 z = z.
Proof. intros H. unfold wrap64. apply Z.mod_small. exact H. Qed.

(** ** Enumerations and plain structs of [levikno.h] *)

Inductive LvnResult :=
| Lvn_Result_Success
| Lvn_Result_Failure
| Lvn_Result_AlreadyCalled
| Lvn_Result_MemAllocFailure
| Lvn_Result_TimeOut.

Inductive LvnStructureType :=
| Lvn_Stype_Undefined
| Lvn_Stype_Window
| Lvn_Stype_Logger
| Lvn_Stype_FrameBuffer
| Lvn_Stype_Shader
| Lvn_Stype_DescriptorLayout
| Lvn_Stype_Pipeline
| Lvn_Stype_Buffer
| Lvn_Stype_Sampler
| Lvn_Stype_Texture
| Lvn_Stype_Cubemap
| Lvn_Stype_Sound
| Lvn_Stype_Socket.

#[global] Instance LvnStructureType_eq_dec : EqDecision LvnStructureType.
Proof. solve_decision. Defined.

(** The enumerants below [Lvn_Stype_Max_Value], in index order: what a loop
    [for (i = 0; i < structTypes.size(); i++)] over a table visits. *)
Definition all_stypes : list LvnStructureType :=
  [ Lvn_Stype_Undefined; Lvn_Stype_Window; Lvn_Stype_Logger;
    Lvn_Stype_FrameBuffer; Lvn_Stype_Shader; Lvn_Stype_DescriptorLayout;
    Lvn_Stype_Pipeline; Lvn_Stype_Buffer; Lvn_Stype_Sampler;
    Lvn_Stype_Texture; Lvn_Stype_Cubemap; Lvn_Stype_Sound;
    Lvn_Stype_Socket ].

Inductive LvnMemAllocMode :=
| Lvn_MemAllocMode_Individual
| Lvn_MemAllocMode_MemPool.

Inductive LvnLogLevel :=
| Lvn_LogLevel_None
| Lvn_LogLevel_Trace
| Lvn_LogLevel_Debug
| Lvn_LogLevel_Info
| Lvn_LogLevel_Warn
| Lvn_LogLevel_Error
| Lvn_LogLevel_Fatal.

Definition log_level_value (l : LvnLogLevel) : Z :=
  match l with
  | Lvn_LogLevel_None => 0
  | Lvn_LogLevel_Trace => 1
  | Lvn_LogLevel_Debug => 2
  | Lvn_LogLevel_Info => 3
  | Lvn_LogLevel_Warn => 4
  | Lvn_LogLevel_Error => 5
  | Lvn_LogLevel_Fatal => 6
  end.

(** [struct LvnMemoryBindingInfo { LvnStructureType sType; uint64_t count; }] *)
Record LvnMemoryBindingInfo := {
  mbi_sType : LvnStructureType;
  mbi_count : Z
}.

(** ** Raw allocation primitives: [memAlloc], [memFree]

    [memAlloc] and [memFree] go through the installed function pointers
    [s_MemAllocFunc] and [s_MemFreeFunc]; what these do is not part of the
    library, so they are parameters, as is the state they work on (the
    user-data pointer and the heap's own bookkeeping).  The counter
    [numMemoryAllocations] is a field of the context [s_LvnContext] points
    to; [None] is the null context pointer. *)

Module MemAlloc.

Inductive AllocatorCall :=
| CallAlloc (size : Z)
| CallFree (ptr : Z).

Inductive Outcome (A : Type) :=
| Returns (a : A)
| Aborts.
Arguments Returns {A} a.
Arguments Aborts {A}.

Section Allocator.

Variable UserData : Type.
Variable s_MemAllocFunc : Z -> UserData -> Z * UserData.
Variable s_MemFreeFunc : Z -> UserData -> UserData.

Record State := {
  bytes : Z -> Z;
  s_MemAllocUserData : UserData;
  calls : list AllocatorCall;
  numMemoryAllocations : option Z;
  errors : list string
}.

Definition nullptr : Z := 0.

(** [memset(ptr, 0, size)] *)
Definition memset0 (ptr size : Z) (m : Z -> Z) : Z -> Z :=
  fun a => if (ptr <=? a) && (a <? ptr + size) then 0 else m a.

(** [void* memAlloc(size_t size)] *)
Definition memAlloc (size : Z) (st : State) : Outcome Z * State :=
  if size =? 0 then (Returns nullptr, st)
  else
    let '(allocmem, ud) := s_MemAllocFunc size (s_MemAllocUserData st) in
    let st1 := {| bytes := bytes st; s_MemAllocUserData := ud;
                  calls := calls st ++ [CallAlloc size];
                  numMemoryAllocations := numMemoryAllocations st;
                  errors := errors st |} in
    if allocmem =? nullptr then
      (Aborts,
       {| bytes := bytes st1; s_MemAllocUserData := ud; calls := calls st1;
          numMemoryAllocations := numMemoryAllocations st1;
          errors := errors st1 ++ ["malloc failure, could not allocate memory!"%string] |})
    else
      (Returns allocmem,
       {| bytes := memset0 allocmem size (bytes st1);
          s_MemAllocUserData := ud; calls := calls st1;
          numMemoryAllocations :=
            match numMemoryAllocations st1 with
            | Some n => Some (wrap64 (n + 1))
            | None => None
            end;
          errors := errors st1 |}).

(** [void memFree(void* ptr)] *)
Definition memFree (ptr : Z) (st : State) : State :=
  if ptr =? nullptr then st
  else
    {| bytes := bytes st;
       s_MemAllocUserData := s_MemFreeFunc ptr (s_MemAllocUserData st);
       calls := calls st ++ [CallFree ptr];
       numMemoryAllocations :=
         match numMemoryAllocations st with
         | Some n => Some (wrap64 (n - 1))
         | None => None
         end;
       errors := errors st |}.

Lemma memAlloc_zero st : memAlloc 0 st = (Returns nullptr, st).
Proof. reflexivity. Qed.

Lemma memFree_null st : memFree nullptr st = st.
Proof. reflexivity. Qed.

Lemma memset0_inside ptr size m a :
  ptr <= a < ptr + size -> memset0 ptr size m a = 0.
Proof.
  intros [H1 H2]. unfold memset0.
  destruct (Z.leb_spec ptr a); [|lia].
  destruct (Z.ltb_spec a (ptr + size)); [reflexivity|lia].
Qed.

Lemma memAlloc_success size st p ud :
  size <> 0 ->
  s_MemAllocFunc size (s_MemAllocUserData st) = (p, ud) ->
  p <> nullptr ->
  exists st',
    memAlloc size st = (Returns p, st') /\
    (forall a, p <= a < p + size -> bytes st' a = 0) /\
    numMemoryAllocations st' =
      (fun n => wrap64 (n + 1)) <$> numMemoryAllocations st /\
    calls st' = calls st ++ [CallAlloc size].
Proof.
  intros Hsz Hal Hp. unfold memAlloc.
  destruct (Z.eqb_spec size 0) as [->|_]; [congruence|].
  rewrite Hal. destruct (Z.eqb_spec p nullptr) as [->|_]; [congruence|].
  eexists. split; [reflexivity|]. cbn. split; [|split].
  - intros a Ha. apply memset0_inside. exact Ha.
  - destruct (numMemoryAllocations st); reflexivity.
  - reflexivity.
Qed.

(** C10. [memAlloc(0)] returns the null pointer and leaves the whole state
    as it was: the installed allocator is not called and the allocation
    counter keeps its value.  For a size above zero, when the installed
    allocator returns a non-null pointer [p], [memAlloc] returns [p], every
    byte of [p .. p+size) is zero, and the context's allocation counter is
    one higher (in [size_t] arithmetic).  [memFree(nullptr)] leaves the
    whole state as it was. *)
Theorem memAlloc_memFree_contract :
  (forall st, memAlloc 0 st = (Returns nullptr, st)) /\
  (forall size st p ud,
      0 < size < 2 ^ 64 ->
      s_MemAllocFunc size (s_MemAllocUserData st) = (p, ud) ->
      p <> nullptr ->
      exists st',
        memAlloc size st = (Returns p, st') /\
        (forall a, p <= a < p + size -> bytes st' a = 0) /\
        numMemoryAllocations st' =
          (fun n => wrap64 (n + 1)) <$> numMemoryAllocations st) /\
  (forall st, memFree nullptr st = st).
Proof.
  split; [exact memAlloc_zero|]. split; [|exact memFree_null].
  intros size st p ud Hsz Hal Hp.
  destruct (memAlloc_success size st p ud) as (st' & H1 & H2 & H3 & _);
    [lia|exact Hal|exact Hp|].
  exists st'. auto.
Qed.

End Allocator.

(** A bump allocator, to run the primitives on: the user data is the next
    unused address. *)
Definition bump_alloc (size : Z) (next : Z) : Z * Z := (next, next + size).
Definition bump_free (ptr : Z) (next : Z) : Z := next.

Definition bump_state : State Z :=
  {| bytes := fun _ => 255; s_MemAllocUserData := 4096; calls := [];
     numMemoryAllocations := Some 0; errors := [] |}.

Lemma memAlloc_memFree_contract_witness :
  exists st',
    memAlloc Z bump_alloc 16 bump_state = (Returns 4096, st') /\
    (forall a, 4096 <= a < 4096 + 16 -> bytes Z st' a = 0) /\
    numMemoryAllocations Z st' = Some 1.
Proof.
  destruct (memAlloc_memFree_contract Z bump_alloc bump_free) as (_ & H & _).
  destruct (H 16 bump_state 4096 (4096 + 16)) as (st' & H1 & H2 & H3).
  - lia.
  - reflexivity.
  - discriminate.
  - exists st'. split; [exact H1|]. split; [exact H2|]. rewrite H3. reflexivity.
Defined.

End MemAlloc.

(** ** The object pool: blocks, bindings, [createObject], [destroyObject]

    Pointers are pairs of a heap region and a byte offset into it; every
    allocation from the heap opens a fresh region.  The trace records what
    is done to objects: construction, destruction, and the heap calls of
    [new] and [delete]. *)

Module Pool.

Inductive Ptr :=
| NullPtr
| Addr (region : nat) (offset : Z).

#[global] Instance Ptr_eq_dec : EqDecision Ptr.
Proof. solve_decision. Defined.

Definition ptr_add (p : Ptr) (d : Z) : Ptr :=
  match p with
  | NullPtr => NullPtr
  | Addr r o => Addr r (o + d)
  end.

Inductive Event :=
| EvHeapAlloc (p : Ptr)
| EvHeapFree (p : Ptr)
| EvConstruct (p : Ptr)
| EvDestruct (p : Ptr).

Record LogRecord := {
  lr_level : LvnLogLevel;
  lr_fmt : string;
  lr_args : list Z
}.

(** What lies outside the context: the heap (the next unused region), the
    trace of object events, and what the logging channel has put out. *)
Record World := {
  nextRegion : nat;
  trace : list Event;
  logOutput : list LogRecord
}.

Definition heap_alloc (w : World) : Ptr * World :=
  (Addr (nextRegion w) 0,
   {| nextRegion := S (nextRegion w); trace := trace w;
      logOutput := logOutput w |}).

Definition emit (e : list Event) (w : World) : World :=
  {| nextRegion := nextRegion w; trace := trace w ++ e;
     logOutput := logOutput w |}.

(** Modelled from the spec: [LvnMemoryBlock] is declared in the internal
    header, which is not among the sources.  The spec has it own a raw
    byte arena of a fixed size, give raw pointers into it by offset
    ([operator[]]), and be a null, empty block when built with size 0. *)
Record LvnMemoryBlock := {
  blk_data : Ptr;
  blk_size : Z
}.

Definition LvnMemoryBlock_new (size : Z) (w : World) : LvnMemoryBlock * World :=
  if size =? 0 then ({| blk_data := NullPtr; blk_size := 0 |}, w)
  else
    let '(p, w') := heap_alloc w in
    ({| blk_data := p; blk_size := size |}, w').

Definition LvnMemoryBlock_at (b : LvnMemoryBlock) (off : Z) : Ptr :=
  ptr_add (blk_data b) off.

(** Modelled from the spec: the per-type lists [memBindings[sType]] of
    [LvnMemoryPool], declared in the internal header, are what the spec
    calls vectors, built from the library's own [LvnVector].  Such a
    vector grows here by [push_back] alone, one element at a time, and
    [LvnVector::reserve] allocates exactly the size it is asked for: the
    buffer is always full, so every [push_back] moves the elements to a
    new buffer and releases the old one.  The buffers a vector has had
    are therefore told apart by the number of elements they hold, and a
    pointer to an element is the buffer it points into and the index
    there. *)
Record BindingPtr := {
  bp_buffer : nat;
  bp_index : nat
}.

#[global] Instance BindingPtr_eq_dec : EqDecision BindingPtr.
Proof. solve_decision. Defined.

(** Modelled from the spec: [LvnMemoryBinding] is declared in the internal
    header, which is not among the sources.  The spec gives it a base
    pointer, an element size, a slot count, a free-list of reclaimed slot
    indices, a linear cursor of never-used slots, and a link to the next
    binding of the chain, a [LvnMemoryBinding*]. *)
Record LvnMemoryBinding := {
  basePtr : Ptr;
  elementSize : Z;
  bnd_count : Z;
  freeList : list Z;
  cursor : Z;
  next : option BindingPtr
}.

(** The buffer [memBindings[sType]] has while it holds [bs]. *)
Definition buffer_of (bs : list LvnMemoryBinding) : nat := length bs.

(** [&memBinding[i]], taken while the vector holds [bs]. *)
Definition ptr_to (bs : list LvnMemoryBinding) (i : nat) : BindingPtr :=
  {| bp_buffer := buffer_of bs; bp_index := i |}.

(** A read through a pointer to a binding.  A pointer into a buffer the
    vector has released, or past the end of the buffer, is dangling:
    using it is undefined behaviour, [None]. *)
Definition deref (bs : list LvnMemoryBinding) (p : BindingPtr)
    : option LvnMemoryBinding :=
  if decide (bp_buffer p = buffer_of bs) then bs !! bp_index p else None.

(** A write through a pointer to a binding. *)
Definition write_through (bs : list LvnMemoryBinding) (p : BindingPtr)
    (f : LvnMemoryBinding -> LvnMemoryBinding) : option (list LvnMemoryBinding) :=
  b ← deref bs p; Some (<[bp_index p := f b]> bs).

(** Modelled from the spec: the constructor
    [LvnMemoryBinding(basePtr, elementSize, count)]: an empty free-list and
    the cursor at 0. *)
Definition LvnMemoryBinding_new (p : Ptr) (esize cnt : Z) : LvnMemoryBinding :=
  {| basePtr := p; elementSize := esize; bnd_count := cnt;
     freeList := []; cursor := 0; next := None |}.

(** Modelled from the spec: a binding has a free slot when its free-list
    is not empty or its cursor is below its count. *)
Definition has_free_slot (b : LvnMemoryBinding) : bool :=
  match freeList b with
  | [] => cursor b <? bnd_count b
  | _ :: _ => true
  end.

(** Modelled from the spec: [find_empty_memory_binding()] returns this
    binding if it has a free slot, else recurses into [next], else null.
    The result is [Some (Some q)] for the binding [q] points to,
    [Some None] for null, and [None] when the walk follows a dangling
    link or does not end within [fuel] bindings. *)
Fixpoint find_empty_memory_binding (fuel : nat) (bs : list LvnMemoryBinding)
    (p : BindingPtr) : option (option BindingPtr) :=
  match fuel with
  | O => None
  | S fuel' =>
      b ← deref bs p;
      if has_free_slot b then Some (Some p)
      else match next b with
           | Some q => find_empty_memory_binding fuel' bs q
           | None => Some None
           end
  end.

Definition set_freeList (b : LvnMemoryBinding) (fl : list Z) : LvnMemoryBinding :=
  {| basePtr := basePtr b; elementSize := elementSize b;
     bnd_count := bnd_count b; freeList := fl; cursor := cursor b;
     next := next b |}.

(** Modelled from the spec: [take_next()] pops the free-list when it is
    not empty, else returns [basePtr + cursor * elementSize] and advances
    the cursor.  The free-list is a stack (the spec calls it LIFO): its
    top is the head of the list.  The spec gives the call the
    precondition that the binding has a free slot; on a binding without
    one it has no result. *)
Definition take_next (b : LvnMemoryBinding) : option (Ptr * LvnMemoryBinding) :=
  match freeList b with
  | idx :: rest =>
      Some (ptr_add (basePtr b) (idx * elementSize b), set_freeList b rest)
  | [] =>
      if cursor b <? bnd_count b then
        Some (ptr_add (basePtr b) (cursor b * elementSize b),
              {| basePtr := basePtr b; elementSize := elementSize b;
                 bnd_count := bnd_count b; freeList := [];
                 cursor := cursor b + 1; next := next b |})
      else None
  end.

(** Modelled from the spec: the slot index of an object is its address
    offset from the base pointer, in elements.  The spec gives
    [push_back] the precondition that the object was allocated from this
    binding: its address is that of a slot the cursor has passed and the
    free-list does not hold.  Any other pointer has no slot index. *)
Definition slot_index (b : LvnMemoryBinding) (obj : Ptr) : option Z :=
  match obj, basePtr b with
  | Addr r o, Addr r0 o0 =>
      let idx := (o - o0) / elementSize b in
      if decide (r = r0 /\ (o - o0) mod elementSize b = 0 /\
                 0 <= idx < cursor b /\ idx ∉ freeList b)
      then Some idx else None
  | _, _ => None
  end.

(** Modelled from the spec: [set_next_memory_binding] links a binding
    after this one. *)
Definition set_next_memory_binding (b : LvnMemoryBinding) (n : BindingPtr)
    : LvnMemoryBinding :=
  {| basePtr := basePtr b; elementSize := elementSize b;
     bnd_count := bnd_count b; freeList := freeList b; cursor := cursor b;
     next := Some n |}.

(** Modelled from the spec: [LvnMemoryPool] is declared in the internal
    header; the source uses its fields [baseMemoryBlock], [memBlocks] and
    [memBindings], the last two indexed by structure type. *)
Record LvnMemoryPool := {
  baseMemoryBlock : LvnMemoryBlock;
  memBlocks : LvnStructureType -> list LvnMemoryBlock;
  memBindings : LvnStructureType -> list LvnMemoryBinding
}.

(** An entry of [sTypeMemAllocInfos] and [blockMemAllocInfos], as
    [setDefaultStructTypeMemAllocInfos] fills it: [{ sType, size, count }]. *)
Record LvnStructTypeMemAllocInfo := {
  sti_sType : LvnStructureType;
  sti_size : Z;
  sti_count : Z
}.

(** The fields of [LvnContext] the pool and context creation use. *)
Record LvnContext := {
  memoryMode : LvnMemAllocMode;
  sTypeMemAllocInfos : LvnStructureType -> LvnStructTypeMemAllocInfo;
  blockMemAllocInfos : LvnStructureType -> LvnStructTypeMemAllocInfo;
  memoryPool : LvnMemoryPool;
  objectMemoryAllocations : LvnStructureType -> Z;
  logging : bool;
  enableCoreLogging : bool;
  coreLogLevel : LvnLogLevel
}.

Definition set_memoryPool (c : LvnContext) (p : LvnMemoryPool) : LvnContext :=
  {| memoryMode := memoryMode c;
     sTypeMemAllocInfos := sTypeMemAllocInfos c;
     blockMemAllocInfos := blockMemAllocInfos c;
     memoryPool := p;
     objectMemoryAllocations := objectMemoryAllocations c;
     logging := logging c; enableCoreLogging := enableCoreLogging c;
     coreLogLevel := coreLogLevel c |}.

Definition set_objectMemoryAllocations (c : LvnContext)
    (f : LvnStructureType -> Z) : LvnContext :=
  {| memoryMode := memoryMode c;
     sTypeMemAllocInfos := sTypeMemAllocInfos c;
     blockMemAllocInfos := blockMemAllocInfos c;
     memoryPool := memoryPool c;
     objectMemoryAllocations := f;
     logging := logging c; enableCoreLogging := enableCoreLogging c;
     coreLogLevel := coreLogLevel c |}.

Definition set_memoryMode (c : LvnContext) (m : LvnMemAllocMode) : LvnContext :=
  {| memoryMode := m;
     sTypeMemAllocInfos := sTypeMemAllocInfos c;
     blockMemAllocInfos := blockMemAllocInfos c;
     memoryPool := memoryPool c;
     objectMemoryAllocations := objectMemoryAllocations c;
     logging := logging c; enableCoreLogging := enableCoreLogging c;
     coreLogLevel := coreLogLevel c |}.

Definition set_sTypeMemAllocInfos (c : LvnContext)
    (f : LvnStructureType -> LvnStructTypeMemAllocInfo) : LvnContext :=
  {| memoryMode := memoryMode c;
     sTypeMemAllocInfos := f;
     blockMemAllocInfos := blockMemAllocInfos c;
     memoryPool := memoryPool c;
     objectMemoryAllocations := objectMemoryAllocations c;
     logging := logging c; enableCoreLogging := enableCoreLogging c;
     coreLogLevel := coreLogLevel c |}.

Definition set_blockMemAllocInfos (c : LvnContext)
    (f : LvnStructureType -> LvnStructTypeMemAllocInfo) : LvnContext :=
  {| memoryMode := memoryMode c;
     sTypeMemAllocInfos := sTypeMemAllocInfos c;
     blockMemAllocInfos := f;
     memoryPool := memoryPool c;
     objectMemoryAllocations := objectMemoryAllocations c;
     logging := logging c; enableCoreLogging := enableCoreLogging c;
     coreLogLevel := coreLogLevel c |}.

Definition set_logging (c : LvnContext) (lg core : bool) (lvl : LvnLogLevel) : LvnContext :=
  {| memoryMode := memoryMode c;
     sTypeMemAllocInfos := sTypeMemAllocInfos c;
     blockMemAllocInfos := blockMemAllocInfos c;
     memoryPool := memoryPool c;
     objectMemoryAllocations := objectMemoryAllocations c;
     logging := lg; enableCoreLogging := core;
     coreLogLevel := lvl |}.

Definition set_memBindings (p : LvnMemoryPool) (t : LvnStructureType)
    (bs : list LvnMemoryBinding) : LvnMemoryPool :=
  {| baseMemoryBlock := baseMemoryBlock p;
     memBlocks := memBlocks p;
     memBindings := <[t := bs]> (memBindings p) |}.

Definition set_memBlocks (p : LvnMemoryPool) (t : LvnStructureType)
    (bl : list LvnMemoryBlock) : LvnMemoryPool :=
  {| baseMemoryBlock := baseMemoryBlock p;
     memBlocks := <[t := bl]> (memBlocks p);
     memBindings := memBindings p |}.

(** The first part of [createMemoryBlock], through
    [memBinding.push_back(...)]: the new block and its binding are in the
    pool, and [prevMemBinding] is the pointer [&memBinding.back()] taken
    before the [push_back], null for an empty vector. *)
Definition createMemoryBlock_bind (lvnctx : LvnContext) (w : World)
    (sType : LvnStructureType) : LvnContext * World * option BindingPtr :=
  let size := sti_size (blockMemAllocInfos lvnctx sType) in
  let count := sti_count (blockMemAllocInfos lvnctx sType) in
  let memsize := wrap64 (size * count) in
  let memPool := memoryPool lvnctx in
  let '(blk, w1) := LvnMemoryBlock_new memsize w in
  let memPool1 := set_memBlocks memPool sType (memBlocks memPool sType ++ [blk]) in
  let memBinding := memBindings memPool1 sType in
  let prevMemBinding :=
    match memBinding with
    | [] => None
    | _ :: _ => Some (ptr_to memBinding (length memBinding - 1))
    end in
  let memBinding1 :=
    memBinding ++ [LvnMemoryBinding_new (LvnMemoryBlock_at blk 0) size count] in
  (set_memoryPool lvnctx (set_memBindings memPool1 sType memBinding1), w1,
   prevMemBinding).

(** [static void createMemoryBlock(LvnContext* lvnctx, LvnStructureType sType)]:
    after the first part,
    [prevMemBinding->set_next_memory_binding(&memBinding.back())] when
    [prevMemBinding] is not null. *)
Definition createMemoryBlock (lvnctx : LvnContext) (w : World)
    (sType : LvnStructureType) : option (LvnContext * World) :=
  let '(lvnctx1, w1, prevMemBinding) := createMemoryBlock_bind lvnctx w sType in
  match prevMemBinding with
  | None => Some (lvnctx1, w1)
  | Some prev =>
      let memBinding := memBindings (memoryPool lvnctx1) sType in
      memBinding' ← write_through memBinding prev
                      (fun b => set_next_memory_binding b
                                  (ptr_to memBinding (length memBinding - 1)));
      Some (set_memoryPool lvnctx1
              (set_memBindings (memoryPool lvnctx1) sType memBinding'), w1)
  end.

Definition count_up (lvnctx : LvnContext) (sType : LvnStructureType) : LvnContext :=
  set_objectMemoryAllocations lvnctx
    (<[sType := wrap64 (objectMemoryAllocations lvnctx sType + 1)]>
       (objectMemoryAllocations lvnctx)).

Definition count_down (lvnctx : LvnContext) (sType : LvnStructureType) : LvnContext :=
  set_objectMemoryAllocations lvnctx
    (<[sType := wrap64 (objectMemoryAllocations lvnctx sType - 1)]>
       (objectMemoryAllocations lvnctx)).

(** The pool branch of [createObject]: the reference [memBinding] to
    [memBindings[sType][0]] is taken first and used after
    [createMemoryBlock]. *)
Definition createObject_pool (lvnctx : LvnContext) (w : World)
    (sType : LvnStructureType) : option (Ptr * LvnContext * World) :=
  let memBinding := ptr_to (memBindings (memoryPool lvnctx) sType) 0 in
  found ← find_empty_memory_binding
            (length (memBindings (memoryPool lvnctx) sType))
            (memBindings (memoryPool lvnctx) sType) memBinding;
  '(lvnctx1, w1) ← match found with
                   | None => createMemoryBlock lvnctx w sType
                   | Some _ => Some (lvnctx, w)
                   end;
  b ← deref (memBindings (memoryPool lvnctx1) sType) memBinding;
  '(object, b') ← take_next b;
  Some (object,
        count_up
          (set_memoryPool lvnctx1
             (set_memBindings (memoryPool lvnctx1) sType
                (<[bp_index memBinding := b']>
                   (memBindings (memoryPool lvnctx1) sType)))) sType,
        emit [EvConstruct object] w1).

(** [template <typename T> static T* createObject(LvnContext*, LvnStructureType)].
    [None] is undefined behaviour: indexing an empty [memBindings[sType]],
    the use of a dangling pointer or reference to a binding, a binding
    walk that does not end, or a [take_next] on a binding without a free
    slot.  The third branch of the source (a memory mode that is neither
    enumerant) has no counterpart: [LvnMemAllocMode] has the two
    enumerants only. *)
Definition createObject (lvnctx : LvnContext) (w : World)
    (sType : LvnStructureType) : option (Ptr * LvnContext * World) :=
  match memoryMode lvnctx with
  | Lvn_MemAllocMode_Individual =>
      let '(object, w1) := heap_alloc w in
      let w2 := emit [EvHeapAlloc object; EvConstruct object] w1 in
      Some (object, count_up lvnctx sType, w2)
  | Lvn_MemAllocMode_MemPool => createObject_pool lvnctx w sType
  end.

Section Destroy.

(** [std::is_trivially_destructible_v<T>] for the object type [T]. *)
Variable trivially_destructible : bool.

(** [obj->~T()], nothing for a trivially destructible [T]. *)
Definition destruct_object (obj : Ptr) (w : World) : World :=
  emit (if trivially_destructible then [] else [EvDestruct obj]) w.

(** [delete obj]: the destructor of [T], then the heap's free. *)
Definition delete_object (obj : Ptr) (w : World) : World :=
  emit ((if trivially_destructible then [] else [EvDestruct obj]) ++ [EvHeapFree obj]) w.

(** Modelled from the spec: [push_back(T* obj)] is declared in the
    internal header, which is not among the sources.  The spec has the
    destroy path of pool mode run [obj->~T()], skipped for a trivially
    destructible [T], before the slot goes back to the free-list;
    [destroyObject] in the source has no destructor call of its own in
    that branch and hands the typed pointer to [push_back], so the call
    is here.  Then the slot index of [obj] is computed from its address
    offset and put on the free-list. *)
Definition push_back (b : LvnMemoryBinding) (obj : Ptr) (w : World)
    : option (LvnMemoryBinding * World) :=
  idx ← slot_index b obj;
  Some (set_freeList b (idx :: freeList b), destruct_object obj w).

(** [template <typename T> static void destroyObject(LvnContext*, T* obj, LvnStructureType)].
    [None] is undefined behaviour: indexing an empty
    [memBindings[sType]], or a [push_back] of a pointer that was not
    allocated from the binding. *)
Definition destroyObject (lvnctx : LvnContext) (w : World) (obj : Ptr)
    (sType : LvnStructureType) : option (LvnContext * World) :=
  match memoryMode lvnctx with
  | Lvn_MemAllocMode_Individual =>
      Some (count_down lvnctx sType, delete_object obj w)
  | Lvn_MemAllocMode_MemPool =>
      let bs := memBindings (memoryPool lvnctx) sType in
      b0 ← bs !! 0%nat;
      '(b0', w1) ← push_back b0 obj w;
      Some (count_down
              (set_memoryPool lvnctx
                 (set_memBindings (memoryPool lvnctx) sType (<[0%nat := b0']> bs)))
              sType, w1)
  end.

End Destroy.


(** *** Sequences of [createObject] and [destroyObject] calls

    A driver for one structure type.  It keeps the list of the objects that
    are live (created and not yet destroyed), in creation order;
    [Destroy k] destroys the [k]-th of them, so that [destroyObject] is
    only ever given a pointer that [createObject] returned, as its callers
    must; a [Destroy] with no such object is skipped. *)

Inductive PoolOp :=
| Create
| Destroy (k : nat).

Definition PoolState : Type := LvnContext * World * list Ptr.

Definition pool_step (td : bool) (sType : LvnStructureType) (op : PoolOp)
    (st : PoolState) : option PoolState :=
  let '(lvnctx, w, live) := st in
  match op with
  | Create =>
      match createObject lvnctx w sType with
      | Some (p, lvnctx', w') => Some (lvnctx', w', live ++ [p])
      | None => None
      end
  | Destroy k =>
      match live !! k with
      | Some p =>
          match destroyObject td lvnctx w p sType with
          | Some (lvnctx', w') => Some (lvnctx', w', delete k live)
          | None => None
          end
      | None => Some st
      end
  end.

Fixpoint pool_run (td : bool) (sType : LvnStructureType) (ops : list PoolOp)
    (st : PoolState) : option PoolState :=
  match ops with
  | [] => Some st
  | op :: ops' =>
      match pool_step td sType op st with
      | Some st' => pool_run td sType ops' st'
      | None => None
      end
  end.

(** Walking the [next] links from the binding [p] points to reaches the
    binding [q] points to. *)
Inductive reaches (bs : list LvnMemoryBinding) : BindingPtr -> BindingPtr -> Prop :=
| reaches_here p : reaches bs p p
| reaches_next p q k b :
    deref bs p = Some b -> next b = Some q -> reaches bs q k -> reaches bs p k.

(** The pool of a structure type as [createContextMemoryPool] leaves it:
    one binding, at [base], nothing taken from it yet, and no chained
    block. *)
Definition fresh_pool (lvnctx : LvnContext) (sType : LvnStructureType)
    (base : Ptr) (esize N : Z) : Prop :=
  memoryMode lvnctx = Lvn_MemAllocMode_MemPool /\
  memBindings (memoryPool lvnctx) sType = [LvnMemoryBinding_new base esize N] /\
  memBlocks (memoryPool lvnctx) sType = [] /\
  objectMemoryAllocations lvnctx sType = 0.

(** *** Context creation *)

(** [logMessage] with a level, for the core logger: the message is put out
    when logging is on, core logging is not disabled, and the level passes
    [logCheckLevel]. *)
Definition logCheckLevel (lvnctx : LvnContext) (level : LvnLogLevel) : bool :=
  log_level_value (coreLogLevel lvnctx) <=? log_level_value level.

Definition logMessageCore (lvnctx : LvnContext) (level : LvnLogLevel)
    (fmt : string) (args : list Z) (w : World) : World :=
  if negb (logging lvnctx) then w
  else if negb (enableCoreLogging lvnctx) then w
  else if negb (logCheckLevel lvnctx level) then w
  else {| nextRegion := nextRegion w; trace := trace w;
          logOutput := logOutput w ++
            [{| lr_level := level; lr_fmt := fmt; lr_args := args |}] |}.

(** [LVN_CORE_ERROR(...)] and [LVN_CORE_TRACE(...)] *)
Definition LVN_CORE_ERROR lvnctx := logMessageCore lvnctx Lvn_LogLevel_Error.
Definition LVN_CORE_TRACE lvnctx := logMessageCore lvnctx Lvn_LogLevel_Trace.

(** The part of [LvnContextCreateInfo] that logging and the memory pool
    read.  An array and its count are one list. *)
Record LvnContextCreateInfo := {
  ci_enableLogging : bool;
  ci_disableCoreLogging : bool;
  ci_memAllocMode : LvnMemAllocMode;
  ci_pMemoryBindings : list LvnMemoryBindingInfo;
  ci_pBlockMemoryBindings : list LvnMemoryBindingInfo
}.

Definition default_count (t : LvnStructureType) : Z :=
  match t with
  | Lvn_Stype_Undefined => 0
  | Lvn_Stype_Window => 8
  | Lvn_Stype_Logger => 8
  | Lvn_Stype_FrameBuffer => 16
  | Lvn_Stype_Shader => 32
  | Lvn_Stype_DescriptorLayout => 64
  | Lvn_Stype_Pipeline => 64
  | Lvn_Stype_Buffer => 256
  | Lvn_Stype_Sampler => 256
  | Lvn_Stype_Texture => 256
  | Lvn_Stype_Cubemap => 256
  | Lvn_Stype_Sound => 32
  | Lvn_Stype_Socket => 32
  end.

Definition set_count (i : LvnStructTypeMemAllocInfo) (c : Z) : LvnStructTypeMemAllocInfo :=
  {| sti_sType := sti_sType i; sti_size := sti_size i; sti_count := c |}.

Definition mem_binding_error : string :=
  "[context]: createInfo->memoryInfo.pMemoryBindings[%u].count is 0, cannot have a memory binding with a count of 0".

Definition block_binding_error : string :=
  "[context]: createInfo->memoryInfo.pBlockMemoryBindings[%u].count is 0, cannot have a memory binding with a count of 0".

Definition pool_trace_message : string :=
  "memory allocation mode set to memory pool, %u custom base memory bindings created, %u custom memory block bindings created, total base memory pool size: %zu bytes".

(** The two loops of [createContextMemoryPool] over an array of bindings:
    a binding with a count of 0 is an error that ends the function, any
    other is written into the table.  [i] is the index of the head of
    [bindings] in the array. *)
Fixpoint set_binding_counts (lvnctx : LvnContext) (errfmt : string) (i : Z)
    (bindings : list LvnMemoryBindingInfo)
    (infos : LvnStructureType -> LvnStructTypeMemAllocInfo) (w : World)
    : LvnResult * (LvnStructureType -> LvnStructTypeMemAllocInfo) * World :=
  match bindings with
  | [] => (Lvn_Result_Success, infos, w)
  | b :: rest =>
      if mbi_count b =? 0 then
        (Lvn_Result_Failure, infos, LVN_CORE_ERROR lvnctx errfmt [i] w)
      else
        set_binding_counts lvnctx errfmt (i + 1) rest
          (<[mbi_sType b := set_count (infos (mbi_sType b)) (mbi_count b)]> infos) w
  end.

(** [memSize += structTypes[i].size * structTypes[i].count] over the table *)
Definition total_memSize (infos : LvnStructureType -> LvnStructTypeMemAllocInfo) : Z :=
  fold_left (fun memSize t =>
               wrap64 (memSize + wrap64 (sti_size (infos t) * sti_count (infos t))))
            all_stypes 0.

(** The loop that gives every structure type its first binding, all inside
    the base block, one after the other. *)
Definition base_bindings (base : LvnMemoryBlock)
    (infos : LvnStructureType -> LvnStructTypeMemAllocInfo)
    : LvnStructureType -> list LvnMemoryBinding :=
  snd (fold_left
         (fun '(memIndex, tbl) t =>
            let info := infos t in
            let sType := sti_sType info in
            let count := sti_count info in
            (wrap64 (memIndex + wrap64 (count * sti_size info)),
             <[sType := tbl sType ++
                 [LvnMemoryBinding_new (LvnMemoryBlock_at base memIndex)
                    (sti_size info) count]]> tbl))
         all_stypes (0, fun _ => [])).

Section ContextCreation.

(** [sizeof] of the object struct of each structure type; the structs are
    laid out by the compiler from declarations that are not all among the
    sources. *)
Variable sizeof_stype : LvnStructureType -> Z.

(** The context [new LvnContext()] builds. *)
Variable new_LvnContext : LvnContext.

(** What [createContext] does after the memory pool: the window, graphics,
    audio and networking contexts and the pipeline defaults. *)
Variable later_stages : LvnContext -> World -> LvnResult * LvnContext * World.

(** [static void setDefaultStructTypeMemAllocInfos(LvnContext* lvnctx)] *)
Definition setDefaultStructTypeMemAllocInfos (lvnctx : LvnContext) : LvnContext :=
  set_sTypeMemAllocInfos lvnctx
    (fun t =>
       {| sti_sType := t;
          sti_size := match t with
                      | Lvn_Stype_Undefined => 0
                      | _ => sizeof_stype t
                      end;
          sti_count := default_count t |}).

(** [static LvnResult createContextMemoryPool(LvnContext* lvnctx, LvnContextCreateInfo* createInfo)] *)
Definition createContextMemoryPool (lvnctx : LvnContext)
    (createInfo : LvnContextCreateInfo) (w : World)
    : LvnResult * LvnContext * World :=
  let lvnctx1 := setDefaultStructTypeMemAllocInfos lvnctx in
  let lvnctx2 := set_memoryMode lvnctx1 (ci_memAllocMode createInfo) in
  match memoryMode lvnctx2 with
  | Lvn_MemAllocMode_Individual => (Lvn_Result_Success, lvnctx2, w)
  | Lvn_MemAllocMode_MemPool =>
      let lvnctx3 := set_blockMemAllocInfos lvnctx2 (sTypeMemAllocInfos lvnctx2) in
      match set_binding_counts lvnctx3 mem_binding_error 0
              (ci_pMemoryBindings createInfo) (sTypeMemAllocInfos lvnctx3) w with
      | (Lvn_Result_Success, structTypes, w1) =>
          let lvnctx4 := set_sTypeMemAllocInfos lvnctx3 structTypes in
          let memSize := total_memSize structTypes in
          let '(base, w2) := LvnMemoryBlock_new memSize w1 in
          let memPool :=
            {| baseMemoryBlock := base;
               memBlocks := fun _ => [];
               memBindings := base_bindings base structTypes |} in
          let lvnctx5 := set_memoryPool lvnctx4 memPool in
          match set_binding_counts lvnctx5 block_binding_error 0
                  (ci_pBlockMemoryBindings createInfo)
                  (blockMemAllocInfos lvnctx5) w2 with
          | (Lvn_Result_Success, blockInfos, w3) =>
              let lvnctx6 := set_blockMemAllocInfos lvnctx5 blockInfos in
              (Lvn_Result_Success, lvnctx6,
               LVN_CORE_TRACE lvnctx6 pool_trace_message
                 [Z.of_nat (length (ci_pMemoryBindings createInfo));
                  Z.of_nat (length (ci_pBlockMemoryBindings createInfo));
                  memSize] w3)
          | (r, blockInfos, w3) =>
              (r, set_blockMemAllocInfos lvnctx5 blockInfos, w3)
          end
      | (r, structTypes, w1) =>
          (r, set_sTypeMemAllocInfos lvnctx3 structTypes, w1)
      end
  end.

(** [static LvnResult initLogging(LvnContextCreateInfo* createInfo)], as far
    as the flags the core logger is filtered by. *)
Definition initLogging (lvnctx : LvnContext) (createInfo : LvnContextCreateInfo)
    : LvnContext :=
  let core := negb (ci_disableCoreLogging createInfo) in
  if ci_enableLogging createInfo
  then set_logging lvnctx true core Lvn_LogLevel_None
  else set_logging lvnctx (logging lvnctx) core (coreLogLevel lvnctx).

(** [LvnResult createContext(LvnContextCreateInfo* createInfo)]; the first
    argument is the global [s_LvnContext], [None] when it is null. *)
Definition createContext (s_LvnContext : option LvnContext)
    (createInfo : LvnContextCreateInfo) (w : World)
    : LvnResult * option LvnContext * World :=
  match s_LvnContext with
  | Some _ => (Lvn_Result_AlreadyCalled, s_LvnContext, w)
  | None =>
      let lvnctx := initLogging new_LvnContext createInfo in
      let lvnctx1 := set_objectMemoryAllocations lvnctx (fun _ => 0) in
      match createContextMemoryPool lvnctx1 createInfo w with
      | (Lvn_Result_Success, lvnctx2, w1) =>
          let '(r, lvnctx3, w2) := later_stages lvnctx2 w1 in
          (r, Some lvnctx3, w2)
      | (result, lvnctx2, w1) => (result, Some lvnctx2, w1)
      end
  end.

(** The table after the bindings [bs] have been written into it. *)
Definition apply_counts (bs : list LvnMemoryBindingInfo)
    (infos : LvnStructureType -> LvnStructTypeMemAllocInfo)
    : LvnStructureType -> LvnStructTypeMemAllocInfo :=
  fold_left (fun tbl b => <[mbi_sType b := set_count (tbl (mbi_sType b)) (mbi_count b)]> tbl)
            bs infos.

(** [k] is the index of the first binding of [bs] with a count of 0. *)
Definition first_zero_count (bs : list LvnMemoryBindingInfo) (k : nat) : Prop :=
  (exists b, bs !! k = Some b /\ mbi_count b = 0) /\
  (forall j b, (j < k)%nat -> bs !! j = Some b -> mbi_count b <> 0).

Lemma first_zero_count_exists (bs : list LvnMemoryBindingInfo) :
  (exists b, b ∈ bs /\ mbi_count b = 0) -> exists k, first_zero_count bs k.
Proof.
  induction bs as [|b0 bs IH]; intros (b & Hin & Hz).
  - inversion Hin.
  - destruct (Z.eq_dec (mbi_count b0) 0) as [H0|H0].
    + exists 0%nat. split; [exists b0; auto|]. intros j b' Hj. lia.
    + assert (Hin' : b ∈ bs).
      { apply elem_of_cons in Hin as [->|Hin]; [contradiction|exact Hin]. }
      destruct IH as (k & (b1 & Hk & Hb1) & Hlt); [eauto|].
      exists (S k). split; [exists b1; auto|].
      intros [|j] b' Hj Hb'; cbn in Hb'.
      * congruence.
      * apply (Hlt j b'); [lia|exact Hb'].
Qed.

Lemma set_binding_counts_failure lvnctx errfmt bs :
  forall k i infos w,
    first_zero_count bs k ->
    set_binding_counts lvnctx errfmt i bs infos w =
      (Lvn_Result_Failure, apply_counts (take k bs) infos,
       LVN_CORE_ERROR lvnctx errfmt [i + Z.of_nat k] w).
Proof.
  induction bs as [|b0 bs IH]; intros k i infos w ((b & Hk & Hz) & Hlt).
  - rewrite lookup_nil in Hk. discriminate.
  - destruct k as [|k]; cbn in Hk.
    + injection Hk as ->. cbn. rewrite Hz. cbn. rewrite Z.add_0_r. reflexivity.
    + cbn. destruct (Z.eqb_spec (mbi_count b0) 0) as [H0|H0].
      * exfalso. apply (Hlt 0%nat b0); [lia|reflexivity|exact H0].
      * rewrite (IH k); [f_equal; f_equal; f_equal; lia|].
        split; [exists b; auto|].
        intros j b' Hj Hb'. apply (Hlt (S j) b'); [lia|exact Hb'].
Qed.

Lemma set_binding_counts_success lvnctx errfmt bs :
  forall i infos w,
    (forall b, b ∈ bs -> mbi_count b <> 0) ->
    set_binding_counts lvnctx errfmt i bs infos w =
      (Lvn_Result_Success, apply_counts bs infos, w).
Proof.
  induction bs as [|b0 bs IH]; intros i infos w Hnz; [reflexivity|].
  cbn. destruct (Z.eqb_spec (mbi_count b0) 0) as [H0|H0].
  - exfalso. apply (Hnz b0); [left|exact H0].
  - apply IH. intros b Hb. apply Hnz. right. exact Hb.
Qed.

(** C8. In pool mode, when the array of base memory bindings holds a
    binding with a count of 0, [createContext] returns
    [Lvn_Result_Failure] (it returns: nothing is thrown and nothing
    aborts); the error goes to the core logger, naming the index [k] of
    the first such binding, and is put out when logging is enabled and core
    logging is not disabled; and the binding is skipped: the table of
    counts holds what the bindings before [k] wrote and nothing of the
    binding at [k], and no pool was built from it. *)
Theorem createContext_zero_count_binding createInfo w :
  ci_memAllocMode createInfo = Lvn_MemAllocMode_MemPool ->
  (exists b, b ∈ ci_pMemoryBindings createInfo /\ mbi_count b = 0) ->
  exists k lvnctx w',
    first_zero_count (ci_pMemoryBindings createInfo) k /\
    createContext None createInfo w = (Lvn_Result_Failure, Some lvnctx, w') /\
    w' = LVN_CORE_ERROR lvnctx mem_binding_error [Z.of_nat k] w /\
    (ci_enableLogging createInfo = true ->
     ci_disableCoreLogging createInfo = false ->
     logOutput w' = logOutput w ++
       [{| lr_level := Lvn_LogLevel_Error; lr_fmt := mem_binding_error;
           lr_args := [Z.of_nat k] |}]) /\
    sTypeMemAllocInfos lvnctx =
      apply_counts (take k (ci_pMemoryBindings createInfo))
        (sTypeMemAllocInfos (setDefaultStructTypeMemAllocInfos new_LvnContext)) /\
    memoryPool lvnctx = memoryPool new_LvnContext.
Proof.
  intros Hmode Hex.
  destruct (first_zero_count_exists _ Hex) as (k & Hk).
  exists k. unfold createContext, createContextMemoryPool.
  cbn [memoryMode set_memoryMode]. rewrite Hmode.
  rewrite (set_binding_counts_failure _ _ _ k 0 _ w Hk).
  unfold initLogging.
  destruct (ci_enableLogging createInfo), (ci_disableCoreLogging createInfo);
    (eexists; eexists; split; [exact Hk|]; split; [reflexivity|];
     split; [reflexivity|]; split; [|split; reflexivity];
     intros Hlog Hcore; try discriminate; reflexivity).
Qed.

(** The same for the array of block memory bindings, once the base bindings
    are all in order: failure, with the error sent to the core logger. *)
Lemma createContext_zero_count_block_binding createInfo w :
  ci_memAllocMode createInfo = Lvn_MemAllocMode_MemPool ->
  (forall b, b ∈ ci_pMemoryBindings createInfo -> mbi_count b <> 0) ->
  (exists b, b ∈ ci_pBlockMemoryBindings createInfo /\ mbi_count b = 0) ->
  exists k lvnctx w1 w',
    first_zero_count (ci_pBlockMemoryBindings createInfo) k /\
    createContext None createInfo w = (Lvn_Result_Failure, Some lvnctx, w') /\
    w' = LVN_CORE_ERROR lvnctx block_binding_error [Z.of_nat k] w1.
Proof.
  intros Hmode Hnz Hex.
  destruct (first_zero_count_exists _ Hex) as (k & Hk).
  exists k. unfold createContext, createContextMemoryPool.
  cbn [memoryMode set_memoryMode]. rewrite Hmode.
  rewrite (set_binding_counts_success _ _ _ 0 _ w Hnz).
  destruct (LvnMemoryBlock_new _ w) as [base w2].
  rewrite (set_binding_counts_failure _ _ _ k 0 _ w2 Hk).
  unfold initLogging.
  destruct (ci_enableLogging createInfo), (ci_disableCoreLogging createInfo);
    (eexists; exists w2; eexists; split; [exact Hk|];
     split; reflexivity).
Qed.

End ContextCreation.

(** *** The pool under sequences of calls *)

Definition bindings_of (lvnctx : LvnContext) (t : LvnStructureType) :=
  memBindings (memoryPool lvnctx) t.

Definition blocks_of (lvnctx : LvnContext) (t : LvnStructureType) :=
  memBlocks (memoryPool lvnctx) t.

Lemma wrap64_succ n : wrap64 (wrap64 n + 1) = wrap64 (n + 1).
Proof. unfold wrap64. rewrite Zplus_mod_idemp_l. reflexivity. Qed.

Lemma wrap64_pred n : wrap64 (wrap64 n - 1) = wrap64 (n - 1).
Proof. unfold wrap64. rewrite Zminus_mod_idemp_l. reflexivity. Qed.

Lemma pool_run_app td t ops1 ops2 st :
  pool_run td t (ops1 ++ ops2) st =
    match pool_run td t ops1 st with
    | Some st' => pool_run td t ops2 st'
    | None => None
    end.
Proof.
  revert st. induction ops1 as [|op ops1 IH]; intros st; [reflexivity|].
  cbn. destruct (pool_step td t op st); [apply IH|reflexivity].
Qed.

(** A pointer into the buffer the vector has is as good as the index. *)
Lemma deref_ptr_to bs i : deref bs (ptr_to bs i) = bs !! i.
Proof.
  unfold deref, ptr_to. cbn [bp_buffer bp_index].
  destruct (decide (buffer_of bs = buffer_of bs)); [reflexivity|contradiction].
Qed.

(** A pointer taken before a [push_back] is dangling after it. *)
Lemma deref_after_push_back bs b i : deref (bs ++ [b]) (ptr_to bs i) = None.
Proof.
  unfold deref, ptr_to, buffer_of. cbn [bp_buffer bp_index].
  rewrite length_app. cbn [length].
  destruct (decide (length bs = (length bs + 1)%nat)); [lia|reflexivity].
Qed.

Lemma createMemoryBlock_bind_spec lvnctx w t :
  exists blk w1,
    createMemoryBlock_bind lvnctx w t =
      (set_memoryPool lvnctx
         (set_memBindings
            (set_memBlocks (memoryPool lvnctx) t (blocks_of lvnctx t ++ [blk])) t
            (bindings_of lvnctx t ++
               [LvnMemoryBinding_new (LvnMemoryBlock_at blk 0)
                  (sti_size (blockMemAllocInfos lvnctx t))
                  (sti_count (blockMemAllocInfos lvnctx t))])),
       w1,
       match bindings_of lvnctx t with
       | [] => None
       | _ :: _ =>
           Some (ptr_to (bindings_of lvnctx t) (length (bindings_of lvnctx t) - 1))
       end).
Proof.
  unfold createMemoryBlock_bind, blocks_of, bindings_of.
  destruct (LvnMemoryBlock_new _ w) as [blk w1]. exists blk, w1. reflexivity.
Qed.

(** [createMemoryBlock] on a vector that holds a binding already: the
    link is written through the pointer taken before the [push_back],
    into the buffer the [push_back] released. *)
Lemma createMemoryBlock_dangling lvnctx w t b bs :
  bindings_of lvnctx t = b :: bs -> createMemoryBlock lvnctx w t = None.
Proof.
  intros Hbs. unfold createMemoryBlock.
  destruct (createMemoryBlock_bind_spec lvnctx w t) as (blk & w1 & ->).
  rewrite Hbs.
  cbn [memoryPool set_memoryPool memBindings set_memBindings].
  rewrite fn_lookup_insert. unfold write_through.
  rewrite deref_after_push_back. reflexivity.
Qed.

Section PoolInvariant.

(** One structure type [t]; its base binding lies at offset [o] of region
    [r], with elements of [es] bytes and room for [N] of them. *)
Variables (td : bool) (t : LvnStructureType) (r : nat) (o es N : Z).
Hypothesis es_pos : 0 < es.

Definition slot_ptr (i : Z) : Ptr := Addr r (o + i * es).

(** The base binding when the cursor is at [c] and the free-list is
    [fl]. *)
Definition base_binding (fl : list Z) (c : Z) : LvnMemoryBinding :=
  {| basePtr := Addr r o; elementSize := es; bnd_count := N;
     freeList := fl; cursor := c; next := None |}.

(** What holds of the pool of [t] and the list of live objects as long
    as the calls are defined: the base binding is the only one and no
    chained block exists; the slots the cursor has passed are the live
    objects and the free-list, each slot once. *)
Definition PoolInv (lvnctx : LvnContext) (live : list Ptr) : Prop :=
  memoryMode lvnctx = Lvn_MemAllocMode_MemPool /\
  blocks_of lvnctx t = [] /\
  objectMemoryAllocations lvnctx t = wrap64 (Z.of_nat (length live)) /\
  exists idxs fl c,
    bindings_of lvnctx t = [base_binding fl c] /\
    live = slot_ptr <$> idxs /\
    0 <= c <= N /\
    idxs ++ fl ≡ₚ seqZ 0 c.

Lemma slot_ptr_inj i j : slot_ptr i = slot_ptr j -> i = j.
Proof. unfold slot_ptr. intros H. injection H as H. nia. Qed.

Lemma slots_count idxs fl c :
  0 <= c -> idxs ++ fl ≡ₚ seqZ 0 c ->
  Z.of_nat (length idxs) + Z.of_nat (length fl) = c.
Proof.
  intros Hc H. apply Permutation_length in H.
  rewrite length_app, length_seqZ in H. lia.
Qed.

Lemma slots_range idxs fl c i :
  idxs ++ fl ≡ₚ seqZ 0 c -> i ∈ idxs ++ fl -> 0 <= i < c.
Proof. intros H Hi. rewrite H in Hi. apply elem_of_seqZ in Hi. lia. Qed.

Lemma slots_apart idxs fl c :
  idxs ++ fl ≡ₚ seqZ 0 c -> NoDup idxs /\ forall i, i ∈ idxs -> i ∉ fl.
Proof.
  intros H. assert (Hnd : NoDup (idxs ++ fl)) by (rewrite H; apply NoDup_seqZ).
  apply list.NoDup_app in Hnd as (H1 & H2 & _). auto.
Qed.

Lemma slot_index_live fl c i :
  0 <= i < c -> i ∉ fl -> slot_index (base_binding fl c) (slot_ptr i) = Some i.
Proof.
  intros Hi Hfl. unfold slot_index, slot_ptr, base_binding.
  cbn [basePtr elementSize cursor freeList].
  replace (o + i * es - o) with (i * es) by lia.
  rewrite Z.div_mul by lia.
  destruct (decide _) as [_|Hno]; [reflexivity|].
  exfalso. apply Hno. split; [reflexivity|]. split; [apply Z.mod_mul; lia|].
  split; [lia|exact Hfl].
Qed.

Lemma PoolInv_live lvnctx live :
  PoolInv lvnctx live -> Z.of_nat (length live) <= N /\ NoDup live.
Proof.
  intros (_ & _ & _ & idxs & fl & c & _ & -> & Hc & Hperm).
  pose proof (slots_count idxs fl c ltac:(lia) Hperm) as Hlen.
  rewrite length_fmap. split; [lia|].
  destruct (slots_apart idxs fl c Hperm) as (Hnd & _).
  apply NoDup_fmap_2; [|exact Hnd]. intros i j. apply slot_ptr_inj.
Qed.

(** [createObject] while the base binding has room: the slot comes from
    the base binding (the top of the free-list when there is one, else
    the slot at the cursor) and no block is created. *)
Lemma createObject_room lvnctx w live :
  PoolInv lvnctx live -> Z.of_nat (length live) < N ->
  exists p lvnctx' b0 b0',
    createObject lvnctx w t = Some (p, lvnctx', emit [EvConstruct p] w) /\
    PoolInv lvnctx' (live ++ [p]) /\
    bindings_of lvnctx t = [b0] /\ take_next b0 = Some (p, b0').
Proof.
  intros (Hmode & Hblk & Hcnt & idxs & fl & c & Hbs & -> & Hc & Hperm) Hlt.
  pose proof (slots_count idxs fl c ltac:(lia) Hperm) as Hlen.
  rewrite length_fmap in Hlt.
  assert (Hfree : has_free_slot (base_binding fl c) = true).
  { unfold has_free_slot. cbn [freeList base_binding cursor bnd_count].
    destruct fl; [|reflexivity]. cbn [length] in Hlen. apply Z.ltb_lt. lia. }
  assert (Htake : exists p b0',
    take_next (base_binding fl c) = Some (p, b0') /\
    exists idx fl' c', p = slot_ptr idx /\ b0' = base_binding fl' c' /\
      0 <= c' <= N /\ (idxs ++ [idx]) ++ fl' ≡ₚ seqZ 0 c').
  { unfold take_next. cbn [freeList base_binding cursor bnd_count basePtr
                           elementSize next set_freeList].
    destruct fl as [|idx rest].
    - cbn [length] in Hlen. destruct (Z.ltb_spec c N) as [Hcn|]; [|lia].
      eexists _, _. split; [reflexivity|].
      exists c, [], (c + 1). split; [reflexivity|]. split; [reflexivity|].
      split; [lia|]. rewrite !app_nil_r in *.
      replace (c + 1) with (Z.of_nat (S (Z.to_nat c))) by lia.
      rewrite seqZ_S, Z2Nat.id by lia. rewrite Hperm. reflexivity.
    - eexists _, _. split; [reflexivity|].
      exists idx, rest, c. split; [reflexivity|]. split; [reflexivity|].
      split; [lia|]. rewrite <- app_assoc. exact Hperm. }
  destruct Htake as (p & b0' & Htake & idx & fl' & c' & -> & -> & Hc' & Hperm').
  exists (slot_ptr idx), (count_up
              (set_memoryPool lvnctx
                 (set_memBindings (memoryPool lvnctx) t [base_binding fl' c'])) t),
    (base_binding fl c), (base_binding fl' c').
  split; [|split; [|split; [exact Hbs|exact Htake]]].
  - unfold createObject, createObject_pool. rewrite Hmode.
    fold (bindings_of lvnctx t). rewrite Hbs.
    cbn [length find_empty_memory_binding]. rewrite deref_ptr_to.
    cbn [lookup list_lookup mbind option_bind]. rewrite Hfree.
    cbn [mbind option_bind]. fold (bindings_of lvnctx t). rewrite Hbs.
    rewrite deref_ptr_to. cbn [lookup list_lookup mbind option_bind].
    rewrite Htake. reflexivity.
  - unfold PoolInv, bindings_of, blocks_of in *.
    cbn [count_up memoryMode memoryPool set_objectMemoryAllocations
         set_memoryPool set_memBindings memBlocks memBindings
         objectMemoryAllocations].
    rewrite !fn_lookup_insert. split; [exact Hmode|]. split; [exact Hblk|]. split.
    { rewrite Hcnt, wrap64_succ, length_app. cbn [length]. f_equal. lia. }
    exists (idxs ++ [idx]), fl', c'. split; [reflexivity|].
    split; [rewrite fmap_app; reflexivity|]. split; [exact Hc'|exact Hperm'].
Qed.

(** [createObject] when the base binding is full: the walk of
    [find_empty_memory_binding] ends in null and [createMemoryBlock] is
    called.  Its first part puts one block and its binding into the
    pool; the binding is not linked, and the pointer the link is to be
    written through points into the buffer the [push_back] released. *)
Lemma createObject_full lvnctx w live :
  PoolInv lvnctx live -> Z.of_nat (length live) = N ->
  find_empty_memory_binding (length (bindings_of lvnctx t)) (bindings_of lvnctx t)
    (ptr_to (bindings_of lvnctx t) 0) = Some None /\
  (exists c1 w1 prev blk b0 b1,
     createMemoryBlock_bind lvnctx w t = (c1, w1, Some prev) /\
     prev = ptr_to (bindings_of lvnctx t) 0 /\
     blocks_of c1 t = [blk] /\
     bindings_of c1 t = [b0; b1] /\
     bindings_of lvnctx t = [b0] /\
     basePtr b1 = LvnMemoryBlock_at blk 0 /\
     next b0 = None /\ next b1 = None /\
     deref (bindings_of c1 t) prev = None) /\
  createMemoryBlock lvnctx w t = None /\
  createObject lvnctx w t = None.
Proof.
  intros (Hmode & Hblk & Hcnt & idxs & fl & c & Hbs & -> & Hc & Hperm) Hfull.
  pose proof (slots_count idxs fl c ltac:(lia) Hperm) as Hlen.
  rewrite length_fmap in Hfull.
  assert (fl = []) as -> by (destruct fl; [reflexivity|cbn [length] in Hlen; lia]).
  cbn [length] in Hlen.
  assert (Hfree : has_free_slot (base_binding [] c) = false).
  { unfold has_free_slot. cbn [freeList base_binding cursor bnd_count].
    apply Z.ltb_ge. lia. }
  assert (Hfind : find_empty_memory_binding (length (bindings_of lvnctx t))
                    (bindings_of lvnctx t) (ptr_to (bindings_of lvnctx t) 0) =
                  Some None).
  { rewrite Hbs. cbn [length find_empty_memory_binding]. rewrite deref_ptr_to.
    cbn [lookup list_lookup mbind option_bind]. rewrite Hfree. reflexivity. }
  pose proof (createMemoryBlock_dangling lvnctx w t _ _ Hbs) as Hcmb.
  split; [exact Hfind|]. split; [|split; [exact Hcmb|]].
  - destruct (createMemoryBlock_bind_spec lvnctx w t) as (blk & w1 & Hbind).
    rewrite Hbs, Hblk in Hbind. cbn [length app] in Hbind.
    eexists _, w1, _, blk, _, _. split; [exact Hbind|].
    unfold bindings_of, blocks_of.
    cbn [memoryPool set_memoryPool memBindings set_memBindings memBlocks
         set_memBlocks].
    rewrite !fn_lookup_insert. fold (bindings_of lvnctx t). rewrite Hbs.
    repeat split.
  - unfold createObject, createObject_pool. rewrite Hmode.
    fold (bindings_of lvnctx t). rewrite Hfind.
    cbn [mbind option_bind]. rewrite Hcmb. reflexivity.
Qed.

(** [destroyObject] of a live object: its destructor runs, its slot goes
    on top of the free-list of the base binding, and the counter goes
    down by one. *)
Lemma destroyObject_step lvnctx w live k p :
  PoolInv lvnctx live -> live !! k = Some p ->
  exists lvnctx' b0 idx,
    destroyObject td lvnctx w p t = Some (lvnctx', destruct_object td p w) /\
    PoolInv lvnctx' (delete k live) /\
    bindings_of lvnctx t = [b0] /\
    p = ptr_add (basePtr b0) (idx * elementSize b0) /\
    bindings_of lvnctx' t = [set_freeList b0 (idx :: freeList b0)] /\
    blocks_of lvnctx' t = [] /\
    objectMemoryAllocations lvnctx' t =
      wrap64 (objectMemoryAllocations lvnctx t - 1) /\
    (forall t', t' <> t ->
       objectMemoryAllocations lvnctx' t' = objectMemoryAllocations lvnctx t').
Proof.
  intros (Hmode & Hblk & Hcnt & idxs & fl & c & Hbs & -> & Hc & Hperm) Hk.
  rewrite list_lookup_fmap in Hk.
  destruct (idxs !! k) as [i|] eqn:Hi; [|discriminate].
  cbn in Hk. injection Hk as <-.
  assert (Hin : i ∈ idxs) by (eapply list_elem_of_lookup_2; exact Hi).
  assert (Hrange : 0 <= i < c).
  { apply (slots_range idxs fl c i Hperm). apply elem_of_app. left. exact Hin. }
  destruct (slots_apart idxs fl c Hperm) as (_ & Hapart).
  pose proof (slot_index_live fl c i Hrange (Hapart i Hin)) as Hsi.
  exists (count_down
            (set_memoryPool lvnctx
               (set_memBindings (memoryPool lvnctx) t [base_binding (i :: fl) c])) t),
    (base_binding fl c), i.
  split; [|split; [|split; [exact Hbs|split; [reflexivity|]]]].
  - unfold destroyObject, push_back. rewrite Hmode.
    fold (bindings_of lvnctx t). rewrite Hbs.
    cbn [lookup list_lookup mbind option_bind]. rewrite Hsi. reflexivity.
  - unfold PoolInv, bindings_of, blocks_of in *.
    cbn [count_down memoryMode memoryPool set_objectMemoryAllocations
         set_memoryPool set_memBindings memBlocks memBindings
         objectMemoryAllocations].
    rewrite !fn_lookup_insert. split; [exact Hmode|]. split; [exact Hblk|]. split.
    { rewrite Hcnt, wrap64_pred, length_delete by (rewrite list_lookup_fmap, Hi; eauto).
      f_equal. pose proof (lookup_lt_Some _ _ _ Hi) as Hlt.
      rewrite length_fmap. lia. }
    exists (delete k idxs), (i :: fl), c. split; [reflexivity|].
    split; [rewrite list_fmap_delete; reflexivity|]. split; [exact Hc|].
    rewrite <- Hperm. rewrite (delete_Permutation idxs k i Hi) at 2.
    cbn [app]. symmetry. apply Permutation_middle.
  - unfold bindings_of, blocks_of in *.
    cbn [count_down memoryMode memoryPool set_objectMemoryAllocations
         set_memoryPool set_memBindings memBlocks memBindings
         objectMemoryAllocations].
    rewrite !fn_lookup_insert. split; [reflexivity|]. split; [exact Hblk|].
    split; [reflexivity|].
    intros t' Hne. rewrite fn_lookup_insert_ne by congruence. reflexivity.
Qed.

(** A step of the driver: the creation of an object beyond the [N]-th
    live one has no defined result, every other step has one. *)
Lemma pool_step_inv op lvnctx w live :
  PoolInv lvnctx live ->
  (op = Create /\ Z.of_nat (length live) = N /\
   pool_step td t op (lvnctx, w, live) = None) \/
  (exists lvnctx' w' live',
     pool_step td t op (lvnctx, w, live) = Some (lvnctx', w', live') /\
     PoolInv lvnctx' live').
Proof.
  intros Hinv. pose proof (PoolInv_live lvnctx live Hinv) as (Hle & _).
  destruct op as [|k]; cbn [pool_step].
  - destruct (Z.eq_dec (Z.of_nat (length live)) N) as [Hfull|Hroom].
    + left. destruct (createObject_full lvnctx w live Hinv Hfull) as (_ & _ & _ & ->).
      auto.
    + right. destruct (createObject_room lvnctx w live Hinv ltac:(lia))
        as (p & c' & _ & _ & -> & Hinv' & _). eauto.
  - right. destruct (live !! k) as [p|] eqn:Hk.
    + destruct (destroyObject_step lvnctx w live k p Hinv Hk)
        as (c' & _ & _ & -> & Hinv' & _). eauto.
    + eauto.
Qed.

Lemma pool_run_inv ops : forall lvnctx w live lvnctx' w' live',
  PoolInv lvnctx live ->
  pool_run td t ops (lvnctx, w, live) = Some (lvnctx', w', live') ->
  PoolInv lvnctx' live'.
Proof.
  induction ops as [|op ops IH]; intros lvnctx w live lvnctx' w' live' Hinv Hrun.
  - cbn in Hrun. injection Hrun as <- <- <-. exact Hinv.
  - cbn [pool_run] in Hrun.
    destruct (pool_step_inv op lvnctx w live Hinv)
      as [(_ & _ & Hnone)|(c1 & w1 & l1 & Hstep & Hinv1)].
    + rewrite Hnone in Hrun. discriminate.
    + rewrite Hstep in Hrun. exact (IH _ _ _ _ _ _ Hinv1 Hrun).
Qed.

Lemma fresh_pool_inv lvnctx :
  0 <= N -> fresh_pool lvnctx t (Addr r o) es N -> PoolInv lvnctx [].
Proof.
  intros HN (Hmode & Hbs & Hblk & Hcnt). unfold PoolInv, bindings_of, blocks_of.
  split; [exact Hmode|]. split; [exact Hblk|]. split; [exact Hcnt|].
  exists [], [], 0. rewrite Hbs. split; [reflexivity|]. split; [reflexivity|].
  split; [lia|reflexivity].
Qed.

(** The base binding fills up: [n] creations while there is room. *)
Lemma fill_run n : forall lvnctx w live,
  PoolInv lvnctx live -> Z.of_nat (length live + n) <= N ->
  exists lvnctx' w' live',
    pool_run td t (replicate n Create) (lvnctx, w, live) =
      Some (lvnctx', w', live') /\
    PoolInv lvnctx' live' /\ length live' = (length live + n)%nat.
Proof.
  induction n as [|n IH]; intros lvnctx w live Hinv Hle.
  - exists lvnctx, w, live. cbn. rewrite Nat.add_0_r. auto.
  - destruct (createObject_room lvnctx w live Hinv ltac:(lia))
      as (p & c1 & _ & _ & Hc & Hinv1 & _).
    destruct (IH c1 (emit [EvConstruct p] w) (live ++ [p]) Hinv1)
      as (c2 & w2 & l2 & Hr & Hinv2 & Hlen).
    { rewrite length_app. cbn [length]. lia. }
    exists c2, w2, l2. cbn [replicate pool_run pool_step]. rewrite Hc.
    split; [exact Hr|]. split; [exact Hinv2|].
    rewrite Hlen, length_app. cbn [length]. lia.
Qed.

Lemma no_link_unreachable b0 b1 :
  next b0 = None ->
  ~ reaches [b0; b1] (ptr_to [b0; b1] 0) (ptr_to [b0; b1] 1).
Proof.
  intros Hn Hr. inversion Hr as [p Hp|p q k b Hd Hq Hrest]; subst.
  rewrite deref_ptr_to in Hd. cbn in Hd. injection Hd as <-. congruence.
Qed.


(** C2, on the code.  On a pool as context creation leaves it, with a
    base binding of count [N] for the structure type: [N] calls of
    [createObject] return [N] distinct objects and create no block.  In
    the call that follows, the walk of [find_empty_memory_binding] ends
    in null and [createMemoryBlock] is called; it puts exactly one new
    block and its binding into the pool, and then writes the link
    through [prevMemBinding], a pointer into the buffer of
    [memBindings[t]] that its [push_back] has released; the reference
    [memBinding] that [createObject] goes on to use is this same
    pointer.  In the vector as it is then, the base binding has no link
    and walking [next] from it does not reach the new binding; and the
    call has no defined result. *)
Theorem chain_growth_link_dangles lvnctx w :
  0 <= N -> fresh_pool lvnctx t (Addr r o) es N ->
  exists cN wN liveN,
    pool_run td t (replicate (Z.to_nat N) Create) (lvnctx, w, []) =
      Some (cN, wN, liveN) /\
    length liveN = Z.to_nat N /\ NoDup liveN /\
    blocks_of cN t = [] /\
    find_empty_memory_binding (length (bindings_of cN t)) (bindings_of cN t)
      (ptr_to (bindings_of cN t) 0) = Some None /\
    (exists c1 w1 prev blk b0 b1,
       createMemoryBlock_bind cN wN t = (c1, w1, Some prev) /\
       prev = ptr_to (bindings_of cN t) 0 /\
       blocks_of c1 t = [blk] /\
       bindings_of c1 t = [b0; b1] /\
       basePtr b1 = LvnMemoryBlock_at blk 0 /\
       next b0 = None /\
       deref (bindings_of c1 t) prev = None /\
       ~ reaches (bindings_of c1 t)
           (ptr_to (bindings_of c1 t) 0) (ptr_to (bindings_of c1 t) 1)) /\
    createMemoryBlock cN wN t = None /\
    createObject cN wN t = None /\
    pool_run td t (replicate (S (Z.to_nat N)) Create) (lvnctx, w, []) = None.
Proof.
  intros HN Hfresh. pose proof (fresh_pool_inv lvnctx HN Hfresh) as Hinv0.
  destruct (fill_run (Z.to_nat N) lvnctx w [] Hinv0)
    as (cN & wN & liveN & Hrun & Hinv & Hlen); [cbn [length]; lia|].
  cbn [length] in Hlen. rewrite Nat.add_0_l in Hlen.
  destruct (createObject_full cN wN liveN Hinv ltac:(lia))
    as (Hfind & (c1 & w1 & prev & blk & b0 & b1 & Hbind & Hprev & Hblk1 & Hbs1 &
                 _ & Hbase & Hn0 & _ & Hderef) & Hcmb & Hco).
  exists cN, wN, liveN. split; [exact Hrun|]. split; [exact Hlen|].
  split; [apply (PoolInv_live cN liveN Hinv)|].
  split; [apply Hinv|]. split; [exact Hfind|]. split.
  { exists c1, w1, prev, blk, b0, b1. split; [exact Hbind|]. split; [exact Hprev|].
    split; [exact Hblk1|]. split; [exact Hbs1|]. split; [exact Hbase|].
    split; [exact Hn0|]. split; [exact Hderef|].
    rewrite Hbs1. apply no_link_unreachable. exact Hn0. }
  split; [exact Hcmb|]. split; [exact Hco|].
  rewrite replicate_S_end, pool_run_app, Hrun. cbn [pool_run pool_step].
  rewrite Hco. reflexivity.
Qed.

(** C3, on the code.  On a pool as context creation leaves it, with a
    base binding of count [N] for the structure type.  As far as a
    sequence of [createObject] and [destroyObject] calls is defined, no
    chained block exists, at most [N] objects are live, all distinct,
    and whichever live object is destroyed next, the [createObject] that
    follows returns that very object.  But the creation of an object
    beyond [N] live ones, the one that is to grow the chain, has no
    defined result, because [createMemoryBlock] has none: with [N = 2],
    [B1] and [B2] are created, the creation of [B3] is undefined, and
    with it the scenario. *)
Theorem pool_slot_reuse_until_growth lvnctx w :
  0 <= N -> fresh_pool lvnctx t (Addr r o) es N ->
  (forall ops c w' live,
     pool_run td t ops (lvnctx, w, []) = Some (c, w', live) ->
     blocks_of c t = [] /\ Z.of_nat (length live) <= N /\ NoDup live /\
     (forall k p, live !! k = Some p ->
        exists c1 w1 c2 w2,
          destroyObject td c w' p t = Some (c1, w1) /\
          createObject c1 w1 t = Some (p, c2, w2) /\
          blocks_of c2 t = []) /\
     (Z.of_nat (length live) = N ->
        createMemoryBlock c w' t = None /\ createObject c w' t = None)) /\
  (N = 2 ->
   exists c2 w2 B1 B2,
     pool_run td t [Create; Create] (lvnctx, w, []) = Some (c2, w2, [B1; B2]) /\
     B1 <> B2 /\
     createObject c2 w2 t = None /\
     pool_run td t [Create; Create; Create; Destroy 0; Create] (lvnctx, w, []) = None).
Proof.
  intros HN Hfresh. pose proof (fresh_pool_inv lvnctx HN Hfresh) as Hinv0.
  split.
  - intros ops c w' live Hrun.
    pose proof (pool_run_inv ops _ _ _ _ _ _ Hinv0 Hrun) as Hinv.
    destruct (PoolInv_live c live Hinv) as (Hle & Hnd).
    split; [apply Hinv|]. split; [exact Hle|]. split; [exact Hnd|]. split.
    + intros k p Hk.
      destruct (destroyObject_step c w' live k p Hinv Hk)
        as (c1 & b0 & idx & Hd & Hinv1 & _ & Hp & Hbs1 & _).
      assert (Hroom : Z.of_nat (length (delete k live)) < N).
      { pose proof (lookup_lt_Some _ _ _ Hk) as Hlt.
        rewrite length_delete by eauto. lia. }
      destruct (createObject_room c1 (destruct_object td p w') _ Hinv1 Hroom)
        as (q & c2 & b1 & b1' & Hc & Hinv2 & Hb1 & Htake).
      rewrite Hbs1 in Hb1. injection Hb1 as <-.
      unfold take_next in Htake. cbn [freeList set_freeList basePtr elementSize] in Htake.
      injection Htake as <- _.
      exists c1, (destruct_object td p w'), c2,
        (emit [EvConstruct p] (destruct_object td p w')).
      split; [exact Hd|]. rewrite <- Hp in Hc. split; [exact Hc|]. apply Hinv2.
    + intros Hfull.
      destruct (createObject_full c w' live Hinv Hfull) as (_ & _ & Hcmb & Hco).
      auto.
  - intros HN2.
    destruct (fill_run 2 lvnctx w [] Hinv0) as (c2 & w2 & l2 & Hrun & Hinv & Hlen);
      [cbn [length]; lia|].
    cbn [length] in Hlen. destruct l2 as [|B1 [|B2 [|B3 l2]]]; try discriminate.
    destruct (PoolInv_live c2 _ Hinv) as (_ & Hnd).
    destruct (createObject_full c2 w2 [B1; B2] Hinv ltac:(cbn [length]; lia))
      as (_ & _ & _ & Hco).
    exists c2, w2, B1, B2. cbn [replicate] in Hrun. split; [exact Hrun|]. split.
    { intros ->. apply list.NoDup_cons in Hnd as (Hnin & _). apply Hnin. left. }
    split; [exact Hco|].
    change [Create; Create; Create; Destroy 0; Create]
      with ([Create; Create] ++ [Create; Destroy 0; Create]).
    rewrite pool_run_app, Hrun. cbn [pool_run pool_step]. rewrite Hco. reflexivity.
Qed.

End PoolInvariant.

(** *** A context to run the pool on

    Every object struct is taken to be 64 bytes; the context [new] builds
    is all zero; the stages of [createContext] after the memory pool
    succeed and change nothing. *)

Definition demo_sizeof (t : LvnStructureType) : Z := 64.

Definition demo_new_context : LvnContext :=
  {| memoryMode := Lvn_MemAllocMode_Individual;
     sTypeMemAllocInfos := fun t => {| sti_sType := t; sti_size := 0; sti_count := 0 |};
     blockMemAllocInfos := fun t => {| sti_sType := t; sti_size := 0; sti_count := 0 |};
     memoryPool := {| baseMemoryBlock := {| blk_data := NullPtr; blk_size := 0 |};
                      memBlocks := fun _ => [];
                      memBindings := fun _ => [] |};
     objectMemoryAllocations := fun _ => 0;
     logging := false; enableCoreLogging := false;
     coreLogLevel := Lvn_LogLevel_None |}.

Definition demo_later (c : LvnContext) (w : World) : LvnResult * LvnContext * World :=
  (Lvn_Result_Success, c, w).

Definition demo_world : World :=
  {| nextRegion := 0; trace := []; logOutput := [] |}.

Definition demo_info (mode : LvnMemAllocMode)
    (bindings : list LvnMemoryBindingInfo) : LvnContextCreateInfo :=
  {| ci_enableLogging := true; ci_disableCoreLogging := false;
     ci_memAllocMode := mode;
     ci_pMemoryBindings := bindings;
     ci_pBlockMemoryBindings := [] |}.

Definition demo_create (mode : LvnMemAllocMode)
    (bindings : list LvnMemoryBindingInfo) : LvnResult * option LvnContext * World :=
  createContext demo_sizeof demo_new_context demo_later None
    (demo_info mode bindings) demo_world.

Definition demo_context (mode : LvnMemAllocMode)
    (bindings : list LvnMemoryBindingInfo) : LvnContext :=
  match demo_create mode bindings with
  | (_, Some c, _) => c
  | _ => demo_new_context
  end.

Definition demo_context_world (mode : LvnMemAllocMode)
    (bindings : list LvnMemoryBindingInfo) : World :=
  snd (demo_create mode bindings).

(** A pool whose base binding for buffers has a count of 2. *)
Definition buffer2 : list LvnMemoryBindingInfo :=
  [{| mbi_sType := Lvn_Stype_Buffer; mbi_count := 2 |}].

Lemma buffer2_fresh :
  fresh_pool (demo_context Lvn_MemAllocMode_MemPool buffer2) Lvn_Stype_Buffer
    (Addr 0 12288) 64 2.
Proof. repeat split. Qed.


Lemma chain_growth_link_dangles_witness :
  exists c2 w2 live2,
    pool_run false Lvn_Stype_Buffer (replicate (Z.to_nat 2) Create)
      (demo_context Lvn_MemAllocMode_MemPool buffer2,
       demo_context_world Lvn_MemAllocMode_MemPool buffer2, []) =
      Some (c2, w2, live2) /\
    length live2 = Z.to_nat 2 /\
    (exists c3 w3 prev blk b0 b1,
       createMemoryBlock_bind c2 w2 Lvn_Stype_Buffer = (c3, w3, Some prev) /\
       blocks_of c3 Lvn_Stype_Buffer = [blk] /\
       bindings_of c3 Lvn_Stype_Buffer = [b0; b1] /\
       next b0 = None /\
       deref (bindings_of c3 Lvn_Stype_Buffer) prev = None /\
       ~ reaches (bindings_of c3 Lvn_Stype_Buffer)
           (ptr_to (bindings_of c3 Lvn_Stype_Buffer) 0)
           (ptr_to (bindings_of c3 Lvn_Stype_Buffer) 1)) /\
    createObject c2 w2 Lvn_Stype_Buffer = None /\
    pool_run false Lvn_Stype_Buffer (replicate (S (Z.to_nat 2)) Create)
      (demo_context Lvn_MemAllocMode_MemPool buffer2,
       demo_context_world Lvn_MemAllocMode_MemPool buffer2, []) = None.
Proof.
  destruct (chain_growth_link_dangles false Lvn_Stype_Buffer 0 12288 64 2
              ltac:(lia)
              (demo_context Lvn_MemAllocMode_MemPool buffer2)
              (demo_context_world Lvn_MemAllocMode_MemPool buffer2)
              ltac:(lia) buffer2_fresh)
    as (c2 & w2 & l2 & Hrun & Hlen & _ & _ & _ &
        (c3 & w3 & prev & blk & b0 & b1 & Hbind & _ & Hblk & Hbs & _ & Hn & Hd & Hr) &
        _ & Hco & Hrun3).
  exists c2, w2, l2. split; [exact Hrun|]. split; [exact Hlen|]. split.
  { exists c3, w3, prev, blk, b0, b1. auto 10. }
  split; [exact Hco|exact Hrun3].
Defined.

Lemma pool_slot_reuse_until_growth_witness :
  exists c2 w2 B1 B2,
    pool_run false Lvn_Stype_Buffer [Create; Create]
      (demo_context Lvn_MemAllocMode_MemPool buffer2,
       demo_context_world Lvn_MemAllocMode_MemPool buffer2, []) =
      Some (c2, w2, [B1; B2]) /\
    B1 <> B2 /\
    createObject c2 w2 Lvn_Stype_Buffer = None /\
    pool_run false Lvn_Stype_Buffer [Create; Create; Create; Destroy 0; Create]
      (demo_context Lvn_MemAllocMode_MemPool buffer2,
       demo_context_world Lvn_MemAllocMode_MemPool buffer2, []) = None.
Proof.
  destruct (pool_slot_reuse_until_growth false Lvn_Stype_Buffer 0 12288 64 2
              ltac:(lia)
              (demo_context Lvn_MemAllocMode_MemPool buffer2)
              (demo_context_world Lvn_MemAllocMode_MemPool buffer2)
              ltac:(lia) buffer2_fresh) as (_ & H).
  exact (H eq_refl).
Defined.

(** A configuration whose second base binding has a count of 0. *)
Definition zero_count_bindings : list LvnMemoryBindingInfo :=
  [{| mbi_sType := Lvn_Stype_Buffer; mbi_count := 2 |};
   {| mbi_sType := Lvn_Stype_Shader; mbi_count := 0 |};
   {| mbi_sType := Lvn_Stype_Texture; mbi_count := 4 |}].

Lemma createContext_zero_count_binding_witness :
  exists lvnctx w',
    demo_create Lvn_MemAllocMode_MemPool zero_count_bindings =
      (Lvn_Result_Failure, Some lvnctx, w') /\
    logOutput w' =
      [{| lr_level := Lvn_LogLevel_Error; lr_fmt := mem_binding_error;
          lr_args := [1] |}] /\
    sti_count (sTypeMemAllocInfos lvnctx Lvn_Stype_Buffer) = 2 /\
    sti_count (sTypeMemAllocInfos lvnctx Lvn_Stype_Shader) = 32 /\
    sti_count (sTypeMemAllocInfos lvnctx Lvn_Stype_Texture) = 256.
Proof.
  destruct (createContext_zero_count_binding demo_sizeof demo_new_context
              demo_later (demo_info Lvn_MemAllocMode_MemPool zero_count_bindings)
              demo_world)
    as (k & lvnctx & w' & Hk & Hc & _ & Hlog & Hinfos & _).
  - reflexivity.
  - exists {| mbi_sType := Lvn_Stype_Shader; mbi_count := 0 |}.
    split; [|reflexivity]. right. left.
  - assert (k = 1%nat) as ->.
    { destruct Hk as ((b & Hb & Hz) & Hlt).
      destruct k as [|[|[|k]]]; cbn in Hb; try reflexivity; try discriminate.
      - injection Hb as <-. discriminate.
      - exfalso. apply (Hlt 1%nat {| mbi_sType := Lvn_Stype_Shader; mbi_count := 0 |});
          [lia|reflexivity|reflexivity]. }
    exists lvnctx, w'. split; [exact Hc|]. split; [apply Hlog; reflexivity|].
    rewrite Hinfos. repeat split.
Defined.

End Pool.

(** ** Loops over index ranges *)

(** [for (i = lo; i < lo + n; i++) s = body(i, s)] *)
Fixpoint for_range {S : Type} (lo n : nat) (body : nat -> S -> S) (s : S) : S :=
  match n with
  | O => s
  | Datatypes.S n' => for_range (Datatypes.S lo) n' body (body lo s)
  end.

(** [for (i = lo + n - 1; i >= lo; --i) s = body(i, s)] *)
Fixpoint for_down {S : Type} (lo n : nat) (body : nat -> S -> S) (s : S) : S :=
  match n with
  | O => s
  | Datatypes.S n' => for_down lo n' body (body (lo + n')%nat s)
  end.

(** A loop that writes [f i] to position [i], for each [i] of the range. *)
Lemma for_range_write_length {A} (f : nat -> A) n : forall lo (d : list A),
  length (for_range lo n (fun i d => <[i := f i]> d) d) = length d.
Proof.
  induction n as [|n IH]; intros lo d; [reflexivity|].
  cbn. rewrite IH, length_insert. reflexivity.
Qed.

Lemma for_range_write_lookup {A} (f : nat -> A) n : forall lo (d : list A) j,
  for_range lo n (fun i d => <[i := f i]> d) d !! j =
    if decide (lo <= j < lo + n /\ j < length d)%nat then Some (f j) else d !! j.
Proof.
  induction n as [|n IH]; intros lo d j.
  - cbn. destruct (decide _); [lia|reflexivity].
  - cbn [for_range]. rewrite IH, length_insert.
    destruct (decide (S lo <= j < S lo + n /\ j < length d)%nat) as [H|H].
    + destruct (decide _); [reflexivity|lia].
    + destruct (decide (j = lo)) as [->|Hne].
      * destruct (decide (lo <= lo < lo + S n /\ lo < length d)%nat) as [H'|H'].
        -- rewrite list_lookup_insert_eq by lia. reflexivity.
        -- rewrite list_insert_ge by lia. reflexivity.
      * rewrite list_lookup_insert_ne by congruence.
        destruct (decide _); [lia|reflexivity].
Qed.

(** ** [LvnVector]

    The buffer [m_Data] is a list of slots, one per allocated element; a
    slot holds [Some x] when an object [x] lives in it and [None] when it
    is raw or destructed storage.  Values are passed by value: an argument
    that is a reference into the vector's own buffer is outside the
    embedding. *)

Module Vector.

Section Vector.

Variable T : Type.

(** The value [T()] constructs. *)
Variable T_default : T.

(** [std::is_trivially_destructible_v<T>] *)
Variable trivially_destructible : bool.

Record LvnVector := {
  m_Data : list (option T);
  m_Size : nat;
  m_Capacity : nat
}.

(** [LvnVector()] *)
Definition empty : LvnVector :=
  {| m_Data := []; m_Size := 0; m_Capacity := 0 |}.

(** The object in slot [i], if there is one. *)
Definition slot (d : list (option T)) (i : nat) : option T :=
  match d !! i with
  | Some s => s
  | None => None
  end.

(** [destruct_at(&m_Data[i])]: nothing for a trivially destructible [T]. *)
Definition destruct_at (d : list (option T)) (i : nat) : list (option T) :=
  if trivially_destructible then d else <[i := None]> d.

(** [void reserve(size_t size)] *)
Definition reserve (size : nat) (v : LvnVector) : LvnVector :=
  if (size <=? m_Capacity v)%nat then v
  else
    let temp := replicate size None in
    let temp := for_range 0 (m_Size v)
                  (fun i temp => <[i := slot (m_Data v) i]> temp) temp in
    {| m_Data := temp; m_Size := m_Size v; m_Capacity := size |}.

(** [void resize(size_t size)] *)
Definition resize (size : nat) (v : LvnVector) : LvnVector :=
  if (m_Size v <? size)%nat then
    let v1 := reserve size v in
    {| m_Data := for_range (m_Size v1) (size - m_Size v1)
                   (fun i d => <[i := Some T_default]> d) (m_Data v1);
       m_Size := size; m_Capacity := m_Capacity v1 |}
  else
    {| m_Data := for_range size (m_Size v - size)
                   (fun i d => destruct_at d i) (m_Data v);
       m_Size := size; m_Capacity := m_Capacity v |}.

(** [void push_back(const T& value)] *)
Definition push_back (value : T) (v : LvnVector) : LvnVector :=
  let v1 := resize (m_Size v + 1) v in
  {| m_Data := <[(m_Size v1 - 1)%nat := Some value]> (m_Data v1);
     m_Size := m_Size v1; m_Capacity := m_Capacity v1 |}.

(** [void insert_index(size_t index, const T* data, size_t size)];
    [None] when the assertion [index <= m_Size] fails. *)
Definition insert_index_range (index : nat) (data : list T) (v : LvnVector)
    : option LvnVector :=
  let size := length data in
  if (size =? 0)%nat then Some v
  else if negb (index <=? m_Size v)%nat then None
  else
    let v1 := reserve (m_Size v + size) v in
    (* shift elements to the right *)
    let d1 := for_down index (m_Size v1 - index)
                (fun i d => destruct_at (<[(i + size)%nat := slot d i]> d) i)
                (m_Data v1) in
    (* construct new elements in place at index *)
    let d2 := for_range 0 size
                (fun i d => <[(index + i)%nat := data !! i]> d) d1 in
    Some {| m_Data := d2; m_Size := m_Size v1 + size;
            m_Capacity := m_Capacity v1 |}.

(** [void insert_index(size_t index, const T& value)] *)
Definition insert_index (index : nat) (value : T) (v : LvnVector)
    : option LvnVector :=
  if negb (index <=? m_Size v)%nat then None
  else insert_index_range index [value] v.

(** [void erase_index(size_t index)]; [None] when the assertion
    [index < m_Size] fails. *)
Definition erase_index (index : nat) (v : LvnVector) : option LvnVector :=
  if negb (index <? m_Size v)%nat then None
  else
    let aftIndex := (m_Size v - index - 1)%nat in
    let d :=
      if (aftIndex =? 0)%nat then m_Data v
      else
        let d1 := for_range (index + 1) (m_Size v - (index + 1))
                    (fun i d => <[(i - 1)%nat := slot d i]> d) (m_Data v) in
        destruct_at d1 (m_Size v - 1) in
    Some {| m_Data := d; m_Size := m_Size v - 1; m_Capacity := m_Capacity v |}.

(** [T& operator[](size_t i)]; [None] when the assertion [i < m_Size]
    fails or no object lives in the slot. *)
Definition at_index (v : LvnVector) (i : nat) : option T :=
  if (i <? m_Size v)%nat then slot (m_Data v) i else None.

(** What iterating the positions [0 .. size()) yields. *)
Definition elements (v : LvnVector) : list (option T) :=
  map (at_index v) (seq 0 (m_Size v)).

Inductive VecOp :=
| PushBack (value : T)
| InsertIndex (index : nat) (value : T)
| EraseIndex (index : nat).



(** The sequence of elements the operations produce, in the words of the
    specification: [push_back] appends, [insert_index] puts the element at
    the index and shifts the tail right, [erase_index] removes the element
    at the index and shifts the trailing elements left by one.  [None]
    when an index is out of range. *)
Definition spec_step (op : VecOp) (l : list T) : option (list T) :=
  match op with
  | PushBack value => Some (l ++ [value])
  | InsertIndex index value =>
      if (index <=? length l)%nat
      then Some (take index l ++ value :: drop index l)
      else None
  | EraseIndex index =>
      if (index <? length l)%nat
      then Some (take index l ++ drop (S index) l)
      else None
  end.

Fixpoint spec_run (ops : list VecOp) (l : list T) : option (list T) :=
  match ops with
  | [] => Some l
  | op :: ops' =>
      match spec_step op l with
      | Some l' => spec_run ops' l'
      | None => None
      end
  end.


(** *** The loops of [LvnVector] *)

Lemma destruct_at_length d i : length (destruct_at d i) = length d.
Proof. unfold destruct_at. destruct trivially_destructible; [reflexivity|apply length_insert]. Qed.

Lemma destruct_at_lookup_ne d i j : i <> j -> destruct_at d i !! j = d !! j.
Proof.
  intros H. unfold destruct_at. destruct trivially_destructible; [reflexivity|].
  apply list_lookup_insert_ne. exact H.
Qed.

Lemma slot_lookup d i x : d !! i = Some (Some x) -> slot d i = Some x.
Proof. unfold slot. intros ->. reflexivity. Qed.






(** *** The vector and the sequence it holds *)

(** [v] holds the sequence [l]: the first [size()] slots of the buffer hold
    the elements of [l], in order. *)
Definition Rep (v : LvnVector) (l : list T) : Prop :=
  m_Size v = length l /\
  length (m_Data v) = m_Capacity v /\
  (length l <= m_Capacity v)%nat /\
  forall j x, l !! j = Some x -> m_Data v !! j = Some (Some x).

Lemma Rep_empty : Rep empty [].
Proof.
  repeat split; cbn; auto. intros j x H. rewrite lookup_nil in H. discriminate.
Qed.

Lemma Rep_elements v l : Rep v l -> elements v = Some <$> l.
Proof.
  intros (Hs & Hlen & Hcap & Hel). unfold elements. apply list_eq. intros j.
  change (map (at_index v)) with (fmap (M:=list) (at_index v)).
  rewrite !list_lookup_fmap, Hs.
  destruct (decide (j < length l)%nat) as [Hlt|Hge].
  - rewrite lookup_seq_lt by lia. cbn.
    destruct (lookup_lt_is_Some_2 l j Hlt) as (x & Hx). rewrite Hx. cbn.
    unfold at_index. rewrite Hs. destruct (Nat.ltb_spec j (length l)); [|lia].
    f_equal. apply slot_lookup, Hel, Hx.
  - rewrite lookup_seq_ge by lia.
    rewrite (proj2 (lookup_ge_None l j)) by lia. reflexivity.
Qed.

Lemma reserve_Rep size v l :
  Rep v l -> Rep (reserve size v) l /\ (size <= m_Capacity (reserve size v))%nat
             /\ m_Size (reserve size v) = m_Size v.
Proof.
  intros (Hs & Hlen & Hcap & Hel). unfold reserve.
  destruct (Nat.leb_spec size (m_Capacity v)) as [Hle|Hgt].
  - split; [repeat split; assumption|]. split; [lia|reflexivity].
  - cbn. split; [|split; [lia|reflexivity]]. repeat split; cbn.
    + exact Hs.
    + rewrite for_range_write_length, length_replicate. reflexivity.
    + lia.
    + intros j x Hj. rewrite for_range_write_lookup, length_replicate.
      assert (j < length l)%nat by (apply lookup_lt_Some in Hj; exact Hj).
      destruct (decide _) as [_|Hn]; [|lia].
      f_equal. apply slot_lookup. apply Hel. exact Hj.
Qed.

Lemma push_back_Rep value v l :
  Rep v l -> Rep (push_back value v) (l ++ [value]).
Proof.
  intros HR. pose proof HR as (Hs & Hlen & Hcap & Hel).
  unfold push_back, resize.
  destruct (Nat.ltb_spec (m_Size v) (m_Size v + 1)) as [_|]; [|lia].
  destruct (reserve_Rep (m_Size v + 1) v l HR) as ((Hs1 & Hlen1 & Hcap1 & Hel1) & Hge & Hsz).
  set (v1 := reserve (m_Size v + 1) v) in *.
  cbn [m_Size m_Data m_Capacity].
  replace (m_Size v + 1 - 1)%nat with (length l) by lia.
  rewrite Hsz. replace (m_Size v + 1 - m_Size v)%nat with 1%nat by lia.
  cbn [for_range]. repeat split; cbn [m_Size m_Data m_Capacity].
  - rewrite length_app. cbn. lia.
  - rewrite !length_insert. exact Hlen1.
  - rewrite length_app. cbn. lia.
  - intros j x Hj. destruct (decide (j = length l)) as [->|Hne].
    + rewrite lookup_app_r in Hj by lia. rewrite Nat.sub_diag in Hj. cbn in Hj.
      injection Hj as ->. rewrite list_lookup_insert_eq; [reflexivity|].
      rewrite length_insert. lia.
    + assert (Hjl : (j < length l)%nat).
      { apply lookup_lt_Some in Hj. rewrite length_app in Hj. cbn in Hj. lia. }
      rewrite lookup_app_l in Hj by exact Hjl.
      rewrite list_lookup_insert_ne by congruence.
      rewrite list_lookup_insert_ne by lia. apply Hel1. exact Hj.
Qed.








End Vector.

End Vector.

(** ** [LvnHashMap]

    Keys are [size_t] values.  The element type is taken to be trivially
    destructible, so that [destruct()] and the destructor calls of
    [erase_recursive] do nothing.  An entry read outside the table is
    undefined behaviour, and a loop that never ends gives no result: the
    operations return [None] for both.  The walks along a chain and the
    probe for an empty slot touch each slot of the table at most once when
    they end at all, so they are run for at most [m_Capacity] steps. *)

Module HashMap.

(** [struct LvnHash]: the splitmix64 finalizer. *)
Definition LvnHash (k : Z) : Z :=
  let k := wrap64 (k + 0x9E3779B97F4A7C15) in
  let k := wrap64 (Z.lxor k (Z.shiftr k 30) * 0xBF58476D1CE4E5B9) in
  let k := wrap64 (Z.lxor k (Z.shiftr k 27) * 0x94D049BB133111EB) in
  Z.lxor k (Z.shiftr k 31).

Section HashMap.

Variable T : Type.

(** The value [T{}] constructs. *)
Variable T_default : T.

Record LvnHashEntry := {
  data : T;
  key : Z;
  nextIndex : nat;
  taken : bool;
  hasNext : bool
}.

Record LvnHashMap := {
  m_HashEntries : list LvnHashEntry;
  m_Size : nat;
  m_Capacity : nat
}.

(** [LvnHashMap()] *)
Definition empty : LvnHashMap :=
  {| m_HashEntries := []; m_Size := 0; m_Capacity := 0 |}.

(** An entry as [memNew<LvnHashEntry<K, T>>(size)] constructs it. *)
Definition new_entry : LvnHashEntry :=
  {| data := T_default; key := 0; nextIndex := 0; taken := false; hasNext := false |}.

Definition set_data (e : LvnHashEntry) (v : T) : LvnHashEntry :=
  {| data := v; key := key e; nextIndex := nextIndex e; taken := taken e;
     hasNext := hasNext e |}.

Definition set_link (e : LvnHashEntry) (n : nat) (h : bool) : LvnHashEntry :=
  {| data := data e; key := key e; nextIndex := n; taken := taken e;
     hasNext := h |}.

Definition set_entries (m : LvnHashMap) (es : list LvnHashEntry) : LvnHashMap :=
  {| m_HashEntries := es; m_Size := m_Size m; m_Capacity := m_Capacity m |}.

(** [m_Hasher.operator()(key) % m_Capacity] *)
Definition home (key : Z) (capacity : nat) : option nat :=
  if (capacity =? 0)%nat then None
  else Some (Z.to_nat (LvnHash key mod Z.of_nat capacity)).

(** The loop
    [while (entry->hasNext) { index = entry->nextIndex; entry = ...; if (entry->key == key) ... }]:
    [Some (i, true)] when the entry at [i] of the chain has the key,
    [Some (i, false)] when the chain ends at [i] without it. *)
Fixpoint find_in_chain (fuel : nat) (es : list LvnHashEntry) (k : Z)
    (index : nat) : option (nat * bool) :=
  match fuel with
  | O => None
  | S fuel' =>
      entry ← es !! index;
      if hasNext entry then
        let index' := nextIndex entry in
        entry' ← es !! index';
        if key entry' =? k then Some (index', true)
        else find_in_chain fuel' es k index'
      else Some (index, false)
  end.

(** The loop [while (findEntry->taken) { index = (index + 1) % m_Capacity; ... }] *)
Fixpoint find_free (fuel : nat) (es : list LvnHashEntry) (capacity : nat)
    (index : nat) : option nat :=
  match fuel with
  | O => None
  | S fuel' =>
      findEntry ← es !! index;
      if taken findEntry
      then find_free fuel' es capacity ((index + 1) mod capacity)%nat
      else Some index
  end.

(** [insert], after the check of the load factor. *)
Definition insert_entry (k : Z) (value : T) (m : LvnHashMap) : option LvnHashMap :=
  let es := m_HashEntries m in
  index ← home k (m_Capacity m);
  e ← es !! index;
  if taken e && (key e =? k) then
    Some (set_entries m (<[index := set_data e value]> es))
  else
    '(index, found) ← find_in_chain (m_Capacity m) es k index;
    entry ← es !! index;
    if (found : bool) then
      Some (set_entries m (<[index := set_data entry value]> es))
    else
      (* add a new entry if key still not found *)
      free ← find_free (m_Capacity m) es (m_Capacity m) index;
      findEntry ← es !! free;
      let es1 :=
        <[free := {| data := value; key := k; nextIndex := nextIndex findEntry;
                     taken := true; hasNext := hasNext findEntry |}]> es in
      entry' ← es1 !! index;
      let es2 :=
        if negb (key entry' =? k)
        then <[index := set_link entry' free true]> es1
        else es1 in
      Some {| m_HashEntries := es2; m_Size := m_Size m + 1;
              m_Capacity := m_Capacity m |}.

(** The second step of [reserve]: every taken entry of the old table is
    inserted into the new one. *)
Fixpoint rehash (ins : Z -> T -> LvnHashMap -> option LvnHashMap)
    (temp : list LvnHashEntry) (m : LvnHashMap) : option LvnHashMap :=
  match temp with
  | [] => Some m
  | e :: temp' =>
      m' ← (if taken e then ins (key e) (data e) m else Some m);
      rehash ins temp' m'
  end.

(** [void reserve(size_t size)], with the [insert] it calls as argument. *)
Definition reserve_with (ins : Z -> T -> LvnHashMap -> option LvnHashMap)
    (size : nat) (m : LvnHashMap) : option LvnHashMap :=
  if (size <=? m_Size m)%nat then Some m
  else
    rehash ins (m_HashEntries m)
      {| m_HashEntries := replicate size new_entry; m_Size := 0;
         m_Capacity := size |}.

(** [void insert(const K& key, const T& value)].  [insert] and [reserve]
    call one another; [fuel] bounds the depth of these calls. *)
Fixpoint insert (fuel : nat) (k : Z) (value : T) (m : LvnHashMap)
    : option LvnHashMap :=
  match fuel with
  | O => None
  | S fuel' =>
      m1 ← (if (m_Capacity m * 7 <=? m_Size m * 10)%nat
            then reserve_with (insert fuel')
                   (if (m_Capacity m =? 0)%nat then 8 else m_Capacity m * 2)%nat m
            else Some m);
      insert_entry k value m1
  end.

Definition reserve (fuel : nat) (size : nat) (m : LvnHashMap) : option LvnHashMap :=
  reserve_with (insert fuel) size m.

(** [bool erase_recursive(size_t index)] *)
Fixpoint erase_recursive (fuel : nat) (index : nat) (es : list LvnHashEntry)
    : option (bool * list LvnHashEntry) :=
  match fuel with
  | O => None
  | S fuel' =>
      e ← es !! index;
      if hasNext e then
        let nextIndex := nextIndex e in
        n ← es !! nextIndex;
        let es1 := <[index := n]> es in
        '(last, es2) ← erase_recursive fuel' nextIndex es1;
        if (last : bool) then
          e' ← es2 !! index;
          Some (false, <[index := set_link e' 0 false]> es2)
        else Some (false, es2)
      else
        Some (true,
              <[index := {| data := data e; key := 0; nextIndex := 0;
                            taken := false; hasNext := false |}]> es)
  end.

(** [void erase(const K& key)] *)
Definition erase (k : Z) (m : LvnHashMap) : option LvnHashMap :=
  if (m_Size m =? 0)%nat then Some m
  else
    let es := m_HashEntries m in
    index ← home k (m_Capacity m);
    e ← es !! index;
    if key e =? k then
      '(_, es') ← erase_recursive (m_Capacity m) index es;
      Some (set_entries m es')
    else
      '(index, found) ← find_in_chain (m_Capacity m) es k index;
      if (found : bool) then
        '(_, es') ← erase_recursive (m_Capacity m) index es;
        Some (set_entries m es')
      else Some m.

(** [bool contains(const K& key)] *)
Definition contains (k : Z) (m : LvnHashMap) : option bool :=
  if (m_Size m =? 0)%nat then Some false
  else
    let es := m_HashEntries m in
    index ← home k (m_Capacity m);
    e ← es !! index;
    if k =? key e then Some true
    else
      '(_, found) ← find_in_chain (m_Capacity m) es k index;
      Some found.

(** The search of [at], before it falls back on [insert]. *)
Definition lookup_entry (k : Z) (m : LvnHashMap) : option (option T) :=
  let es := m_HashEntries m in
  index ← home k (m_Capacity m);
  e ← es !! index;
  if taken e && (key e =? k) then Some (Some (data e))
  else
    '(index, found) ← find_in_chain (m_Capacity m) es k index;
    entry ← es !! index;
    Some (if (found : bool) then Some (data entry) else None).

(** [T& at(const K& key)]: the value found and the map afterwards.  [at]
    calls itself after the fallback [insert]; [fuel] bounds the depth. *)
Fixpoint at_key (fuel : nat) (k : Z) (m : LvnHashMap) : option (T * LvnHashMap) :=
  match fuel with
  | O => None
  | S fuel' =>
      m1 ← (if (m_Size m =? 0)%nat then insert (S fuel') k T_default m else Some m);
      r ← lookup_entry k m1;
      match r with
      | Some v => Some (v, m1)
      | None =>
          m2 ← insert (S fuel') k T_default m1;
          at_key fuel' k m2
      end
  end.

Inductive MapOp :=
| Insert (k : Z) (value : T)
| Erase (k : Z)
| At (k : Z).

Definition map_step (fuel : nat) (op : MapOp) (m : LvnHashMap) : option LvnHashMap :=
  match op with
  | Insert k value => insert fuel k value m
  | Erase k => erase k m
  | At k => snd <$> at_key fuel k m
  end.

Fixpoint map_run (fuel : nat) (ops : list MapOp) (m : LvnHashMap) : option LvnHashMap :=
  match ops with
  | [] => Some m
  | op :: ops' => m' ← map_step fuel op m; map_run fuel ops' m'
  end.

(** The number of entries of the table that are taken. *)
Fixpoint count_taken (es : list LvnHashEntry) : nat :=
  match es with
  | [] => 0
  | e :: es' => (if taken e then 1 else 0) + count_taken es'
  end.

(** *** Counting lemmas *)

Lemma count_taken_app es1 es2 :
  count_taken (es1 ++ es2) = (count_taken es1 + count_taken es2)%nat.
Proof. induction es1 as [|e es1 IH]; cbn; [reflexivity|]. rewrite IH. lia. Qed.

Lemma count_taken_insert es i e e' :
  es !! i = Some e ->
  (count_taken (<[i := e']> es) + (if taken e then 1 else 0) =
   count_taken es + (if taken e' then 1 else 0))%nat.
Proof.
  intros Hi. assert (Hlt : (i < length es)%nat) by (eapply lookup_lt_Some; eauto).
  rewrite insert_take_drop by exact Hlt.
  rewrite <- (take_drop_middle es i e Hi) at 3.
  rewrite !count_taken_app. cbn. lia.
Qed.

Lemma count_taken_le es : (count_taken es <= length es)%nat.
Proof. induction es as [|e es IH]; cbn; [lia|]. destruct (taken e); lia. Qed.

Lemma count_taken_replicate n : count_taken (replicate n new_entry) = 0%nat.
Proof. induction n as [|n IH]; [reflexivity|]. cbn. exact IH. Qed.

(** A table with fewer taken entries than slots has a slot that is not
    taken. *)
Lemma exists_not_taken es :
  (count_taken es < length es)%nat ->
  exists j e, es !! j = Some e /\ taken e = false.
Proof.
  induction es as [|e es IH]; cbn; [lia|]. intros H.
  destruct (taken e) eqn:Ht.
  - destruct IH as (j & e' & Hj & He'); [lia|]. exists (S j), e'. auto.
  - exists 0%nat, e. auto.
Qed.

(** The number of indices below [n] whose rank is below [b]. *)
Fixpoint count_below (r : nat -> nat) (b n : nat) : nat :=
  match n with
  | O => 0
  | S n' => (if (r n' <? b)%nat then 1 else 0) + count_below r b n'
  end.

Lemma count_below_mono r b b' n :
  (b <= b')%nat -> (count_below r b n <= count_below r b' n)%nat.
Proof.
  intros Hb. induction n as [|n IH]; cbn [count_below]; [lia|].
  destruct (Nat.ltb_spec (r n) b), (Nat.ltb_spec (r n) b'); lia.
Qed.

Lemma count_below_strict r b b' n x :
  (b <= b')%nat -> (x < n)%nat -> (b <= r x < b')%nat ->
  (count_below r b n < count_below r b' n)%nat.
Proof.
  intros Hb. induction n as [|n IH]; intros Hx Hr; [lia|]. cbn [count_below].
  pose proof (count_below_mono r b b' n Hb).
  destruct (decide (x = n)) as [->|Hne].
  - destruct (Nat.ltb_spec (r n) b), (Nat.ltb_spec (r n) b'); lia.
  - specialize (IH ltac:(lia) Hr).
    destruct (Nat.ltb_spec (r n) b), (Nat.ltb_spec (r n) b'); lia.
Qed.

Lemma count_below_le r b n : (count_below r b n <= n)%nat.
Proof.
  induction n as [|n IH]; cbn [count_below]; [lia|].
  destruct (r n <? b)%nat; lia.
Qed.

Lemma count_below_lt r n x :
  (x < n)%nat -> (count_below r (r x) n < n)%nat.
Proof.
  induction n as [|n IH]; intros Hx; [lia|]. cbn [count_below].
  destruct (decide (x = n)) as [->|Hne].
  - rewrite Nat.ltb_irrefl. pose proof (count_below_le r (r n) n). lia.
  - specialize (IH ltac:(lia)). destruct (r n <? r x)%nat; lia.
Qed.

(** *** Well-formed tables

    The links of a well-formed table stay inside the table, an entry that
    is not taken has no link, and the links decrease a rank [r], so that no
    chain runs in a circle. *)

Definition wf (r : nat -> nat) (es : list LvnHashEntry) (cap : nat) : Prop :=
  length es = cap /\
  (forall i e, es !! i = Some e -> hasNext e = true -> (nextIndex e < cap)%nat) /\
  (forall i e, es !! i = Some e -> taken e = false -> hasNext e = false) /\
  (forall i e, es !! i = Some e -> hasNext e = true -> (r (nextIndex e) < r i)%nat).

(** The walk of [find_in_chain] as a relation: from [i] it ends at [idx],
    having found the key there or not. *)
Inductive chain_to (es : list LvnHashEntry) (k : Z) : nat -> nat -> bool -> Prop :=
| chain_end i e :
    es !! i = Some e -> hasNext e = false -> chain_to es k i i false
| chain_hit i e e' :
    es !! i = Some e -> hasNext e = true ->
    es !! nextIndex e = Some e' -> key e' = k ->
    chain_to es k i (nextIndex e) true
| chain_hop i e e' idx found :
    es !! i = Some e -> hasNext e = true ->
    es !! nextIndex e = Some e' -> key e' <> k ->
    chain_to es k (nextIndex e) idx found ->
    chain_to es k i idx found.

Lemma find_in_chain_sound es k fuel : forall i idx found,
  find_in_chain fuel es k i = Some (idx, found) -> chain_to es k i idx found.
Proof.
  induction fuel as [|fuel IH]; intros i idx found H; [discriminate|].
  cbn in H. destruct (es !! i) as [e|] eqn:He; [|discriminate]. cbn in H.
  destruct (hasNext e) eqn:Hn.
  - destruct (es !! nextIndex e) as [e'|] eqn:He'; [|discriminate]. cbn in H.
    destruct (Z.eqb_spec (key e') k) as [Hk|Hk].
    + injection H as <- <-. eapply chain_hit; eauto.
    + eapply chain_hop; eauto.
  - injection H as <- <-. eapply chain_end; eauto.
Qed.

Lemma chain_to_det es k i idx found :
  chain_to es k i idx found ->
  forall idx' found', chain_to es k i idx' found' -> idx' = idx /\ found' = found.
Proof.
  induction 1 as [i e He Hn|i e e' He Hn He' Hk|i e e' idx found He Hn He' Hk Hc IH];
    intros idx' found' H'; inversion H'; simplify_eq; auto; congruence.
Qed.

(** Where a walk ends: at an entry of the table; with the key when it was
    found; at the end of the chain when not, and then the key is in no
    entry the walk hopped to. *)
Lemma chain_to_end es k i idx found :
  chain_to es k i idx found ->
  exists e, es !! idx = Some e /\
    (found = true -> key e = k) /\
    (found = false -> hasNext e = false /\ (idx <> i -> key e <> k)).
Proof.
  induction 1 as [i e He Hn|i e e' He Hn He' Hk|i e e' idx found He Hn He' Hk Hc IH].
  - exists e. split; [exact He|]. split; [discriminate|]. auto.
  - exists e'. split; [exact He'|]. split; [auto|discriminate].
  - destruct IH as (e1 & He1 & Ht & Hf). exists e1. split; [exact He1|].
    split; [exact Ht|].
    intros Hfound. destruct (Hf Hfound) as (H1 & H2). split; [exact H1|].
    intros _. destruct (decide (idx = nextIndex e)) as [->|Hne].
    + congruence.
    + auto.
Qed.

Lemma find_in_chain_total r es cap k :
  wf r es cap ->
  forall fuel i, (i < cap)%nat -> (count_below r (r i) cap < fuel)%nat ->
  exists idx found, find_in_chain fuel es k i = Some (idx, found) /\ (idx < cap)%nat.
Proof.
  intros (Hlen & Hrange & Hfree & Hrank).
  induction fuel as [|fuel IH]; intros i Hi Hf; [lia|].
  cbn. destruct (lookup_lt_is_Some_2 es i) as (e & He); [lia|].
  rewrite He. cbn. destruct (hasNext e) eqn:Hn; [|eauto].
  pose proof (Hrange i e He Hn) as Hni. pose proof (Hrank i e He Hn) as Hr.
  destruct (lookup_lt_is_Some_2 es (nextIndex e)) as (e' & He'); [lia|].
  rewrite He'. cbn. destruct (key e' =? k); [eauto|].
  apply IH; [exact Hni|].
  pose proof (count_below_strict r (r (nextIndex e)) (r i) cap (nextIndex e)). lia.
Qed.

Lemma mod_reach i j cap :
  (i < cap)%nat -> (j < cap)%nat ->
  ((i + (j + cap - i) mod cap) mod cap = j)%nat.
Proof.
  intros Hi Hj. rewrite Nat.Div0.add_mod_idemp_r.
  replace (i + (j + cap - i))%nat with (j + 1 * cap)%nat by lia.
  rewrite Nat.Div0.mod_add. apply Nat.mod_small. exact Hj.
Qed.

Lemma find_free_reach es cap : length es = cap ->
  forall d fuel i, (d < fuel)%nat -> (i < cap)%nat ->
  (exists e, es !! ((i + d) mod cap)%nat = Some e /\ taken e = false) ->
  exists f e, find_free fuel es cap i = Some f /\ (f < cap)%nat /\
    es !! f = Some e /\ taken e = false /\
    (f <> i -> exists e0, es !! i = Some e0 /\ taken e0 = true).
Proof.
  intros Hlen. induction d as [|d IH]; intros fuel i Hd Hi (e & He & Ht).
  - rewrite Nat.add_0_r, Nat.mod_small in He by exact Hi.
    destruct fuel as [|fuel]; [lia|]. cbn. rewrite He. cbn. rewrite Ht.
    exists i, e. repeat split; auto. congruence.
  - destruct fuel as [|fuel]; [lia|]. cbn.
    destruct (lookup_lt_is_Some_2 es i) as (e0 & He0); [lia|].
    rewrite He0. cbn. destruct (taken e0) eqn:Ht0.
    + destruct (IH fuel ((i + 1) mod cap)%nat) as (f & e1 & Hf & Hfc & He1 & Ht1 & _).
      * lia.
      * apply Nat.mod_upper_bound. lia.
      * exists e. split; [|exact Ht].
        rewrite Nat.Div0.add_mod_idemp_l.
        replace (i + 1 + d)%nat with (i + S d)%nat by lia. exact He.
      * exists f, e1. repeat split; eauto.
    + exists i, e0. repeat split; auto. congruence.
Qed.

Lemma find_free_total es cap i :
  length es = cap -> (count_taken es < cap)%nat -> (i < cap)%nat ->
  exists f e, find_free cap es cap i = Some f /\ (f < cap)%nat /\
    es !! f = Some e /\ taken e = false /\
    (f <> i -> exists e0, es !! i = Some e0 /\ taken e0 = true).
Proof.
  intros Hlen Hcount Hi.
  destruct (exists_not_taken es) as (j & e & Hj & Ht); [lia|].
  assert (Hjc : (j < cap)%nat) by (rewrite <- Hlen; eapply lookup_lt_Some; eauto).
  apply (find_free_reach es cap Hlen ((j + cap - i) mod cap)%nat cap i).
  - apply Nat.mod_upper_bound. lia.
  - exact Hi.
  - exists e. rewrite mod_reach by assumption. auto.
Qed.

Lemma wf_insert_same_links r es cap i e e' :
  wf r es cap -> es !! i = Some e ->
  nextIndex e' = nextIndex e -> hasNext e' = hasNext e ->
  (taken e' = false -> hasNext e' = false) ->
  wf r (<[i := e']> es) cap.
Proof.
  intros (Hlen & Hrange & Hfree & Hrank) Hi Hni Hhn Hfr.
  split; [rewrite length_insert; exact Hlen|].
  split; [|split]; intros j x Hj; destruct (decide (i = j)) as [->|Hne];
    try (rewrite list_lookup_insert_ne in Hj by exact Hne; eauto; fail);
    rewrite list_lookup_insert_eq in Hj by (eapply lookup_lt_Some; eauto);
    injection Hj as <-.
  - rewrite Hni, Hhn. exact (Hrange j e Hi).
  - exact Hfr.
  - rewrite Hni, Hhn. exact (Hrank j e Hi).
Qed.

Lemma wf_insert_unlinked r es cap i e' :
  wf r es cap -> hasNext e' = false -> wf r (<[i := e']> es) cap.
Proof.
  intros (Hlen & Hrange & Hfree & Hrank) Hhn.
  split; [rewrite length_insert; exact Hlen|].
  split; [|split]; intros j x Hj; destruct (decide (i = j)) as [->|Hne];
    try (rewrite list_lookup_insert_ne in Hj by exact Hne; eauto; fail);
    (destruct (decide (j < length es)%nat);
     [rewrite list_lookup_insert_eq in Hj by assumption; injection Hj as <-
     |rewrite list_insert_ge in Hj by lia; eauto]); congruence.
Qed.

(** [erase_recursive] on a well-formed table ends, leaves the table
    well-formed, and takes the entry at [index] out of the count of taken
    entries. *)
Lemma erase_recursive_spec r cap : forall fuel index es e,
  wf r es cap -> es !! index = Some e ->
  (count_below r (r index) cap < fuel)%nat ->
  exists last es',
    erase_recursive fuel index es = Some (last, es') /\
    wf r es' cap /\
    (count_taken es' + (if taken e then 1 else 0) = count_taken es)%nat.
Proof.
  induction fuel as [|fuel IH]; intros index es e Hwf He Hf; [lia|].
  pose proof Hwf as (Hlen & Hrange & Hfree & Hrank).
  assert (Hi : (index < cap)%nat) by (rewrite <- Hlen; eapply lookup_lt_Some; eauto).
  cbn. rewrite He. cbn. destruct (hasNext e) eqn:Hn.
  - pose proof (Hrange index e He Hn) as Hni. pose proof (Hrank index e He Hn) as Hr.
    destruct (lookup_lt_is_Some_2 es (nextIndex e)) as (n & Hne); [lia|].
    rewrite Hne. cbn.
    assert (Hneq : index <> nextIndex e) by (intros E; rewrite <- E in Hr; lia).
    set (es1 := <[index := n]> es).
    assert (Hwf1 : wf r es1 cap).
    { split; [unfold es1; rewrite length_insert; exact Hlen|].
      split; [|split]; intros j x Hj; unfold es1 in Hj;
        (destruct (decide (index = j)) as [<-|Hnj];
         [rewrite list_lookup_insert_eq in Hj by lia; injection Hj as <-
         |rewrite list_lookup_insert_ne in Hj by exact Hnj; eauto]).
      - eapply Hrange; eauto.
      - eapply Hfree; eauto.
      - intros Hnn. pose proof (Hrank _ _ Hne Hnn). lia. }
    assert (Hne1 : es1 !! nextIndex e = Some n).
    { unfold es1. rewrite list_lookup_insert_ne by exact Hneq. exact Hne. }
    destruct (IH (nextIndex e) es1 n Hwf1 Hne1) as (last & es2 & Hrec & Hwf2 & Hc2).
    { pose proof (count_below_strict r (r (nextIndex e)) (r index) cap (nextIndex e)). lia. }
    rewrite Hrec. cbn.
    pose proof (count_taken_insert es index e n He) as Hc1. fold es1 in Hc1.
    destruct last.
    + destruct Hwf2 as (Hlen2 & Hwf2').
      destruct (lookup_lt_is_Some_2 es2 index) as (e' & He'); [lia|].
      rewrite He'. cbn. eexists _, _. split; [reflexivity|]. split.
      * apply wf_insert_unlinked; [split; assumption|reflexivity].
      * pose proof (count_taken_insert es2 index e' (set_link e' 0 false) He') as Hc3.
        cbn in Hc3. lia.
    + eexists _, _. split; [reflexivity|]. split; [exact Hwf2|]. lia.
  - eexists _, _. split; [reflexivity|]. split.
    + apply wf_insert_unlinked; [exact Hwf|reflexivity].
    + pose proof (count_taken_insert es index e
                    {| data := data e; key := 0; nextIndex := 0;
                       taken := false; hasNext := false |} He) as Hc.
      cbn in Hc. lia.
Qed.

(** Writing the data of an entry does not change any walk. *)
Lemma chain_to_set_data es k j ej v i idx found :
  es !! j = Some ej ->
  chain_to es k i idx found ->
  chain_to (<[j := set_data ej v]> es) k i idx found.
Proof.
  intros Hj.
  assert (Hlk : forall a e, es !! a = Some e ->
            exists e1, <[j := set_data ej v]> es !! a = Some e1 /\
                       key e1 = key e /\ nextIndex e1 = nextIndex e /\
                       hasNext e1 = hasNext e).
  { intros a e Ha. destruct (decide (j = a)) as [->|Hne].
    - rewrite list_lookup_insert_eq by (eapply lookup_lt_Some; eauto).
      exists (set_data ej v). rewrite Hj in Ha. injection Ha as <-. auto.
    - rewrite list_lookup_insert_ne by exact Hne. eauto. }
  induction 1 as [i e He Hn|i e e' He Hn He' Hk|i e e' idx found He Hn He' Hk Hc IH].
  - destruct (Hlk i e He) as (e1 & H1 & _ & _ & Hh). eapply chain_end; eauto; congruence.
  - destruct (Hlk i e He) as (e1 & H1 & _ & Hni & Hh).
    destruct (Hlk _ e' He') as (e2 & H2 & Hk2 & _).
    rewrite <- Hni.
    eapply (chain_hit _ _ i e1 e2);
      [exact H1|congruence|rewrite Hni; exact H2|congruence].
  - destruct (Hlk i e He) as (e1 & H1 & _ & Hni & Hh).
    destruct (Hlk _ e' He') as (e2 & H2 & Hk2 & _).
    eapply (chain_hop _ _ i e1 e2);
      [exact H1|congruence|rewrite Hni; exact H2|congruence
      |rewrite Hni; exact IH].
Qed.

(** After a new entry with the key has been put into the free slot [f]
    and linked behind the end [idx] of the chain, the walk finds the key
    at [f]. *)
Lemma chain_to_new es es2 k f ef nf :
  es !! f = Some ef -> hasNext ef = false ->
  es2 !! f = Some nf -> key nf = k ->
  forall i idx found, chain_to es k i idx found -> found = false -> i <> f ->
    (idx <> f -> exists e, es !! idx = Some e /\ es2 !! idx = Some (set_link e f true)) ->
    (forall j, j <> f -> j <> idx -> es2 !! j = es !! j) ->
    chain_to es2 k i f true.
Proof.
  intros Hf Hfn Hf2 Hk2.
  induction 1 as [i e He Hn|i e e' He Hn He' Hk|i e e' idx found He Hn He' Hk Hc IH];
    intros Hfound Hif Hidx Hother; [|discriminate|].
  - destruct (Hidx Hif) as (e0 & He0 & He2). rewrite He in He0. injection He0 as <-.
    change f with (nextIndex (set_link e f true)).
    eapply chain_hit; eauto.
  - subst found.
    destruct (chain_to_end es k _ _ _ Hc) as (eidx & Heidx & _ & Hend).
    destruct (Hend eq_refl) as (Hnidx & _).
    assert (Hii : i <> idx) by (intros ->; congruence).
    assert (He2 : es2 !! i = Some e) by (rewrite Hother; auto).
    destruct (decide (nextIndex e = f)) as [Hnf|Hnf].
    + rewrite <- Hnf. eapply chain_hit; eauto. rewrite Hnf. exact Hf2.
    + destruct (decide (nextIndex e = idx)) as [Hni|Hni].
      * destruct Hidx as (e0 & He0 & He02); [congruence|].
        rewrite Hni in He'. rewrite He' in He0. injection He0 as <-.
        eapply chain_hop; [exact He2|exact Hn| | |apply IH; auto].
        -- rewrite Hni. exact He02.
        -- exact Hk.
        -- intros _. eauto.
      * eapply chain_hop; [exact He2|exact Hn| | |apply IH; auto].
        -- rewrite Hother by assumption. exact He'.
        -- exact Hk.
Qed.

Lemma home_lt k cap h : home k cap = Some h -> (h < cap)%nat.
Proof.
  unfold home. destruct (Nat.eqb_spec cap 0); [discriminate|]. intros [= <-].
  pose proof (Z.mod_pos_bound (LvnHash k) (Z.of_nat cap)). lia.
Qed.

Lemma home_total k cap : cap <> 0%nat -> exists h, home k cap = Some h.
Proof. unfold home. destruct (Nat.eqb_spec cap 0); [contradiction|eauto]. Qed.

(** The entry [insert] writes into the free slot. *)
Definition filled_entry (k : Z) (value : T) (findEntry : LvnHashEntry) : LvnHashEntry :=
  {| data := value; key := k; nextIndex := nextIndex findEntry;
     taken := true; hasNext := hasNext findEntry |}.

(** The rank after slot [f] has been filled: [f] is below everything. *)
Definition rank_below (r : nat -> nat) (f : nat) : nat -> nat :=
  fun x => if decide (x = f) then 0%nat else S (r x).

Lemma wf_filled r es cap f ef k v :
  wf r es cap -> es !! f = Some ef -> taken ef = false ->
  wf (rank_below r f) (<[f := filled_entry k v ef]> es) cap.
Proof.
  intros (Hlen & Hrange & Hfree & Hrank) Hf Ht.
  pose proof (Hfree f ef Hf Ht) as Hhn.
  assert (Hfl : (f < length es)%nat) by (eapply lookup_lt_Some; eauto).
  split; [rewrite length_insert; exact Hlen|].
  split; [|split]; intros j x Hj;
    (destruct (decide (f = j)) as [<-|Hne];
     [rewrite list_lookup_insert_eq in Hj by exact Hfl; injection Hj as <-; cbn;
      congruence
     |rewrite list_lookup_insert_ne in Hj by exact Hne]).
  - eauto.
  - eauto.
  - intros Hx. pose proof (Hrank j x Hj Hx). unfold rank_below.
    destruct (decide (j = f)); [congruence|].
    destruct (decide (nextIndex x = f)); lia.
Qed.

Lemma wf_link r es cap idx e f :
  wf r es cap -> es !! idx = Some e -> taken e = true ->
  (f < cap)%nat -> (r f < r idx)%nat ->
  wf r (<[idx := set_link e f true]> es) cap.
Proof.
  intros (Hlen & Hrange & Hfree & Hrank) Hi Ht Hf Hr.
  assert (Hil : (idx < length es)%nat) by (eapply lookup_lt_Some; eauto).
  split; [rewrite length_insert; exact Hlen|].
  split; [|split]; intros j x Hj;
    (destruct (decide (idx = j)) as [<-|Hne];
     [rewrite list_lookup_insert_eq in Hj by exact Hil; injection Hj as <-; cbn
     |rewrite list_lookup_insert_ne in Hj by exact Hne; eauto]).
  - intros _. exact Hf.
  - congruence.
  - intros _. exact Hr.
Qed.

Lemma count_taken_pos es i e :
  es !! i = Some e -> taken e = true -> (0 < count_taken es)%nat.
Proof.
  intros Hi Ht. pose proof (count_taken_insert es i e e Hi) as H.
  rewrite <- (take_drop_middle es i e Hi). rewrite count_taken_app. cbn.
  rewrite Ht. lia.
Qed.

Lemma chain_to_found_start es k i idx :
  chain_to es k i idx true -> exists e, es !! i = Some e /\ hasNext e = true.
Proof. inversion 1; eauto. Qed.

(** [insert], past the check of the load factor, on a well-formed table
    with a slot that is not taken: it ends, the table stays well-formed,
    the size goes up by one exactly when one more entry is taken, and the
    search of [at] finds the value under the key afterwards. *)
Lemma insert_entry_spec r m k v :
  wf r (m_HashEntries m) (m_Capacity m) ->
  (count_taken (m_HashEntries m) < m_Capacity m)%nat ->
  (count_taken (m_HashEntries m) <= m_Size m)%nat ->
  exists r' m',
    insert_entry k v m = Some m' /\
    wf r' (m_HashEntries m') (m_Capacity m') /\
    m_Capacity m' = m_Capacity m /\
    (m_Size m <= m_Size m' <= m_Size m + 1)%nat /\
    (count_taken (m_HashEntries m') + m_Size m =
     count_taken (m_HashEntries m) + m_Size m')%nat /\
    lookup_entry k m' = Some (Some v) /\
    (0 < m_Size m')%nat.
Proof.
  intros Hwf Hcount Hcs. pose proof Hwf as (Hlen & Hrange & Hfree & Hrank).
  destruct m as [es size cap]. cbn [m_HashEntries m_Size m_Capacity] in *.
  destruct (home_total k cap) as (h & Hh); [lia|].
  pose proof (home_lt k cap h Hh) as Hhc.
  destruct (lookup_lt_is_Some_2 es h) as (eh & Heh); [lia|].
  unfold insert_entry. cbn [m_HashEntries m_Size m_Capacity].
  rewrite Hh. cbn. rewrite Heh. cbn.
  destruct (taken eh && (key eh =? k)) eqn:Hhit.
  - (* the home slot holds the key *)
    exists r. eexists. split; [reflexivity|]. cbn.
    split; [|split; [reflexivity|split; [lia|split; [|split]]]].
    + eapply wf_insert_same_links; eauto. apply (Hfree h eh Heh).
    + pose proof (count_taken_insert es h eh (set_data eh v) Heh) as Hc.
      cbn in Hc. lia.
    + unfold lookup_entry. cbn. rewrite Hh. cbn.
      rewrite list_lookup_insert_eq by lia. cbn. rewrite Hhit. reflexivity.
    + apply andb_true_iff in Hhit as (Hth & _).
      pose proof (count_taken_pos es h eh Heh Hth). lia.
  - destruct (find_in_chain_total r es cap k Hwf cap h Hhc) as (idx & found & Hwalk & Hic).
    { apply count_below_lt. exact Hhc. }
    rewrite Hwalk. cbn.
    pose proof (find_in_chain_sound es k cap h idx found Hwalk) as Hchain.
    destruct (chain_to_end es k h idx found Hchain) as (eidx & Heidx & Hfound & Hnot).
    rewrite Heidx. cbn. destruct found.
    + (* an entry of the chain holds the key *)
      exists r. eexists. split; [reflexivity|]. cbn.
      assert (Hwf' : wf r (<[idx := set_data eidx v]> es) cap).
      { eapply wf_insert_same_links; eauto. apply (Hfree idx eidx Heidx). }
      assert (Hpos : (0 < size)%nat).
      { destruct (chain_to_found_start es k h idx Hchain) as (e0 & He0 & Hn0).
        rewrite Heh in He0. injection He0 as <-.
        assert (Hth : taken eh = true).
        { destruct (taken eh) eqn:E; [reflexivity|].
          rewrite (Hfree h eh Heh E) in Hn0. discriminate. }
        pose proof (count_taken_pos es h eh Heh Hth). lia. }
      split; [exact Hwf'|]. split; [reflexivity|]. split; [lia|].
      split; [|split; [|exact Hpos]].
      * pose proof (count_taken_insert es idx eidx (set_data eidx v) Heidx) as Hc.
        cbn in Hc. lia.
      * unfold lookup_entry. cbn. rewrite Hh. cbn.
        assert (Hh' : exists eh', <[idx := set_data eidx v]> es !! h = Some eh' /\
                        taken eh' = taken eh /\ key eh' = key eh).
        { destruct (decide (idx = h)) as [->|Hne].
          - rewrite list_lookup_insert_eq by lia. rewrite Heh in Heidx.
            injection Heidx as <-. eauto.
          - rewrite list_lookup_insert_ne by exact Hne. eauto. }
        destruct Hh' as (eh' & Heh' & Ht' & Hk'). rewrite Heh'. cbn.
        rewrite Ht', Hk', Hhit.
        destruct (find_in_chain_total r _ cap k Hwf' cap h Hhc) as (x & b & Hw' & _).
        { apply count_below_lt. exact Hhc. }
        rewrite Hw'. cbn.
        pose proof (find_in_chain_sound _ k cap h x b Hw') as Hc'.
        pose proof (chain_to_set_data es k idx eidx v h idx true Heidx Hchain) as Hc2.
        destruct (chain_to_det _ _ _ _ _ Hc2 _ _ Hc') as (-> & ->).
        rewrite list_lookup_insert_eq by lia. reflexivity.
    + (* a new entry *)
      destruct (Hnot eq_refl) as (Hnidx & Hkidx).
      destruct (find_free_total es cap idx Hlen Hcount Hic)
        as (f & ef & Hff & Hfc & Hef & Htf & Hfi).
      rewrite Hff. cbn. rewrite Hef. cbn.
      fold (filled_entry k v ef).
      pose proof (wf_filled r es cap f ef k v Hwf Hef Htf) as Hwf1.
      pose proof (count_taken_insert es f ef (filled_entry k v ef) Hef) as Hc1.
      rewrite Htf in Hc1. cbn in Hc1.
      set (es1 := <[f := filled_entry k v ef]> es) in *.
      assert (Hf1 : es1 !! f = Some (filled_entry k v ef)).
      { unfold es1. apply list_lookup_insert_eq. lia. }
      assert (Hlook : forall es2,
        es2 !! f = Some (filled_entry k v ef) ->
        (idx <> f -> es2 !! idx = Some (set_link eidx f true)) ->
        (forall j, j <> f -> j <> idx -> es2 !! j = es !! j) ->
        wf (rank_below r f) es2 cap ->
        lookup_entry k {| m_HashEntries := es2; m_Size := size + 1; m_Capacity := cap |}
          = Some (Some v)).
      { intros es2 H2f H2i H2o Hwf2. unfold lookup_entry. cbn. rewrite Hh. cbn.
        destruct (decide (h = f)) as [->|Hhf].
        - rewrite H2f. cbn. rewrite Z.eqb_refl. reflexivity.
        - assert (Hh2 : exists eh', es2 !! h = Some eh' /\
                          taken eh' = taken eh /\ key eh' = key eh).
          { destruct (decide (h = idx)) as [->|Hhi].
            - rewrite H2i by exact Hhf. rewrite Heh in Heidx.
              injection Heidx as <-. eauto.
            - rewrite H2o by assumption. eauto. }
          destruct Hh2 as (eh' & Heh' & Ht' & Hk'). rewrite Heh'. cbn.
          rewrite Ht', Hk', Hhit.
          destruct (find_in_chain_total _ _ cap k Hwf2 cap h Hhc) as (x & b & Hw' & _).
          { apply count_below_lt. exact Hhc. }
          rewrite Hw'. cbn.
          pose proof (find_in_chain_sound _ k cap h x b Hw') as Hc'.
          assert (Hc2 : chain_to es2 k h f true).
          { apply (chain_to_new es es2 k f ef (filled_entry k v ef) Hef
                     (Hfree f ef Hef Htf) H2f eq_refl h idx false Hchain eq_refl Hhf);
              [intros Hif; eauto|exact H2o]. }
          destruct (chain_to_det _ _ _ _ _ Hc2 _ _ Hc') as (-> & ->).
          rewrite H2f. reflexivity. }
      destruct (decide (idx = f)) as [->|Hif].
      * rewrite Hf1. cbn. rewrite Z.eqb_refl. cbn.
        exists (rank_below r f). eexists. split; [reflexivity|]. cbn.
        split; [exact Hwf1|]. split; [reflexivity|]. split; [lia|].
        split; [lia|]. split; [|lia]. apply Hlook; auto.
        -- congruence.
        -- intros j Hj _. unfold es1. apply list_lookup_insert_ne. congruence.
      * assert (Hi1 : es1 !! idx = Some eidx).
        { unfold es1. rewrite list_lookup_insert_ne by congruence. exact Heidx. }
        rewrite Hi1. cbn.
        destruct (Hfi ltac:(congruence)) as (e0 & He0 & Ht0).
        rewrite Heidx in He0. injection He0 as <-.
        assert (Hkne : key eidx <> k).
        { destruct (decide (idx = h)) as [->|Hih]; [|auto].
          rewrite Heh in Heidx. injection Heidx as <-.
          rewrite Ht0 in Hhit. cbn in Hhit.
          apply Z.eqb_neq. exact Hhit. }
        destruct (Z.eqb_spec (key eidx) k) as [|_]; [contradiction|]. cbn.
        exists (rank_below r f). eexists. split; [reflexivity|]. cbn.
        assert (Hwf2 : wf (rank_below r f) (<[idx := set_link eidx f true]> es1) cap).
        { apply wf_link; auto. unfold rank_below.
          destruct (decide (f = f)); [|congruence].
          destruct (decide (idx = f)); [congruence|lia]. }
        split; [exact Hwf2|]. split; [reflexivity|]. split; [lia|].
        split; [|split; [|lia]].
        -- pose proof (count_taken_insert es1 idx eidx (set_link eidx f true) Hi1) as Hc2.
           cbn in Hc2. lia.
        -- apply Hlook; auto.
           ++ rewrite list_lookup_insert_ne by congruence. exact Hf1.
           ++ intros _. apply list_lookup_insert_eq.
              unfold es1. rewrite length_insert. lia.
           ++ intros j Hjf Hji. rewrite list_lookup_insert_ne by congruence.
              unfold es1. apply list_lookup_insert_ne. congruence.
Qed.

(** *** The invariant of the map *)

(** The table is well-formed, no more entries are taken than [size()]
    counts, and the size is below seven tenths of the capacity plus one
    entry. *)
Definition Inv (m : LvnHashMap) : Prop :=
  (exists r, wf r (m_HashEntries m) (m_Capacity m)) /\
  (count_taken (m_HashEntries m) <= m_Size m)%nat /\
  (m_Size m * 10 < m_Capacity m * 7 + 10)%nat.

Lemma Inv_empty : Inv empty.
Proof.
  split; [|cbn; lia]. exists (fun _ => 0%nat). split; [reflexivity|].
  split; [|split]; intros i e H; cbn in H;
    first [discriminate | rewrite lookup_nil in H; discriminate].
Qed.

Lemma wf_replicate n : wf (fun _ => 0%nat) (replicate n new_entry) n.
Proof.
  split; [apply length_replicate|].
  split; [|split]; intros i e H; apply lookup_replicate in H as [-> _];
    cbn; congruence.
Qed.

Lemma insert_S fuel k v m :
  insert (S fuel) k v m =
    m1 ← (if (m_Capacity m * 7 <=? m_Size m * 10)%nat
          then reserve_with (insert fuel)
                 (if (m_Capacity m =? 0)%nat then 8 else m_Capacity m * 2)%nat m
          else Some m);
    insert_entry k v m1.
Proof. reflexivity. Qed.

(** Below the threshold [insert] does not rehash. *)
Lemma insert_no_rehash fuel k v m :
  (m_Size m * 10 < m_Capacity m * 7)%nat ->
  insert (S fuel) k v m = insert_entry k v m.
Proof.
  intros H. rewrite insert_S.
  destruct (Nat.leb_spec (m_Capacity m * 7) (m_Size m * 10)); [lia|reflexivity].
Qed.

Lemma rehash_spec fuel temp : forall m,
  (exists r, wf r (m_HashEntries m) (m_Capacity m)) ->
  (count_taken (m_HashEntries m) <= m_Size m)%nat ->
  ((m_Size m + length temp) * 10 <= m_Capacity m * 7)%nat ->
  (0 < m_Capacity m)%nat ->
  exists m',
    rehash (insert (S fuel)) temp m = Some m' /\
    (exists r, wf r (m_HashEntries m') (m_Capacity m')) /\
    (count_taken (m_HashEntries m') <= m_Size m')%nat /\
    m_Capacity m' = m_Capacity m /\
    (m_Size m' <= m_Size m + length temp)%nat.
Proof.
  induction temp as [|e temp IH]; intros m (r & Hwf) Hcount Hsize Hcap.
  - exists m. cbn. repeat split; eauto. lia.
  - cbn [rehash length] in *. destruct (taken e).
    + rewrite insert_no_rehash by lia.
      destruct (insert_entry_spec r m (key e) (data e) Hwf)
        as (r' & m1 & Hins & Hwf1 & Hcap1 & Hsz1 & Hc1 & _); [lia|lia|].
      rewrite Hins. cbn.
      destruct (IH m1) as (m' & Hre & Hwf' & Hc' & Hcap' & Hsz'); eauto; try lia.
      exists m'. split; [exact Hre|]. split; [exact Hwf'|]. split; [exact Hc'|].
      split; [congruence|lia].
    + cbn. destruct (IH m) as (m' & Hre & Hwf' & Hc' & Hcap' & Hsz'); eauto; try lia.
      exists m'. split; [exact Hre|]. split; [exact Hwf'|]. split; [exact Hc'|].
      split; [congruence|lia].
Qed.

(** [insert] on a map that satisfies the invariant: it ends; the
    invariant holds again; the search of [at] finds the value; and the
    capacity is doubled, or set to 8 from 0, exactly when the size had
    reached seven tenths of it. *)
Lemma insert_spec fuel k v m :
  Inv m ->
  exists m',
    insert (S (S fuel)) k v m = Some m' /\
    Inv m' /\
    lookup_entry k m' = Some (Some v) /\
    m_Capacity m' =
      (if (m_Capacity m * 7 <=? m_Size m * 10)%nat
       then (if (m_Capacity m =? 0)%nat then 8 else m_Capacity m * 2)%nat
       else m_Capacity m) /\
    (0 < m_Size m')%nat.
Proof.
  intros ((r & Hwf) & Hcount & Hload).
  rewrite insert_S.
  destruct (Nat.leb_spec (m_Capacity m * 7) (m_Size m * 10)) as [Hfull|Hroom].
  - set (newcap := (if (m_Capacity m =? 0)%nat then 8 else m_Capacity m * 2)%nat).
    assert (Hnew : (m_Size m < newcap /\ m_Capacity m * 10 < newcap * 7 /\
                    0 < newcap)%nat).
    { unfold newcap. destruct (Nat.eqb_spec (m_Capacity m) 0); lia. }
    clearbody newcap. destruct Hnew as (Hn1 & Hn2 & Hn3).
    unfold reserve_with.
    destruct (Nat.leb_spec newcap (m_Size m)) as [|_]; [lia|].
    destruct (rehash_spec fuel (m_HashEntries m)
                {| m_HashEntries := replicate newcap new_entry;
                   m_Size := 0; m_Capacity := newcap |})
      as (m1 & Hre & (r1 & Hwf1) & Hc1 & Hcap1 & Hsz1).
    + cbn. exists (fun _ => 0%nat). apply wf_replicate.
    + cbn. rewrite count_taken_replicate. lia.
    + cbn. destruct Hwf as (Hlen & _). rewrite Hlen. lia.
    + cbn. lia.
    + rewrite Hre. cbn. cbn in Hcap1, Hsz1.
      assert (Hlen : length (m_HashEntries m) = m_Capacity m) by apply Hwf.
      destruct (insert_entry_spec r1 m1 k v Hwf1)
        as (r' & m' & Hins & Hwf' & Hcap' & Hsz' & Hc' & Hlook & Hpos); [lia|lia|].
      exists m'. split; [exact Hins|]. split.
      { split; [eauto|]. split; lia. }
      split; [exact Hlook|]. split; [congruence|exact Hpos].
  - cbn.
    destruct (insert_entry_spec r m k v Hwf)
      as (r' & m' & Hins & Hwf' & Hcap' & Hsz' & Hc' & Hlook & Hpos); [lia|lia|].
    exists m'. split; [exact Hins|]. split.
    { split; [eauto|]. split; lia. }
    split; [exact Hlook|]. split; [exact Hcap'|exact Hpos].
Qed.

Lemma erase_spec k m :
  Inv m -> exists m', erase k m = Some m' /\ Inv m' /\ m_Size m' = m_Size m.
Proof.
  intros ((r & Hwf) & Hcount & Hload). unfold erase.
  destruct (Nat.eqb_spec (m_Size m) 0) as [Hz|Hnz].
  { exists m. split; [reflexivity|]. split; [|reflexivity]. split; eauto. }
  pose proof Hwf as (Hlen & _).
  destruct (home_total k (m_Capacity m)) as (h & Hh); [lia|].
  pose proof (home_lt _ _ _ Hh) as Hhc.
  destruct (lookup_lt_is_Some_2 (m_HashEntries m) h) as (eh & Heh); [lia|].
  rewrite Hh. cbn. rewrite Heh. cbn.
  assert (Hrec : forall idx e, m_HashEntries m !! idx = Some e ->
    exists m', ('(_, es') ← erase_recursive (m_Capacity m) idx (m_HashEntries m);
                Some (set_entries m es')) = Some m' /\
               Inv m' /\ m_Size m' = m_Size m).
  { intros idx e He.
    assert (Hic : (idx < m_Capacity m)%nat)
      by (rewrite <- Hlen; eapply lookup_lt_Some; eauto).
    destruct (erase_recursive_spec r (m_Capacity m) (m_Capacity m) idx _ e Hwf He)
      as (last & es' & Her & Hwf' & Hc').
    { apply count_below_lt. exact Hic. }
    rewrite Her. cbn. eexists. split; [reflexivity|]. split; [|reflexivity].
    split; [cbn; eauto|]. cbn. split; lia. }
  destruct (key eh =? k).
  - eapply Hrec; eauto.
  - destruct (find_in_chain_total r _ _ k Hwf (m_Capacity m) h Hhc)
      as (idx & found & Hwalk & Hic).
    { apply count_below_lt. exact Hhc. }
    rewrite Hwalk. cbn. destruct found.
    + destruct (lookup_lt_is_Some_2 (m_HashEntries m) idx) as (e & He); [lia|].
      eapply Hrec; eauto.
    + exists m. split; [reflexivity|]. split; [|reflexivity]. split; eauto.
Qed.

Lemma lookup_entry_total r k m :
  wf r (m_HashEntries m) (m_Capacity m) -> (0 < m_Capacity m)%nat ->
  exists o, lookup_entry k m = Some o.
Proof.
  intros Hwf Hcap. pose proof Hwf as (Hlen & _). unfold lookup_entry.
  destruct (home_total k (m_Capacity m)) as (h & Hh); [lia|].
  pose proof (home_lt _ _ _ Hh) as Hhc.
  destruct (lookup_lt_is_Some_2 (m_HashEntries m) h) as (eh & Heh); [lia|].
  rewrite Hh. cbn. rewrite Heh. cbn.
  destruct (taken eh && (key eh =? k)); [eauto|].
  destruct (find_in_chain_total r _ _ k Hwf (m_Capacity m) h Hhc)
    as (idx & found & Hwalk & Hic).
  { apply count_below_lt. exact Hhc. }
  rewrite Hwalk. cbn.
  destruct (lookup_lt_is_Some_2 (m_HashEntries m) idx) as (e & He); [lia|].
  rewrite He. cbn. eauto.
Qed.

Lemma at_key_S fuel k m :
  at_key (S fuel) k m =
    m1 ← (if (m_Size m =? 0)%nat then insert (S fuel) k T_default m else Some m);
    r ← lookup_entry k m1;
    match r with
    | Some v => Some (v, m1)
    | None => m2 ← insert (S fuel) k T_default m1; at_key fuel k m2
    end.
Proof. reflexivity. Qed.

Lemma at_key_spec fuel k m :
  Inv m -> exists v m', at_key (S (S fuel)) k m = Some (v, m') /\ Inv m'.
Proof.
  intros Hinv. rewrite at_key_S.
  destruct (Nat.eqb_spec (m_Size m) 0) as [Hz|Hnz].
  - destruct (insert_spec fuel k T_default m Hinv)
      as (m1 & Hins & Hinv1 & Hlook & _).
    rewrite Hins. cbn. rewrite Hlook. cbn. eauto.
  - cbn [mbind option_bind]. pose proof Hinv as ((r & Hwf) & Hcount & Hload).
    destruct (lookup_entry_total r k m Hwf) as (o & Ho); [lia|].
    rewrite Ho. cbn [mbind option_bind]. destruct o as [v|]; [eauto|].
    destruct (insert_spec fuel k T_default m Hinv)
      as (m2 & Hins & Hinv2 & Hlook & _ & Hpos).
    rewrite Hins. cbn [mbind option_bind]. rewrite at_key_S.
    destruct (Nat.eqb_spec (m_Size m2) 0) as [|_]; [lia|].
    cbn. rewrite Hlook. cbn. eauto.
Qed.

Lemma map_step_spec fuel op m :
  Inv m -> exists m', map_step (S (S fuel)) op m = Some m' /\ Inv m'.
Proof.
  intros Hinv. destruct op as [k v|k|k]; cbn [map_step].
  - destruct (insert_spec fuel k v m Hinv) as (m' & H & Hinv' & _). eauto.
  - destruct (erase_spec k m Hinv) as (m' & H & Hinv' & _). eauto.
  - destruct (at_key_spec fuel k m Hinv) as (v & m' & H & Hinv').
    rewrite H. cbn. eauto.
Qed.

Lemma map_run_spec fuel ops : forall m,
  Inv m -> exists m', map_run (S (S fuel)) ops m = Some m' /\ Inv m'.
Proof.
  induction ops as [|op ops IH]; intros m Hinv; [cbn; eauto|].
  destruct (map_step_spec fuel op m Hinv) as (m1 & H1 & Hinv1).
  destruct (IH m1 Hinv1) as (m' & Hr & Hinv').
  exists m'. cbn [map_run]. rewrite H1. cbn. auto.
Qed.

(** *** The size counter *)

Lemma erase_size k m m' : erase k m = Some m' -> m_Size m' = m_Size m.
Proof.
  unfold erase. destruct (m_Size m =? 0)%nat; [congruence|].
  destruct (home k (m_Capacity m)) as [h|]; cbn; [|discriminate].
  destruct (m_HashEntries m !! h) as [e|]; cbn; [|discriminate].
  destruct (key e =? k).
  - destruct (erase_recursive _ _ _) as [[b es']|]; cbn; [|discriminate].
    intros [= <-]. reflexivity.
  - destruct (find_in_chain _ _ _ _) as [[i found]|]; cbn; [|discriminate].
    destruct found; [|congruence].
    destruct (erase_recursive _ _ _) as [[b es']|]; cbn; [|discriminate].
    intros [= <-]. reflexivity.
Qed.

(** C9. For every state of the map and every key, [erase] leaves
    [size()] as it was, whether it removes an entry or not; so when the
    size was the number of taken entries and [erase] takes one out, the
    size is that number no longer.  On every state that [insert], [erase]
    and [at] lead to from the empty map, [erase] returns. *)
Theorem erase_leaves_size k m :
  (forall m', erase k m = Some m' ->
     m_Size m' = m_Size m /\
     (count_taken (m_HashEntries m) = m_Size m ->
      (count_taken (m_HashEntries m') < count_taken (m_HashEntries m))%nat ->
      m_Size m' <> count_taken (m_HashEntries m'))) /\
  (forall fuel ops, map_run (S (S fuel)) ops empty = Some m ->
     exists m', erase k m = Some m').
Proof.
  split.
  - intros m' H. pose proof (erase_size k m m' H) as Hs. split; [exact Hs|]. lia.
  - intros fuel ops Hrun.
    destruct (map_run_spec fuel ops empty Inv_empty) as (m0 & Hrun0 & Hinv).
    rewrite Hrun in Hrun0. injection Hrun0 as <-.
    destruct (erase_spec k m Hinv) as (m' & H & _). eauto.
Qed.

(** C5, as the code has it.  On every state that [insert], [erase] and
    [at] lead to from the empty map, [insert] returns, and right after it
    ten times the size is below seven times the capacity plus ten: the
    load factor was below 0.7 before the entry was added and is below
    0.7 + 1/capacity after.  The capacity is doubled, or set to 8 from 0,
    exactly when the size had reached seven tenths of the capacity at
    the start of [insert]. *)
Theorem insert_load_factor fuel ops k v :
  exists m m',
    map_run (S (S fuel)) ops empty = Some m /\
    insert (S (S fuel)) k v m = Some m' /\
    (m_Size m' * 10 < m_Capacity m' * 7 + 10)%nat /\
    m_Capacity m' =
      (if (m_Capacity m * 7 <=? m_Size m * 10)%nat
       then (if (m_Capacity m =? 0)%nat then 8 else m_Capacity m * 2)%nat
       else m_Capacity m).
Proof.
  destruct (map_run_spec fuel ops empty Inv_empty) as (m & Hrun & Hinv).
  destruct (insert_spec fuel k v m Hinv) as (m' & Hins & Hinv' & _ & Hcap & _).
  exists m, m'. split; [exact Hrun|]. split; [exact Hins|].
  split; [apply Hinv'|exact Hcap].
Qed.

End HashMap.

(** *** The map on concrete keys *)

(** C4. One insertion of key 1, and [contains(0)] is true though 0 was
    never inserted: the home slot of 0 is not taken, and its key field is
    0.  Three insertions of keys that share a home slot, 4, 5 and 10, and
    after [erase(4)], [contains(10)] is false though 10 was inserted and
    never erased. *)
Theorem contains_after_insert_erase :
  (exists m, map_run Z 0 2 [Insert Z 1 10] (empty Z) = Some m /\
             contains Z 0 m = Some true) /\
  (exists m, map_run Z 0 2 [Insert Z 4 40; Insert Z 5 50; Insert Z 10 100; Erase Z 4]
               (empty Z) = Some m /\
             contains Z 10 m = Some false /\
             contains Z 5 m = Some true /\
             contains Z 4 m = Some false).
Proof.
  split; eexists; (split; [vm_compute; reflexivity|]); vm_compute; auto.
Qed.

(** The sixth insertion into an empty map: the size is 6, the capacity 8,
    and the load factor 0.75. *)
Lemma insert_exceeds_load_factor :
  exists m m',
    map_run Z 0 2 [Insert Z 1 1; Insert Z 2 2; Insert Z 3 3; Insert Z 4 4; Insert Z 5 5]
      (empty Z) = Some m /\
    insert Z 0 2 6 6 m = Some m' /\
    m_Size Z m' = 6%nat /\ m_Capacity Z m' = 8%nat /\
    ~ (m_Size Z m' * 10 <= m_Capacity Z m' * 7)%nat.
Proof.
  eexists. eexists. split; [vm_compute; reflexivity|].
  split; [vm_compute; reflexivity|]. cbn. repeat split. lia.
Qed.

Lemma erase_leaves_size_witness :
  exists m m',
    map_run Z 0 2 [Insert Z 1 10] (empty Z) = Some m /\
    erase Z 1 m = Some m' /\
    m_Size Z m' = 1%nat /\ count_taken Z (m_HashEntries Z m') = 0%nat.
Proof.
  eexists. eexists. split; [vm_compute; reflexivity|].
  match goal with
  | |- erase Z 1 ?m = Some _ /\ _ =>
      destruct (erase_leaves_size Z 0 1 m) as (H1 & H2);
      destruct (H2 0%nat [Insert Z 1 10] eq_refl) as (m' & Hm');
      destruct (H1 m' Hm') as (Hs & Hne)
  end.
  vm_compute in Hm'. injection Hm' as <-.
  split; [vm_compute; reflexivity|]. split; reflexivity.
Defined.

End HashMap.

(** ** [LvnArenaList]

    The nodes live in one array and are linked by index.  [reserve] gets
    its arrays from [memNew] without construction, so the new node slots
    hold whatever the allocator left there: [fresh_node i] is that
    content, for slot [i].  An assertion that fails, a node read outside
    the array and a scan that finds no free node give [None]. *)

Module ArenaList.

Section ArenaList.

Variable T : Type.

Record LvnLinkedIndexNode := {
  next : nat;
  prev : nat;
  hasPrev : bool;
  hasNext : bool;
  taken : bool;
  value : T
}.

(** The content of node storage that has been allocated and not
    constructed. *)
Variable fresh_node : nat -> LvnLinkedIndexNode.

Record LvnArenaList := {
  m_Nodes : list LvnLinkedIndexNode;
  m_FreeNodes : list nat;
  m_Size : nat;
  m_Capacity : nat;
  m_FreeSize : nat;
  m_FreeCapacity : nat;
  m_Head : nat;
  m_Tail : nat
}.

(** [LvnArenaList()] *)
Definition empty : LvnArenaList :=
  {| m_Nodes := []; m_FreeNodes := []; m_Size := 0; m_Capacity := 0;
     m_FreeSize := 0; m_FreeCapacity := 0; m_Head := 0; m_Tail := 0 |}.

(** [void destruct_at(LvnINode<T>& node)] *)
Definition destruct_at (node : LvnLinkedIndexNode) : LvnLinkedIndexNode :=
  {| next := 0; prev := 0; hasPrev := false; hasNext := false; taken := false;
     value := value node |}.

Definition set_next (j : nat) (h : bool) (n : LvnLinkedIndexNode) : LvnLinkedIndexNode :=
  {| next := j; prev := prev n; hasPrev := hasPrev n; hasNext := h;
     taken := taken n; value := value n |}.

Definition set_prev (j : nat) (h : bool) (n : LvnLinkedIndexNode) : LvnLinkedIndexNode :=
  {| next := next n; prev := j; hasPrev := h; hasNext := hasNext n;
     taken := taken n; value := value n |}.

Definition set_prev_index (j : nat) (n : LvnLinkedIndexNode) : LvnLinkedIndexNode :=
  {| next := next n; prev := j; hasPrev := hasPrev n; hasNext := hasNext n;
     taken := taken n; value := value n |}.

Definition set_next_index (j : nat) (n : LvnLinkedIndexNode) : LvnLinkedIndexNode :=
  {| next := j; prev := prev n; hasPrev := hasPrev n; hasNext := hasNext n;
     taken := taken n; value := value n |}.

Definition set_value (v : T) (n : LvnLinkedIndexNode) : LvnLinkedIndexNode :=
  {| next := next n; prev := prev n; hasPrev := hasPrev n; hasNext := hasNext n;
     taken := taken n; value := v |}.

Definition set_taken (n : LvnLinkedIndexNode) : LvnLinkedIndexNode :=
  {| next := next n; prev := prev n; hasPrev := hasPrev n; hasNext := hasNext n;
     taken := true; value := value n |}.

(** A write through a reference to [m_Nodes[i]]. *)
Definition upd (i : nat) (f : LvnLinkedIndexNode -> LvnLinkedIndexNode)
    (nodes : list LvnLinkedIndexNode) : option (list LvnLinkedIndexNode) :=
  n ← nodes !! i; Some (<[i := f n]> nodes).

(** [void reserve(size_t size)].  The new free-index array is raw too; its
    entries from [m_FreeSize] on are written before they are read, and
    are shown as 0. *)
Definition reserve (size : nat) (l : LvnArenaList) : LvnArenaList :=
  if (size <=? m_Capacity l)%nat then l
  else
    let temp := fresh_node <$> seq 0 size in
    let temp := for_range 0 (m_Capacity l)
                  (fun i temp => match m_Nodes l !! i with
                                 | Some n => <[i := n]> temp
                                 | None => temp
                                 end) temp in
    let freeTemp := replicate size 0%nat in
    let freeTemp := for_range 0 (m_FreeSize l)
                      (fun i ft => match m_FreeNodes l !! i with
                                   | Some x => <[i := x]> ft
                                   | None => ft
                                   end) freeTemp in
    {| m_Nodes := temp; m_FreeNodes := freeTemp; m_Size := m_Size l;
       m_Capacity := size; m_FreeSize := m_FreeSize l; m_FreeCapacity := size;
       m_Head := m_Head l; m_Tail := m_Tail l |}.

(** The loop of [node_index]: [index] steps along [next] from [nodeIndex]. *)
Fixpoint node_walk (index : nat) (nodes : list LvnLinkedIndexNode)
    (nodeIndex : nat) : option nat :=
  match index with
  | O => Some nodeIndex
  | S index' =>
      n ← nodes !! nodeIndex;
      node_walk index' nodes (if hasNext n then next n else nodeIndex)
  end.

(** [LvnINode<T>& node_index(size_t index, size_t* pIndex)] *)
Definition node_index (index : nat) (l : LvnArenaList) : option nat :=
  if negb (index <? m_Size l)%nat then None
  else node_walk index (m_Nodes l) (m_Head l).

(** [T& at_index(size_t index)] *)
Definition at_index (index : nat) (l : LvnArenaList) : option T :=
  i ← node_index index l; n ← m_Nodes l !! i; Some (value n).

(** The loop [for (i = 0; i < m_Capacity; i++) if (!m_Nodes[i].taken) ...]:
    the first node from [i] on that is not taken, among [n] nodes. *)
Fixpoint find_untaken (n : nat) (i : nat) (nodes : list LvnLinkedIndexNode)
    : option nat :=
  match n with
  | O => None
  | S n' =>
      nd ← nodes !! i;
      if taken nd then find_untaken n' (S i) nodes else Some i
  end.

(** The free node [push_back], [push_front] and [insert_index] take: the
    last of the free indices when there is one, else the first node that
    is not taken.  The second component is the new [m_FreeSize]. *)
Definition take_free_node (l : LvnArenaList) : option (nat * nat) :=
  if negb (m_FreeSize l =? 0)%nat then
    nodeIndex ← m_FreeNodes l !! (m_FreeSize l - 1)%nat;
    Some (nodeIndex, (m_FreeSize l - 1)%nat)
  else
    i ← find_untaken (m_Capacity l) 0 (m_Nodes l);
    Some (i, m_FreeSize l).

Definition grow_if_full (l : LvnArenaList) : LvnArenaList :=
  if (m_Capacity l <=? m_Size l)%nat then reserve (m_Size l + 1) l else l.

(** The first element of a list: [reserve], then node 0. *)
Definition push_first (data : T) (l : LvnArenaList) : option LvnArenaList :=
  let l1 := reserve (m_Size l + 1) l in
  nodes ← upd 0 (fun n => set_taken (set_value data n)) (m_Nodes l1);
  Some {| m_Nodes := nodes; m_FreeNodes := m_FreeNodes l1;
          m_Size := m_Size l1 + 1; m_Capacity := m_Capacity l1;
          m_FreeSize := m_FreeSize l1; m_FreeCapacity := m_FreeCapacity l1;
          m_Head := 0; m_Tail := 0 |}.

(** [void push_back(const T& data)] *)
Definition push_back (data : T) (l : LvnArenaList) : option LvnArenaList :=
  if (m_Size l =? 0)%nat then push_first data l
  else
    let l1 := grow_if_full l in
    _ ← m_Nodes l1 !! m_Tail l1;
    '(nodeIndex, freeSize) ← take_free_node l1;
    nodes1 ← upd nodeIndex
                (fun n => set_taken (set_prev (m_Tail l1) true (set_value data n)))
                (m_Nodes l1);
    nodes2 ← upd (m_Tail l1) (set_next nodeIndex true) nodes1;
    Some {| m_Nodes := nodes2; m_FreeNodes := m_FreeNodes l1;
            m_Size := m_Size l1 + 1; m_Capacity := m_Capacity l1;
            m_FreeSize := freeSize; m_FreeCapacity := m_FreeCapacity l1;
            m_Head := m_Head l1; m_Tail := nodeIndex |}.

(** [void push_front(const T& data)] *)
Definition push_front (data : T) (l : LvnArenaList) : option LvnArenaList :=
  if (m_Size l =? 0)%nat then push_first data l
  else
    let l1 := grow_if_full l in
    _ ← m_Nodes l1 !! m_Head l1;
    '(nodeIndex, freeSize) ← take_free_node l1;
    nodes1 ← upd nodeIndex
                (fun n => set_taken (set_next (m_Head l1) true (set_value data n)))
                (m_Nodes l1);
    nodes2 ← upd (m_Head l1) (set_prev nodeIndex true) nodes1;
    Some {| m_Nodes := nodes2; m_FreeNodes := m_FreeNodes l1;
            m_Size := m_Size l1 + 1; m_Capacity := m_Capacity l1;
            m_FreeSize := freeSize; m_FreeCapacity := m_FreeCapacity l1;
            m_Head := nodeIndex; m_Tail := m_Tail l1 |}.

(** The last element of a list goes: [destruct_at], head and tail to 0. *)
Definition pop_last (l : LvnArenaList) : option LvnArenaList :=
  nodes ← upd (m_Head l) destruct_at (m_Nodes l);
  Some {| m_Nodes := nodes; m_FreeNodes := m_FreeNodes l;
          m_Size := m_Size l - 1; m_Capacity := m_Capacity l;
          m_FreeSize := m_FreeSize l; m_FreeCapacity := m_FreeCapacity l;
          m_Head := 0; m_Tail := 0 |}.

(** "push back free node": [m_FreeNodes[m_FreeSize] = index; m_FreeSize++],
    behind its assertion. *)
Definition push_free (index : nat) (l : LvnArenaList) : option (list nat) :=
  if negb (m_FreeSize l <? m_FreeCapacity l)%nat then None
  else
    _ ← m_FreeNodes l !! m_FreeSize l;
    Some (<[m_FreeSize l := index]> (m_FreeNodes l)).

(** [void pop_back()] *)
Definition pop_back (l : LvnArenaList) : option LvnArenaList :=
  if (m_Size l =? 0)%nat then Some l
  else if (m_Size l =? 1)%nat then pop_last l
  else
    free ← push_free (m_Tail l) l;
    node ← m_Nodes l !! m_Tail l;
    nodes1 ← upd (prev node) (set_next 0 false) (m_Nodes l);
    nodes2 ← upd (m_Tail l) destruct_at nodes1;
    Some {| m_Nodes := nodes2; m_FreeNodes := free;
            m_Size := m_Size l - 1; m_Capacity := m_Capacity l;
            m_FreeSize := m_FreeSize l + 1; m_FreeCapacity := m_FreeCapacity l;
            m_Head := m_Head l; m_Tail := prev node |}.

(** [void pop_front()] *)
Definition pop_front (l : LvnArenaList) : option LvnArenaList :=
  if (m_Size l =? 0)%nat then Some l
  else if (m_Size l =? 1)%nat then pop_last l
  else
    free ← push_free (m_Head l) l;
    node ← m_Nodes l !! m_Head l;
    nodes1 ← upd (next node) (set_prev 0 false) (m_Nodes l);
    nodes2 ← upd (m_Head l) destruct_at nodes1;
    Some {| m_Nodes := nodes2; m_FreeNodes := free;
            m_Size := m_Size l - 1; m_Capacity := m_Capacity l;
            m_FreeSize := m_FreeSize l + 1; m_FreeCapacity := m_FreeCapacity l;
            m_Head := next node; m_Tail := m_Tail l |}.

(** [void erase_index(const size_t index)] *)
Definition erase_index (index : nat) (l : LvnArenaList) : option LvnArenaList :=
  if negb (index <? m_Size l)%nat then None
  else if (index =? 0)%nat then pop_front l
  else if (index =? m_Size l - 1)%nat then pop_back l
  else
    nodeIndex ← node_index index l;
    node ← m_Nodes l !! nodeIndex;
    nodes1 ← (if hasNext node
              then upd (next node) (set_prev_index (prev node)) (m_Nodes l)
              else Some (m_Nodes l));
    nodes2 ← (if hasPrev node
              then upd (prev node) (set_next_index (next node)) nodes1
              else Some nodes1);
    free ← push_free nodeIndex l;
    nodes3 ← upd nodeIndex destruct_at nodes2;
    Some {| m_Nodes := nodes3; m_FreeNodes := free;
            m_Size := m_Size l - 1; m_Capacity := m_Capacity l;
            m_FreeSize := m_FreeSize l + 1; m_FreeCapacity := m_FreeCapacity l;
            m_Head := m_Head l; m_Tail := m_Tail l |}.

(** [void insert_index(const size_t index, const T& value)] *)
Definition insert_index (index : nat) (v : T) (l : LvnArenaList) : option LvnArenaList :=
  if negb (index <=? m_Size l)%nat then None
  else if (index =? 0)%nat then push_front v l
  else if (index =? m_Size l)%nat then push_back v l
  else
    let l1 := grow_if_full l in
    currentNodeIndex ← node_index index l1;
    node ← m_Nodes l1 !! currentNodeIndex;
    '(nodeIndex, freeSize) ← take_free_node l1;
    nodes0 ← (if (m_FreeSize l1 =? 0)%nat && hasNext node
              then upd (next node) (set_prev_index nodeIndex) (m_Nodes l1)
              else Some (m_Nodes l1));
    node' ← nodes0 !! currentNodeIndex;
    nodes1 ← upd nodeIndex
                (fun _ => set_taken (set_prev currentNodeIndex true node')) nodes0;
    nodes2 ← upd currentNodeIndex
                (fun n => set_next nodeIndex true (set_value v n)) nodes1;
    Some {| m_Nodes := nodes2; m_FreeNodes := m_FreeNodes l1;
            m_Size := m_Size l1 + 1; m_Capacity := m_Capacity l1;
            m_FreeSize := freeSize; m_FreeCapacity := m_FreeCapacity l1;
            m_Head := m_Head l1;
            m_Tail := if (index =? m_Size l1 - 1)%nat then nodeIndex else m_Tail l1 |}.



(** *** Sequences of operations *)

Inductive ListOp :=
  | PushBack (v : T)
  | PushFront (v : T)
  | InsertIndex (index : nat) (v : T)
  | EraseIndex (index : nat)
  | PopBack
  | PopFront
  | Reserve (size : nat).

Definition list_step (op : ListOp) (l : LvnArenaList) : option LvnArenaList :=
  match op with
  | PushBack v => push_back v l
  | PushFront v => push_front v l
  | InsertIndex index v => insert_index index v l
  | EraseIndex index => erase_index index l
  | PopBack => pop_back l
  | PopFront => pop_front l
  | Reserve size => Some (reserve size l)
  end.

Fixpoint list_run (ops : list ListOp) (l : LvnArenaList) : option LvnArenaList :=
  match ops with
  | [] => Some l
  | op :: ops' => l' ← list_step op l; list_run ops' l'
  end.

(** The sequence of elements the operations describe. *)
Definition model_step (op : ListOp) (vs : list T) : list T :=
  match op with
  | PushBack v => vs ++ [v]
  | PushFront v => v :: vs
  | InsertIndex index v => take index vs ++ v :: drop index vs
  | EraseIndex index => delete index vs
  | PopBack => take (length vs - 1) vs
  | PopFront => drop 1 vs
  | Reserve _ => vs
  end.

Definition model_run (ops : list ListOp) (vs : list T) : list T :=
  foldl (fun vs op => model_step op vs) vs ops.

(** *** What the specification says of a list *)

Fixpoint count_taken (nodes : list LvnLinkedIndexNode) : nat :=
  match nodes with
  | [] => 0
  | n :: nodes' => ((if taken n then 1 else 0) + count_taken nodes')%nat
  end.

Definition next_link (n : LvnLinkedIndexNode) : option nat :=
  if hasNext n then Some (next n) else None.

Definition prev_link (n : LvnLinkedIndexNode) : option nat :=
  if hasPrev n then Some (prev n) else None.

(** The nodes a walk from node [i] along [link] visits, to the first
    node without a link.  A walk that leaves the array, or goes on for
    more than [fuel] nodes, has no result. *)
Fixpoint walk (fuel : nat) (nodes : list LvnLinkedIndexNode)
    (link : LvnLinkedIndexNode -> option nat) (i : nat) : option (list nat) :=
  match fuel with
  | O => None
  | S fuel' =>
      n ← nodes !! i;
      match link n with
      | Some j => rest ← walk fuel' nodes link j; Some (i :: rest)
      | None => Some [i]
      end
  end.

(** From head to tail through [next], and from tail to head through
    [prev].  A walk over more than [m_Capacity] nodes is in a cycle. *)
Definition walk_next (l : LvnArenaList) : option (list nat) :=
  if (m_Size l =? 0)%nat then Some []
  else walk (m_Capacity l) (m_Nodes l) next_link (m_Head l).

Definition walk_prev (l : LvnArenaList) : option (list nat) :=
  if (m_Size l =? 0)%nat then Some []
  else walk (m_Capacity l) (m_Nodes l) prev_link (m_Tail l).

Definition values_at (nodes : list LvnLinkedIndexNode) (idxs : list nat)
    : list (option T) :=
  (fun i => value <$> nodes !! i) <$> idxs.

(** *** The uses of the list the invariant holds for *)

(** Index 0 is among the free indices. *)
Definition zero_is_free (l : LvnArenaList) : bool :=
  existsb (Nat.eqb 0) (take (m_FreeSize l) (m_FreeNodes l)).

(** The first element of a list goes to node 0, whatever the free indices
    are. *)
Definition push_ok (l : LvnArenaList) : bool :=
  negb ((m_Size l =? 0)%nat && zero_is_free l).

(** [insert_index] inside the list links the node after the new one back
    to it only when it finds the new node by the scan. *)
Definition op_ok (op : ListOp) (l : LvnArenaList) : bool :=
  match op with
  | PushBack _ | PushFront _ => push_ok l
  | InsertIndex index _ =>
      (index <=? m_Size l)%nat &&
      (if (index =? 0)%nat || (index =? m_Size l)%nat then push_ok l
       else (m_FreeSize l =? 0)%nat || (index =? m_Size l - 1)%nat)
  | EraseIndex index => (index <? m_Size l)%nat
  | PopBack | PopFront | Reserve _ => true
  end.

Fixpoint run_ok (ops : list ListOp) (l : LvnArenaList) : bool :=
  match ops with
  | [] => true
  | op :: ops' =>
      op_ok op l &&
      match list_step op l with
      | Some l' => run_ok ops' l'
      | None => true
      end
  end.

(** *** The representation invariant *)

Local Open Scope nat_scope.

(** A node that is not taken has no links: [destruct_at] clears them, and
    so must the allocator. *)
Definition clean (n : LvnLinkedIndexNode) : Prop :=
  taken n = false -> hasPrev n = false /\ hasNext n = false.

Definition link (h : bool) (x : nat) (o : option nat) : Prop :=
  match o with
  | Some j => h = true /\ x = j
  | None => h = false
  end.

Definition before (cells : list (nat * T)) (p : nat) : option nat :=
  match p with
  | O => None
  | S q => fst <$> cells !! q
  end.

Definition after (cells : list (nat * T)) (p : nat) : option nat :=
  fst <$> cells !! S p.

(** [cells] lists the nodes of the list in order, each with its element. *)
Definition chain (nodes : list LvnLinkedIndexNode) (cells : list (nat * T)) : Prop :=
  forall p i v, cells !! p = Some (i, v) ->
    exists n, nodes !! i = Some n /\ taken n = true /\ value n = v /\
      link (hasPrev n) (prev n) (before cells p) /\
      link (hasNext n) (next n) (after cells p).

Definition free_ok (nodes : list LvnLinkedIndexNode) (free : list nat) (fs : nat) : Prop :=
  (forall p j, p < fs -> free !! p = Some j ->
     exists n, nodes !! j = Some n /\ taken n = false) /\
  (forall p q j, p < fs -> q < fs -> free !! p = Some j -> free !! q = Some j -> p = q).

Record Inv (l : LvnArenaList) (cells : list (nat * T)) : Prop := {
  inv_nodes : length (m_Nodes l) = m_Capacity l;
  inv_free_len : length (m_FreeNodes l) = m_Capacity l;
  inv_free_cap : m_FreeCapacity l = m_Capacity l;
  inv_size : m_Size l = length cells;
  inv_count : count_taken (m_Nodes l) = m_Size l;
  inv_room : m_FreeSize l + m_Size l <= m_Capacity l;
  inv_room0 : 0 < m_Capacity l -> m_FreeSize l < m_Capacity l;
  inv_head : forall i v, cells !! 0 = Some (i, v) -> m_Head l = i;
  inv_tail : forall i v, cells !! (length cells - 1) = Some (i, v) -> m_Tail l = i;
  inv_chain : chain (m_Nodes l) cells;
  inv_clean : forall j n, m_Nodes l !! j = Some n -> clean n;
  inv_free : free_ok (m_Nodes l) (m_FreeNodes l) (m_FreeSize l)
}.

(** The cells after an insertion at position [k]: the node there keeps its
    place and takes the new element [c1]; its old element moves to the new
    node [c2], next in the chain. *)
Definition insert_cells (k : nat) (c1 c2 : nat * T) (cells : list (nat * T))
    : list (nat * T) :=
  take k cells ++ c1 :: c2 :: drop (S k) cells.


(** *** Loops and counts *)

Lemma for_range_copy_length {A} (src : list A) n : forall lo (d : list A),
  length (for_range lo n (fun i d => match src !! i with
                                     | Some x => <[i := x]> d
                                     | None => d
                                     end) d) = length d.
Proof.
  induction n as [|n IH]; intros lo d; cbn [for_range]; [reflexivity|].
  rewrite IH. destruct (src !! lo); [apply length_insert|reflexivity].
Qed.

Lemma for_range_copy_lookup {A} (src : list A) n : forall lo (d : list A) j,
  for_range lo n (fun i d => match src !! i with
                             | Some x => <[i := x]> d
                             | None => d
                             end) d !! j =
    if decide (lo <= j < lo + n /\ j < length d /\ j < length src)
    then src !! j else d !! j.
Proof.
  induction n as [|n IH]; intros lo d j.
  - cbn. destruct (decide _); [lia|reflexivity].
  - cbn [for_range]. rewrite IH.
    destruct (src !! lo) as [x|] eqn:Hx.
    + rewrite length_insert.
      destruct (decide (j = lo)) as [->|Hne].
      * destruct (decide (S lo <= lo < S lo + n /\ _)); [lia|].
        destruct (decide (lo <= lo < lo + S n /\ lo < length d /\ _)) as [H|H].
        -- rewrite list_lookup_insert_eq by lia. congruence.
        -- apply lookup_lt_Some in Hx. rewrite list_insert_ge by lia. reflexivity.
      * rewrite list_lookup_insert_ne by congruence.
        destruct (decide (S lo <= j < S lo + n /\ _)), (decide (lo <= j < lo + S n /\ _));
          try reflexivity; lia.
    + apply lookup_ge_None in Hx.
      destruct (decide (S lo <= j < S lo + n /\ _)), (decide (lo <= j < lo + S n /\ _));
        try reflexivity; lia.
Qed.

Lemma count_taken_nodes_app nodes1 nodes2 :
  count_taken (nodes1 ++ nodes2) = count_taken nodes1 + count_taken nodes2.
Proof. induction nodes1 as [|n nodes1 IH]; cbn; [reflexivity|]. rewrite IH. lia. Qed.

Lemma count_taken_update nodes : forall i n n',
  nodes !! i = Some n ->
  count_taken (<[i := n']> nodes) + (if taken n then 1 else 0) =
  count_taken nodes + (if taken n' then 1 else 0).
Proof.
  induction nodes as [|a nodes IH]; intros [|i] n n' H; cbn in H; try discriminate.
  - injection H as ->. cbn. destruct (taken n), (taken n'); lia.
  - specialize (IH i n n' H).
    change (<[S i := n']> (a :: nodes)) with (a :: <[i := n']> nodes).
    cbn [count_taken]. lia.
Qed.

Lemma count_taken_bound nodes : count_taken nodes <= length nodes.
Proof. induction nodes as [|n nodes IH]; cbn; [lia|]. destruct (taken n); lia. Qed.

Lemma count_taken_zero nodes : count_taken nodes = 0 ->
  forall j n, nodes !! j = Some n -> taken n = false.
Proof.
  induction nodes as [|a nodes IH]; intros H [|j] n Hn; cbn in Hn; try discriminate.
  - injection Hn as ->. cbn in H. destruct (taken n); [lia|reflexivity].
  - cbn in H. apply (IH ltac:(lia) j n Hn).
Qed.

(** The scan finds a node as soon as fewer nodes are taken than there
    are. *)
Lemma find_untaken_spec n : forall i nodes,
  i + n = length nodes ->
  count_taken (drop i nodes) < n ->
  exists j nd, find_untaken n i nodes = Some j /\ nodes !! j = Some nd /\ taken nd = false.
Proof.
  induction n as [|n IH]; intros i nodes Hlen Hc; [lia|].
  destruct (nodes !! i) as [nd|] eqn:Hnd.
  2:{ apply lookup_ge_None in Hnd. lia. }
  cbn [find_untaken]. rewrite Hnd. cbn [mbind option_bind].
  destruct (taken nd) eqn:Ht.
  - apply (IH (S i) nodes); [lia|].
    rewrite (drop_S _ _ _ Hnd) in Hc. cbn in Hc. rewrite Ht in Hc. lia.
  - eauto.
Qed.

Lemma upd_spec i f nodes n :
  nodes !! i = Some n ->
  upd i f nodes = Some (<[i := f n]> nodes).
Proof. intros H. unfold upd. rewrite H. reflexivity. Qed.

(** *** [reserve] *)

Hypothesis fresh_clean : forall i,
  taken (fresh_node i) = false /\
  hasPrev (fresh_node i) = false /\ hasNext (fresh_node i) = false.

Lemma reserve_le size l : size <= m_Capacity l -> reserve size l = l.
Proof.
  intros H. unfold reserve.
  destruct (size <=? m_Capacity l) eqn:E; [reflexivity|].
  apply Nat.leb_gt in E. lia.
Qed.

Lemma reserve_nodes size l :
  length (m_Nodes l) = m_Capacity l -> m_Capacity l < size ->
  m_Nodes (reserve size l) =
    m_Nodes l ++ (fresh_node <$> seq (m_Capacity l) (size - m_Capacity l)).
Proof.
  intros Hlen Hlt. unfold reserve.
  destruct (size <=? m_Capacity l) eqn:E; [apply Nat.leb_le in E; lia|].
  cbn [m_Nodes]. apply list_eq. intros j.
  rewrite for_range_copy_lookup, length_fmap, length_seq, list_lookup_fmap.
  destruct (decide _) as [H|H].
  - rewrite lookup_app_l by lia. reflexivity.
  - rewrite lookup_app_r by lia. rewrite list_lookup_fmap.
    destruct (decide (j < size)) as [Hj|Hj].
    + rewrite !lookup_seq_lt by lia. cbn. do 2 f_equal. lia.
    + rewrite !lookup_seq_ge by lia. reflexivity.
Qed.

Lemma reserve_free size l p :
  m_Capacity l < size -> m_FreeSize l <= length (m_FreeNodes l) ->
  p < m_FreeSize l -> m_FreeSize l <= size ->
  m_FreeNodes (reserve size l) !! p = m_FreeNodes l !! p.
Proof.
  intros Hlt Hfs Hp Hle. unfold reserve.
  destruct (size <=? m_Capacity l) eqn:E; [apply Nat.leb_le in E; lia|].
  cbn [m_FreeNodes]. rewrite for_range_copy_lookup, length_replicate.
  destruct (decide _); [reflexivity|lia].
Qed.

Lemma reserve_fields size l :
  m_Size (reserve size l) = m_Size l /\
  m_FreeSize (reserve size l) = m_FreeSize l /\
  m_Head (reserve size l) = m_Head l /\
  m_Tail (reserve size l) = m_Tail l /\
  m_Capacity (reserve size l) = Nat.max size (m_Capacity l) /\
  m_FreeCapacity (reserve size l) =
    (if size <=? m_Capacity l then m_FreeCapacity l else size) /\
  length (m_FreeNodes (reserve size l)) =
    (if size <=? m_Capacity l then length (m_FreeNodes l) else size).
Proof.
  unfold reserve. destruct (size <=? m_Capacity l) eqn:E; cbn.
  - apply Nat.leb_le in E. repeat split; lia.
  - apply Nat.leb_gt in E. rewrite for_range_copy_length, length_replicate.
    repeat split; lia.
Qed.

Lemma chain_mono nodes nodes' cells :
  (forall i n, nodes !! i = Some n -> taken n = true -> nodes' !! i = Some n) ->
  chain nodes cells -> chain nodes' cells.
Proof.
  intros Hm Hc p i v Hp. destruct (Hc p i v Hp) as (n & Hn & Ht & H).
  exists n. split; [apply Hm; assumption|]. split; assumption.
Qed.

Lemma free_ok_mono nodes nodes' free free' fs :
  (forall i n, nodes !! i = Some n -> taken n = false -> nodes' !! i = Some n) ->
  (forall p, p < fs -> free' !! p = free !! p) ->
  free_ok nodes free fs -> free_ok nodes' free' fs.
Proof.
  intros Hm Hf [H1 H2]. split.
  - intros p j Hp Hj. rewrite Hf in Hj by assumption.
    destruct (H1 p j Hp Hj) as (n & Hn & Ht). eauto.
  - intros p q j Hp Hq Hpj Hqj. rewrite Hf in Hpj, Hqj by assumption. eauto.
Qed.

Lemma count_taken_fresh lo n : count_taken (fresh_node <$> seq lo n) = 0.
Proof.
  revert lo. induction n as [|n IH]; intros lo; cbn; [reflexivity|].
  rewrite IH. destruct (fresh_clean lo) as [-> _]. reflexivity.
Qed.

Lemma reserve_Inv size l cells : Inv l cells -> Inv (reserve size l) cells.
Proof.
  intros HI. destruct (decide (size <= m_Capacity l)) as [Hle|Hgt].
  { rewrite reserve_le by assumption. assumption. }
  assert (Hlt : m_Capacity l < size) by lia.
  pose proof (reserve_fields size l) as (Hs & Hfs & Hh & Ht & Hc & Hfc & Hfl).
  destruct (size <=? m_Capacity l) eqn:E; [apply Nat.leb_le in E; lia|].
  pose proof (reserve_nodes size l (inv_nodes _ _ HI) Hlt) as Hn.
  destruct HI as [I1 I2 I3 I4 I5 I6 I7 I8 I9 I10 I11 I12].
  constructor; rewrite ?Hs, ?Hfs, ?Hh, ?Ht, ?Hc, ?Hfc, ?Hfl, ?Hn; try assumption; try lia.
  - rewrite length_app, length_fmap, length_seq. lia.
  - rewrite count_taken_nodes_app, count_taken_fresh. lia.
  - eapply chain_mono; [|exact I10]. intros i n Hi _. apply lookup_app_l_Some, Hi.
  - intros j n Hj. apply lookup_app_Some in Hj as [Hj|[_ Hj]]; [eauto|].
    apply list_lookup_fmap_Some in Hj as (k & -> & _). intros _.
    destruct (fresh_clean k) as (_ & ? & ?). split; assumption.
  - eapply free_ok_mono; [| |exact I12].
    + intros i n Hi _. apply lookup_app_l_Some, Hi.
    + intros p Hp. apply reserve_free; lia.
Qed.

(** *** Facts about chains *)

Lemma link_inv h x o : link h x o -> o = if h then Some x else None.
Proof. destruct o as [j|]; cbn; [intros [-> ->]|intros ->]; reflexivity. Qed.

Lemma clean_taken n : taken n = true -> clean n.
Proof. intros H H'. congruence. Qed.

(** A node is at one position of the chain only. *)
Lemma chain_inj nodes cells : chain nodes cells ->
  forall p q i v w, cells !! p = Some (i, v) -> cells !! q = Some (i, w) -> p = q.
Proof.
  intros Hc p. induction p as [|p IH]; intros q i v w Hp Hq.
  - destruct (Hc 0 i v Hp) as (n & Hn & _ & _ & Hb & _).
    destruct (Hc q i w Hq) as (n' & Hn' & _ & _ & Hb' & _).
    assert (n' = n) as -> by congruence.
    apply link_inv in Hb, Hb'. cbn in Hb. destruct q as [|q]; [reflexivity|].
    cbn in Hb'. rewrite <- Hb in Hb'.
    assert (is_Some (cells !! q)) as [c Hcq].
    { apply lookup_lt_is_Some. apply lookup_lt_Some in Hq. lia. }
    rewrite Hcq in Hb'. discriminate.
  - destruct (Hc (S p) i v Hp) as (n & Hn & _ & _ & Hb & _).
    destruct (Hc q i w Hq) as (n' & Hn' & _ & _ & Hb' & _).
    assert (n' = n) as -> by congruence.
    apply link_inv in Hb, Hb'. cbn in Hb.
    assert (is_Some (cells !! p)) as [[a va] Hcp].
    { apply lookup_lt_is_Some. apply lookup_lt_Some in Hp. lia. }
    rewrite Hcp in Hb. cbn in Hb.
    destruct q as [|q]; cbn in Hb'; [congruence|].
    rewrite <- Hb in Hb'.
    destruct (cells !! q) as [[b vb]|] eqn:Hcq; cbn in Hb'; [|discriminate].
    injection Hb' as ->. f_equal. exact (IH q a va vb Hcp Hcq).
Qed.

Lemma chain_taken nodes cells p i v n :
  chain nodes cells -> cells !! p = Some (i, v) -> nodes !! i = Some n ->
  taken n = true.
Proof.
  intros Hc Hp Hn. destruct (Hc p i v Hp) as (n' & Hn' & Ht & _). congruence.
Qed.

Lemma last_cell l cells : Inv l cells -> m_Size l <> 0 ->
  exists v, cells !! (length cells - 1) = Some (m_Tail l, v).
Proof.
  intros HI Hs. pose proof (inv_size _ _ HI) as Hlen.
  destruct (lookup_lt_is_Some_2 cells (length cells - 1)) as [[t v] Ht]; [lia|].
  rewrite (inv_tail _ _ HI t v Ht). eauto.
Qed.

Lemma first_cell l cells : Inv l cells -> m_Size l <> 0 ->
  exists v, cells !! 0 = Some (m_Head l, v).
Proof.
  intros HI Hs. pose proof (inv_size _ _ HI) as Hlen.
  destruct (lookup_lt_is_Some_2 cells 0) as [[t v] Ht]; [lia|].
  rewrite (inv_head _ _ HI t v Ht). eauto.
Qed.

Lemma zero_is_free_false l : zero_is_free l = false ->
  forall p j, p < m_FreeSize l -> m_FreeNodes l !! p = Some j -> j <> 0.
Proof.
  intros H p j Hp Hj ->. unfold zero_is_free in H.
  assert (existsb (Nat.eqb 0) (take (m_FreeSize l) (m_FreeNodes l)) = true); [|congruence].
  apply existsb_exists. exists 0. split; [|reflexivity].
  apply list_elem_of_In, list_elem_of_lookup. exists p.
  rewrite lookup_take_lt by assumption. assumption.
Qed.

(** *** The free node of an insertion *)

Lemma grow_if_full_Inv l cells : Inv l cells ->
  Inv (grow_if_full l) cells /\
  m_Size (grow_if_full l) < m_Capacity (grow_if_full l) /\
  m_Size (grow_if_full l) = m_Size l /\
  m_FreeSize (grow_if_full l) = m_FreeSize l.
Proof.
  intros HI. unfold grow_if_full.
  destruct (m_Capacity l <=? m_Size l) eqn:E.
  - apply Nat.leb_le in E.
    pose proof (reserve_fields (m_Size l + 1) l) as (Hs & Hfs & _ & _ & Hc & _).
    split; [apply reserve_Inv, HI|]. lia.
  - apply Nat.leb_gt in E. auto.
Qed.

Lemma take_free_node_spec l cells : Inv l cells -> m_Size l < m_Capacity l ->
  exists j fs n,
    take_free_node l = Some (j, fs) /\
    m_Nodes l !! j = Some n /\ taken n = false /\
    fs + m_Size l + 1 <= m_Capacity l /\
    (m_FreeSize l = 0 -> fs = 0) /\
    forall nodes',
      (forall i n, i <> j -> m_Nodes l !! i = Some n -> taken n = false ->
                   nodes' !! i = Some n) ->
      free_ok nodes' (m_FreeNodes l) fs.
Proof.
  intros HI Hroom. unfold take_free_node.
  pose proof (inv_free _ _ HI) as [Hf1 Hf2].
  pose proof (inv_room _ _ HI) as Hr.
  destruct (m_FreeSize l =? 0) eqn:E; cbn [negb].
  - apply Nat.eqb_eq in E.
    destruct (find_untaken_spec (m_Capacity l) 0 (m_Nodes l)) as (j & n & Hj & Hn & Ht).
    { rewrite (inv_nodes _ _ HI). reflexivity. }
    { rewrite drop_0, (inv_count _ _ HI). assumption. }
    rewrite Hj. cbn. exists j, (m_FreeSize l), n.
    repeat split; try assumption; try lia; intros; lia.
  - apply Nat.eqb_neq in E.
    destruct (lookup_lt_is_Some_2 (m_FreeNodes l) (m_FreeSize l - 1)) as [j Hj].
    { rewrite (inv_free_len _ _ HI). lia. }
    rewrite Hj. cbn.
    destruct (Hf1 (m_FreeSize l - 1) j ltac:(lia) Hj) as (n & Hn & Ht).
    exists j, (m_FreeSize l - 1), n.
    split; [reflexivity|]. split; [assumption|]. split; [assumption|].
    split; [lia|]. split; [lia|].
    intros nodes' Hm. split.
    + intros p j' Hp Hj'.
      destruct (Hf1 p j' ltac:(lia) Hj') as (n' & Hn' & Ht').
      exists n'. split; [|assumption]. apply Hm; try assumption.
      intros ->. specialize (Hf2 p (m_FreeSize l - 1) j ltac:(lia) ltac:(lia) Hj' Hj). lia.
    + intros p q j' Hp Hq. apply Hf2; lia.
Qed.

(** *** [push_back] and [push_front] *)

Lemma push_first_Inv data l : Inv l [] -> zero_is_free l = false ->
  exists l', push_first data l = Some l' /\ Inv l' [(0, data)].
Proof.
  intros HI Hz. pose proof (inv_size _ _ HI) as Hs0. cbn in Hs0.
  assert (Hfr : forall p j, p < m_FreeSize l ->
            m_FreeNodes (reserve (m_Size l + 1) l) !! p = Some j -> j <> 0).
  { intros p j Hp Hj. destruct (decide (m_Size l + 1 <= m_Capacity l)) as [Hle|Hgt].
    - rewrite reserve_le in Hj by assumption. eapply zero_is_free_false; eassumption.
    - pose proof (inv_room _ _ HI). pose proof (inv_free_len _ _ HI).
      rewrite reserve_free in Hj by lia. eapply zero_is_free_false; eassumption. }
  unfold push_first.
  pose proof (reserve_Inv (m_Size l + 1) l [] HI) as HI1.
  pose proof (reserve_fields (m_Size l + 1) l) as (Hs & Hfs & _ & _ & Hc & _).
  set (l1 := reserve (m_Size l + 1) l) in *.
  destruct (lookup_lt_is_Some_2 (m_Nodes l1) 0) as [n0 Hn0].
  { rewrite (inv_nodes _ _ HI1). lia. }
  assert (Ht0 : taken n0 = false).
  { eapply count_taken_zero; [|exact Hn0]. rewrite (inv_count _ _ HI1). lia. }
  destruct (inv_clean _ _ HI1 0 n0 Hn0 Ht0) as [Hp0 Hx0].
  rewrite (upd_spec _ _ _ _ Hn0). cbn [mbind option_bind].
  eexists. split; [reflexivity|].
  destruct HI1 as [I1 I2 I3 I4 I5 I6 I7 I8 I9 I10 I11 I12].
  constructor; cbn [m_Nodes m_FreeNodes m_Size m_Capacity m_FreeSize m_FreeCapacity
                    m_Head m_Tail length]; try assumption.
  - rewrite length_insert. assumption.
  - lia.
  - pose proof (count_taken_update _ 0 n0 (set_taken (set_value data n0)) Hn0) as Hct.
    rewrite Ht0 in Hct. cbn [taken set_taken] in Hct. lia.
  - lia.
  - intros i v [= <- _]. reflexivity.
  - intros i v [= <- _]. reflexivity.
  - intros [|p] i v Hp; [|destruct p; discriminate]. injection Hp as <- <-.
    eexists. split; [apply list_lookup_insert_eq; lia|].
    cbn. auto.
  - intros j n Hj. apply list_lookup_insert_Some in Hj as [(_ & <- & _)|(_ & Hj)].
    + apply clean_taken. reflexivity.
    + eauto.
  - destruct I12 as [F1 F2]. split; [|assumption].
    intros p j Hp Hj. destruct (F1 p j Hp Hj) as (n & Hn & Ht).
    exists n. split; [|assumption].
    rewrite list_lookup_insert_ne; [assumption|].
    intros <-. rewrite Hfs in Hp. exact (Hfr p 0 Hp Hj eq_refl).
Qed.

Lemma before_app_l cells c p : p <= length cells ->
  before (cells ++ [c]) p = before cells p.
Proof.
  intros H. destruct p as [|q]; [reflexivity|]. cbn.
  rewrite lookup_app_l by lia. reflexivity.
Qed.

Lemma push_back_Inv data l cells : Inv l cells -> m_Size l <> 0 ->
  exists l' j, push_back data l = Some l' /\ Inv l' (cells ++ [(j, data)]).
Proof.
  intros HI Hs. unfold push_back.
  destruct (m_Size l =? 0) eqn:E; [apply Nat.eqb_eq in E; lia|]. clear E.
  destruct (grow_if_full_Inv l cells HI) as (HI1 & Hroom & Hs1 & Hfs1).
  set (l1 := grow_if_full l) in *. clearbody l1. clear HI.
  destruct (last_cell l1 cells HI1 ltac:(lia)) as (tv & Hlast).
  pose proof (inv_chain _ _ HI1) as Hch.
  destruct (Hch _ _ _ Hlast) as (nt & Hnt & Htt & Htv & Htb & Hta).
  rewrite Hnt. cbn [mbind option_bind].
  destruct (take_free_node_spec l1 cells HI1 Hroom)
    as (j & fs & nj & -> & Hnj & Htj & Hfs & _ & Hfree).
  cbn [mbind option_bind].
  assert (Hjt : j <> m_Tail l1) by (intros ->; congruence).
  destruct (inv_clean _ _ HI1 j nj Hnj Htj) as [Hjp Hjn].
  rewrite (upd_spec _ _ _ _ Hnj). cbn [mbind option_bind].
  erewrite upd_spec by (rewrite list_lookup_insert_ne by assumption; exact Hnt).
  cbn [mbind option_bind].
  eexists _, j. split; [reflexivity|].
  pose proof (lookup_lt_Some _ _ _ Hnj) as Hjl.
  pose proof (lookup_lt_Some _ _ _ Hnt) as Htl.
  pose proof (inv_size _ _ HI1) as Hlen.
  destruct HI1 as [I1 I2 I3 I4 I5 I6 I7 I8 I9 I10 I11 I12].
  constructor; cbn [m_Nodes m_FreeNodes m_Size m_Capacity m_FreeSize m_FreeCapacity
                    m_Head m_Tail]; try assumption.
  - rewrite !length_insert. assumption.
  - rewrite length_app. cbn. lia.
  - pose proof (count_taken_update _ j nj
        (set_taken (set_prev (m_Tail l1) true (set_value data nj))) Hnj) as Hc1.
    pose proof (count_taken_update
        (<[j := set_taken (set_prev (m_Tail l1) true (set_value data nj))]> (m_Nodes l1))
        (m_Tail l1) nt (set_next j true nt)
        ltac:(rewrite list_lookup_insert_ne by assumption; exact Hnt)) as Hc2.
    rewrite Htj in Hc1. rewrite Htt in Hc2.
    cbn [taken set_taken set_next] in Hc1, Hc2. rewrite Htt in Hc2. lia.
  - lia.
  - intros _. lia.
  - intros i v Hi. apply (I8 i v). rewrite lookup_app_l in Hi by lia. assumption.
  - intros i v Hi. rewrite length_app in Hi. cbn in Hi.
    rewrite lookup_app_r in Hi by lia.
    replace (length cells + 1 - 1 - length cells) with 0 in Hi by lia.
    cbn in Hi. congruence.
  - intros p i w Hp. apply lookup_snoc_Some in Hp as [[Hlt Hp]|[-> Heq]].
    + destruct (Hch p i w Hp) as (n & Hn & Htk & Hv & Hb & Ha).
      assert (Hij : i <> j) by (intros ->; congruence).
      destruct (decide (S p = length cells)) as [Hend|Hmid].
      * assert (i = m_Tail l1) as ->.
        { symmetry. apply (I9 i w). rewrite <- Hp. f_equal. lia. }
        assert (n = nt) as -> by congruence.
        exists (set_next j true nt).
        split; [apply list_lookup_insert_eq; rewrite length_insert; assumption|].
        cbn [taken value hasPrev prev hasNext next set_next].
        rewrite before_app_l by lia.
        repeat split; try assumption.
        unfold after. rewrite lookup_app_r by lia.
        replace (S p - length cells) with 0 by lia. cbn. auto.
      * assert (Hit : i <> m_Tail l1).
        { intros ->. pose proof (chain_inj _ _ Hch _ _ _ _ _ Hp Hlast). lia. }
        exists n. rewrite !list_lookup_insert_ne by congruence.
        rewrite before_app_l by lia.
        repeat split; try assumption.
        unfold after. rewrite lookup_app_l by lia. exact Ha.
    + injection Heq as <- <-.
      exists (set_taken (set_prev (m_Tail l1) true (set_value data nj))).
      split.
      { rewrite list_lookup_insert_ne by congruence.
        apply list_lookup_insert_eq. assumption. }
      cbn [taken value hasPrev prev hasNext next set_next set_taken set_prev set_value].
      repeat split.
      * rewrite before_app_l by lia.
        destruct (length cells) as [|q] eqn:Hq; [lia|].
        cbn. replace (S q - 1) with q in Hlast by lia. rewrite Hlast. cbn. auto.
      * unfold after. rewrite lookup_ge_None_2; [exact Hjn|].
        rewrite length_app. cbn. lia.
  - intros i n Hi.
    apply list_lookup_insert_Some in Hi as [(_ & <- & _)|(_ & Hi)].
    { apply clean_taken. exact Htt. }
    apply list_lookup_insert_Some in Hi as [(_ & <- & _)|(_ & Hi)].
    { apply clean_taken. reflexivity. }
    eauto.
  - apply Hfree. intros i n Hij Hi Hti.
    rewrite !list_lookup_insert_ne; [assumption|congruence|].
    intros <-. congruence.
Qed.

Lemma push_front_Inv data l cells : Inv l cells -> m_Size l <> 0 ->
  exists l' j, push_front data l = Some l' /\ Inv l' ((j, data) :: cells).
Proof.
  intros HI Hs. unfold push_front.
  destruct (m_Size l =? 0) eqn:E; [apply Nat.eqb_eq in E; lia|]. clear E.
  destruct (grow_if_full_Inv l cells HI) as (HI1 & Hroom & Hs1 & Hfs1).
  set (l1 := grow_if_full l) in *. clearbody l1. clear HI.
  destruct (first_cell l1 cells HI1 ltac:(lia)) as (hv & Hfirst).
  pose proof (inv_chain _ _ HI1) as Hch.
  destruct (Hch _ _ _ Hfirst) as (nh & Hnh & Hth & Hhv & Hhb & Hha).
  rewrite Hnh. cbn [mbind option_bind].
  destruct (take_free_node_spec l1 cells HI1 Hroom)
    as (j & fs & nj & -> & Hnj & Htj & Hfs & _ & Hfree).
  cbn [mbind option_bind].
  assert (Hjh : j <> m_Head l1) by (intros ->; congruence).
  destruct (inv_clean _ _ HI1 j nj Hnj Htj) as [Hjp Hjn].
  rewrite (upd_spec _ _ _ _ Hnj). cbn [mbind option_bind].
  erewrite upd_spec by (rewrite list_lookup_insert_ne by assumption; exact Hnh).
  cbn [mbind option_bind].
  eexists _, j. split; [reflexivity|].
  pose proof (lookup_lt_Some _ _ _ Hnj) as Hjl.
  pose proof (lookup_lt_Some _ _ _ Hnh) as Hhl.
  pose proof (inv_size _ _ HI1) as Hlen.
  destruct HI1 as [I1 I2 I3 I4 I5 I6 I7 I8 I9 I10 I11 I12].
  constructor; cbn [m_Nodes m_FreeNodes m_Size m_Capacity m_FreeSize m_FreeCapacity
                    m_Head m_Tail]; try assumption.
  - rewrite !length_insert. assumption.
  - cbn. lia.
  - pose proof (count_taken_update _ j nj
        (set_taken (set_next (m_Head l1) true (set_value data nj))) Hnj) as Hc1.
    pose proof (count_taken_update
        (<[j := set_taken (set_next (m_Head l1) true (set_value data nj))]> (m_Nodes l1))
        (m_Head l1) nh (set_prev j true nh)
        ltac:(rewrite list_lookup_insert_ne by assumption; exact Hnh)) as Hc2.
    rewrite Htj in Hc1. rewrite Hth in Hc2.
    cbn [taken set_taken set_prev] in Hc1, Hc2. rewrite Hth in Hc2. lia.
  - lia.
  - intros _. lia.
  - intros i v [= <- _]. reflexivity.
  - intros i v Hi. apply (I9 i v). rewrite <- Hi. cbn [length].
    replace (S (length cells) - 1) with (S (length cells - 1)) by lia. reflexivity.
  - intros [|q] i w Hp.
    + injection Hp as <- <-.
      exists (set_taken (set_next (m_Head l1) true (set_value data nj))).
      split.
      { rewrite list_lookup_insert_ne by congruence.
        apply list_lookup_insert_eq. assumption. }
      cbn [taken value hasPrev prev hasNext next set_next set_taken set_prev set_value
           before].
      repeat split; [exact Hjp|].
      change (link true (m_Head l1) (fst <$> cells !! 0)).
      rewrite Hfirst. cbn. auto.
    + change (cells !! q = Some (i, w)) in Hp.
      destruct (Hch q i w Hp) as (n & Hn & Htk & Hv & Hb & Ha).
      assert (Hij : i <> j) by (intros ->; congruence).
      destruct q as [|r].
      * assert (i = m_Head l1) as -> by congruence.
        assert (n = nh) as -> by congruence.
        exists (set_prev j true nh).
        split; [apply list_lookup_insert_eq; rewrite length_insert; assumption|].
        cbn [taken value hasPrev prev hasNext next set_prev].
        repeat split; assumption.
      * assert (Hih : i <> m_Head l1).
        { intros ->. pose proof (chain_inj _ _ Hch _ _ _ _ _ Hp Hfirst). lia. }
        exists n. rewrite !list_lookup_insert_ne by congruence.
        repeat split; assumption.
  - intros i n Hi.
    apply list_lookup_insert_Some in Hi as [(_ & <- & _)|(_ & Hi)].
    { apply clean_taken. exact Hth. }
    apply list_lookup_insert_Some in Hi as [(_ & <- & _)|(_ & Hi)].
    { apply clean_taken. reflexivity. }
    eauto.
  - apply Hfree. intros i n Hij Hi Hti.
    rewrite !list_lookup_insert_ne; [assumption|congruence|].
    intros <-. congruence.
Qed.

(** *** [pop_back] and [pop_front] *)

Lemma push_free_spec index l cells : Inv l cells -> 2 <= m_Size l ->
  push_free index l = Some (<[m_FreeSize l := index]> (m_FreeNodes l)) /\
  m_FreeSize l < length (m_FreeNodes l).
Proof.
  intros HI Hs. unfold push_free.
  pose proof (inv_room _ _ HI). pose proof (inv_free_len _ _ HI) as Hfl.
  rewrite (inv_free_cap _ _ HI).
  destruct (m_FreeSize l <? m_Capacity l) eqn:E; [|apply Nat.ltb_ge in E; lia].
  cbn [negb].
  destruct (lookup_lt_is_Some_2 (m_FreeNodes l) (m_FreeSize l)) as [x Hx]; [lia|].
  rewrite Hx. cbn. split; [reflexivity|lia].
Qed.

(** The free indices after [index], a taken node before, has been released. *)
Lemma free_ok_push nodes nodes' free fs index n n' :
  free_ok nodes free fs -> fs < length free ->
  nodes !! index = Some n -> taken n = true ->
  nodes' !! index = Some n' -> taken n' = false ->
  (forall i m, nodes !! i = Some m -> taken m = false -> nodes' !! i = Some m) ->
  free_ok nodes' (<[fs := index]> free) (fs + 1).
Proof.
  intros [F1 F2] Hfs Hn Ht Hn' Ht' Hm. split.
  - intros p j Hp Hj. destruct (decide (p = fs)) as [->|Hne].
    + rewrite list_lookup_insert_eq in Hj by assumption. injection Hj as <-. eauto.
    + rewrite list_lookup_insert_ne in Hj by congruence.
      destruct (F1 p j ltac:(lia) Hj) as (m & Hm1 & Hm2). eauto.
  - assert (Hold : forall p, p < fs -> free !! p <> Some index).
    { intros p Hp Hj. destruct (F1 p index Hp Hj) as (m & Hm1 & Hm2). congruence. }
    intros p q j Hp Hq Hpj Hqj.
    destruct (decide (p = fs)) as [->|Hpn], (decide (q = fs)) as [->|Hqn];
      try reflexivity.
    + rewrite list_lookup_insert_eq in Hpj by assumption. injection Hpj as <-.
      rewrite list_lookup_insert_ne in Hqj by congruence.
      destruct (Hold q ltac:(lia) Hqj).
    + rewrite list_lookup_insert_eq in Hqj by assumption. injection Hqj as <-.
      rewrite list_lookup_insert_ne in Hpj by congruence.
      destruct (Hold p ltac:(lia) Hpj).
    + rewrite list_lookup_insert_ne in Hpj, Hqj by congruence.
      apply (F2 p q j); try assumption; lia.
Qed.

Lemma pop_last_Inv l cells : Inv l cells -> m_Size l = 1 ->
  exists l', pop_last l = Some l' /\ Inv l' [].
Proof.
  intros HI Hs. unfold pop_last.
  destruct (first_cell l cells HI ltac:(lia)) as (hv & Hfirst).
  pose proof (inv_chain _ _ HI) as Hch.
  destruct (Hch _ _ _ Hfirst) as (nh & Hnh & Hth & _).
  rewrite (upd_spec _ _ _ _ Hnh). cbn [mbind option_bind].
  eexists. split; [reflexivity|].
  destruct HI as [I1 I2 I3 I4 I5 I6 I7 I8 I9 I10 I11 I12].
  constructor; cbn [m_Nodes m_FreeNodes m_Size m_Capacity m_FreeSize m_FreeCapacity
                    m_Head m_Tail length]; try assumption.
  - rewrite length_insert. assumption.
  - lia.
  - pose proof (count_taken_update _ _ nh (destruct_at nh) Hnh) as Hc.
    rewrite Hth in Hc. cbn [taken destruct_at] in Hc. lia.
  - lia.
  - intros i v Hi. discriminate.
  - intros i v Hi. discriminate.
  - intros p i v Hi. rewrite lookup_nil in Hi. discriminate.
  - intros j n Hj. apply list_lookup_insert_Some in Hj as [(_ & <- & _)|(_ & Hj)].
    + intros _. cbn. auto.
    + eauto.
  - eapply free_ok_mono; [| |exact I12]; [|reflexivity].
    intros i n Hi Hti. rewrite list_lookup_insert_ne; [assumption|].
    intros <-. congruence.
Qed.

Lemma pop_back_Inv l cells : Inv l cells -> 2 <= m_Size l ->
  exists l', pop_back l = Some l' /\ Inv l' (take (length cells - 1) cells).
Proof.
  intros HI Hs. unfold pop_back.
  destruct (m_Size l =? 0) eqn:E0; [apply Nat.eqb_eq in E0; lia|]. clear E0.
  destruct (m_Size l =? 1) eqn:E1; [apply Nat.eqb_eq in E1; lia|]. clear E1.
  destruct (push_free_spec (m_Tail l) l cells HI Hs) as [-> Hfl].
  cbn [mbind option_bind].
  destruct (last_cell l cells HI ltac:(lia)) as (tv & Hlast).
  pose proof (inv_chain _ _ HI) as Hch.
  pose proof (inv_size _ _ HI) as Hlen.
  destruct (Hch _ _ _ Hlast) as (nt & Hnt & Htt & Htv & Htb & Hta).
  rewrite Hnt. cbn [mbind option_bind].
  destruct (lookup_lt_is_Some_2 cells (length cells - 2)) as [[pr pv] Hpr]; [lia|].
  assert (Hprev : hasPrev nt = true /\ prev nt = pr).
  { replace (length cells - 1) with (S (length cells - 2)) in Htb by lia.
    cbn in Htb. rewrite Hpr in Htb. exact Htb. }
  destruct Hprev as [Hhp Hpp].
  destruct (Hch _ _ _ Hpr) as (np & Hnp & Htp & Hpv & Hpb & Hpa).
  assert (Hne : pr <> m_Tail l).
  { intros ->. pose proof (chain_inj _ _ Hch _ _ _ _ _ Hpr Hlast). lia. }
  rewrite Hpp. rewrite (upd_spec _ _ _ _ Hnp). cbn [mbind option_bind].
  erewrite upd_spec by (rewrite list_lookup_insert_ne by assumption; exact Hnt).
  cbn [mbind option_bind].
  eexists. split; [reflexivity|].
  pose proof (lookup_lt_Some _ _ _ Hnp) as Hpl.
  pose proof (lookup_lt_Some _ _ _ Hnt) as Htl.
  destruct HI as [I1 I2 I3 I4 I5 I6 I7 I8 I9 I10 I11 I12].
  constructor; cbn [m_Nodes m_FreeNodes m_Size m_Capacity m_FreeSize m_FreeCapacity
                    m_Head m_Tail]; try assumption.
  - rewrite !length_insert. assumption.
  - rewrite length_insert. assumption.
  - rewrite length_take_le by lia. lia.
  - pose proof (count_taken_update _ _ np (set_next 0 false np) Hnp) as Hc1.
    pose proof (count_taken_update (<[pr := set_next 0 false np]> (m_Nodes l))
        (m_Tail l) nt (destruct_at nt)
        ltac:(rewrite list_lookup_insert_ne by assumption; exact Hnt)) as Hc2.
    cbn [taken set_next destruct_at] in Hc1, Hc2. rewrite Htt in Hc2.
    destruct (taken np); lia.
  - lia.
  - intros _. lia.
  - intros i v Hi. apply (I8 i v). rewrite lookup_take_lt in Hi by lia. assumption.
  - intros i v Hi. rewrite length_take_le in Hi by lia.
    rewrite lookup_take_lt in Hi by lia.
    replace (length cells - 1 - 1) with (length cells - 2) in Hi by lia. congruence.
  - intros p i w Hp. apply lookup_take_Some in Hp as [Hp Hlt].
    destruct (Hch p i w Hp) as (n & Hn & Htk & Hv & Hb & Ha).
    assert (Hit : i <> m_Tail l).
    { intros ->. pose proof (chain_inj _ _ Hch _ _ _ _ _ Hp Hlast). lia. }
    assert (Hbe : before (take (length cells - 1) cells) p = before cells p).
    { destruct p as [|q]; [reflexivity|]. cbn. rewrite lookup_take_lt by lia. reflexivity. }
    rewrite Hbe.
    destruct (decide (p = length cells - 2)) as [->|Hmid].
    + assert (i = pr) as -> by congruence. assert (n = np) as -> by congruence.
      exists (set_next 0 false np).
      split.
      { rewrite list_lookup_insert_ne by congruence.
        apply list_lookup_insert_eq. assumption. }
      cbn [taken value hasPrev prev hasNext next set_next].
      repeat split; try assumption.
      unfold after. rewrite lookup_take_ge by lia. reflexivity.
    + assert (Hip : i <> pr).
      { intros ->. pose proof (chain_inj _ _ Hch _ _ _ _ _ Hp Hpr). lia. }
      exists n. rewrite !list_lookup_insert_ne by congruence.
      repeat split; try assumption.
      unfold after. rewrite lookup_take_lt by lia. exact Ha.
  - intros i n Hi.
    apply list_lookup_insert_Some in Hi as [(_ & <- & _)|(_ & Hi)].
    { intros _. cbn. auto. }
    apply list_lookup_insert_Some in Hi as [(_ & <- & _)|(_ & Hi)].
    { apply clean_taken. exact Htp. }
    eauto.
  - eapply (free_ok_push (m_Nodes l) _ _ _ (m_Tail l) nt (destruct_at nt));
      try eassumption; try reflexivity.
    + apply list_lookup_insert_eq. rewrite length_insert. assumption.
    + intros i m Hi Hm. rewrite !list_lookup_insert_ne; [assumption| |];
        intros <-; congruence.
Qed.

Lemma pop_front_Inv l cells : Inv l cells -> 2 <= m_Size l ->
  exists l', pop_front l = Some l' /\ Inv l' (drop 1 cells).
Proof.
  intros HI Hs. unfold pop_front.
  destruct (m_Size l =? 0) eqn:E0; [apply Nat.eqb_eq in E0; lia|]. clear E0.
  destruct (m_Size l =? 1) eqn:E1; [apply Nat.eqb_eq in E1; lia|]. clear E1.
  destruct (push_free_spec (m_Head l) l cells HI Hs) as [-> Hfl].
  cbn [mbind option_bind].
  destruct (first_cell l cells HI ltac:(lia)) as (hv & Hfirst).
  pose proof (inv_chain _ _ HI) as Hch.
  pose proof (inv_size _ _ HI) as Hlen.
  destruct (Hch _ _ _ Hfirst) as (nh & Hnh & Hth & Hhv & Hhb & Hha).
  rewrite Hnh. cbn [mbind option_bind].
  destruct (lookup_lt_is_Some_2 cells 1) as [[nx xv] Hnx]; [lia|].
  assert (Hnext : hasNext nh = true /\ next nh = nx).
  { unfold after in Hha. rewrite Hnx in Hha. exact Hha. }
  destruct Hnext as [Hhn Hnn].
  destruct (Hch _ _ _ Hnx) as (nn & Hnnx & Htn & Hxv & Hxb & Hxa).
  assert (Hne : nx <> m_Head l).
  { intros ->. pose proof (chain_inj _ _ Hch _ _ _ _ _ Hnx Hfirst). lia. }
  rewrite Hnn. rewrite (upd_spec _ _ _ _ Hnnx). cbn [mbind option_bind].
  erewrite upd_spec by (rewrite list_lookup_insert_ne by assumption; exact Hnh).
  cbn [mbind option_bind].
  eexists. split; [reflexivity|].
  pose proof (lookup_lt_Some _ _ _ Hnnx) as Hxl.
  pose proof (lookup_lt_Some _ _ _ Hnh) as Hhl.
  destruct HI as [I1 I2 I3 I4 I5 I6 I7 I8 I9 I10 I11 I12].
  constructor; cbn [m_Nodes m_FreeNodes m_Size m_Capacity m_FreeSize m_FreeCapacity
                    m_Head m_Tail]; try assumption.
  - rewrite !length_insert. assumption.
  - rewrite length_insert. assumption.
  - rewrite length_drop. lia.
  - pose proof (count_taken_update _ _ nn (set_prev 0 false nn) Hnnx) as Hc1.
    pose proof (count_taken_update (<[nx := set_prev 0 false nn]> (m_Nodes l))
        (m_Head l) nh (destruct_at nh)
        ltac:(rewrite list_lookup_insert_ne by assumption; exact Hnh)) as Hc2.
    cbn [taken set_prev destruct_at] in Hc1, Hc2. rewrite Hth in Hc2.
    destruct (taken nn); lia.
  - lia.
  - intros _. lia.
  - intros i v Hi. rewrite lookup_drop in Hi. cbn in Hi. congruence.
  - intros i v Hi. rewrite length_drop, lookup_drop in Hi. apply (I9 i v).
    rewrite <- Hi. f_equal. lia.
  - intros p i w Hp. rewrite lookup_drop in Hp. cbn [Nat.add] in Hp.
    destruct (Hch (S p) i w Hp) as (n & Hn & Htk & Hv & Hb & Ha).
    assert (Hih : i <> m_Head l).
    { intros ->. pose proof (chain_inj _ _ Hch _ _ _ _ _ Hp Hfirst). lia. }
    assert (Haf : after (drop 1 cells) p = after cells (S p)).
    { unfold after. rewrite lookup_drop. reflexivity. }
    rewrite Haf.
    destruct p as [|q].
    + assert (i = nx) as -> by congruence. assert (n = nn) as -> by congruence.
      exists (set_prev 0 false nn).
      split.
      { rewrite list_lookup_insert_ne by congruence.
        apply list_lookup_insert_eq. assumption. }
      cbn [taken value hasPrev prev hasNext next set_prev before].
      repeat split; assumption.
    + assert (Hix : i <> nx).
      { intros ->. pose proof (chain_inj _ _ Hch _ _ _ _ _ Hp Hnx). lia. }
      exists n. rewrite !list_lookup_insert_ne by congruence.
      repeat split; try assumption.
      cbn [before]. rewrite lookup_drop. exact Hb.
  - intros i n Hi.
    apply list_lookup_insert_Some in Hi as [(_ & <- & _)|(_ & Hi)].
    { intros _. cbn. auto. }
    apply list_lookup_insert_Some in Hi as [(_ & <- & _)|(_ & Hi)].
    { apply clean_taken. exact Htn. }
    eauto.
  - eapply (free_ok_push (m_Nodes l) _ _ _ (m_Head l) nh (destruct_at nh));
      try eassumption; try reflexivity.
    + apply list_lookup_insert_eq. rewrite length_insert. assumption.
    + intros i m Hi Hm. rewrite !list_lookup_insert_ne; [assumption| |];
        intros <-; congruence.
Qed.

(** *** [node_index] and [erase_index] *)

Lemma node_walk_chain nodes cells : chain nodes cells ->
  forall k p i v, cells !! p = Some (i, v) -> p + k < length cells ->
  exists i' v', node_walk k nodes i = Some i' /\ cells !! (p + k) = Some (i', v').
Proof.
  intros Hch k. induction k as [|k IH]; intros p i v Hp Hlt.
  - exists i, v. rewrite Nat.add_0_r. split; [reflexivity|assumption].
  - destruct (Hch p i v Hp) as (n & Hn & _ & _ & _ & Ha).
    destruct (lookup_lt_is_Some_2 cells (S p)) as [[i2 v2] H2]; [lia|].
    unfold after in Ha. rewrite H2 in Ha. destruct Ha as [Hh Hx].
    cbn [node_walk]. rewrite Hn. cbn [mbind option_bind]. rewrite Hh, Hx.
    destruct (IH (S p) i2 v2 H2 ltac:(lia)) as (i' & v' & Hw & Hc).
    exists i', v'. split; [assumption|].
    rewrite <- Hc. f_equal. lia.
Qed.

Lemma node_index_spec l cells k i v : Inv l cells ->
  cells !! k = Some (i, v) -> node_index k l = Some i.
Proof.
  intros HI Hk. unfold node_index.
  pose proof (lookup_lt_Some _ _ _ Hk) as Hlt.
  rewrite (inv_size _ _ HI).
  destruct (k <? length cells) eqn:E; [|apply Nat.ltb_ge in E; lia]. cbn [negb].
  destruct (first_cell l cells HI) as (hv & Hfirst).
  { rewrite (inv_size _ _ HI). lia. }
  destruct (node_walk_chain _ _ (inv_chain _ _ HI) k 0 _ _ Hfirst ltac:(lia))
    as (i' & v' & Hw & Hc).
  cbn in Hc. rewrite Hw. congruence.
Qed.

Lemma erase_mid_Inv k l cells : Inv l cells -> 0 < k -> k < m_Size l - 1 ->
  exists l', erase_index k l = Some l' /\ Inv l' (delete k cells).
Proof.
  intros HI Hk0 Hk. unfold erase_index.
  destruct (k <? m_Size l) eqn:E; [|apply Nat.ltb_ge in E; lia]. clear E.
  destruct (k =? 0) eqn:E; [apply Nat.eqb_eq in E; lia|]. clear E.
  destruct (k =? m_Size l - 1) eqn:E; [apply Nat.eqb_eq in E; lia|]. clear E.
  cbn [negb].
  pose proof (inv_chain _ _ HI) as Hch.
  pose proof (inv_size _ _ HI) as Hlen.
  destruct k as [|k0]; [lia|]. clear Hk0.
  destruct (lookup_lt_is_Some_2 cells (S k0)) as [[ik vk] Hik]; [lia|].
  destruct (lookup_lt_is_Some_2 cells k0) as [[pr pv] Hpr]; [lia|].
  destruct (lookup_lt_is_Some_2 cells (S (S k0))) as [[nx xv] Hnx]; [lia|].
  rewrite (node_index_spec l cells _ _ _ HI Hik). cbn [mbind option_bind].
  destruct (Hch _ _ _ Hik) as (nk & Hnk & Htk & Hvk & Hkb & Hka).
  destruct (Hch _ _ _ Hpr) as (np & Hnp & Htp & Hvp & Hpb & Hpa).
  destruct (Hch _ _ _ Hnx) as (nn & Hnn & Htn & Hvn & Hnb & Hna).
  cbn [before] in Hkb. rewrite Hpr in Hkb. destruct Hkb as [Hkhp Hkp].
  unfold after in Hka. rewrite Hnx in Hka. destruct Hka as [Hkhn Hkn].
  cbn [fst] in Hkp, Hkn.
  assert (Hpk : pr <> ik).
  { intros ->. pose proof (chain_inj _ _ Hch _ _ _ _ _ Hpr Hik). lia. }
  assert (Hxk : nx <> ik).
  { intros ->. pose proof (chain_inj _ _ Hch _ _ _ _ _ Hnx Hik). lia. }
  assert (Hpx : pr <> nx).
  { intros ->. pose proof (chain_inj _ _ Hch _ _ _ _ _ Hpr Hnx). lia. }
  rewrite Hnk. cbn [mbind option_bind]. rewrite Hkhn, Hkhp, Hkn, Hkp.
  rewrite (upd_spec _ _ _ _ Hnn). cbn [mbind option_bind].
  erewrite upd_spec by (rewrite list_lookup_insert_ne by congruence; exact Hnp).
  cbn [mbind option_bind].
  destruct (push_free_spec ik l cells HI ltac:(lia)) as [-> Hfl].
  cbn [mbind option_bind].
  erewrite upd_spec by (rewrite !list_lookup_insert_ne by congruence; exact Hnk).
  cbn [mbind option_bind].
  eexists. split; [reflexivity|].
  pose proof (lookup_lt_Some _ _ _ Hnp) as Hpl.
  pose proof (lookup_lt_Some _ _ _ Hnk) as Hkl.
  pose proof (lookup_lt_Some _ _ _ Hnn) as Hxl.
  destruct HI as [I1 I2 I3 I4 I5 I6 I7 I8 I9 I10 I11 I12].
  constructor; cbn [m_Nodes m_FreeNodes m_Size m_Capacity m_FreeSize m_FreeCapacity
                    m_Head m_Tail]; try assumption.
  - rewrite !length_insert. assumption.
  - rewrite length_insert. assumption.
  - rewrite length_delete by eauto. lia.
  - pose proof (count_taken_update _ _ nn (set_prev_index pr nn) Hnn) as Hc1.
    pose proof (count_taken_update (<[nx := set_prev_index pr nn]> (m_Nodes l))
        pr np (set_next_index nx np)
        ltac:(rewrite list_lookup_insert_ne by congruence; exact Hnp)) as Hc2.
    pose proof (count_taken_update
        (<[pr := set_next_index nx np]> (<[nx := set_prev_index pr nn]> (m_Nodes l)))
        ik nk (destruct_at nk)
        ltac:(rewrite !list_lookup_insert_ne by congruence; exact Hnk)) as Hc3.
    cbn [taken set_prev_index set_next_index destruct_at] in Hc1, Hc2, Hc3.
    rewrite Htk in Hc3. destruct (taken nn), (taken np); lia.
  - lia.
  - intros _. lia.
  - intros i v Hi. apply (I8 i v). rewrite list_lookup_delete_lt in Hi by lia. assumption.
  - intros i v Hi. rewrite length_delete in Hi by eauto.
    rewrite list_lookup_delete_ge in Hi by lia. apply (I9 i v).
    rewrite <- Hi. f_equal. lia.
  - intros p i w Hp.
    destruct (decide (p < S k0)) as [Hlt|Hge].
    + rewrite list_lookup_delete_lt in Hp by assumption.
      destruct (Hch p i w Hp) as (n & Hn & Htn' & Hv & Hb & Ha).
      assert (Hii : i <> ik).
      { intros ->. pose proof (chain_inj _ _ Hch _ _ _ _ _ Hp Hik). lia. }
      assert (Hix : i <> nx).
      { intros ->. pose proof (chain_inj _ _ Hch _ _ _ _ _ Hp Hnx). lia. }
      assert (Hbe : before (delete (S k0) cells) p = before cells p).
      { destruct p as [|q]; [reflexivity|]. cbn [before].
        rewrite list_lookup_delete_lt by lia. reflexivity. }
      rewrite Hbe.
      destruct (decide (p = k0)) as [->|Hmid].
      * assert (i = pr) as -> by congruence. assert (n = np) as -> by congruence.
        exists (set_next_index nx np).
        split.
        { rewrite list_lookup_insert_ne by congruence.
          apply list_lookup_insert_eq. rewrite length_insert. assumption. }
        cbn [taken value hasPrev prev hasNext next set_next_index].
        repeat split; try assumption.
        unfold after. rewrite list_lookup_delete_ge by lia. rewrite Hnx.
        unfold after in Ha. rewrite Hik in Ha. destruct Ha as [Ha _].
        cbn. auto.
      * assert (Hip : i <> pr).
        { intros ->. pose proof (chain_inj _ _ Hch _ _ _ _ _ Hp Hpr). lia. }
        exists n. rewrite !list_lookup_insert_ne by congruence.
        repeat split; try assumption.
        unfold after. rewrite list_lookup_delete_lt by lia. exact Ha.
    + rewrite list_lookup_delete_ge in Hp by lia.
      destruct (Hch (S p) i w Hp) as (n & Hn & Htn' & Hv & Hb & Ha).
      assert (Hii : i <> ik).
      { intros ->. pose proof (chain_inj _ _ Hch _ _ _ _ _ Hp Hik). lia. }
      assert (Hip : i <> pr).
      { intros ->. pose proof (chain_inj _ _ Hch _ _ _ _ _ Hp Hpr). lia. }
      assert (Haf : after (delete (S k0) cells) p = after cells (S p)).
      { unfold after. rewrite list_lookup_delete_ge by lia. reflexivity. }
      rewrite Haf.
      destruct (decide (p = S k0)) as [->|Hmid].
      * assert (i = nx) as -> by congruence. assert (n = nn) as -> by congruence.
        exists (set_prev_index pr nn).
        split.
        { rewrite !list_lookup_insert_ne by congruence.
          apply list_lookup_insert_eq. assumption. }
        cbn [taken value hasPrev prev hasNext next set_prev_index].
        repeat split; try assumption.
        cbn [before]. rewrite list_lookup_delete_lt by lia. rewrite Hpr.
        cbn [before] in Hb. rewrite Hik in Hb. destruct Hb as [Hb _].
        cbn. auto.
      * assert (Hix : i <> nx).
        { intros ->. pose proof (chain_inj _ _ Hch _ _ _ _ _ Hp Hnx). lia. }
        exists n. rewrite !list_lookup_insert_ne by congruence.
        repeat split; try assumption.
        destruct p as [|q]; [lia|]. cbn [before].
        rewrite list_lookup_delete_ge by lia. exact Hb.
  - intros i n Hi.
    apply list_lookup_insert_Some in Hi as [(_ & <- & _)|(_ & Hi)].
    { intros _. cbn. auto. }
    apply list_lookup_insert_Some in Hi as [(_ & <- & _)|(_ & Hi)].
    { apply clean_taken. exact Htp. }
    apply list_lookup_insert_Some in Hi as [(_ & <- & _)|(_ & Hi)].
    { apply clean_taken. exact Htn. }
    eauto.
  - eapply (free_ok_push (m_Nodes l) _ _ _ ik nk (destruct_at nk));
      try eassumption; try reflexivity.
    + apply list_lookup_insert_eq. rewrite !length_insert. assumption.
    + intros i m Hi Hm. rewrite !list_lookup_insert_ne; [assumption| | |];
        intros <-; congruence.
Qed.

(** *** [insert_index] *)

Lemma insert_cells_length k c1 c2 cells : k < length cells ->
  length (insert_cells k c1 c2 cells) = S (length cells).
Proof.
  intros H. unfold insert_cells.
  rewrite length_app, length_take_le by lia. cbn. rewrite length_drop. lia.
Qed.

Lemma insert_cells_lt k c1 c2 cells p : k < length cells -> p < k ->
  insert_cells k c1 c2 cells !! p = cells !! p.
Proof.
  intros H Hp. unfold insert_cells.
  rewrite lookup_app_l by (rewrite length_take_le by lia; lia).
  apply lookup_take_lt. assumption.
Qed.

Lemma insert_cells_eq k c1 c2 cells : k < length cells ->
  insert_cells k c1 c2 cells !! k = Some c1.
Proof.
  intros H. unfold insert_cells.
  rewrite lookup_app_r by (rewrite length_take_le by lia; lia).
  rewrite length_take_le by lia. rewrite Nat.sub_diag. reflexivity.
Qed.

Lemma insert_cells_S k c1 c2 cells : k < length cells ->
  insert_cells k c1 c2 cells !! S k = Some c2.
Proof.
  intros H. unfold insert_cells.
  rewrite lookup_app_r by (rewrite length_take_le by lia; lia).
  rewrite length_take_le by lia.
  replace (S k - k) with 1 by lia. reflexivity.
Qed.

Lemma insert_cells_gt k c1 c2 cells p : k < length cells -> k < p ->
  insert_cells k c1 c2 cells !! S p = cells !! p.
Proof.
  intros H Hp. unfold insert_cells.
  rewrite lookup_app_r by (rewrite length_take_le by lia; lia).
  rewrite length_take_le by lia.
  replace (S p - k) with (S (S (p - k - 1))) by lia.
  change (drop (S k) cells !! (p - k - 1) = cells !! p).
  rewrite lookup_drop. f_equal. lia.
Qed.

Lemma insert_mid_Inv k v l cells : Inv l cells -> 0 < k -> k < m_Size l ->
  m_FreeSize l = 0 \/ k = m_Size l - 1 ->
  exists l' ik vk j,
    cells !! k = Some (ik, vk) /\
    insert_index k v l = Some l' /\
    Inv l' (insert_cells k (ik, v) (j, vk) cells).
Proof.
  intros HI Hk0 Hk Hguard. unfold insert_index.
  destruct (k <=? m_Size l) eqn:E; [|apply Nat.leb_gt in E; lia]. clear E.
  destruct (k =? 0) eqn:E; [apply Nat.eqb_eq in E; lia|]. clear E.
  destruct (k =? m_Size l) eqn:E; [apply Nat.eqb_eq in E; lia|]. clear E.
  cbn [negb].
  destruct (grow_if_full_Inv l cells HI) as (HI1 & Hroom & Hs1 & Hfs1).
  set (l1 := grow_if_full l) in *. clearbody l1. clear HI.
  rewrite <- Hs1 in Hk, Hguard. rewrite <- Hfs1 in Hguard. clear Hs1 Hfs1.
  pose proof (inv_chain _ _ HI1) as Hch.
  pose proof (inv_size _ _ HI1) as Hlen.
  destruct k as [|k0]; [lia|]. clear Hk0.
  destruct (lookup_lt_is_Some_2 cells (S k0)) as [[ik vk] Hik]; [lia|].
  destruct (lookup_lt_is_Some_2 cells k0) as [[pr pv] Hpr]; [lia|].
rewrite (node_index_spec l1 cells _ _ _ HI1 Hik). cbn [mbind option_bind].
  destruct (Hch _ _ _ Hik) as (nk & Hnk & Htk & Hvk & Hkb & Hka).
  rewrite Hnk. cbn [mbind option_bind].
  destruct (take_free_node_spec l1 cells HI1 Hroom)
    as (j & fs & nj & -> & Hnj & Htj & Hfs & _ & Hfree).
  cbn [mbind option_bind].
  assert (Hjk : j <> ik) by (intros ->; congruence).
  assert (H0 : exists nodes0,
     (if (m_FreeSize l1 =? 0) && hasNext nk
      then upd (next nk) (set_prev_index j) (m_Nodes l1)
      else Some (m_Nodes l1)) = Some nodes0 /\
     length nodes0 = length (m_Nodes l1) /\
     count_taken nodes0 = count_taken (m_Nodes l1) /\
     (forall i, (forall xv, cells !! S (S k0) <> Some (i, xv)) ->
        nodes0 !! i = m_Nodes l1 !! i) /\
     (forall nx xv, cells !! S (S k0) = Some (nx, xv) ->
        exists nn, m_Nodes l1 !! nx = Some nn /\ taken nn = true /\
                   nodes0 !! nx = Some (set_prev_index j nn)) /\
     (forall i n, nodes0 !! i = Some n -> clean n) /\
     (forall i n, m_Nodes l1 !! i = Some n -> taken n = false -> nodes0 !! i = Some n)).
  { destruct (cells !! S (S k0)) as [[nx xv]|] eqn:Hnx.
    - assert (Hz : m_FreeSize l1 = 0) by (apply lookup_lt_Some in Hnx; lia).
      unfold after in Hka. rewrite Hnx in Hka. destruct Hka as [Hh Hn].
      cbn [fst] in Hn.
      rewrite Hz, Hh. cbn [Nat.eqb andb]. rewrite Hn.
      destruct (Hch _ _ _ Hnx) as (nn & Hnn & Htn & _).
      rewrite (upd_spec _ _ _ _ Hnn). eexists. split; [reflexivity|].
      split; [apply length_insert|]. split.
      { pose proof (count_taken_update _ _ nn (set_prev_index j nn) Hnn) as Hc.
        cbn [taken set_prev_index] in Hc. destruct (taken nn); lia. }
      split.
      { intros i Hi. apply list_lookup_insert_ne. intros <-. exact (Hi xv eq_refl). }
      split.
      { intros nx' xv' [= <- <-]. exists nn. split; [assumption|]. split; [assumption|].
        apply list_lookup_insert_eq. eapply lookup_lt_Some; eassumption. }
      split.
      { intros i n Hi. apply list_lookup_insert_Some in Hi as [(_ & <- & _)|(_ & Hi)].
        - apply clean_taken. exact Htn.
        - exact (inv_clean _ _ HI1 i n Hi). }
      { intros i n Hi Hti. rewrite list_lookup_insert_ne; [assumption|].
        intros <-. congruence. }
    - unfold after in Hka. rewrite Hnx in Hka. cbn in Hka.
      rewrite Hka, andb_false_r.
      eexists. split; [reflexivity|].
      split; [reflexivity|]. split; [reflexivity|].
      split; [reflexivity|]. split; [discriminate|].
      split; [exact (inv_clean _ _ HI1)|]. auto. }
  destruct H0 as (nodes0 & -> & Hl0 & Hc0 & Hsame & Hfix & Hclean0 & Hfree0).
  cbn [mbind option_bind].
  assert (Hk0 : nodes0 !! ik = Some nk).
  { rewrite Hsame; [assumption|]. intros xv Hx.
    pose proof (chain_inj _ _ Hch _ _ _ _ _ Hx Hik). lia. }
  assert (Hj0 : nodes0 !! j = Some nj) by (apply Hfree0; assumption).
  rewrite Hk0. cbn [mbind option_bind].
  rewrite (upd_spec _ _ _ _ Hj0). cbn [mbind option_bind]. cbn beta.
  erewrite upd_spec by (rewrite list_lookup_insert_ne by assumption; exact Hk0).
  cbn [mbind option_bind].
  eexists _, ik, vk, j. split; [exact Hik|]. split; [reflexivity|].
  pose proof (lookup_lt_Some _ _ _ Hj0) as Hjl.
  pose proof (lookup_lt_Some _ _ _ Hk0) as Hkl.
  assert (Hlt : S k0 < length cells) by lia.
  destruct HI1 as [I1 I2 I3 I4 I5 I6 I7 I8 I9 I10 I11 I12].
  constructor; cbn [m_Nodes m_FreeNodes m_Size m_Capacity m_FreeSize m_FreeCapacity
                    m_Head m_Tail]; try assumption.
  - rewrite !length_insert. lia.
  - rewrite insert_cells_length by assumption. lia.
  - pose proof (count_taken_update _ _ nj (set_taken (set_prev ik true nk)) Hj0) as Hc1.
    pose proof (count_taken_update (<[j := set_taken (set_prev ik true nk)]> nodes0)
        ik nk (set_next j true (set_value v nk))
        ltac:(rewrite list_lookup_insert_ne by assumption; exact Hk0)) as Hc2.
    rewrite Htj in Hc1. rewrite Htk in Hc2.
    cbn [taken set_taken set_next set_value] in Hc1, Hc2. rewrite Htk in Hc2. lia.
  - lia.
  - intros _. lia.
  - intros i w Hi. rewrite insert_cells_lt in Hi by lia. eauto.
  - intros i w Hi. rewrite insert_cells_length in Hi by assumption.
    replace (S (length cells) - 1) with (length cells) in Hi by lia.
    destruct (S k0 =? m_Size l1 - 1) eqn:E.
    + apply Nat.eqb_eq in E.
      replace (length cells) with (S (S k0)) in Hi by lia.
      rewrite insert_cells_S in Hi by assumption. congruence.
    + apply Nat.eqb_neq in E.
      destruct (length cells) as [|m] eqn:Hm; [lia|].
      rewrite insert_cells_gt in Hi by lia.
      apply (I9 i w). rewrite <- Hi. f_equal. lia.
  - intros p i w Hp.
    destruct (lt_eq_lt_dec p (S k0)) as [[Hplt| ->]|Hpgt].
    + rewrite insert_cells_lt in Hp by lia.
      destruct (Hch p i w Hp) as (n & Hn & Htn & Hv & Hb & Ha).
      assert (Hii : i <> ik).
      { intros ->. pose proof (chain_inj _ _ Hch _ _ _ _ _ Hp Hik). lia. }
      assert (Hij : i <> j) by (intros ->; congruence).
      exists n. rewrite !list_lookup_insert_ne by congruence.
      rewrite Hsame.
      2:{ intros xv Hx. pose proof (chain_inj _ _ Hch _ _ _ _ _ Hp Hx). lia. }
      repeat split; try assumption.
      * destruct p as [|q]; [exact Hb|]. cbn [before].
        rewrite insert_cells_lt by lia. exact Hb.
      * unfold after. destruct (decide (S p = S k0)) as [Heq|Hne].
        -- rewrite Heq, insert_cells_eq by assumption.
           unfold after in Ha. rewrite Heq, Hik in Ha. exact Ha.
        -- rewrite insert_cells_lt by lia. exact Ha.
    + rewrite insert_cells_eq in Hp by assumption. injection Hp as <- <-.
      exists (set_next j true (set_value v nk)).
      split; [apply list_lookup_insert_eq; rewrite length_insert; assumption|].
      cbn [taken value hasPrev prev hasNext next set_next set_value].
      repeat split; try assumption.
      * cbn [before]. rewrite insert_cells_lt by lia. exact Hkb.
      * unfold after. rewrite insert_cells_S by assumption. cbn. auto.
    + destruct p as [|p0]; [lia|].
      destruct (decide (p0 = S k0)) as [->|Hne].
      * rewrite insert_cells_S in Hp by assumption. injection Hp as <- <-.
        exists (set_taken (set_prev ik true nk)).
        split.
        { rewrite list_lookup_insert_ne by congruence.
          apply list_lookup_insert_eq. assumption. }
        cbn [taken value hasPrev prev hasNext next set_taken set_prev].
        repeat split; try assumption.
        -- cbn [before]. rewrite insert_cells_eq by assumption. cbn. auto.
        -- unfold after. rewrite insert_cells_gt by lia. exact Hka.
      * rewrite insert_cells_gt in Hp by lia.
        destruct (Hch p0 i w Hp) as (n & Hn & Htn & Hv & Hb & Ha).
        assert (Hii : i <> ik).
        { intros ->. pose proof (chain_inj _ _ Hch _ _ _ _ _ Hp Hik). lia. }
        assert (Hij : i <> j) by (intros ->; congruence).
        assert (Haf : after (insert_cells (S k0) (ik, v) (j, vk) cells) (S p0)
                      = after cells p0).
        { unfold after. rewrite insert_cells_gt by lia. reflexivity. }
        rewrite Haf.
        destruct (decide (p0 = S (S k0))) as [->|Hfar].
        -- destruct (Hfix i w Hp) as (nn & Hnn & Htnn & Hnn0).
           assert (n = nn) as -> by congruence.
           exists (set_prev_index j nn).
           rewrite !list_lookup_insert_ne by congruence.
           split; [assumption|].
           cbn [taken value hasPrev prev hasNext next set_prev_index].
           cbn [before]. rewrite insert_cells_S by assumption.
           cbn [before] in Hb. rewrite Hik in Hb. destruct Hb as [Hb _].
           split; [assumption|]. split; [assumption|].
           split; [split; [assumption|reflexivity]|assumption].
        -- exists n. rewrite !list_lookup_insert_ne by congruence.
           rewrite Hsame.
           2:{ intros xv Hx. pose proof (chain_inj _ _ Hch _ _ _ _ _ Hp Hx). lia. }
           repeat split; try assumption.
           destruct p0 as [|p1]; [lia|]. cbn [before].
           rewrite insert_cells_gt by lia. exact Hb.
  - intros i n Hi.
    apply list_lookup_insert_Some in Hi as [(_ & <- & _)|(_ & Hi)].
    { apply clean_taken. exact Htk. }
    apply list_lookup_insert_Some in Hi as [(_ & <- & _)|(_ & Hi)].
    { apply clean_taken. reflexivity. }
    eauto.
  - apply Hfree. intros i n Hij Hi Hti.
    rewrite !list_lookup_insert_ne; [auto|congruence|].
    intros <-. congruence.
Qed.

(** *** Every operation keeps the invariant *)

Lemma Inv_nil l cells : Inv l cells -> m_Size l = 0 -> cells = [].
Proof.
  intros HI Hs. rewrite (inv_size _ _ HI) in Hs. destruct cells; [reflexivity|discriminate].
Qed.

Lemma push_back_total data l cells : Inv l cells -> push_ok l = true ->
  exists l' j, push_back data l = Some l' /\ Inv l' (cells ++ [(j, data)]).
Proof.
  intros HI Hok. destruct (decide (m_Size l = 0)) as [Hz|Hnz].
  - pose proof (Inv_nil l cells HI Hz) as ->.
    unfold push_ok in Hok. unfold push_back. rewrite Hz in *. cbn [Nat.eqb andb] in *.
    apply negb_true_iff in Hok.
    destruct (push_first_Inv data l HI Hok) as (l' & Hl' & HI').
    exists l', 0. split; assumption.
  - apply push_back_Inv; assumption.
Qed.

Lemma push_front_total data l cells : Inv l cells -> push_ok l = true ->
  exists l' j, push_front data l = Some l' /\ Inv l' ((j, data) :: cells).
Proof.
  intros HI Hok. destruct (decide (m_Size l = 0)) as [Hz|Hnz].
  - pose proof (Inv_nil l cells HI Hz) as ->.
    unfold push_ok in Hok. unfold push_front. rewrite Hz in *. cbn [Nat.eqb andb] in *.
    apply negb_true_iff in Hok.
    destruct (push_first_Inv data l HI Hok) as (l' & Hl' & HI').
    exists l', 0. split; assumption.
  - apply push_front_Inv; assumption.
Qed.

Lemma pop_back_total l cells : Inv l cells ->
  exists l', pop_back l = Some l' /\ Inv l' (take (length cells - 1) cells).
Proof.
  intros HI. pose proof (inv_size _ _ HI) as Hlen.
  destruct (decide (m_Size l = 0)) as [Hz|Hnz].
  - pose proof (Inv_nil l cells HI Hz) as ->.
    unfold pop_back. rewrite Hz. cbn. eauto.
  - destruct (decide (m_Size l = 1)) as [H1|Hn1].
    + destruct (pop_last_Inv l cells HI H1) as (l' & Hl' & HI').
      unfold pop_back. rewrite H1. cbn [Nat.eqb].
      rewrite <- Hlen, H1. cbn. eauto.
    + apply pop_back_Inv; [assumption|lia].
Qed.

Lemma pop_front_total l cells : Inv l cells ->
  exists l', pop_front l = Some l' /\ Inv l' (drop 1 cells).
Proof.
  intros HI. pose proof (inv_size _ _ HI) as Hlen.
  destruct (decide (m_Size l = 0)) as [Hz|Hnz].
  - pose proof (Inv_nil l cells HI Hz) as ->.
    unfold pop_front. rewrite Hz. cbn. eauto.
  - destruct (decide (m_Size l = 1)) as [H1|Hn1].
    + destruct (pop_last_Inv l cells HI H1) as (l' & Hl' & HI').
      unfold pop_front. rewrite H1. cbn [Nat.eqb].
      rewrite drop_ge by lia. eauto.
    + apply pop_front_Inv; [assumption|lia].
Qed.

Lemma fmap_delete_cells k (cells : list (nat * T)) :
  (delete k cells).*2 = delete k (cells.*2).
Proof. rewrite !delete_take_drop, fmap_app, fmap_take, fmap_drop. reflexivity. Qed.

Lemma list_step_Inv op l cells : Inv l cells -> op_ok op l = true ->
  exists l' cells', list_step op l = Some l' /\ Inv l' cells' /\
                    cells'.*2 = model_step op (cells.*2).
Proof.
  intros HI Hok. pose proof (inv_size _ _ HI) as Hlen.
  destruct op as [v|v|k v|k| | |n]; cbn [list_step model_step op_ok] in *.
  - destruct (push_back_total v l cells HI Hok) as (l' & j & Hl' & HI').
    exists l', (cells ++ [(j, v)]). rewrite fmap_app. auto.
  - destruct (push_front_total v l cells HI Hok) as (l' & j & Hl' & HI').
    exists l', ((j, v) :: cells). auto.
  - apply andb_true_iff in Hok as [Hle Hok]. apply Nat.leb_le in Hle.
    destruct (decide (k = 0)) as [->|Hk0].
    { cbn [Nat.eqb orb] in Hok.
      destruct (push_front_total v l cells HI Hok) as (l' & j & Hl' & HI').
      exists l', ((j, v) :: cells). unfold insert_index.
      cbn [Nat.leb negb Nat.eqb]. rewrite take_0, drop_0. auto. }
    destruct (decide (k = m_Size l)) as [->|Hks].
    { rewrite Nat.eqb_refl, orb_true_r in Hok.
      destruct (push_back_total v l cells HI Hok) as (l' & j & Hl' & HI').
      exists l', (cells ++ [(j, v)]). unfold insert_index.
      rewrite Nat.leb_refl, Nat.eqb_refl. cbn [negb].
      destruct (m_Size l =? 0) eqn:E; [apply Nat.eqb_eq in E; lia|].
      rewrite fmap_app, take_ge, drop_ge by (rewrite length_fmap; lia). auto. }
    destruct (k =? 0) eqn:E0; [apply Nat.eqb_eq in E0; lia|].
    destruct (k =? m_Size l) eqn:E1; [apply Nat.eqb_eq in E1; lia|].
    cbn [orb] in Hok.
    destruct (insert_mid_Inv k v l cells HI ltac:(lia) ltac:(lia))
      as (l' & ik & vk & j & Hik & Hl' & HI').
    { apply orb_true_iff in Hok as [H|H]; apply Nat.eqb_eq in H; auto. }
    exists l', (insert_cells k (ik, v) (j, vk) cells).
    split; [assumption|]. split; [assumption|].
    unfold insert_cells. rewrite fmap_app, fmap_take. cbn [fmap list_fmap snd].
    rewrite fmap_drop. f_equal. f_equal.
    symmetry. apply drop_S. rewrite list_lookup_fmap, Hik. reflexivity.
  - apply Nat.ltb_lt in Hok. unfold erase_index.
    destruct (k <? m_Size l) eqn:E; [|apply Nat.ltb_ge in E; lia]. cbn [negb]. clear E.
    destruct (decide (k = 0)) as [->|Hk0].
    { cbn [Nat.eqb].
      destruct (pop_front_total l cells HI) as (l' & Hl' & HI').
      exists l', (drop 1 cells). rewrite fmap_drop.
      destruct (cells.*2); auto. }
    destruct (k =? 0) eqn:E0; [apply Nat.eqb_eq in E0; lia|].
    destruct (decide (k = m_Size l - 1)) as [->|Hks].
    { rewrite Nat.eqb_refl.
      destruct (pop_back_total l cells HI) as (l' & Hl' & HI').
      exists l', (take (length cells - 1) cells).
      rewrite fmap_take, delete_take_drop, drop_ge, app_nil_r
        by (rewrite length_fmap; lia).
      rewrite Hlen. auto. }
    destruct (k =? m_Size l - 1) eqn:E1; [apply Nat.eqb_eq in E1; lia|].
    destruct (erase_mid_Inv k l cells HI ltac:(lia) ltac:(lia)) as (l' & Hl' & HI').
    unfold erase_index in Hl'.
    destruct (k <? m_Size l) eqn:E; [|apply Nat.ltb_ge in E; lia].
    rewrite E0, E1 in Hl'. cbn [negb] in Hl'.
    exists l', (delete k cells). rewrite fmap_delete_cells. auto.
  - destruct (pop_back_total l cells HI) as (l' & Hl' & HI').
    exists l', (take (length cells - 1) cells).
    rewrite fmap_take, length_fmap. auto.
  - destruct (pop_front_total l cells HI) as (l' & Hl' & HI').
    exists l', (drop 1 cells). rewrite fmap_drop. auto.
  - exists (reserve n l), cells. split; [reflexivity|].
    split; [apply reserve_Inv; assumption|reflexivity].
Qed.

Lemma list_run_Inv ops : forall l cells, Inv l cells -> run_ok ops l = true ->
  exists l' cells', list_run ops l = Some l' /\ Inv l' cells' /\
                    cells'.*2 = model_run ops (cells.*2).
Proof.
  induction ops as [|op ops IH]; intros l cells HI Hok.
  - exists l, cells. auto.
  - cbn [run_ok] in Hok. apply andb_true_iff in Hok as [Hop Hok].
    destruct (list_step_Inv op l cells HI Hop) as (l1 & cells1 & Hl1 & HI1 & Hv1).
    rewrite Hl1 in Hok.
    destruct (IH l1 cells1 HI1 Hok) as (l' & cells' & Hl' & HI' & Hv').
    exists l', cells'. cbn [list_run model_run foldl]. rewrite Hl1. cbn.
    rewrite <- Hv1. auto.
Qed.

Lemma Inv_empty_list : Inv empty [].
Proof.
  constructor; cbn [empty m_Nodes m_FreeNodes m_Size m_Capacity m_FreeSize
                    m_FreeCapacity m_Head m_Tail length count_taken];
    try reflexivity; try lia.
  - intros i v H. rewrite lookup_nil in H. discriminate.
  - intros i v H. rewrite lookup_nil in H. discriminate.
  - intros p i v H. rewrite lookup_nil in H. discriminate.
  - intros j n H. rewrite lookup_nil in H. discriminate.
  - split; intros; lia.
Qed.

(** *** What the invariant says of the walks *)

Lemma walk_next_chain nodes cells : chain nodes cells ->
  forall fuel p i v, cells !! p = Some (i, v) -> length cells - p <= fuel ->
  walk fuel nodes next_link i = Some (drop p cells).*1.
Proof.
  intros Hch fuel. induction fuel as [|fuel IH]; intros p i v Hp Hf.
  - apply lookup_lt_Some in Hp. lia.
  - destruct (Hch p i v Hp) as (n & Hn & _ & _ & _ & Ha).
    cbn [walk]. rewrite Hn. cbn [mbind option_bind].
    rewrite (drop_S _ _ _ Hp). cbn [fmap list_fmap fst].
    unfold after in Ha.
    destruct (cells !! S p) as [[i2 v2]|] eqn:H2; cbn in Ha.
    + assert (next_link n = Some i2) as ->.
      { unfold next_link. destruct Ha as [-> ->]. reflexivity. }
      rewrite (IH (S p) i2 v2 H2 ltac:(lia)). reflexivity.
    + assert (next_link n = None) as -> by (unfold next_link; rewrite Ha; reflexivity).
      apply lookup_ge_None in H2. rewrite drop_ge by lia. reflexivity.
Qed.

Lemma walk_prev_chain nodes cells : chain nodes cells ->
  forall fuel p i v, cells !! p = Some (i, v) -> p < fuel ->
  walk fuel nodes prev_link i = Some (rev (take (S p) cells).*1).
Proof.
  intros Hch fuel. induction fuel as [|fuel IH]; intros p i v Hp Hf; [lia|].
  destruct (Hch p i v Hp) as (n & Hn & _ & _ & Hb & _).
  cbn [walk]. rewrite Hn. cbn [mbind option_bind].
  rewrite (take_S_r _ _ _ Hp), fmap_app, rev_app_distr. cbn [fmap list_fmap fst rev app].
  destruct p as [|q]; cbn [before] in Hb.
  - assert (prev_link n = None) as -> by (unfold prev_link; cbn in Hb; rewrite Hb; reflexivity).
    reflexivity.
  - destruct (cells !! q) as [[i0 v0]|] eqn:Hq.
    2:{ apply lookup_ge_None in Hq. apply lookup_lt_Some in Hp. lia. }
    cbn in Hb.
    assert (prev_link n = Some i0) as ->.
    { unfold prev_link. destruct Hb as [-> ->]. reflexivity. }
    rewrite (IH q i0 v0 Hq ltac:(lia)). reflexivity.
Qed.

Lemma Inv_walks l cells : Inv l cells ->
  walk_next l = Some cells.*1 /\
  walk_prev l = Some (rev cells.*1) /\
  NoDup cells.*1 /\
  values_at (m_Nodes l) cells.*1 = Some <$> cells.*2.
Proof.
  intros HI. pose proof (inv_chain _ _ HI) as Hch.
  pose proof (inv_size _ _ HI) as Hlen. pose proof (inv_room _ _ HI) as Hroom.
  unfold walk_next, walk_prev.
  split; [|split; [|split]].
  - destruct (m_Size l =? 0) eqn:E.
    + apply Nat.eqb_eq in E. rewrite (Inv_nil l cells HI E). reflexivity.
    + apply Nat.eqb_neq in E.
      destruct (first_cell l cells HI E) as (hv & Hfirst).
      rewrite (walk_next_chain _ _ Hch _ 0 _ _ Hfirst) by lia.
      rewrite drop_0. reflexivity.
  - destruct (m_Size l =? 0) eqn:E.
    + apply Nat.eqb_eq in E. rewrite (Inv_nil l cells HI E). reflexivity.
    + apply Nat.eqb_neq in E.
      destruct (last_cell l cells HI E) as (tv & Hlast).
      rewrite (walk_prev_chain _ _ Hch _ _ _ _ Hlast) by lia.
      rewrite take_ge by lia. reflexivity.
  - apply NoDup_alt. intros p q i Hp Hq.
    rewrite list_lookup_fmap in Hp, Hq.
    destruct (cells !! p) as [[i1 v1]|] eqn:Hp1; [|discriminate].
    destruct (cells !! q) as [[i2 v2]|] eqn:Hq1; [|discriminate].
    cbn in Hp, Hq. injection Hp as ->. injection Hq as ->.
    exact (chain_inj _ _ Hch _ _ _ _ _ Hp1 Hq1).
  - unfold values_at. apply list_eq. intros p.
    rewrite !list_lookup_fmap.
    destruct (cells !! p) as [[i v]|] eqn:Hp; [|reflexivity].
    cbn. destruct (Hch p i v Hp) as (n & -> & _ & <- & _). reflexivity.
Qed.

(** C6, for the uses of the list the code supports.  Raw node storage
    has its flags clear.  Take a sequence of [push_back], [push_front],
    [insert_index], [erase_index], [pop_back], [pop_front] and [reserve]
    in which an element is pushed onto an empty list only while index 0 is
    not among the free indices, and [insert_index] strictly inside the
    list, when there are free indices, is at the last position.  Then
    every operation returns, and in the end the number of taken nodes is
    [size()], the free indices are at most [capacity - size()], the walk
    from head through [next] visits [size()] distinct nodes, whose elements
    are those of the sequence in order, and the walk from tail through
    [prev] visits the same nodes in reverse. *)
Theorem arena_list_invariant ops : run_ok ops empty = true ->
  exists l idxs,
    list_run ops empty = Some l /\
    count_taken (m_Nodes l) = m_Size l /\
    m_FreeSize l + m_Size l <= m_Capacity l /\
    walk_next l = Some idxs /\
    length idxs = m_Size l /\
    NoDup idxs /\
    values_at (m_Nodes l) idxs = Some <$> model_run ops [] /\
    walk_prev l = Some (rev idxs).
Proof.
  intros Hok.
  destruct (list_run_Inv ops empty [] Inv_empty_list Hok) as (l & cells & Hl & HI & Hv).
  destruct (Inv_walks l cells HI) as (Hn & Hp & Hd & Hval).
  change (cells.*2 = model_run ops []) in Hv.
  exists l, cells.*1. rewrite <- Hv.
  repeat split; try assumption.
  - exact (inv_count _ _ HI).
  - exact (inv_room _ _ HI).
  - rewrite length_fmap. symmetry. exact (inv_size _ _ HI).
Qed.
End ArenaList.

(** *** Lists of integers, on two kinds of raw storage *)

(** Storage that comes zeroed. *)
Definition zero_storage (i : nat) : LvnLinkedIndexNode Z :=
  {| next := 0; prev := 0; hasPrev := false; hasNext := false; taken := false;
     value := 0 |}.

(** Storage that comes with a stale [hasNext] flag. *)
Definition stale_storage (i : nat) : LvnLinkedIndexNode Z :=
  {| next := 0; prev := 0; hasPrev := false; hasNext := true; taken := false;
     value := 0 |}.

Definition all_operations : list (ListOp Z) :=
  [PushBack Z 1; PushBack Z 2; PushFront Z 0; InsertIndex Z 1 5; EraseIndex Z 2;
   PopFront Z; PopBack Z; Reserve Z 8; PushBack Z 7; InsertIndex Z 1 6].

(** C6 as stated fails, in four ways.
    - After [reserve(4)] on the empty list the capacity is 4 and there is
      no free index: [reserve] adds none, the scan finds the new nodes.
    - Push two elements, pop both from the front, push two more: the first
      pop released node 0, the second emptied the list, and the next push
      took node 0 while it was still among the free indices; the last push
      takes it again.  The size is 2, one node is taken, and the walk along
      [next] does not end.
    - Push four elements, pop one, insert at index 1: the new node comes
      from the free indices, and the node after it still names the old
      node as [prev]; the walk along [prev] misses a node.
    - On storage with a stale [hasNext] flag, one [push_back] gives a list
      whose walk along [next] does not end. *)
Lemma arena_list_invariant_fails :
  (exists l, list_run Z zero_storage [Reserve Z 4] (empty Z) = Some l /\
             m_FreeSize Z l <> (m_Capacity Z l - m_Size Z l)%nat) /\
  (exists l, list_run Z zero_storage
               [PushBack Z 1; PushBack Z 2; PopFront Z; PopFront Z;
                PushBack Z 3; PushBack Z 4] (empty Z) = Some l /\
             m_Size Z l = 2%nat /\ count_taken Z (m_Nodes Z l) = 1%nat /\
             walk_next Z l = None) /\
  (exists l, list_run Z zero_storage
               [PushBack Z 1; PushBack Z 2; PushBack Z 3; PushBack Z 4;
                PopBack Z; InsertIndex Z 1 9] (empty Z) = Some l /\
             walk_next Z l = Some [0; 1; 3; 2]%nat /\
             walk_prev Z l = Some [2; 1; 0]%nat) /\
  (exists l, list_run Z stale_storage [PushBack Z 1] (empty Z) = Some l /\
             m_Size Z l = 1%nat /\ walk_next Z l = None).
Proof.
  repeat split.
  - eexists. split; [vm_compute; reflexivity|]. vm_compute. discriminate.
  - eexists. split; [vm_compute; reflexivity|]. repeat split.
  - eexists. split; [vm_compute; reflexivity|]. repeat split.
  - eexists. split; [vm_compute; reflexivity|]. repeat split.
Qed.

Lemma arena_list_invariant_witness :
  run_ok Z zero_storage all_operations (empty Z) = true /\
  exists l idxs,
    list_run Z zero_storage all_operations (empty Z) = Some l /\
    count_taken Z (m_Nodes Z l) = m_Size Z l /\
    (m_FreeSize Z l + m_Size Z l <= m_Capacity Z l)%nat /\
    walk_next Z l = Some idxs /\
    length idxs = m_Size Z l /\
    NoDup idxs /\
    values_at Z (m_Nodes Z l) idxs = Some <$> model_run Z all_operations [] /\
    walk_prev Z l = Some (rev idxs).
Proof.
  split; [vm_compute; reflexivity|].
  apply (arena_list_invariant Z zero_storage).
  - intros i. repeat split.
  - vm_compute. reflexivity.
Defined.

End ArenaList.


(** ** [LvnArenaList]: element access, the arrays, and [LvnQueue] *)

Module ArenaListAccess.

Import ArenaList.

Section ArenaListAccess.

Variable T : Type.
Variable fresh_node : nat -> LvnLinkedIndexNode T.

Local Open Scope nat_scope.

(** [T& front()]; [None] when the assertion [m_Size] fails. *)
Definition front (l : LvnArenaList T) : option T :=
  if (m_Size T l =? 0)%nat then None
  else n ← m_Nodes T l !! m_Head T l; Some (value T n).

(** [T& back()]; [None] when the assertion [m_Size] fails. *)
Definition back (l : LvnArenaList T) : option T :=
  if (m_Size T l =? 0)%nat then None
  else n ← m_Nodes T l !! m_Tail T l; Some (value T n).

(** [LvnQueue<T>] over its default container. *)
Record LvnQueue := { m_Container : LvnArenaList T }.

(** [LvnQueue(const T* data, size_t size)] *)
Definition LvnQueue_new (data : list T) : option LvnQueue :=
  c ← foldl (fun c x => c ≫= push_back T fresh_node x)
            (Some (reserve T fresh_node (length data) (empty T))) data;
  Some {| m_Container := c |}.

(** [void push(const T& value)] *)
Definition queue_push (value : T) (q : LvnQueue) : option LvnQueue :=
  c ← push_back T fresh_node value (m_Container q); Some {| m_Container := c |}.

(** [void pop()] *)
Definition queue_pop (q : LvnQueue) : option LvnQueue :=
  c ← pop_front T (m_Container q); Some {| m_Container := c |}.

Definition queue_size (q : LvnQueue) : nat := m_Size T (m_Container q).
Definition queue_front (q : LvnQueue) : option T := front (m_Container q).
Definition queue_back (q : LvnQueue) : option T := back (m_Container q).

(** [n] calls of an operation that may fail. *)
Fixpoint repeat_op {A} (n : nat) (f : A -> option A) (a : A) : option A :=
  match n with
  | O => Some a
  | S n' => a' ← f a; repeat_op n' f a'
  end.

(** The arrays of a list are as long as its capacity says: the source's
    note that [m_FreeCapacity] is always [m_Capacity]. *)
Definition sized (l : LvnArenaList T) : Prop :=
  m_FreeCapacity T l = m_Capacity T l /\
  length (m_Nodes T l) = m_Capacity T l /\
  length (m_FreeNodes T l) = m_Capacity T l.

Lemma upd_length i f (nodes nodes' : list (LvnLinkedIndexNode T)) :
  upd T i f nodes = Some nodes' -> length nodes' = length nodes.
Proof.
  unfold upd. destruct (nodes !! i); cbn; [|discriminate].
  intros [= <-]. apply length_insert.
Qed.

Lemma reserve_sized size l :
  sized l -> sized (reserve T fresh_node size l) /\
             m_Capacity T l <= m_Capacity T (reserve T fresh_node size l).
Proof.
  intros (H1 & H2 & H3). unfold sized, reserve.
  destruct (size <=? m_Capacity T l) eqn:E; [auto|].
  apply Nat.leb_gt in E. cbn.
  rewrite !for_range_copy_length, length_fmap, length_seq, length_replicate.
  repeat split; lia.
Qed.

Lemma grow_if_full_sized l :
  sized l -> sized (grow_if_full T fresh_node l) /\
             m_Capacity T l <= m_Capacity T (grow_if_full T fresh_node l).
Proof.
  intros H. unfold grow_if_full. destruct (_ <=? _); [apply reserve_sized, H|auto].
Qed.

Lemma push_free_length index l free :
  push_free T index l = Some free -> length free = length (m_FreeNodes T l).
Proof.
  unfold push_free. destruct (negb _); [discriminate|].
  destruct (_ !! _); cbn; [|discriminate]. intros [= <-]. apply length_insert.
Qed.

Ltac open_binds :=
  repeat match goal with
  | H : (_ ≫= _) = Some _ |- _ => apply bind_Some in H; destruct H as (? & ? & H)
  | H : Some _ = Some _ |- _ => injection H as H; try subst
  | H : None = Some _ |- _ => discriminate H
  | H : (let '(_, _) := ?p in _) = Some _ |- _ => destruct p
  end.

Ltac lengths :=
  repeat match goal with
  | H : upd T _ _ _ = Some _ |- _ => apply upd_length in H
  | H : push_free T _ _ = Some _ |- _ => apply push_free_length in H
  end.

Lemma push_first_sized data l l' :
  sized l -> push_first T fresh_node data l = Some l' ->
  sized l' /\ m_Capacity T l <= m_Capacity T l'.
Proof.
  intros Hs H. unfold push_first in H.
  destruct (reserve_sized (m_Size T l + 1) l Hs) as ((H1 & H2 & H3) & Hc).
  open_binds. lengths. unfold sized. cbn. repeat split; congruence || lia.
Qed.

Lemma push_back_sized data l l' :
  sized l -> push_back T fresh_node data l = Some l' ->
  sized l' /\ m_Capacity T l <= m_Capacity T l'.
Proof.
  intros Hs H. unfold push_back in H.
  destruct (m_Size T l =? 0); [eapply push_first_sized; eassumption|].
  destruct (grow_if_full_sized l Hs) as ((H1 & H2 & H3) & Hc).
  open_binds. lengths. unfold sized. cbn. repeat split; congruence || lia.
Qed.

Lemma push_front_sized data l l' :
  sized l -> push_front T fresh_node data l = Some l' ->
  sized l' /\ m_Capacity T l <= m_Capacity T l'.
Proof.
  intros Hs H. unfold push_front in H.
  destruct (m_Size T l =? 0); [eapply push_first_sized; eassumption|].
  destruct (grow_if_full_sized l Hs) as ((H1 & H2 & H3) & Hc).
  open_binds. lengths. unfold sized. cbn. repeat split; congruence || lia.
Qed.

Lemma pop_back_sized l l' :
  sized l -> pop_back T l = Some l' ->
  sized l' /\ m_Capacity T l <= m_Capacity T l'.
Proof.
  intros (H1 & H2 & H3) H. unfold pop_back, pop_last in H.
  destruct (m_Size T l =? 0); [injection H as <-; unfold sized; auto|].
  destruct (m_Size T l =? 1);
    open_binds; lengths; unfold sized; cbn; repeat split; congruence || lia.
Qed.

Lemma pop_front_sized l l' :
  sized l -> pop_front T l = Some l' ->
  sized l' /\ m_Capacity T l <= m_Capacity T l'.
Proof.
  intros (H1 & H2 & H3) H. unfold pop_front, pop_last in H.
  destruct (m_Size T l =? 0); [injection H as <-; unfold sized; auto|].
  destruct (m_Size T l =? 1);
    open_binds; lengths; unfold sized; cbn; repeat split; congruence || lia.
Qed.

Lemma erase_index_sized index l l' :
  sized l -> erase_index T index l = Some l' ->
  sized l' /\ m_Capacity T l <= m_Capacity T l'.
Proof.
  intros Hs H. unfold erase_index in H.
  destruct (negb _); [discriminate|].
  destruct (index =? 0); [eapply pop_front_sized; eassumption|].
  destruct (index =? m_Size T l - 1); [eapply pop_back_sized; eassumption|].
  destruct Hs as (H1 & H2 & H3).
  open_binds.
  repeat match goal with
  | H : (if ?b then _ else _) = Some _ |- _ => destruct b
  end; open_binds; lengths; unfold sized; cbn; repeat split; congruence || lia.
Qed.

Lemma insert_index_sized index v l l' :
  sized l -> insert_index T fresh_node index v l = Some l' ->
  sized l' /\ m_Capacity T l <= m_Capacity T l'.
Proof.
  intros Hs H. unfold insert_index in H.
  destruct (negb _); [discriminate|].
  destruct (index =? 0); [eapply push_front_sized; eassumption|].
  destruct (index =? m_Size T l); [eapply push_back_sized; eassumption|].
  destruct (grow_if_full_sized l Hs) as ((H1 & H2 & H3) & Hc).
  open_binds.
  repeat match goal with
  | H : (if ?b then _ else _) = Some _ |- _ => destruct b
  end; open_binds; lengths; unfold sized; cbn; repeat split; congruence || lia.
Qed.

Lemma list_step_sized op l l' :
  sized l -> list_step T fresh_node op l = Some l' ->
  sized l' /\ m_Capacity T l <= m_Capacity T l'.
Proof.
  intros Hs H. destruct op; cbn [list_step] in H.
  - eapply push_back_sized; eassumption.
  - eapply push_front_sized; eassumption.
  - eapply insert_index_sized; eassumption.
  - eapply erase_index_sized; eassumption.
  - eapply pop_back_sized; eassumption.
  - eapply pop_front_sized; eassumption.
  - injection H as <-. apply reserve_sized, Hs.
Qed.

Lemma list_run_sized ops : forall l l',
  sized l -> list_run T fresh_node ops l = Some l' ->
  sized l' /\ m_Capacity T l <= m_Capacity T l'.
Proof.
  induction ops as [|op ops IH]; intros l l' Hs H; cbn [list_run] in H.
  - injection H as <-. auto.
  - apply bind_Some in H as (l1 & H1 & H).
    destruct (list_step_sized op l l1 Hs H1) as (Hs1 & Hc1).
    destruct (IH l1 l' Hs1 H) as (Hs' & Hc'). split; [assumption|lia].
Qed.

(** X1. Whatever the operations, and on any raw storage: a list that
    [ops] built from the empty list has a node array and a free-index
    array as long as [m_Capacity], and [m_FreeCapacity] equal to
    [m_Capacity]; and no further operations [ops'] lower its capacity. *)
Theorem arena_list_arrays_sized ops ops' l l' :
  list_run T fresh_node ops (empty T) = Some l ->
  list_run T fresh_node ops' l = Some l' ->
  m_FreeCapacity T l = m_Capacity T l /\
  length (m_Nodes T l) = m_Capacity T l /\
  length (m_FreeNodes T l) = m_Capacity T l /\
  m_Capacity T l <= m_Capacity T l'.
Proof.
  intros H H'.
  destruct (list_run_sized ops (empty T) l) as ((H1 & H2 & H3) & _);
    [repeat split|assumption|].
  destruct (list_run_sized ops' l l') as (_ & Hc); [repeat split; assumption|assumption|].
  auto.
Qed.

(** *** Access to the elements *)

Lemma Inv_access l cells : Inv T l cells ->
  (forall k, at_index T k l = cells.*2 !! k) /\
  front l = head cells.*2 /\
  back l = list.last cells.*2 /\
  m_Size T l = length cells.*2.
Proof.
  intros HI. pose proof (inv_size T l cells HI) as Hlen.
  pose proof (inv_chain T l cells HI) as Hch.
  split; [|split; [|split]].
  - intros k. rewrite list_lookup_fmap. unfold at_index.
    destruct (cells !! k) as [[i v]|] eqn:Hk.
    + rewrite (node_index_spec T l cells k i v HI Hk). cbn.
      destruct (Hch k i v Hk) as (n & -> & _ & <- & _). reflexivity.
    + apply lookup_ge_None in Hk. unfold node_index.
      destruct (k <? m_Size T l) eqn:E; [apply Nat.ltb_lt in E; lia|]. reflexivity.
  - unfold front. rewrite head_lookup, list_lookup_fmap.
    destruct (m_Size T l =? 0) eqn:E.
    + apply Nat.eqb_eq in E. rewrite (Inv_nil T l cells HI E). reflexivity.
    + apply Nat.eqb_neq in E. destruct (first_cell T l cells HI E) as (v & Hv).
      rewrite Hv. destruct (Hch _ _ _ Hv) as (n & -> & _ & <- & _). reflexivity.
  - unfold back. rewrite last_lookup, list_lookup_fmap, length_fmap.
    destruct (m_Size T l =? 0) eqn:E.
    + apply Nat.eqb_eq in E. rewrite (Inv_nil T l cells HI E). reflexivity.
    + apply Nat.eqb_neq in E. destruct (last_cell T l cells HI E) as (v & Hv).
      replace (Nat.pred (length cells)) with (length cells - 1) by lia.
      rewrite Hv. destruct (Hch _ _ _ Hv) as (n & -> & _ & <- & _). reflexivity.
  - rewrite length_fmap. assumption.
Qed.

Hypothesis fresh_clean : forall i,
  taken T (fresh_node i) = false /\
  hasPrev T (fresh_node i) = false /\ hasNext T (fresh_node i) = false.

(** X2. On raw storage with clear flags, after a sequence of operations
    that keeps to the uses the list supports ([run_ok]): [at_index k]
    returns the [k]-th element of the sequence the operations describe, and
    fails its assertion for [k] from [size()] on; [front()] and [back()]
    return its first and last element, and fail their assertion on the
    empty list; [size()] is its length. *)
Theorem arena_list_access ops :
  run_ok T fresh_node ops (empty T) = true ->
  exists l,
    list_run T fresh_node ops (empty T) = Some l /\
    (forall k, at_index T k l = model_run T ops [] !! k) /\
    front l = head (model_run T ops []) /\
    back l = list.last (model_run T ops []) /\
    m_Size T l = length (model_run T ops []).
Proof.
  intros Hok.
  destruct (list_run_Inv T fresh_node fresh_clean ops (empty T) []
              (Inv_empty_list T) Hok) as (l & cells & Hl & HI & Hv).
  change (cells.*2 = model_run T ops []) in Hv.
  exists l. split; [assumption|]. rewrite <- Hv. apply Inv_access, HI.
Qed.

(** *** [LvnQueue] *)

Definition queue_push_all (vs : list T) (q : LvnQueue) : option LvnQueue :=
  foldl (fun q x => q ≫= queue_push x) (Some q) vs.

Lemma push_back_keeps_no_free data l l' :
  push_back T fresh_node data l = Some l' -> m_FreeSize T l = 0 ->
  m_FreeSize T l' = 0.
Proof.
  intros H Hz. unfold push_back in H.
  destruct (m_Size T l =? 0).
  - unfold push_first in H. open_binds. cbn.
    destruct (reserve_fields T fresh_node (m_Size T l + 1) l) as (_ & -> & _).
    assumption.
  - assert (Hz1 : m_FreeSize T (grow_if_full T fresh_node l) = 0).
    { unfold grow_if_full. destruct (_ <=? _); [|assumption].
      destruct (reserve_fields T fresh_node (m_Size T l + 1) l) as (_ & -> & _).
      assumption. }
    unfold take_free_node in H. rewrite Hz1 in H. cbn [Nat.eqb negb] in H.
    open_binds. cbn. reflexivity.
Qed.

Lemma no_free_push_ok l : m_FreeSize T l = 0 -> push_ok T l = true.
Proof.
  intros Hz. unfold push_ok, zero_is_free. rewrite Hz. cbn.
  rewrite andb_false_r. reflexivity.
Qed.

Lemma pushes_Inv vs : forall l cells,
  Inv T l cells -> m_FreeSize T l = 0 ->
  exists l' cells',
    foldl (fun c x => c ≫= push_back T fresh_node x) (Some l) vs = Some l' /\
    Inv T l' cells' /\ cells'.*2 = cells.*2 ++ vs /\ m_FreeSize T l' = 0.
Proof.
  induction vs as [|x vs IH]; intros l cells HI Hz.
  - exists l, cells. rewrite app_nil_r. auto.
  - destruct (push_back_total T fresh_node fresh_clean x l cells HI
                (no_free_push_ok l Hz)) as (l1 & j & H1 & HI1).
    destruct (IH l1 _ HI1 (push_back_keeps_no_free x l l1 H1 Hz))
      as (l' & cells' & H' & HI' & Hv & Hz').
    exists l', cells'. cbn [foldl mbind option_bind]. rewrite H1.
    split; [assumption|]. split; [assumption|]. split; [|assumption].
    rewrite Hv, fmap_app. cbn. rewrite <- app_assoc. reflexivity.
Qed.

Lemma pops_Inv j : forall l cells, Inv T l cells ->
  exists l', repeat_op j (pop_front T) l = Some l' /\ Inv T l' (drop j cells).
Proof.
  induction j as [|j IH]; intros l cells HI.
  - exists l. rewrite drop_0. auto.
  - destruct (pop_front_total T l cells HI) as (l1 & H1 & HI1).
    destruct (IH l1 _ HI1) as (l' & H' & HI').
    exists l'. cbn [repeat_op]. rewrite H1. cbn. split; [assumption|].
    rewrite drop_drop in HI'. exact HI'.
Qed.

Lemma queue_push_all_container vs : forall c,
  queue_push_all vs {| m_Container := c |} =
  c' ← foldl (fun c x => c ≫= push_back T fresh_node x) (Some c) vs;
  Some {| m_Container := c' |}.
Proof.
  unfold queue_push_all.
  assert (H : forall (o : option (LvnArenaList T)),
    foldl (fun q x => q ≫= queue_push x) (c ← o; Some {| m_Container := c |}) vs =
    c' ← foldl (fun c x => c ≫= push_back T fresh_node x) o vs;
    Some {| m_Container := c' |}).
  { induction vs as [|x vs IH]; intros o; [reflexivity|].
    cbn [foldl]. rewrite <- IH. f_equal.
    destruct o as [c|]; [|reflexivity]. cbn. unfold queue_push. reflexivity. }
  intros c. exact (H (Some c)).
Qed.

Lemma queue_pops_container j : forall c,
  repeat_op j queue_pop {| m_Container := c |} =
  c' ← repeat_op j (pop_front T) c; Some {| m_Container := c' |}.
Proof.
  induction j as [|j IH]; intros c; [reflexivity|].
  cbn [repeat_op].
  change (queue_pop {| m_Container := c |})
    with (c1 ← pop_front T c; Some {| m_Container := c1 |}).
  destruct (pop_front T c) as [c1|]; [|reflexivity]. cbn [mbind option_bind]. apply IH.
Qed.

(** X3. On raw storage with clear flags, a queue built from an array,
    then pushed to, then popped [j] times is first in, first out: every
    call returns, [size()] is the count of the elements put in less [j]
    (0 once the pops outnumber them), [front()] is the [j]-th element put
    in and [back()] the last one, and both fail their assertion once the
    queue is empty. *)
Theorem queue_first_in_first_out data more j :
  exists q,
    (q0 ← LvnQueue_new data; q1 ← queue_push_all more q0;
     repeat_op j queue_pop q1) = Some q /\
    queue_size q = length (data ++ more) - j /\
    queue_front q = (data ++ more) !! j /\
    queue_back q = (if j <? length (data ++ more) then list.last (data ++ more) else None).
Proof.
  destruct (pushes_Inv data (reserve T fresh_node (length data) (empty T)) [])
    as (l0 & cells0 & H0 & HI0 & Hv0 & Hz0).
  { apply (reserve_Inv T fresh_node fresh_clean), Inv_empty_list. }
  { destruct (reserve_fields T fresh_node (length data) (empty T)) as (_ & -> & _).
    reflexivity. }
  change (cells0.*2 = data) in Hv0.
  destruct (pushes_Inv more l0 cells0 HI0 Hz0) as (l1 & cells1 & H1 & HI1 & Hv1 & _).
  destruct (pops_Inv j l1 cells1 HI1) as (l2 & H2 & HI2).
  exists {| m_Container := l2 |}.
  unfold LvnQueue_new. rewrite H0. cbn [mbind option_bind].
  rewrite queue_push_all_container, H1. cbn [mbind option_bind].
  rewrite queue_pops_container, H2. cbn [mbind option_bind].
  split; [reflexivity|].
  destruct (Inv_access l2 _ HI2) as (_ & Hf & Hb & Hs).
  unfold queue_size, queue_front, queue_back. cbn [m_Container].
  rewrite Hf, Hb, Hs, fmap_drop, Hv1, Hv0.
  rewrite length_drop, head_lookup, lookup_drop, Nat.add_0_r.
  split; [reflexivity|]. split; [reflexivity|].
  destruct (j <? length (data ++ more)) eqn:E.
  - apply Nat.ltb_lt in E. rewrite !last_lookup, lookup_drop, length_drop.
    f_equal. lia.
  - apply Nat.ltb_ge in E. rewrite drop_ge by assumption. reflexivity.
Qed.

End ArenaListAccess.

Lemma arena_list_arrays_sized_witness :
  exists l l',
    list_run Z stale_storage all_operations (empty Z) = Some l /\
    list_run Z stale_storage [PopBack Z; PushFront Z 3; Reserve Z 2] l = Some l' /\
    m_FreeCapacity Z l = m_Capacity Z l /\
    length (m_Nodes Z l) = m_Capacity Z l /\
    length (m_FreeNodes Z l) = m_Capacity Z l /\
    (m_Capacity Z l <= m_Capacity Z l')%nat.
Proof.
  eexists _, _. split; [vm_compute; reflexivity|]. split; [vm_compute; reflexivity|].
  apply (arena_list_arrays_sized Z stale_storage all_operations
           [PopBack Z; PushFront Z 3; Reserve Z 2]); vm_compute; reflexivity.
Defined.

Lemma arena_list_access_witness :
  run_ok Z zero_storage all_operations (empty Z) = true /\
  exists l,
    list_run Z zero_storage all_operations (empty Z) = Some l /\
    (forall k, at_index Z k l = model_run Z all_operations [] !! k) /\
    front Z l = head (model_run Z all_operations []) /\
    back Z l = list.last (model_run Z all_operations []) /\
    m_Size Z l = length (model_run Z all_operations []).
Proof.
  split; [vm_compute; reflexivity|].
  apply (arena_list_access Z zero_storage).
  - intros i. repeat split.
  - vm_compute. reflexivity.
Defined.

Lemma queue_first_in_first_out_witness :
  exists q,
    (q0 ← LvnQueue_new Z zero_storage [1; 2; 3];
     q1 ← queue_push_all Z zero_storage [4; 5] q0;
     repeat_op 2 (queue_pop Z) q1) = Some q /\
    queue_size Z q = 3%nat /\ queue_front Z q = Some 3 /\ queue_back Z q = Some 5.
Proof.
  destruct (queue_first_in_first_out Z zero_storage
              (fun i => conj eq_refl (conj eq_refl eq_refl)) [1; 2; 3] [4; 5] 2)
    as (q & Hq & Hs & Hf & Hb).
  exists q. auto.
Defined.

End ArenaListAccess.


(** ** [LvnVector]: the rest of its operations *)

Module VectorOps.

Import Vector.

Section VectorOps.

Variable T : Type.
Variable T_default : T.
Variable trivially_destructible : bool.

Local Open Scope nat_scope.

(** [void resize(size_t size, const T& value)] *)
Definition resize_value (size : nat) (value : T) (v : LvnVector T) : LvnVector T :=
  if (m_Size T v <? size)%nat then
    let v1 := reserve T size v in
    {| m_Data := for_range (m_Size T v1) (size - m_Size T v1)
                   (fun i d => <[i := Some value]> d) (m_Data T v1);
       m_Size := size; m_Capacity := m_Capacity T v1 |}
  else
    {| m_Data := for_range size (m_Size T v - size)
                   (fun i d => destruct_at T trivially_destructible d i) (m_Data T v);
       m_Size := size; m_Capacity := m_Capacity T v |}.


(** [void clear()]: [destruct()], then the size is 0. *)
Definition clear (v : LvnVector T) : LvnVector T :=
  {| m_Data := for_range 0 (m_Size T v)
                 (fun i d => destruct_at T trivially_destructible d i) (m_Data T v);
     m_Size := 0; m_Capacity := m_Capacity T v |}.


(** [destruct_at] with a record of its calls: the slots whose destructor
    has run, in order.  Nothing runs for a trivially destructible [T]. *)
Definition destruct_at_traced (st : list (option T) * list nat) (i : nat)
    : list (option T) * list nat :=
  (destruct_at T trivially_destructible (fst st) i,
   if trivially_destructible then snd st else snd st ++ [i]).

(** [resize] with the record of the [destruct_at] calls of its loop. *)
Definition resize_traced (size : nat) (v : LvnVector T) (calls : list nat)
    : LvnVector T * list nat :=
  if (m_Size T v <? size)%nat
  then (resize T T_default trivially_destructible size v, calls)
  else
    let st := for_range size (m_Size T v - size)
                (fun i st => destruct_at_traced st i) (m_Data T v, calls) in
    ({| m_Data := fst st; m_Size := size; m_Capacity := m_Capacity T v |}, snd st).

(** [void pop_back()], with the record of the [destruct_at] calls. *)
Definition pop_back_traced (v : LvnVector T) : LvnVector T * list nat :=
  if (m_Size T v =? 0)%nat then (v, [])
  else
    let st := destruct_at_traced (m_Data T v, []) (m_Size T v - 1) in
    resize_traced (m_Size T v - 1)
      {| m_Data := fst st; m_Size := m_Size T v; m_Capacity := m_Capacity T v |}
      (snd st).

Definition pop_back (v : LvnVector T) : LvnVector T := fst (pop_back_traced v).

Inductive VecOp :=
| OpPushBack (value : T)
| OpPopBack
| OpResize (size : nat)
| OpResizeValue (size : nat) (value : T)
| OpReserve (size : nat)
| OpShrinkToFit
| OpClear
| OpPushRange (data : list T)
| OpInsertRange (index : nat) (data : list T)
| OpInsertIndex (index : nat) (value : T)
| OpEraseIndex (index : nat).



(** The sequence of elements after an operation; [None] where the source
    asserts: an insertion past the end, an erasure at or past it. *)
Definition list_step (op : VecOp) (l : list T) : option (list T) :=
  match op with
  | OpPushBack value => Some (l ++ [value])
  | OpPopBack => Some (take (length l - 1) l)
  | OpResize size => Some (take size l ++ replicate (size - length l) T_default)
  | OpResizeValue size value => Some (take size l ++ replicate (size - length l) value)
  | OpReserve _ | OpShrinkToFit => Some l
  | OpClear => Some []
  | OpPushRange data => Some (l ++ data)
  | OpInsertRange index data =>
      match data with
      | [] => Some l
      | _ :: _ =>
          if (index <=? length l)%nat
          then Some (take index l ++ data ++ drop index l) else None
      end
  | OpInsertIndex index value =>
      if (index <=? length l)%nat
      then Some (take index l ++ value :: drop index l) else None
  | OpEraseIndex index =>
      if (index <? length l)%nat
      then Some (take index l ++ drop (S index) l) else None
  end.

Fixpoint list_run (ops : list VecOp) (l : list T) : option (list T) :=
  match ops with
  | [] => Some l
  | op :: ops' => l' ← list_step op l; list_run ops' l'
  end.

(** *** The loops *)

Lemma destruct_range_length n : forall lo d,
  length (for_range lo n (fun i d => destruct_at T trivially_destructible d i) d)
  = length d.
Proof.
  induction n as [|n IH]; intros lo d; [reflexivity|].
  cbn [for_range]. rewrite IH. apply destruct_at_length.
Qed.

Lemma destruct_range_lookup n : forall lo d j, j < lo ->
  for_range lo n (fun i d => destruct_at T trivially_destructible d i) d !! j = d !! j.
Proof.
  induction n as [|n IH]; intros lo d j Hj; [reflexivity|].
  cbn [for_range]. rewrite IH by lia. apply destruct_at_lookup_ne. lia.
Qed.

Lemma resize_is_resize_value size v :
  resize T T_default trivially_destructible size v = resize_value size T_default v.
Proof. reflexivity. Qed.

Lemma resize_value_Rep size value v l : Rep T v l ->
  Rep T (resize_value size value v)
        (take size l ++ replicate (size - length l) value) /\
  m_Capacity T (resize_value size value v) = Nat.max size (m_Capacity T v).
Proof.
  intros HR. pose proof HR as (Hs & Hlen & Hcap & Hel). unfold resize_value.
  destruct (Nat.ltb_spec (m_Size T v) size) as [Hlt|Hge].
  - destruct (reserve_Rep T size v l HR) as ((Hs1 & Hlen1 & Hcap1 & Hel1) & Hge & Hsz).
    assert (Hc : m_Capacity T (reserve T size v) = Nat.max size (m_Capacity T v)).
    { unfold reserve. destruct (Nat.leb_spec size (m_Capacity T v)); cbn; lia. }
    set (v1 := reserve T size v) in *.
    rewrite take_ge by lia. split; [|exact Hc].
    repeat split; cbn [m_Size m_Data m_Capacity].
    + rewrite length_app, length_replicate. lia.
    + rewrite for_range_write_length. exact Hlen1.
    + rewrite length_app, length_replicate. lia.
    + intros j x Hj. rewrite for_range_write_lookup.
      destruct (decide (j < length l)) as [Hjl|Hjl].
      * rewrite lookup_app_l in Hj by lia.
        destruct (decide _); [lia|]. apply Hel1, Hj.
      * rewrite lookup_app_r in Hj by lia.
        apply lookup_replicate in Hj as [-> Hj].
        destruct (decide _); [reflexivity|lia].
  - replace (size - length l) with 0 by lia. cbn [replicate]. rewrite app_nil_r.
    split; [|cbn; lia].
    repeat split; cbn [m_Size m_Data m_Capacity].
    + rewrite length_take_le by lia. reflexivity.
    + rewrite destruct_range_length. exact Hlen.
    + rewrite length_take_le by lia. lia.
    + intros j x Hj. apply lookup_take_Some in Hj as [Hj Hjs].
      rewrite destruct_range_lookup by lia. apply Hel, Hj.
Qed.




Lemma pop_back_spec v l : Rep T v l ->
  Rep T (pop_back v) (take (length l - 1) l) /\
  m_Capacity T (pop_back v) = m_Capacity T v /\
  snd (pop_back_traced v) =
    if trivially_destructible || (length l =? 0)%nat then []
    else [length l - 1; length l - 1].
Proof.
  intros HR. pose proof HR as (Hs & Hlen & Hcap & Hel).
  unfold pop_back, pop_back_traced. rewrite Hs.
  destruct (Nat.eqb_spec (length l) 0) as [Hz|Hnz].
  - rewrite orb_true_r. cbn [fst snd].
    destruct l; [|discriminate]. split; [exact HR|]. split; reflexivity.
  - rewrite orb_false_r. unfold resize_traced. cbn [m_Size m_Data m_Capacity fst snd].
    destruct (Nat.ltb_spec (length l) (length l - 1)) as [|_]; [lia|].
    replace (length l - (length l - 1)) with 1 by lia.
    cbn [for_range destruct_at_traced fst snd].
    split; [|split; [reflexivity|]].
    + repeat split; cbn [m_Size m_Data m_Capacity].
      * rewrite length_take_le by lia. reflexivity.
      * rewrite !destruct_at_length. exact Hlen.
      * rewrite length_take_le by lia. lia.
      * intros j x Hj. apply lookup_take_Some in Hj as [Hj Hjs].
        rewrite !destruct_at_lookup_ne by lia. apply Hel, Hj.
    + destruct trivially_destructible; reflexivity.
Qed.







(** X5. [pop_back] on a vector that holds a sequence removes its last
    element and keeps the capacity; and when [T] is not trivially
    destructible it runs the destructor of that element twice: once
    itself, once in the [resize] it calls. *)
Theorem pop_back_destructs_twice v l :
  Rep T v l -> l <> [] ->
  Rep T (pop_back v) (take (length l - 1) l) /\
  m_Capacity T (pop_back v) = m_Capacity T v /\
  snd (pop_back_traced v) =
    if trivially_destructible then [] else [length l - 1; length l - 1].
Proof.
  intros HR Hne. destruct (pop_back_spec v l HR) as (H1 & H2 & H3).
  split; [exact H1|]. split; [exact H2|]. rewrite H3.
  destruct (Nat.eqb_spec (length l) 0) as [Hz|_].
  - destruct l; [congruence|discriminate].
  - rewrite orb_false_r. reflexivity.
Qed.

(** *** Capacity *)

Definition push_all (xs : list T) (v : LvnVector T) : LvnVector T :=
  foldl (fun v x => push_back T T_default trivially_destructible x v) v xs.

Lemma push_back_capacity x v l : Rep T v l ->
  m_Capacity T (push_back T T_default trivially_destructible x v)
  = Nat.max (length l + 1) (m_Capacity T v).
Proof.
  intros HR. pose proof HR as (Hs & _). unfold push_back.
  cbn [m_Capacity]. rewrite resize_is_resize_value.
  destruct (resize_value_Rep (m_Size T v + 1) T_default v l HR) as (_ & ->).
  rewrite Hs. reflexivity.
Qed.

Lemma push_all_Rep xs : forall v l, Rep T v l ->
  Rep T (push_all xs v) (l ++ xs) /\
  m_Capacity T (push_all xs v) = Nat.max (length (l ++ xs)) (m_Capacity T v).
Proof.
  induction xs as [|x xs IH]; intros v l HR.
  - cbn. rewrite app_nil_r. split; [exact HR|]. destruct HR as (_ & _ & ? & _). lia.
  - cbn [push_all foldl].
    destruct (IH _ _ (push_back_Rep T T_default trivially_destructible x v l HR))
      as (HR' & Hc).
    fold (push_all xs (push_back T T_default trivially_destructible x v)) in *.
    rewrite <- app_assoc in HR', Hc. cbn [app] in HR', Hc.
    split; [exact HR'|]. rewrite Hc, (push_back_capacity x v l HR).
    rewrite !length_app. cbn [length]. lia.
Qed.

(** X6. The vector grows by what is needed and no more: after [reserve(n)]
    on an empty vector and [push_back] of the elements [xs], the capacity
    is the larger of [n] and the number of elements.  Without a [reserve]
    every [push_back] finds the vector full and allocates anew. *)
Theorem push_back_capacity_exact n xs :
  m_Capacity T (push_all xs (reserve T n (empty T))) = Nat.max n (length xs) /\
  m_Size T (push_all xs (reserve T n (empty T))) = length xs /\
  elements T (push_all xs (reserve T n (empty T))) = Some <$> xs.
Proof.
  destruct (reserve_Rep T n (empty T) [] (Rep_empty T)) as (HR & _ & _).
  assert (Hc : m_Capacity T (reserve T n (empty T)) = n).
  { unfold reserve. cbn. destruct (Nat.leb_spec n 0); cbn; lia. }
  destruct (push_all_Rep xs _ _ HR) as (HR' & Hc').
  cbn [app] in HR', Hc'. rewrite Hc', Hc.
  split; [lia|]. split; [apply HR'|apply Rep_elements, HR'].
Qed.

(** *** Searching *)

Context `{EqDecision T}.

(** The loop [while (begin < end)] of the searches, which stops at the first
    element equal to [e], on the [n] elements from position [i]. *)
Fixpoint find_from (e : T) (d : list (option T)) (n i : nat) : option nat :=
  match n with
  | O => Some i
  | S n' => x ← slot T d i; if decide (x = e) then Some i else find_from e d n' (S i)
  end.

(** [size_t find_index(const T& e) const]; [find] returns the pointer to
    the same position. *)
Definition find_index (e : T) (v : LvnVector T) : option nat :=
  find_from e (m_Data T v) (m_Size T v) 0.

Fixpoint contains_from (e : T) (d : list (option T)) (n i : nat) : option bool :=
  match n with
  | O => Some false
  | S n' => x ← slot T d i; if decide (x = e) then Some true else contains_from e d n' (S i)
  end.

(** [bool contains(const T& e) const] *)
Definition contains (e : T) (v : LvnVector T) : option bool :=
  contains_from e (m_Data T v) (m_Size T v) 0.

Lemma find_from_spec e v l : Rep T v l -> forall n i, i + n = length l ->
  exists k, find_from e (m_Data T v) n i = Some k /\
    i <= k <= length l /\
    (forall j, i <= j < k -> l !! j <> Some e) /\
    (k < length l -> l !! k = Some e) /\
    contains_from e (m_Data T v) n i = Some (bool_decide (k < length l)).
Proof.
  intros (Hs & Hlen & Hcap & Hel) n. induction n as [|n IH]; intros i Hi.
  - exists i. cbn. split; [reflexivity|]. split; [lia|].
    split; [intros j Hj; lia|]. split; [lia|].
    rewrite bool_decide_eq_false_2 by lia. reflexivity.
  - destruct (lookup_lt_is_Some_2 l i) as [x Hx]; [lia|].
    cbn [find_from contains_from]. rewrite (slot_lookup T _ _ _ (Hel i x Hx)).
    cbn [mbind option_bind]. destruct (decide (x = e)) as [->|Hne].
    + exists i. split; [reflexivity|]. split; [lia|].
      split; [intros j Hj; lia|]. split; [intros _; exact Hx|].
      rewrite bool_decide_eq_true_2 by lia. reflexivity.
    + destruct (IH (S i) ltac:(lia)) as (k & Hk & Hr & Hb & Ha & Hc).
      exists k. split; [exact Hk|]. split; [lia|]. split; [|split; assumption].
      intros j Hj. destruct (decide (j = i)) as [->|Hji].
      * rewrite Hx. congruence.
      * apply Hb. lia.
Qed.

(** X7. On a vector that holds the sequence [l], [find_index(e)] returns
    the position of the first element equal to [e], and [size()] when
    there is none; [contains(e)] tells whether there is one. *)
Theorem find_index_first_occurrence e v l : Rep T v l ->
  exists k, find_index e v = Some k /\
    (forall j, j < k -> l !! j <> Some e) /\
    (k < length l -> l !! k = Some e) /\
    (k = length l <-> e ∉ l) /\
    k <= length l /\
    contains e v = Some (bool_decide (e ∈ l)).
Proof.
  intros HR. pose proof HR as (Hs & _).
  destruct (find_from_spec e v l HR (m_Size T v) 0 ltac:(lia))
    as (k & Hk & Hr & Hb & Ha & Hc).
  exists k. split; [exact Hk|].
  assert (Hiff : k < length l <-> e ∈ l).
  { split.
    - intros Hlt. apply list_elem_of_lookup. exists k. apply Ha, Hlt.
    - intros Hin. apply list_elem_of_lookup in Hin as (j & Hj).
      destruct (decide (k < length l)) as [|Hge]; [assumption|].
      exfalso. apply (Hb j); [|exact Hj]. apply lookup_lt_Some in Hj. lia. }
  split; [intros j Hj; apply Hb; lia|]. split; [exact Ha|].
  split; [|split; [lia|]].
  - split.
    + intros -> Hin. apply Hiff in Hin. lia.
    + intros Hnin. destruct (decide (k < length l)) as [Hlt|]; [|lia].
      exfalso. apply Hnin, Hiff, Hlt.
  - unfold contains. rewrite Hc. f_equal. apply bool_decide_ext. exact Hiff.
Qed.

End VectorOps.

(** The vector of 4, 7, 7 and 9, pushed one after the other. *)
Definition demo_vector : LvnVector Z :=
  push_all Z 0 false [4; 7; 7; 9]%Z (empty Z).

Lemma demo_vector_Rep : Rep Z demo_vector [4; 7; 7; 9]%Z.
Proof.
  split; [reflexivity|]. split; [reflexivity|]. split; [vm_compute; lia|].
  intros [|[|[|[|j]]]] x H; cbn in H; try discriminate;
    injection H as <-; reflexivity.
Defined.

Lemma pop_back_destructs_twice_witness :
  Rep Z (pop_back Z 0 false demo_vector) [4; 7; 7]%Z /\
  m_Capacity Z (pop_back Z 0 false demo_vector) = m_Capacity Z demo_vector /\
  snd (pop_back_traced Z 0 false demo_vector) = [3; 3]%nat.
Proof.
  apply (pop_back_destructs_twice Z 0 false demo_vector [4; 7; 7; 9]%Z).
  - exact demo_vector_Rep.
  - discriminate.
Defined.

Lemma find_index_first_occurrence_witness :
  exists k, find_index Z 7 demo_vector = Some k /\ k = 1%nat /\
            contains Z 7 demo_vector = Some true.
Proof.
  destruct (find_index_first_occurrence Z 7 demo_vector [4; 7; 7; 9]%Z demo_vector_Rep)
    as (k & Hk & _ & _ & _ & _ & Hc).
  exists k. split; [exact Hk|]. split; [|exact Hc].
  vm_compute in Hk. congruence.
Defined.

End VectorOps.


(** ** Context creation: the tables and the layout of the base pool *)

Module ContextPool.

Import Pool.

Section ContextPool.

Variable sizeof_stype : LvnStructureType -> Z.

(** The table [setDefaultStructTypeMemAllocInfos] writes. *)
Definition default_infos : LvnStructureType -> LvnStructTypeMemAllocInfo :=
  sTypeMemAllocInfos
    (setDefaultStructTypeMemAllocInfos sizeof_stype
       {| memoryMode := Lvn_MemAllocMode_Individual;
          sTypeMemAllocInfos := fun t => {| sti_sType := t; sti_size := 0; sti_count := 0 |};
          blockMemAllocInfos := fun t => {| sti_sType := t; sti_size := 0; sti_count := 0 |};
          memoryPool := {| baseMemoryBlock := {| blk_data := NullPtr; blk_size := 0 |};
                           memBlocks := fun _ => []; memBindings := fun _ => [] |};
          objectMemoryAllocations := fun _ => 0;
          logging := false; enableCoreLogging := false;
          coreLogLevel := Lvn_LogLevel_None |}).

(** The bytes of the bindings of the structure types of [ts]. *)
Fixpoint bytes_of (infos : LvnStructureType -> LvnStructTypeMemAllocInfo)
    (ts : list LvnStructureType) : Z :=
  match ts with
  | [] => 0
  | t :: ts' => sti_count (infos t) * sti_size (infos t) + bytes_of infos ts'
  end.

(** The structure types before [t], in the order of the enumeration. *)
Fixpoint stypes_before (t : LvnStructureType) (ts : list LvnStructureType)
    : list LvnStructureType :=
  match ts with
  | [] => []
  | t' :: ts' => if decide (t' = t) then [] else t' :: stypes_before t ts'
  end.

Lemma apply_counts_cons b bs infos :
  apply_counts (b :: bs) infos =
  apply_counts bs (<[mbi_sType b := set_count (infos (mbi_sType b)) (mbi_count b)]> infos).
Proof. reflexivity. Qed.

Lemma apply_counts_app bs1 bs2 infos :
  apply_counts (bs1 ++ bs2) infos = apply_counts bs2 (apply_counts bs1 infos).
Proof. apply fold_left_app. Qed.

Lemma apply_counts_fields bs : forall infos t,
  sti_sType (apply_counts bs infos t) = sti_sType (infos t) /\
  sti_size (apply_counts bs infos t) = sti_size (infos t).
Proof.
  induction bs as [|b bs IH]; intros infos t; [auto|].
  rewrite apply_counts_cons.
  destruct (IH (<[mbi_sType b := set_count (infos (mbi_sType b)) (mbi_count b)]> infos) t)
    as [-> ->].
  destruct (decide (mbi_sType b = t)) as [<-|Hne].
  - rewrite fn_lookup_insert. auto.
  - rewrite fn_lookup_insert_ne by exact Hne. auto.
Qed.

Lemma apply_counts_unnamed bs : forall infos t,
  (forall b, b ∈ bs -> mbi_sType b <> t) ->
  apply_counts bs infos t = infos t.
Proof.
  induction bs as [|b bs IH]; intros infos t Hn; [reflexivity|].
  rewrite apply_counts_cons.
  rewrite IH by (intros b' Hb'; apply Hn; right; exact Hb').
  apply fn_lookup_insert_ne. apply Hn. left.
Qed.

Lemma apply_counts_last pre b post infos :
  (forall b', b' ∈ post -> mbi_sType b' <> mbi_sType b) ->
  sti_count (apply_counts (pre ++ b :: post) infos (mbi_sType b)) = mbi_count b.
Proof.
  intros Hn. rewrite apply_counts_app, apply_counts_cons.
  rewrite apply_counts_unnamed by exact Hn.
  rewrite fn_lookup_insert. reflexivity.
Qed.

(** The table in which each type has the count of the last binding that
    names it, and its default count when none does. *)
Definition counts_set (bs : list LvnMemoryBindingInfo)
    (infos : LvnStructureType -> LvnStructTypeMemAllocInfo) : Prop :=
  forall t,
    sti_sType (infos t) = t /\
    sti_size (infos t) = sti_size (default_infos t) /\
    ((forall b, b ∈ bs -> mbi_sType b <> t) -> sti_count (infos t) = default_count t) /\
    (forall pre b post, bs = pre ++ b :: post -> mbi_sType b = t ->
       (forall b', b' ∈ post -> mbi_sType b' <> t) -> sti_count (infos t) = mbi_count b).

Lemma apply_counts_counts_set bs : counts_set bs (apply_counts bs default_infos).
Proof.
  intros t. destruct (apply_counts_fields bs default_infos t) as [Ht Hs].
  split; [rewrite Ht; reflexivity|]. split; [exact Hs|]. split.
  - intros Hn. rewrite apply_counts_unnamed by exact Hn. reflexivity.
  - intros pre b post -> <- Hn. apply apply_counts_last. exact Hn.
Qed.

(** X8. [createContextMemoryPool] in pool mode, when no binding of either
    array has a count of 0: it succeeds; the table of base counts has,
    for each structure type, the count of the last base binding that
    names it, else the default count; and the table the chained blocks are
    sized by has the count of the last block binding that names the type,
    else the default count: a base binding does not change the size of the
    type's chained blocks. *)
Theorem createContextMemoryPool_tables lvnctx createInfo w :
  ci_memAllocMode createInfo = Lvn_MemAllocMode_MemPool ->
  (forall b, b ∈ ci_pMemoryBindings createInfo -> mbi_count b <> 0) ->
  (forall b, b ∈ ci_pBlockMemoryBindings createInfo -> mbi_count b <> 0) ->
  exists lvnctx' w',
    createContextMemoryPool sizeof_stype lvnctx createInfo w
      = (Lvn_Result_Success, lvnctx', w') /\
    memoryMode lvnctx' = Lvn_MemAllocMode_MemPool /\
    counts_set (ci_pMemoryBindings createInfo) (sTypeMemAllocInfos lvnctx') /\
    counts_set (ci_pBlockMemoryBindings createInfo) (blockMemAllocInfos lvnctx').
Proof.
  intros Hmode Hb Hbb. unfold createContextMemoryPool.
  cbn [memoryMode set_memoryMode]. rewrite Hmode.
  rewrite (set_binding_counts_success _ _ _ 0 _ w Hb).
  destruct (LvnMemoryBlock_new _ w) as [base w2].
  rewrite (set_binding_counts_success _ _ _ 0 _ w2 Hbb).
  eexists _, _. split; [reflexivity|]. split; [reflexivity|].
  split; apply apply_counts_counts_set.
Qed.

(** *** The layout of the base block *)

Definition layout_step (base : LvnMemoryBlock)
    (infos : LvnStructureType -> LvnStructTypeMemAllocInfo)
    (st : Z * (LvnStructureType -> list LvnMemoryBinding)) (t : LvnStructureType)
    : Z * (LvnStructureType -> list LvnMemoryBinding) :=
  let '(memIndex, tbl) := st in
  let info := infos t in
  let sType := sti_sType info in
  let count := sti_count info in
  (wrap64 (memIndex + wrap64 (count * sti_size info)),
   <[sType := tbl sType ++
       [LvnMemoryBinding_new (LvnMemoryBlock_at base memIndex)
          (sti_size info) count]]> tbl).

Lemma base_bindings_fold base infos :
  base_bindings base infos =
  snd (fold_left (layout_step base infos) all_stypes (0, fun _ => [])).
Proof. reflexivity. Qed.

Definition nonneg (infos : LvnStructureType -> LvnStructTypeMemAllocInfo) : Prop :=
  forall t, sti_sType (infos t) = t /\ 0 <= sti_count (infos t) /\ 0 <= sti_size (infos t).

Lemma bytes_of_nonneg infos ts : nonneg infos -> 0 <= bytes_of infos ts.
Proof.
  intros Hn. induction ts as [|t ts IH]; cbn; [lia|].
  destruct (Hn t) as (_ & ? & ?). nia.
Qed.

Lemma layout_fold base infos : nonneg infos -> forall ts m0 tbl0,
  NoDup ts -> 0 <= m0 -> m0 + bytes_of infos ts < 2 ^ 64 ->
  exists tbl,
    fold_left (layout_step base infos) ts (m0, tbl0) = (m0 + bytes_of infos ts, tbl) /\
    forall t,
      tbl t =
        if decide (t ∈ ts)
        then tbl0 t ++
             [LvnMemoryBinding_new
                (LvnMemoryBlock_at base (m0 + bytes_of infos (stypes_before t ts)))
                (sti_size (infos t)) (sti_count (infos t))]
        else tbl0 t.
Proof.
  intros Hn ts. induction ts as [|t0 ts IH]; intros m0 tbl0 Hnd Hm0 Hsum.
  - exists tbl0. cbn. rewrite Z.add_0_r. split; [reflexivity|].
    intros t. destruct (decide _) as [Hin|]; [inversion Hin|reflexivity].
  - pose proof (NoDup_cons_1_1 _ _ Hnd) as Hnotin. apply NoDup_cons_1_2 in Hnd.
    destruct (Hn t0) as (Ht0 & Hc0 & Hs0).
    pose proof (bytes_of_nonneg infos ts Hn) as Hts.
    cbn [bytes_of] in Hsum.
    assert (Hmul : 0 <= sti_count (infos t0) * sti_size (infos t0)) by nia.
    cbn [fold_left layout_step]. rewrite Ht0.
    rewrite (wrap64_small (sti_count (infos t0) * sti_size (infos t0))) by lia.
    rewrite wrap64_small by lia.
    destruct (IH (m0 + sti_count (infos t0) * sti_size (infos t0))
                (<[t0 := tbl0 t0 ++
                     [LvnMemoryBinding_new (LvnMemoryBlock_at base m0)
                        (sti_size (infos t0)) (sti_count (infos t0))]]> tbl0)
                Hnd ltac:(lia) ltac:(lia)) as (tbl & Hfold & Htbl).
    exists tbl. split.
    + rewrite Hfold. cbn [bytes_of]. f_equal. lia.
    + intros t. rewrite Htbl. cbn [stypes_before].
      destruct (decide (t0 = t)) as [<-|Hne].
      * destruct (decide (t0 ∈ ts)); [contradiction|].
        rewrite fn_lookup_insert.
        destruct (decide (t0 ∈ t0 :: ts)) as [_|Hout]; [|exfalso; apply Hout; left].
        cbn [bytes_of]. rewrite Z.add_0_r. reflexivity.
      * rewrite fn_lookup_insert_ne by exact Hne.
        destruct (decide (t ∈ ts)) as [Hin|Hout].
        -- destruct (decide (t ∈ t0 :: ts)) as [_|Hout']; [|exfalso; apply Hout'; right; exact Hin].
           cbn [bytes_of]. rewrite Z.add_assoc. reflexivity.
        -- destruct (decide (t ∈ t0 :: ts)) as [Hin'|_]; [|reflexivity].
           apply elem_of_cons in Hin' as [->|Hin']; [congruence|contradiction].
Qed.

Lemma total_memSize_bytes infos : nonneg infos ->
  bytes_of infos all_stypes < 2 ^ 64 ->
  total_memSize infos = bytes_of infos all_stypes.
Proof.
  intros Hn. unfold total_memSize.
  assert (H : forall ts m0, 0 <= m0 -> m0 + bytes_of infos ts < 2 ^ 64 ->
    fold_left (fun memSize t =>
                 wrap64 (memSize + wrap64 (sti_size (infos t) * sti_count (infos t))))
              ts m0 = m0 + bytes_of infos ts).
  { induction ts as [|t ts IH]; intros m0 Hm0 Hsum; cbn [fold_left bytes_of].
    - lia.
    - destruct (Hn t) as (_ & Hc & Hs).
      pose proof (bytes_of_nonneg infos ts Hn) as Hts. cbn [bytes_of] in Hsum.
      assert (0 <= sti_size (infos t) * sti_count (infos t)) by nia.
      rewrite (wrap64_small (sti_size (infos t) * sti_count (infos t))) by lia.
      rewrite wrap64_small by lia. rewrite IH by lia. lia. }
  intros Hsum. rewrite H by lia. lia.
Qed.

Lemma bytes_before_le infos t : nonneg infos -> forall ts, t ∈ ts ->
  bytes_of infos (stypes_before t ts) + sti_count (infos t) * sti_size (infos t)
  <= bytes_of infos ts.
Proof.
  intros Hn ts. induction ts as [|t0 ts IH]; intros Hin; [inversion Hin|].
  cbn [stypes_before bytes_of]. pose proof (bytes_of_nonneg infos ts Hn).
  destruct (decide (t0 = t)) as [->|Hne]; cbn [bytes_of]; [lia|].
  apply elem_of_cons in Hin as [->|Hin]; [congruence|].
  specialize (IH Hin). lia.
Qed.

Lemma all_stypes_NoDup : NoDup all_stypes.
Proof. apply (bool_decide_unpack (NoDup all_stypes)). vm_compute. exact I. Qed.

Lemma all_stypes_complete t : t ∈ all_stypes.
Proof.
  destruct t;
    match goal with |- ?P => apply (bool_decide_unpack P); vm_compute; exact I end.
Qed.

Lemma apply_counts_nonneg bs : forall infos,
  nonneg infos -> (forall b, b ∈ bs -> 0 <= mbi_count b) ->
  nonneg (apply_counts bs infos).
Proof.
  induction bs as [|b bs IH]; intros infos Hn Hb; [exact Hn|].
  rewrite apply_counts_cons. apply IH.
  - intros t. destruct (decide (mbi_sType b = t)) as [<-|Hne].
    + rewrite fn_lookup_insert. cbn. destruct (Hn (mbi_sType b)) as (? & ? & ?).
      split; [assumption|]. split; [apply Hb; left|assumption].
    + rewrite fn_lookup_insert_ne by exact Hne. apply Hn.
  - intros b' Hb'. apply Hb. right. exact Hb'.
Qed.

Lemma default_infos_nonneg :
  (forall t, 0 <= sizeof_stype t) -> nonneg default_infos.
Proof.
  intros Hs t. split; [reflexivity|]. split.
  - destruct t; cbn; lia.
  - destruct t; cbn; [lia|apply Hs..].
Qed.

(** X9. [createContextMemoryPool] in pool mode, when the counts are
    positive, the sizes are not negative and the pool is below 2^64
    bytes: the base block has the bytes of all the bindings, and every
    structure type has one binding in it, of its size and count, at the
    offset where the bindings of the types before it (in the order of the
    enumeration) end.  So the bindings lie in the block one after the
    other, and none reaches into the next. *)
Theorem createContextMemoryPool_layout lvnctx createInfo w :
  ci_memAllocMode createInfo = Lvn_MemAllocMode_MemPool ->
  (forall t, 0 <= sizeof_stype t) ->
  (forall b, b ∈ ci_pMemoryBindings createInfo -> 0 < mbi_count b) ->
  (forall b, b ∈ ci_pBlockMemoryBindings createInfo -> 0 < mbi_count b) ->
  bytes_of (apply_counts (ci_pMemoryBindings createInfo) default_infos) all_stypes
    < 2 ^ 64 ->
  exists lvnctx' w',
    createContextMemoryPool sizeof_stype lvnctx createInfo w
      = (Lvn_Result_Success, lvnctx', w') /\
    let infos := sTypeMemAllocInfos lvnctx' in
    let base := baseMemoryBlock (memoryPool lvnctx') in
    blk_size base = bytes_of infos all_stypes /\
    forall t,
      memBindings (memoryPool lvnctx') t =
        [LvnMemoryBinding_new
           (LvnMemoryBlock_at base (bytes_of infos (stypes_before t all_stypes)))
           (sti_size (infos t)) (sti_count (infos t))] /\
      0 <= bytes_of infos (stypes_before t all_stypes) /\
      bytes_of infos (stypes_before t all_stypes)
        + sti_count (infos t) * sti_size (infos t) <= blk_size base.
Proof.
  intros Hmode Hsz Hb Hbb Hsum. unfold createContextMemoryPool.
  cbn [memoryMode set_memoryMode]. rewrite Hmode.
  rewrite (set_binding_counts_success _ _ _ 0 _ w)
    by (intros b Hin; specialize (Hb b Hin); lia).
  set (infos := apply_counts (ci_pMemoryBindings createInfo) _) in *.
  assert (Hn : nonneg infos).
  { apply apply_counts_nonneg; [apply default_infos_nonneg, Hsz|].
    intros b Hin. specialize (Hb b Hin). lia. }
  rewrite (total_memSize_bytes infos Hn Hsum).
  assert (Hblk : forall m w0, blk_size (fst (LvnMemoryBlock_new m w0)) = m).
  { intros m w0. unfold LvnMemoryBlock_new. destruct (Z.eqb_spec m 0) as [->|];
      [reflexivity|]. destruct (heap_alloc w0). reflexivity. }
  specialize (Hblk (bytes_of infos all_stypes) w).
  destruct (LvnMemoryBlock_new _ w) as [base w2]. cbn [fst] in Hblk.
  rewrite (set_binding_counts_success _ _ _ 0 _ w2)
    by (intros b Hin; specialize (Hbb b Hin); lia).
  eexists _, _. split; [reflexivity|].
  cbn [sTypeMemAllocInfos set_blockMemAllocInfos set_memoryPool set_sTypeMemAllocInfos
       memoryPool baseMemoryBlock memBindings].
  split; [exact Hblk|]. intros t.
  destruct (layout_fold base infos Hn all_stypes 0 (fun _ => []) all_stypes_NoDup
              ltac:(lia) ltac:(lia)) as (tbl & Hfold & Htbl).
  rewrite base_bindings_fold, Hfold. cbn [snd]. rewrite Htbl.
  destruct (decide (t ∈ all_stypes)) as [Hin|Hout];
    [|destruct (Hout (all_stypes_complete t))].
  split; [reflexivity|]. split; [apply bytes_of_nonneg, Hn|].
  rewrite Hblk. apply bytes_before_le; assumption.
Qed.

(** X10. [createContextMemoryPool] in pool mode, when the base bindings
    are in order and a block binding has a count of 0: the failure comes
    after the base pool has been built.  The function returns
    [Lvn_Result_Failure] and sends the error, with the index [k] of the
    first such block binding, to the core logger; the context keeps the
    base block and the base bindings of every structure type, and its
    block table holds what the block bindings before [k] wrote. *)
Theorem createContextMemoryPool_block_zero lvnctx createInfo w :
  ci_memAllocMode createInfo = Lvn_MemAllocMode_MemPool ->
  (forall b, b ∈ ci_pMemoryBindings createInfo -> mbi_count b <> 0) ->
  (exists b, b ∈ ci_pBlockMemoryBindings createInfo /\ mbi_count b = 0) ->
  exists k lvnctx' w',
    first_zero_count (ci_pBlockMemoryBindings createInfo) k /\
    createContextMemoryPool sizeof_stype lvnctx createInfo w
      = (Lvn_Result_Failure, lvnctx', w') /\
    (logging lvnctx = true -> enableCoreLogging lvnctx = true ->
     logCheckLevel lvnctx Lvn_LogLevel_Error = true ->
     logOutput w' = logOutput w ++
       [{| lr_level := Lvn_LogLevel_Error; lr_fmt := block_binding_error;
           lr_args := [Z.of_nat k] |}]) /\
    sTypeMemAllocInfos lvnctx' =
      apply_counts (ci_pMemoryBindings createInfo) default_infos /\
    blk_size (baseMemoryBlock (memoryPool lvnctx')) =
      total_memSize (sTypeMemAllocInfos lvnctx') /\
    memBindings (memoryPool lvnctx') =
      base_bindings (baseMemoryBlock (memoryPool lvnctx')) (sTypeMemAllocInfos lvnctx') /\
    blockMemAllocInfos lvnctx' =
      apply_counts (take k (ci_pBlockMemoryBindings createInfo)) default_infos.
Proof.
  intros Hmode Hb (b0 & Hin0 & Hz0).
  destruct (first_zero_count_exists _ (ex_intro _ b0 (conj Hin0 Hz0))) as (k & Hk).
  exists k. unfold createContextMemoryPool.
  cbn [memoryMode set_memoryMode]. rewrite Hmode.
  rewrite (set_binding_counts_success _ _ _ 0 _ w Hb).
  assert (Hblk : forall m w0,
    blk_size (fst (LvnMemoryBlock_new m w0)) = m /\
    logOutput (snd (LvnMemoryBlock_new m w0)) = logOutput w0).
  { intros m w0. unfold LvnMemoryBlock_new. destruct (Z.eqb_spec m 0) as [->|];
      [split; reflexivity|]. split; reflexivity. }
  destruct (Hblk (total_memSize
              (apply_counts (ci_pMemoryBindings createInfo) default_infos)) w)
    as [Hsz Hlog].
  destruct (LvnMemoryBlock_new _ w) as [base w2]. cbn [fst snd] in Hsz, Hlog.
  rewrite (set_binding_counts_failure _ _ _ k 0 _ w2 Hk).
  eexists _, _. split; [exact Hk|]. split; [reflexivity|].
  cbn [sTypeMemAllocInfos blockMemAllocInfos set_blockMemAllocInfos set_memoryPool
       set_sTypeMemAllocInfos memoryPool baseMemoryBlock memBindings].
  split; [|split; [reflexivity|split; [exact Hsz|split; reflexivity]]].
  intros Hl Hc Hlvl. unfold LVN_CORE_ERROR, logMessageCore.
  cbn [logging enableCoreLogging set_blockMemAllocInfos set_memoryPool
       set_sTypeMemAllocInfos set_memoryMode setDefaultStructTypeMemAllocInfos].
  rewrite Hl, Hc. cbn [negb].
  unfold logCheckLevel in *.
  cbn [coreLogLevel set_blockMemAllocInfos set_memoryPool
       set_sTypeMemAllocInfos set_memoryMode setDefaultStructTypeMemAllocInfos].
  rewrite Hlvl. cbn [negb logOutput]. rewrite Hlog. reflexivity.
Qed.

(** *** Objects in individual mode *)

(** The events of the destruction of [p]: the destructor, when the type
    has one, and then the heap's free. *)
Definition destruction (td : bool) (p : Ptr) : list Event :=
  (if td then [] else [EvDestruct p]) ++ [EvHeapFree p].

(** [events] holds the destruction of [p], in one piece and in this
    order. *)
Definition destroyed_in (td : bool) (p : Ptr) (events : list Event) : Prop :=
  exists pre post, events = pre ++ destruction td p ++ post.

Lemma wrap64_shift a b d :
  wrap64 (a - b) = wrap64 (wrap64 (a + d) - (b + d)).
Proof.
  unfold wrap64. rewrite Zminus_mod_idemp_l. f_equal. lia.
Qed.

Lemma destruction_constructs_nothing td p q :
  EvConstruct p ∈ destruction td q -> False.
Proof.
  unfold destruction. intros H. apply elem_of_app in H as [H|H].
  - destruct td; [inversion H|].
    apply list_elem_of_singleton in H. discriminate.
  - apply list_elem_of_singleton in H. discriminate.
Qed.

Lemma destroyed_in_app_l td p ev1 ev2 :
  destroyed_in td p ev1 -> destroyed_in td p (ev1 ++ ev2).
Proof.
  intros (pre & post & ->). exists pre, (post ++ ev2).
  rewrite <- !app_assoc. reflexivity.
Qed.

Lemma destroyed_in_app_r td p ev1 ev2 :
  destroyed_in td p ev2 -> destroyed_in td p (ev1 ++ ev2).
Proof.
  intros (pre & post & ->). exists (ev1 ++ pre), post.
  rewrite <- !app_assoc. reflexivity.
Qed.

Lemma individual_step td t op lvnctx w live :
  memoryMode lvnctx = Lvn_MemAllocMode_Individual ->
  exists lvnctx' w' live' events,
    pool_step td t op (lvnctx, w, live) = Some (lvnctx', w', live') /\
    memoryMode lvnctx' = Lvn_MemAllocMode_Individual /\
    memoryPool lvnctx' = memoryPool lvnctx /\
    (forall t', t' <> t ->
       objectMemoryAllocations lvnctx' t' = objectMemoryAllocations lvnctx t') /\
    wrap64 (objectMemoryAllocations lvnctx' t - Z.of_nat (length live')) =
      wrap64 (objectMemoryAllocations lvnctx t - Z.of_nat (length live)) /\
    (0 <= objectMemoryAllocations lvnctx t < 2 ^ 64 ->
     0 <= objectMemoryAllocations lvnctx' t < 2 ^ 64) /\
    trace w' = trace w ++ events /\
    (forall p, p ∈ live \/ EvConstruct p ∈ events ->
       p ∈ live' \/ destroyed_in td p events).
Proof.
  intros Hmode. destruct op as [|k]; cbn [pool_step].
  - unfold createObject, heap_alloc, count_up. rewrite Hmode.
    eexists _, _, _, _. split; [reflexivity|].
    cbn [memoryMode memoryPool objectMemoryAllocations set_objectMemoryAllocations
         trace emit].
    split; [exact Hmode|]. split; [reflexivity|]. split.
    { intros t' Hne. rewrite fn_lookup_insert_ne by congruence. reflexivity. }
    split.
    { rewrite fn_lookup_insert, length_app. cbn [length].
      rewrite (wrap64_shift (objectMemoryAllocations lvnctx t)
                 (Z.of_nat (length live)) 1).
      f_equal. lia. }
    split.
    { intros _. rewrite fn_lookup_insert. unfold wrap64.
      apply Z.mod_pos_bound. lia. }
    split; [reflexivity|].
    intros p [Hp|Hp]; left; apply elem_of_app.
    + left. exact Hp.
    + right. apply elem_of_cons in Hp as [Hp|Hp]; [discriminate|].
      apply list_elem_of_singleton in Hp. injection Hp as ->.
      apply list_elem_of_singleton. reflexivity.
  - destruct (live !! k) as [q|] eqn:Hk.
    + unfold destroyObject, count_down, delete_object. rewrite Hmode.
      exists (set_objectMemoryAllocations lvnctx
                (<[t := wrap64 (objectMemoryAllocations lvnctx t - 1)]>
                   (objectMemoryAllocations lvnctx))),
        (emit (destruction td q) w), (delete k live), (destruction td q).
      split; [reflexivity|].
      cbn [memoryMode memoryPool objectMemoryAllocations set_objectMemoryAllocations
           trace emit].
      split; [exact Hmode|]. split; [reflexivity|]. split.
      { intros t' Hne. rewrite fn_lookup_insert_ne by congruence. reflexivity. }
      split.
      { rewrite fn_lookup_insert.
        pose proof (lookup_lt_Some _ _ _ Hk) as Hlt.
        rewrite length_delete by eauto.
        rewrite (wrap64_shift (objectMemoryAllocations lvnctx t)
                   (Z.of_nat (length live)) (-1)).
        replace (objectMemoryAllocations lvnctx t + -1)
          with (objectMemoryAllocations lvnctx t - 1) by lia.
        f_equal. lia. }
      split.
      { intros _. rewrite fn_lookup_insert. unfold wrap64.
        apply Z.mod_pos_bound. lia. }
      split; [reflexivity|].
      intros p [Hp|Hp]; [|destruct (destruction_constructs_nothing td p q Hp)].
      apply list_elem_of_lookup in Hp as (j & Hj).
      destruct (decide (j = k)) as [->|Hne].
      * right. assert (p = q) as -> by congruence.
        exists [], []. rewrite app_nil_r. reflexivity.
      * left. apply list_elem_of_lookup.
        destruct (decide (j < k)%nat).
        -- exists j. rewrite list_lookup_delete_lt by lia. exact Hj.
        -- exists (j - 1)%nat. rewrite list_lookup_delete_ge by lia.
           rewrite <- Hj. f_equal. lia.
    + exists lvnctx, w, live, []. split; [reflexivity|].
      split; [exact Hmode|]. split; [reflexivity|]. split; [reflexivity|].
      split; [reflexivity|]. split; [auto|].
      split; [rewrite app_nil_r; reflexivity|].
      intros p [Hp|Hp]; [left; exact Hp|inversion Hp].
Qed.

(** X11. In individual mode every sequence of [createObject] and
    [destroyObject] calls runs through and leaves the memory pool alone;
    the object counter of the structure type moves with the number of live
    objects (modulo 2^64) and the counters of the other types stay; and
    of every object that was live at the start or was constructed on the
    way and is no longer live, the trace of the calls holds the
    destruction: its destructor, when the type has one, and right after
    it the heap's free. *)
Theorem individual_mode_objects td t ops lvnctx w live :
  memoryMode lvnctx = Lvn_MemAllocMode_Individual ->
  0 <= objectMemoryAllocations lvnctx t < 2 ^ 64 ->
  exists lvnctx' w' live' events,
    pool_run td t ops (lvnctx, w, live) = Some (lvnctx', w', live') /\
    memoryPool lvnctx' = memoryPool lvnctx /\
    objectMemoryAllocations lvnctx' t =
      wrap64 (objectMemoryAllocations lvnctx t
              + Z.of_nat (length live') - Z.of_nat (length live)) /\
    (forall t', t' <> t ->
       objectMemoryAllocations lvnctx' t' = objectMemoryAllocations lvnctx t') /\
    trace w' = trace w ++ events /\
    (forall p, p ∈ live \/ EvConstruct p ∈ events ->
       p ∈ live' \/ destroyed_in td p events).
Proof.
  assert (Hgen : forall lvnctx w live,
    memoryMode lvnctx = Lvn_MemAllocMode_Individual ->
    exists lvnctx' w' live' events,
      pool_run td t ops (lvnctx, w, live) = Some (lvnctx', w', live') /\
      memoryMode lvnctx' = Lvn_MemAllocMode_Individual /\
      memoryPool lvnctx' = memoryPool lvnctx /\
      (forall t', t' <> t ->
         objectMemoryAllocations lvnctx' t' = objectMemoryAllocations lvnctx t') /\
      wrap64 (objectMemoryAllocations lvnctx' t - Z.of_nat (length live')) =
        wrap64 (objectMemoryAllocations lvnctx t - Z.of_nat (length live)) /\
      (0 <= objectMemoryAllocations lvnctx t < 2 ^ 64 ->
       0 <= objectMemoryAllocations lvnctx' t < 2 ^ 64) /\
      trace w' = trace w ++ events /\
      (forall p, p ∈ live \/ EvConstruct p ∈ events ->
         p ∈ live' \/ destroyed_in td p events)).
  { clear lvnctx w live.
    induction ops as [|op ops' IH]; intros lvnctx w live Hmode.
    - exists lvnctx, w, live, []. split; [reflexivity|]. split; [exact Hmode|].
      split; [reflexivity|]. split; [reflexivity|]. split; [reflexivity|].
      split; [auto|].
      split; [rewrite app_nil_r; reflexivity|].
      intros p [Hp|Hp]; [left; exact Hp|inversion Hp].
    - destruct (individual_step td t op lvnctx w live Hmode)
        as (c1 & w1 & l1 & e1 & Hs & Hm1 & Hp1 & Ho1 & Hc1 & Hr1 & He1 & Hf1).
      destruct (IH c1 w1 l1 Hm1)
        as (c2 & w2 & l2 & e2 & Hr & Hm2 & Hp2 & Ho2 & Hc2 & Hr2 & He2 & Hf2).
      exists c2, w2, l2, (e1 ++ e2). cbn [pool_run]. rewrite Hs.
      split; [exact Hr|]. split; [exact Hm2|]. split; [congruence|].
      split; [intros t' Hne; rewrite Ho2, Ho1 by exact Hne; reflexivity|].
      split; [congruence|]. split; [auto|]. split.
      { rewrite He2, He1, app_assoc. reflexivity. }
      intros p Hp.
      assert (Hcase : (p ∈ live \/ EvConstruct p ∈ e1) \/ EvConstruct p ∈ e2).
      { destruct Hp as [Hp|Hp]; [auto|].
        apply elem_of_app in Hp as [Hp|Hp]; auto. }
      destruct Hcase as [H1|H2].
      + destruct (Hf1 p H1) as [Hin|Hd].
        * destruct (Hf2 p (or_introl Hin)) as [Hin'|Hd'];
            [left; exact Hin'|right; apply destroyed_in_app_r; exact Hd'].
        * right. apply destroyed_in_app_l. exact Hd.
      + destruct (Hf2 p (or_intror H2)) as [Hin'|Hd'];
          [left; exact Hin'|right; apply destroyed_in_app_r; exact Hd']. }
  intros Hmode Hrange.
  destruct (Hgen lvnctx w live Hmode)
    as (c & w' & l' & ev & Hr & _ & Hp & Ho & Hc & Hrg & Hev & Hf).
  exists c, w', l', ev. split; [exact Hr|]. split; [exact Hp|].
  split; [|split; [exact Ho|split; [exact Hev|exact Hf]]].
  specialize (Hrg Hrange).
  rewrite (wrap64_shift (objectMemoryAllocations c t) _ 0) in Hc.
  transitivity (wrap64 (objectMemoryAllocations c t)).
  { unfold wrap64. rewrite Z.mod_small; [reflexivity|lia]. }
  revert Hc. unfold wrap64. intros Hc.
  replace (objectMemoryAllocations lvnctx t + Z.of_nat (length l') - Z.of_nat (length live))
    with ((objectMemoryAllocations lvnctx t - Z.of_nat (length live)) + Z.of_nat (length l'))
    by lia.
  rewrite <- Zplus_mod_idemp_l, <- Hc, Zplus_mod_idemp_l.
  f_equal. rewrite Z.add_0_r, Z.mod_small by lia. lia.
Qed.

End ContextPool.

(** *** A second call of [createContext] *)

Section Retry.

Variable sizeof_stype : LvnStructureType -> Z.
Variable new_LvnContext : LvnContext.
Variable later_stages : LvnContext -> World -> LvnResult * LvnContext * World.

(** X12. A [createContext] that fails on a base binding with a count of 0
    leaves the global context set, without a pool.  A later call is
    turned away with [Lvn_Result_AlreadyCalled], whatever its create info,
    and changes neither the context nor the world: the failed context
    stays as it is. *)
Theorem createContext_failure_blocks_retry createInfo createInfo' w :
  ci_memAllocMode createInfo = Lvn_MemAllocMode_MemPool ->
  (exists b, b ∈ ci_pMemoryBindings createInfo /\ mbi_count b = 0) ->
  exists lvnctx w',
    createContext sizeof_stype new_LvnContext later_stages None createInfo w
      = (Lvn_Result_Failure, Some lvnctx, w') /\
    memoryPool lvnctx = memoryPool new_LvnContext /\
    forall w2,
      createContext sizeof_stype new_LvnContext later_stages (Some lvnctx) createInfo' w2
        = (Lvn_Result_AlreadyCalled, Some lvnctx, w2).
Proof.
  intros Hmode Hex.
  destruct (first_zero_count_exists _ Hex) as (k & Hk).
  unfold createContext at 1. unfold createContextMemoryPool.
  cbn [memoryMode set_memoryMode]. rewrite Hmode.
  rewrite (set_binding_counts_failure _ _ _ k 0 _ w Hk).
  eexists _, _. split; [reflexivity|]. split; [|reflexivity].
  unfold initLogging. destruct (ci_enableLogging createInfo); reflexivity.
Qed.

End Retry.

(** *** The theorems on a context *)

(** Base bindings that name buffers twice, and a block binding. *)
Definition demo_pool_info : LvnContextCreateInfo :=
  {| ci_enableLogging := true; ci_disableCoreLogging := false;
     ci_memAllocMode := Lvn_MemAllocMode_MemPool;
     ci_pMemoryBindings :=
       [{| mbi_sType := Lvn_Stype_Buffer; mbi_count := 2 |};
        {| mbi_sType := Lvn_Stype_Texture; mbi_count := 4 |};
        {| mbi_sType := Lvn_Stype_Buffer; mbi_count := 3 |}];
     ci_pBlockMemoryBindings :=
       [{| mbi_sType := Lvn_Stype_Buffer; mbi_count := 8 |}] |}.

(** The same base bindings, and a block binding with a count of 0 in
    second place. *)
Definition demo_block_zero_info : LvnContextCreateInfo :=
  {| ci_enableLogging := true; ci_disableCoreLogging := false;
     ci_memAllocMode := Lvn_MemAllocMode_MemPool;
     ci_pMemoryBindings := ci_pMemoryBindings demo_pool_info;
     ci_pBlockMemoryBindings :=
       [{| mbi_sType := Lvn_Stype_Buffer; mbi_count := 8 |};
        {| mbi_sType := Lvn_Stype_Shader; mbi_count := 0 |}] |}.

Ltac each_binding H :=
  repeat (apply elem_of_cons in H as [->|H]); [..|inversion H].

Lemma createContextMemoryPool_tables_witness :
  exists lvnctx' w',
    createContextMemoryPool demo_sizeof demo_new_context demo_pool_info demo_world
      = (Lvn_Result_Success, lvnctx', w') /\
    memoryMode lvnctx' = Lvn_MemAllocMode_MemPool /\
    counts_set demo_sizeof (ci_pMemoryBindings demo_pool_info)
      (sTypeMemAllocInfos lvnctx') /\
    counts_set demo_sizeof (ci_pBlockMemoryBindings demo_pool_info)
      (blockMemAllocInfos lvnctx').
Proof.
  apply (createContextMemoryPool_tables demo_sizeof demo_new_context
           demo_pool_info demo_world).
  - reflexivity.
  - intros b Hb. each_binding Hb; discriminate.
  - intros b Hb. each_binding Hb; discriminate.
Defined.

Lemma createContextMemoryPool_layout_witness :
  exists lvnctx' w',
    createContextMemoryPool demo_sizeof demo_new_context demo_pool_info demo_world
      = (Lvn_Result_Success, lvnctx', w') /\
    let infos := sTypeMemAllocInfos lvnctx' in
    let base := baseMemoryBlock (memoryPool lvnctx') in
    blk_size base = bytes_of infos all_stypes /\
    forall t,
      memBindings (memoryPool lvnctx') t =
        [LvnMemoryBinding_new
           (LvnMemoryBlock_at base (bytes_of infos (stypes_before t all_stypes)))
           (sti_size (infos t)) (sti_count (infos t))] /\
      0 <= bytes_of infos (stypes_before t all_stypes) /\
      bytes_of infos (stypes_before t all_stypes)
        + sti_count (infos t) * sti_size (infos t) <= blk_size base.
Proof.
  apply (createContextMemoryPool_layout demo_sizeof demo_new_context
           demo_pool_info demo_world).
  - reflexivity.
  - intros t. unfold demo_sizeof. lia.
  - intros b Hb. each_binding Hb; reflexivity.
  - intros b Hb. each_binding Hb; reflexivity.
  - vm_compute. reflexivity.
Defined.

Lemma createContextMemoryPool_block_zero_witness :
  exists k lvnctx' w',
    first_zero_count (ci_pBlockMemoryBindings demo_block_zero_info) k /\
    createContextMemoryPool demo_sizeof
      (initLogging demo_new_context demo_block_zero_info) demo_block_zero_info demo_world
      = (Lvn_Result_Failure, lvnctx', w') /\
    logOutput w' =
      [{| lr_level := Lvn_LogLevel_Error; lr_fmt := block_binding_error;
          lr_args := [Z.of_nat k] |}] /\
    blk_size (baseMemoryBlock (memoryPool lvnctx')) =
      total_memSize (sTypeMemAllocInfos lvnctx').
Proof.
  destruct (createContextMemoryPool_block_zero demo_sizeof
              (initLogging demo_new_context demo_block_zero_info)
              demo_block_zero_info demo_world)
    as (k & c & w' & Hk & Hc & Hlog & _ & Hsz & _).
  - reflexivity.
  - intros b Hb. each_binding Hb; discriminate.
  - exists {| mbi_sType := Lvn_Stype_Shader; mbi_count := 0 |}.
    split; [|reflexivity]. right. left.
  - exists k, c, w'. split; [exact Hk|]. split; [exact Hc|].
    split; [|exact Hsz]. apply Hlog; reflexivity.
Defined.

Lemma individual_mode_objects_witness :
  exists lvnctx' w' live' events,
    pool_run false Lvn_Stype_Buffer [Create; Create; Destroy 0; Create]
      (demo_new_context, demo_world, []) = Some (lvnctx', w', live') /\
    memoryPool lvnctx' = memoryPool demo_new_context /\
    objectMemoryAllocations lvnctx' Lvn_Stype_Buffer =
      wrap64 (objectMemoryAllocations demo_new_context Lvn_Stype_Buffer
              + Z.of_nat (length live') - Z.of_nat (@length Ptr [])) /\
    (forall t', t' <> Lvn_Stype_Buffer ->
       objectMemoryAllocations lvnctx' t' = objectMemoryAllocations demo_new_context t') /\
    trace w' = trace demo_world ++ events /\
    (forall p, p ∈ [] \/ EvConstruct p ∈ events ->
       p ∈ live' \/ destroyed_in false p events).
Proof.
  apply (individual_mode_objects false Lvn_Stype_Buffer
           [Create; Create; Destroy 0; Create] demo_new_context demo_world []).
  - reflexivity.
  - cbn. lia.
Defined.

Lemma createContext_failure_blocks_retry_witness :
  exists lvnctx w',
    createContext demo_sizeof demo_new_context demo_later None
      (demo_info Lvn_MemAllocMode_MemPool zero_count_bindings) demo_world
      = (Lvn_Result_Failure, Some lvnctx, w') /\
    memoryPool lvnctx = memoryPool demo_new_context /\
    forall w2,
      createContext demo_sizeof demo_new_context demo_later (Some lvnctx)
        (demo_info Lvn_MemAllocMode_MemPool buffer2) w2
        = (Lvn_Result_AlreadyCalled, Some lvnctx, w2).
Proof.
  apply (createContext_failure_blocks_retry demo_sizeof demo_new_context demo_later
           (demo_info Lvn_MemAllocMode_MemPool zero_count_bindings)
           (demo_info Lvn_MemAllocMode_MemPool buffer2) demo_world).
  - reflexivity.
  - exists {| mbi_sType := Lvn_Stype_Shader; mbi_count := 0 |}.
    split; [|reflexivity]. right. left.
Defined.

End ContextPool.

(** ** [decodeCodepointUTF8] *)

Module Utf8.

(** [ptr[i]] on the bytes of the string, terminator included; [None] is a
    read past them. *)
Definition byte_at (str : list Z) (i : nat) : option Z := str !! i.

(** [(b & 0xc0) ^ 0x80] as a condition: the byte is not a continuation
    byte. *)
Definition not_continuation (b : Z) : bool :=
  negb (Z.lxor (Z.land b 0xc0) 0x80 =? 0).

(** [uint32_t decodeCodepointUTF8(const char* str, uint32_t* next)]: the
    code point and the value left in [*next].  The operands of [||] are
    read from left to right, and no further than the first that holds. *)
Definition decodeCodepointUTF8 (str : list Z) : option (Z * Z) :=
  p0 ← byte_at str 0;
  if Z.land p0 0xf8 =? 0xf0 then
    p1 ← byte_at str 1;
    if not_continuation p1 then Some (0x3f, 1) else
    p2 ← byte_at str 2;
    if not_continuation p2 then Some (0x3f, 1) else
    p3 ← byte_at str 3;
    if not_continuation p3 then Some (0x3f, 1) else
    Some (Z.lor (Z.lor (Z.lor (Z.shiftl (Z.land p0 0x07) 18)
                               (Z.shiftl (Z.land p1 0x3f) 12))
                        (Z.shiftl (Z.land p2 0x3f) 6))
                 (Z.land p3 0x3f), 4)
  else if Z.land p0 0xf0 =? 0xe0 then
    p1 ← byte_at str 1;
    if not_continuation p1 then Some (0x3f, 1) else
    p2 ← byte_at str 2;
    if not_continuation p2 then Some (0x3f, 1) else
    Some (Z.lor (Z.lor (Z.shiftl (Z.land p0 0x0f) 12)
                        (Z.shiftl (Z.land p1 0x3f) 6))
                 (Z.land p2 0x3f), 3)
  else if Z.land p0 0xe0 =? 0xc0 then
    p1 ← byte_at str 1;
    if not_continuation p1 then Some (0x3f, 1) else
    Some (Z.lor (Z.shiftl (Z.land p0 0x1f) 6) (Z.land p1 0x3f), 2)
  else if p0 <? 0x80 then Some (p0, 1)
  else Some (0x3f, 1).

(** The UTF-8 encoding of a code point, as the standard lays it out: the
    reference the decoder is compared with. *)
Definition utf8_encode (cp : Z) : list Z :=
  if cp <? 0x80 then [cp]
  else if cp <? 0x800 then
    [Z.lor 0xc0 (Z.shiftr cp 6); Z.lor 0x80 (Z.land cp 0x3f)]
  else if cp <? 0x10000 then
    [Z.lor 0xe0 (Z.shiftr cp 12);
     Z.lor 0x80 (Z.land (Z.shiftr cp 6) 0x3f);
     Z.lor 0x80 (Z.land cp 0x3f)]
  else
    [Z.lor 0xf0 (Z.shiftr cp 18);
     Z.lor 0x80 (Z.land (Z.shiftr cp 12) 0x3f);
     Z.lor 0x80 (Z.land (Z.shiftr cp 6) 0x3f);
     Z.lor 0x80 (Z.land cp 0x3f)].

(** A check of all the values below [n]. *)
Fixpoint all_below (n : nat) (f : Z -> bool) : bool :=
  match n with
  | O => true
  | S n' => f (Z.of_nat n') && all_below n' f
  end.

Lemma all_below_spec n f : all_below n f = true ->
  forall b, 0 <= b < Z.of_nat n -> f b = true.
Proof.
  induction n as [|n IH]; intros H b Hb; [lia|].
  cbn [all_below] in H. apply andb_true_iff in H as [H1 H2].
  destruct (Z.eq_dec b (Z.of_nat n)) as [->|Hne]; [exact H1|].
  apply IH; [exact H2|lia].
Qed.

Lemma lor_mul_add a l n :
  0 <= n -> 0 <= l < 2 ^ n -> Z.lor (a * 2 ^ n) l = a * 2 ^ n + l.
Proof.
  intros Hn Hl. symmetry. apply Z.add_nocarry_lor.
  rewrite <- Z.shiftl_mul_pow2 by exact Hn.
  apply Z.bits_inj'. intros k Hk. rewrite Z.land_spec, Z.bits_0.
  destruct (Z.lt_ge_cases k n) as [Hlt|Hge].
  - rewrite Z.shiftl_spec_low by exact Hlt. reflexivity.
  - destruct (Z.eq_dec l 0) as [->|Hl0]; [rewrite Z.bits_0; apply andb_false_r|].
    rewrite (Z.bits_above_log2 l k); [apply andb_false_r|lia|].
    apply Z.log2_lt_pow2; [lia|]. apply Z.lt_le_trans with (2 ^ n); [lia|].
    apply Z.pow_le_mono_r; lia.
Qed.

(** The tag [0x80] on six bits of payload, and what the decoder makes of
    the byte. *)
Lemma continuation_byte x : 0 <= x < 64 ->
  not_continuation (Z.lor 0x80 x) = false /\ Z.land (Z.lor 0x80 x) 0x3f = x.
Proof.
  intros Hx.
  pose proof (all_below_spec 64
    (fun x => negb (not_continuation (Z.lor 0x80 x))
              && (Z.land (Z.lor 0x80 x) 0x3f =? x)) eq_refl x Hx) as H.
  cbv beta in H. apply andb_true_iff in H as [H1 H2].
  apply negb_true_iff in H1. apply Z.eqb_eq in H2. auto.
Qed.

Lemma low6 x : 0 <= x -> 0 <= Z.land x 0x3f < 64.
Proof.
  intros Hx. change 0x3f with (Z.ones 6). rewrite Z.land_ones by lia.
  apply Z.mod_pos_bound. lia.
Qed.

Lemma split6 x : 0 <= x -> Z.shiftr x 6 * 2 ^ 6 + Z.land x 0x3f = x.
Proof.
  intros Hx. change 0x3f with (Z.ones 6). rewrite Z.land_ones by lia.
  rewrite Z.shiftr_div_pow2 by lia.
  pose proof (Z.div_mod x (2 ^ 6)). lia.
Qed.

Lemma shiftr_shiftr6 x n : 0 <= n -> Z.shiftr (Z.shiftr x n) 6 = Z.shiftr x (n + 6).
Proof. intros Hn. apply Z.shiftr_shiftr. lia. Qed.

(** X13. The decoder reads every code point of Unicode back from its
    UTF-8 encoding, whatever follows it, and leaves the length of the
    encoding in [*next]. *)
Theorem decode_encode cp rest :
  0 <= cp < 0x110000 ->
  decodeCodepointUTF8 (utf8_encode cp ++ rest)
    = Some (cp, Z.of_nat (length (utf8_encode cp))).
Proof.
  intros Hcp. unfold utf8_encode.
  destruct (Z.ltb_spec cp 0x80) as [H1|H1].
  { pose proof (all_below_spec 128
      (fun p0 => negb (Z.land p0 0xf8 =? 0xf0) && negb (Z.land p0 0xf0 =? 0xe0)
                 && negb (Z.land p0 0xe0 =? 0xc0)) eq_refl cp ltac:(lia)) as H.
    cbv beta in H. apply andb_true_iff in H as [H Hc].
    apply andb_true_iff in H as [Ha Hb].
    apply negb_true_iff in Ha, Hb, Hc.
    unfold decodeCodepointUTF8. cbn [app byte_at lookup list_lookup mbind option_bind].
    rewrite Ha, Hb, Hc. destruct (Z.ltb_spec cp 0x80); [reflexivity|lia]. }
  destruct (Z.ltb_spec cp 0x800) as [H2|H2].
  { set (h := Z.shiftr cp 6).
    assert (Hh : 0 <= h < 32).
    { unfold h. rewrite Z.shiftr_div_pow2 by lia. split.
      - apply Z.div_pos; lia.
      - apply Z.div_lt_upper_bound; lia. }
    pose proof (all_below_spec 32
      (fun h => negb (Z.land (Z.lor 0xc0 h) 0xf8 =? 0xf0)
                && negb (Z.land (Z.lor 0xc0 h) 0xf0 =? 0xe0)
                && (Z.land (Z.lor 0xc0 h) 0xe0 =? 0xc0)
                && (Z.land (Z.lor 0xc0 h) 0x1f =? h)) eq_refl h Hh) as H.
    cbv beta in H. apply andb_true_iff in H as [H Hd].
    apply andb_true_iff in H as [H Hc]. apply andb_true_iff in H as [Ha Hb].
    apply negb_true_iff in Ha, Hb. apply Z.eqb_eq in Hd.
    destruct (continuation_byte (Z.land cp 0x3f) (low6 cp ltac:(lia))) as [Hn Hl].
    unfold decodeCodepointUTF8. cbn [app byte_at lookup list_lookup mbind option_bind].
    rewrite Ha, Hb, Hc, Hn, Hd, Hl.
    rewrite Z.shiftl_mul_pow2, lor_mul_add by (try apply low6; lia).
    unfold h. rewrite split6 by lia. reflexivity. }
  destruct (Z.ltb_spec cp 0x10000) as [H3|H3].
  { set (h := Z.shiftr cp 12).
    assert (Hh : 0 <= h < 16).
    { unfold h. rewrite Z.shiftr_div_pow2 by lia. split.
      - apply Z.div_pos; lia.
      - apply Z.div_lt_upper_bound; lia. }
    pose proof (all_below_spec 16
      (fun h => negb (Z.land (Z.lor 0xe0 h) 0xf8 =? 0xf0)
                && (Z.land (Z.lor 0xe0 h) 0xf0 =? 0xe0)
                && (Z.land (Z.lor 0xe0 h) 0x0f =? h)) eq_refl h Hh) as H.
    cbv beta in H. apply andb_true_iff in H as [H Hc].
    apply andb_true_iff in H as [Ha Hb].
    apply negb_true_iff in Ha. apply Z.eqb_eq in Hc.
    assert (H6 : 0 <= Z.shiftr cp 6) by (apply Z.shiftr_nonneg; lia).
    destruct (continuation_byte (Z.land cp 0x3f) (low6 cp ltac:(lia))) as [Hn Hl].
    destruct (continuation_byte (Z.land (Z.shiftr cp 6) 0x3f) (low6 _ H6)) as [Hn1 Hl1].
    unfold decodeCodepointUTF8. cbn [app byte_at lookup list_lookup mbind option_bind].
    rewrite Ha, Hb, Hn1, Hn, Hc, Hl, Hl1.
    pose proof (split6 cp ltac:(lia)). pose proof (split6 (Z.shiftr cp 6) H6).
    pose proof (low6 cp ltac:(lia)). pose proof (low6 (Z.shiftr cp 6) H6).
    assert (E1 : Z.shiftr (Z.shiftr cp 6) 6 = h)
      by (rewrite shiftr_shiftr6 by lia; reflexivity).
    rewrite !Z.shiftl_mul_pow2 by lia.
    rewrite (lor_mul_add h _ 12) by lia.
    replace (h * 2 ^ 12 + Z.land (Z.shiftr cp 6) 63 * 2 ^ 6)
      with ((h * 2 ^ 6 + Z.land (Z.shiftr cp 6) 63) * 2 ^ 6) by lia.
    rewrite lor_mul_add by lia.
    f_equal. f_equal. lia. }
  { set (h := Z.shiftr cp 18).
    assert (Hh : 0 <= h < 8).
    { unfold h. rewrite Z.shiftr_div_pow2 by lia. split.
      - apply Z.div_pos; lia.
      - apply Z.div_lt_upper_bound; lia. }
    pose proof (all_below_spec 8
      (fun h => (Z.land (Z.lor 0xf0 h) 0xf8 =? 0xf0)
                && (Z.land (Z.lor 0xf0 h) 0x07 =? h)) eq_refl h Hh) as H.
    cbv beta in H. apply andb_true_iff in H as [Ha Hc]. apply Z.eqb_eq in Hc.
    assert (H6 : 0 <= Z.shiftr cp 6) by (apply Z.shiftr_nonneg; lia).
    assert (H12 : 0 <= Z.shiftr cp 12) by (apply Z.shiftr_nonneg; lia).
    destruct (continuation_byte (Z.land cp 0x3f) (low6 cp ltac:(lia))) as [Hn Hl].
    destruct (continuation_byte (Z.land (Z.shiftr cp 6) 0x3f) (low6 _ H6)) as [Hn1 Hl1].
    destruct (continuation_byte (Z.land (Z.shiftr cp 12) 0x3f) (low6 _ H12)) as [Hn2 Hl2].
    unfold decodeCodepointUTF8. cbn [app byte_at lookup list_lookup mbind option_bind].
    rewrite Ha, Hn2, Hn1, Hn, Hc, Hl, Hl1, Hl2.
    pose proof (split6 cp ltac:(lia)). pose proof (split6 (Z.shiftr cp 6) H6).
    pose proof (split6 (Z.shiftr cp 12) H12).
    pose proof (low6 cp ltac:(lia)).
    pose proof (low6 (Z.shiftr cp 6) H6). pose proof (low6 (Z.shiftr cp 12) H12).
    assert (E1 : Z.shiftr (Z.shiftr cp 6) 6 = Z.shiftr cp 12)
      by (rewrite shiftr_shiftr6 by lia; reflexivity).
    assert (E2 : Z.shiftr (Z.shiftr cp 12) 6 = h)
      by (rewrite shiftr_shiftr6 by lia; reflexivity).
    rewrite !Z.shiftl_mul_pow2 by lia.
    rewrite (lor_mul_add h _ 18) by lia.
    replace (h * 2 ^ 18 + Z.land (Z.shiftr cp 12) 63 * 2 ^ 12)
      with ((h * 2 ^ 6 + Z.land (Z.shiftr cp 12) 63) * 2 ^ 12) by lia.
    rewrite (lor_mul_add _ _ 12) by lia.
    replace ((h * 2 ^ 6 + Z.land (Z.shiftr cp 12) 63) * 2 ^ 12
             + Z.land (Z.shiftr cp 6) 63 * 2 ^ 6)
      with (((h * 2 ^ 6 + Z.land (Z.shiftr cp 12) 63) * 2 ^ 6
             + Z.land (Z.shiftr cp 6) 63) * 2 ^ 6) by lia.
    rewrite lor_mul_add by lia.
    f_equal. f_equal. lia. }
Qed.

(** *** On a string that ends in a terminator *)

Lemma land_ones_bound p k : 0 <= k -> 0 <= Z.land p (Z.ones k) < 2 ^ k.
Proof.
  intros Hk. rewrite Z.land_ones by exact Hk. apply Z.mod_pos_bound.
  apply Z.pow_pos_nonneg; lia.
Qed.

Lemma payload4 a b c d :
  0 <= a < 8 -> 0 <= b < 64 -> 0 <= c < 64 -> 0 <= d < 64 ->
  0 <= Z.lor (Z.lor (Z.lor (Z.shiftl a 18) (Z.shiftl b 12)) (Z.shiftl c 6)) d
    < 0x200000.
Proof.
  intros Ha Hb Hc Hd. rewrite !Z.shiftl_mul_pow2 by lia.
  rewrite (lor_mul_add a _ 18) by lia.
  replace (a * 2 ^ 18 + b * 2 ^ 12) with ((a * 2 ^ 6 + b) * 2 ^ 12) by lia.
  rewrite (lor_mul_add _ _ 12) by lia.
  replace ((a * 2 ^ 6 + b) * 2 ^ 12 + c * 2 ^ 6)
    with (((a * 2 ^ 6 + b) * 2 ^ 6 + c) * 2 ^ 6) by lia.
  rewrite lor_mul_add by lia. lia.
Qed.

Lemma payload3 a b c :
  0 <= a < 16 -> 0 <= b < 64 -> 0 <= c < 64 ->
  0 <= Z.lor (Z.lor (Z.shiftl a 12) (Z.shiftl b 6)) c < 0x10000.
Proof.
  intros Ha Hb Hc. rewrite !Z.shiftl_mul_pow2 by lia.
  rewrite (lor_mul_add a _ 12) by lia.
  replace (a * 2 ^ 12 + b * 2 ^ 6) with ((a * 2 ^ 6 + b) * 2 ^ 6) by lia.
  rewrite lor_mul_add by lia. lia.
Qed.

Lemma payload2 a b :
  0 <= a < 32 -> 0 <= b < 64 -> 0 <= Z.lor (Z.shiftl a 6) b < 0x800.
Proof.
  intros Ha Hb. rewrite !Z.shiftl_mul_pow2 by lia.
  rewrite lor_mul_add by lia. lia.
Qed.

Ltac next_byte u p H :=
  destruct u as [|p u];
  [cbn [app byte_at lookup list_lookup mbind option_bind];
   change (not_continuation 0) with true; cbv iota
  |apply Forall_cons_1 in H as [? H];
   cbn [app byte_at lookup list_lookup mbind option_bind];
   destruct (not_continuation p)].

Ltac leaf :=
  eexists _, _; split; [reflexivity|]; cbn [length];
  split; [lia|]; split; [lia|]; try lia.

Lemma decode_terminated u :
  u <> [] -> Forall (fun b => 0 < b < 256) u ->
  exists cp n,
    decodeCodepointUTF8 (u ++ [0]) = Some (cp, n) /\
    1 <= n <= 4 /\ n <= Z.of_nat (length u) /\ 0 <= cp < 0x200000.
Proof.
  intros Hne H. destruct u as [|p0 u]; [congruence|].
  apply Forall_cons_1 in H as [H0 H].
  unfold decodeCodepointUTF8.
  cbn [app byte_at lookup list_lookup mbind option_bind].
  destruct (Z.land p0 0xf8 =? 0xf0).
  { next_byte u p1 H; [leaf|leaf|].
    next_byte u p2 H; [leaf|leaf|].
    next_byte u p3 H; [leaf|leaf|].
    leaf. apply payload4.
    - apply (land_ones_bound p0 3). lia.
    - apply (land_ones_bound p1 6). lia.
    - apply (land_ones_bound p2 6). lia.
    - apply (land_ones_bound p3 6). lia. }
  destruct (Z.land p0 0xf0 =? 0xe0).
  { next_byte u p1 H; [leaf|leaf|].
    next_byte u p2 H; [leaf|leaf|].
    leaf. pose proof (payload3 (Z.land p0 0x0f) (Z.land p1 0x3f) (Z.land p2 0x3f)
      (land_ones_bound p0 4 ltac:(lia)) (land_ones_bound p1 6 ltac:(lia))
      (land_ones_bound p2 6 ltac:(lia))). lia. }
  destruct (Z.land p0 0xe0 =? 0xc0).
  { next_byte u p1 H; [leaf|leaf|].
    leaf. pose proof (payload2 (Z.land p0 0x1f) (Z.land p1 0x3f)
      (land_ones_bound p0 5 ltac:(lia)) (land_ones_bound p1 6 ltac:(lia))). lia. }
  destruct (p0 <? 0x80); leaf.
Qed.

(** X14. On a string whose bytes before the terminator are not zero, a
    call at a position [i] before the terminator returns: it reads no
    byte after the terminator.  The value left in [*next] is from 1 to 4
    and does not step over the terminator, and the code point is below
    2^21. *)
Theorem decode_stays_in_string s i :
  Forall (fun b => 0 < b < 256) s -> (i < length s)%nat ->
  exists cp n,
    decodeCodepointUTF8 (drop i (s ++ [0])) = Some (cp, n) /\
    1 <= n <= 4 /\ Z.of_nat i + n <= Z.of_nat (length s) /\
    0 <= cp < 0x200000.
Proof.
  intros Hs Hi. rewrite drop_app_le by lia.
  destruct (decode_terminated (drop i s)) as (cp & n & Hd & Hn & Hl & Hcp).
  - intros E. apply (f_equal length) in E. rewrite length_drop in E. cbn in E. lia.
  - apply Forall_drop, Hs.
  - exists cp, n. split; [exact Hd|]. split; [exact Hn|]. split; [|exact Hcp].
    rewrite length_drop in Hl. lia.
Qed.

Lemma decode_encode_witness :
  utf8_encode 0x20ac = [0xe2; 0x82; 0xac] /\
  decodeCodepointUTF8 (utf8_encode 0x20ac ++ [0x21; 0]) = Some (0x20ac, 3).
Proof.
  split; [reflexivity|].
  apply (decode_encode 0x20ac [0x21; 0]). lia.
Defined.

(** A three-byte sequence cut short by the terminator. *)
Lemma decode_stays_in_string_witness :
  exists cp n,
    decodeCodepointUTF8 (drop 1 ([0x21; 0xe2; 0x82] ++ [0])) = Some (cp, n) /\
    1 <= n <= 4 /\ Z.of_nat 1 + n <= Z.of_nat (length [0x21; 0xe2; 0x82]) /\
    0 <= cp < 0x200000.
Proof.
  apply (decode_stays_in_string [0x21; 0xe2; 0x82] 1).
  - repeat constructor; lia.
  - cbn. lia.
Defined.

End Utf8.

(** ** [logParseFormat] *)

Module LogFormat.

Section LogFormat.

(** The functions a pattern can point to. *)
Variable Func : Type.

(** The lambda of the entry of [s_LogPatterns] with the given symbol. *)
Variable builtin : ascii -> Func.

(** [struct LvnLogPattern]; [func] is [None] for the null pointer. *)
Record LvnLogPattern := {
  symbol : ascii;
  func : option Func
}.

(** [s_LvnContext->userLogPatterns] *)
Variable userLogPatterns : list LvnLogPattern.

(** [const static LvnLogPattern s_LogPatterns[]] *)
Definition s_LogPatterns : list LvnLogPattern :=
  (fun c => {| symbol := c; func := Some (builtin c) |}) <$>
    ["$"; "n"; "l"; "#"; "^"; "v"; "%"; "T"; "t"; "Y"; "y"; "m"; "B"; "b"; "d";
     "A"; "a"; "H"; "h"; "M"; "S"; "P"; "p"]%char.

Definition wrap32 (z : Z) : Z := z mod 2 ^ 32.

(** The two inner loops: every pattern of the table whose symbol is [x] is
    pushed, in the order of the table. *)
Definition push_matching (x : ascii) (table patterns : list LvnLogPattern)
    : list LvnLogPattern :=
  foldl (fun ps p => if Ascii.eqb x (symbol p) then ps ++ [p] else ps) patterns table.

(** The loop [for (uint32_t i = 0; i < strlen(fmt) - 1; i++)], from the
    test of its condition at [i]; the body moves [i] on by itself after an
    escape.  [fmt] is the string without its terminator; a read past it
    gives [None], and so does the end of the fuel. *)
Fixpoint parse_loop (fuel : nat) (fmt : list ascii) (i : Z)
    (patterns : list LvnLogPattern) : option (list LvnLogPattern) :=
  match fuel with
  | O => None
  | S fuel' =>
      if i <? Z.of_nat (length fmt) - 1 then
        c ← fmt !! Z.to_nat i;
        if negb (Ascii.eqb c "%") then
          parse_loop fuel' fmt (wrap32 (i + 1))
            (patterns ++ [{| symbol := c; func := None |}])
        else
          x ← fmt !! Z.to_nat (wrap32 (i + 1));
          let patterns1 := push_matching x s_LogPatterns patterns in
          let patterns2 := push_matching x userLogPatterns patterns1 in
          parse_loop fuel' fmt (wrap32 (wrap32 (i + 1) + 1)) patterns2
      else Some patterns
  end.

(** [static LvnVector<LvnLogPattern> logParseFormat(const char* fmt)];
    [fmt] is [None] for the null pointer.  The vector is taken as the
    sequence it holds. *)
Definition logParseFormat (fmt : option (list ascii))
    : option (list LvnLogPattern) :=
  match fmt with
  | None | Some [] => Some []
  | Some s => parse_loop (S (length s)) s 0 []
  end.

(** *** Formats as sequences of tokens *)

(** A format is a sequence of plain characters and of escapes, a [%] and
    the character after it. *)
Inductive Token :=
| Lit (c : ascii)
| Esc (x : ascii).

Definition token_chars (t : Token) : list ascii :=
  match t with
  | Lit c => [c]
  | Esc x => ["%"%char; x]
  end.

Definition matching (x : ascii) (table : list LvnLogPattern) : list LvnLogPattern :=
  List.filter (fun p => Ascii.eqb x (symbol p)) table.

(** What a token stands for: the character itself, or the patterns of the
    symbol, the built-in ones before the user's. *)
Definition token_patterns (t : Token) : list LvnLogPattern :=
  match t with
  | Lit c => [{| symbol := c; func := None |}]
  | Esc x => matching x s_LogPatterns ++ matching x userLogPatterns
  end.

Definition plain (t : Token) : Prop :=
  match t with
  | Lit c => c <> "%"%char
  | Esc _ => True
  end.

Lemma push_matching_filter x table : forall patterns,
  push_matching x table patterns = patterns ++ matching x table.
Proof.
  unfold push_matching, matching.
  induction table as [|p table IH]; intros patterns; cbn [foldl].
  - rewrite app_nil_r. reflexivity.
  - rewrite IH. cbn [List.filter].
    destruct (Ascii.eqb x (symbol p)); [|reflexivity].
    rewrite <- app_assoc. reflexivity.
Qed.

Lemma parse_loop_tokens toks : forall fuel pre tail acc,
  Forall plain toks ->
  (length toks < fuel)%nat ->
  Z.of_nat (length (pre ++ (toks ≫= token_chars) ++ tail)) < 2 ^ 32 ->
  (length tail <= 1)%nat ->
  (toks <> [] -> tail <> [] \/ exists toks' x, toks = toks' ++ [Esc x]) ->
  parse_loop fuel (pre ++ (toks ≫= token_chars) ++ tail)
             (Z.of_nat (length pre)) acc
    = Some (acc ++ (toks ≫= token_patterns)).
Proof.
  induction toks as [|t toks IH]; intros fuel pre tail acc Hp Hf Hlen Ht Hend.
  - destruct fuel as [|fuel]; [lia|]. cbn [parse_loop mbind list_bind].
    rewrite !length_app in *. cbn [app length] in *.
    destruct (Z.ltb_spec (Z.of_nat (length pre))
                (Z.of_nat (length pre + (0 + length tail)) - 1)); [lia|].
    rewrite app_nil_r. reflexivity.
  - destruct fuel as [|fuel]; [cbn in Hf; lia|].
    apply Forall_cons_1 in Hp as [Hpt Hp].
    assert (Hlast : toks = [] -> tail <> [] \/ exists x, t = Esc x).
    { intros ->. destruct Hend as [H|(toks' & x & H)]; [discriminate|auto|].
      right. exists x. destruct toks' as [|t' [|t'' toks']]; cbn in H; congruence. }
    assert (Hend' : toks <> [] -> tail <> [] \/ exists toks' x, toks = toks' ++ [Esc x]).
    { intros Hne. destruct Hend as [H|(toks' & x & H)]; [discriminate|auto|].
      right. destruct toks' as [|t' toks']; cbn in H.
      - injection H as _ H. congruence.
      - injection H as _ H. eauto. }
    assert (Hfmt : pre ++ ((t :: toks) ≫= token_chars) ++ tail
                   = pre ++ token_chars t ++ (toks ≫= token_chars) ++ tail).
    { cbn. rewrite <- app_assoc. reflexivity. }
    assert (Hpat : (t :: toks) ≫= token_patterns
                   = token_patterns t ++ (toks ≫= token_patterns)) by reflexivity.
    rewrite Hfmt in Hlen |- *. rewrite Hpat. clear Hfmt Hpat.
    assert (Hrest : toks = [] ->
              length ((toks ≫= token_chars) ++ tail) = length tail) by (intros ->; reflexivity).
    assert (Hrest' : toks <> [] -> (0 < length ((toks ≫= token_chars) ++ tail))%nat).
    { destruct toks as [|t' toks]; [congruence|]. intros _. cbn.
      destruct t'; cbn; lia. }
    remember ((toks ≫= token_chars) ++ tail) as rest eqn:Erest.
    cbn [parse_loop].
    destruct t as [c|x]; cbn [token_chars token_patterns plain app] in *.
    + (* a plain character *)
      assert (0 < length rest)%nat.
      { destruct toks as [|t' toks]; [|apply Hrest'; congruence].
        rewrite Hrest by reflexivity.
        destruct (Hlast eq_refl) as [H|(x & H)]; [|discriminate].
        destruct tail; [congruence|cbn; lia]. }
      rewrite !length_app in *. cbn [length] in *.
      destruct (Z.ltb_spec (Z.of_nat (length pre))
                  (Z.of_nat (length pre + S (length rest)) - 1)); [|lia].
      rewrite Nat2Z.id, (lookup_app_r pre _ (length pre)) by lia. rewrite Nat.sub_diag. cbn [lookup list_lookup].
      cbn [mbind option_bind].
      destruct (Ascii.eqb_spec c "%"%char) as [->|_]; [congruence|]. cbn [negb].
      replace (wrap32 (Z.of_nat (length pre) + 1)) with (Z.of_nat (length (pre ++ [c]))).
      2:{ rewrite length_app. cbn [length]. unfold wrap32.
          rewrite Z.mod_small; lia. }
      replace (pre ++ c :: rest) with ((pre ++ [c]) ++ rest)
        by (rewrite <- app_assoc; reflexivity).
      rewrite Erest.
      rewrite IH; [rewrite <- app_assoc; reflexivity|exact Hp|lia| |exact Ht|exact Hend'].
      rewrite <- Erest, !length_app. cbn [length]. lia.
    + (* an escape *)
      rewrite !length_app in *. cbn [length] in *.
      destruct (Z.ltb_spec (Z.of_nat (length pre))
                  (Z.of_nat (length pre + S (S (length rest))) - 1)); [|lia].
      rewrite Nat2Z.id, (lookup_app_r pre _ (length pre)) by lia. rewrite Nat.sub_diag. cbn [lookup list_lookup].
      cbn [mbind option_bind].
      change (negb (Ascii.eqb "%" "%")) with false. cbv iota.
      assert (Hw : wrap32 (Z.of_nat (length pre) + 1) = Z.of_nat (S (length pre))).
      { unfold wrap32. rewrite Z.mod_small; lia. }
      rewrite Hw, Nat2Z.id, (lookup_app_r pre _ (S (length pre))) by lia.
      replace (S (length pre) - length pre)%nat with 1%nat by lia.
      cbn [lookup list_lookup mbind option_bind].
      rewrite !push_matching_filter.
      replace (wrap32 (Z.of_nat (S (length pre)) + 1))
        with (Z.of_nat (length (pre ++ ["%"%char; x]))).
      2:{ rewrite length_app. cbn [length]. unfold wrap32.
          rewrite Z.mod_small; lia. }
      replace (pre ++ "%"%char :: x :: rest) with ((pre ++ ["%"%char; x]) ++ rest)
        by (rewrite <- app_assoc; reflexivity).
      rewrite Erest.
      rewrite IH; [rewrite <- !app_assoc; reflexivity|exact Hp|lia| |exact Ht|exact Hend'].
      rewrite <- Erest, !length_app. cbn [length]. lia.
Qed.

Lemma token_chars_length toks : (length toks <= length (toks ≫= token_chars))%nat.
Proof.
  induction toks as [|t toks IH]; [reflexivity|].
  change ((t :: toks) ≫= token_chars) with (token_chars t ++ (toks ≫= token_chars)).
  rewrite length_app. destruct t; cbn [token_chars length]; lia.
Qed.

Lemma logParseFormat_loop toks tail :
  Forall plain toks ->
  Z.of_nat (length ((toks ≫= token_chars) ++ tail)) < 2 ^ 32 ->
  (length tail <= 1)%nat ->
  (toks <> [] -> tail <> [] \/ exists toks' x, toks = toks' ++ [Esc x]) ->
  logParseFormat (Some ((toks ≫= token_chars) ++ tail)) = Some (toks ≫= token_patterns).
Proof.
  intros Hp Hlen Ht Hend.
  pose proof (parse_loop_tokens toks
    (S (length ((toks ≫= token_chars) ++ tail))) [] tail [] Hp) as H.
  cbn [app length] in H. pose proof (token_chars_length toks) as Hl.
  assert (Hfuel : (length toks < S (length ((toks ≫= token_chars) ++ tail)))%nat)
    by (rewrite length_app; lia).
  specialize (H Hfuel Hlen Ht Hend).
  unfold logParseFormat.
  destruct ((toks ≫= token_chars) ++ tail) as [|c0 s0] eqn:E.
  - destruct toks as [|t toks]; [reflexivity|]. destruct t; discriminate.
  - exact H.
Qed.

(** X15. A format is read as a sequence of tokens: a character other than
    [%] stands for itself, and [%x] for the patterns of the symbol [x],
    the built-in ones before the user's, and for nothing when no pattern
    has that symbol.  A format that ends in an escape gives the patterns
    of all its tokens.  A format with one more character [c] after its
    tokens gives the same patterns as without it: the last character is
    left out, whatever it is.  The null format and the empty one give no
    pattern. *)
Theorem logParseFormat_tokens toks x c :
  Forall plain toks ->
  Z.of_nat (length (toks ≫= token_chars)) + 2 < 2 ^ 32 ->
  logParseFormat (Some ((toks ++ [Esc x]) ≫= token_chars))
    = Some ((toks ++ [Esc x]) ≫= token_patterns) /\
  logParseFormat (Some ((toks ≫= token_chars) ++ [c]))
    = Some (toks ≫= token_patterns) /\
  logParseFormat None = Some [] /\ logParseFormat (Some []) = Some [].
Proof.
  intros Hp Hlen. split; [|split; [|split; reflexivity]].
  - rewrite <- (app_nil_r ((toks ++ [Esc x]) ≫= token_chars)).
    apply logParseFormat_loop.
    + apply Forall_app. split; [exact Hp|]. repeat constructor.
    + rewrite app_nil_r, bind_app, length_app. cbn. lia.
    + cbn. lia.
    + intros _. right. eauto.
  - apply logParseFormat_loop; [exact Hp| |cbn; lia|intros _; left; discriminate].
    rewrite length_app. cbn [length]. lia.
Qed.

Lemma tokenize n : forall s : list ascii, (length s <= n)%nat ->
  exists toks tail,
    Forall plain toks /\ s = (toks ≫= token_chars) ++ tail /\
    (length tail <= 1)%nat /\
    (toks <> [] -> tail <> [] \/ exists toks' x, toks = toks' ++ [Esc x]).
Proof.
  induction n as [|n IH]; intros s Hs.
  { destruct s; [|cbn in Hs; lia]. exists [], []. repeat split; auto; try congruence. }
  destruct s as [|c [|x s]].
  - exists [], []. repeat split; auto; try congruence.
  - exists [], [c]. repeat split; auto; try congruence.
  - destruct (Ascii.eqb_spec c "%"%char) as [->|Hc].
    + destruct (IH s ltac:(cbn in Hs; lia)) as (toks & tail & Hp & -> & Ht & Hend).
      exists (Esc x :: toks), tail. split; [constructor; [exact I|exact Hp]|].
      split; [reflexivity|]. split; [exact Ht|]. intros _.
      destruct toks as [|t toks].
      * destruct tail; [right; exists [], x; reflexivity|left; discriminate].
      * destruct Hend as [H|(toks' & y & H)]; [discriminate|left; exact H|].
        right. exists (Esc x :: toks'), y. rewrite H. reflexivity.
    + destruct (IH (x :: s) ltac:(cbn in Hs |- *; lia))
        as (toks & tail & Hp & E & Ht & Hend).
      exists (Lit c :: toks), tail. split; [constructor; [exact Hc|exact Hp]|].
      split; [cbn; rewrite E; reflexivity|]. split; [exact Ht|]. intros _.
      destruct toks as [|t toks].
      * destruct tail; [discriminate|left; discriminate].
      * destruct Hend as [H|(toks' & y & H)]; [discriminate|left; exact H|].
        right. exists (Lit c :: toks'), y. rewrite H. reflexivity.
Qed.

(** X16. [logParseFormat] returns on every format shorter than 2^32
    characters, and reads no character past its end: the format is a
    sequence of tokens and at most one character more, and the result is
    the patterns of the tokens. *)
Theorem logParseFormat_returns (s : list ascii) :
  Z.of_nat (length s) < 2 ^ 32 ->
  exists toks tail,
    Forall plain toks /\ s = (toks ≫= token_chars) ++ tail /\
    (length tail <= 1)%nat /\
    logParseFormat (Some s) = Some (toks ≫= token_patterns).
Proof.
  intros Hlen.
  destruct (tokenize (length s) s (le_n _)) as (toks & tail & Hp & -> & Ht & Hend).
  exists toks, tail. split; [exact Hp|]. split; [reflexivity|]. split; [exact Ht|].
  apply logParseFormat_loop; assumption.
Qed.

End LogFormat.

(** *** [logAddPatterns] *)

Section UserPatterns.

Variable Func : Type.
Variable builtin : ascii -> Func.

(** The loop over [j] of [logAddPatterns], for one built-in symbol: it
    returns at the first of the [n] patterns from [j] that has the symbol.
    A read past the array gives [None]. *)
Fixpoint scan_new (arr : list (LvnLogPattern Func)) (sym : ascii) (j n : nat) : option bool :=
  match n with
  | O => Some false
  | S n' =>
      p ← arr !! j;
      if Ascii.eqb (symbol Func p) sym then Some true
      else scan_new arr sym (S j) n'
  end.

(** The loop over [i], on the entries of [s_LogPatterns] still to come. *)
Fixpoint scan_builtin (arr : list (LvnLogPattern Func)) (count : nat) (table : list (LvnLogPattern Func))
    : option bool :=
  match table with
  | [] => Some false
  | b :: table' =>
      clash ← scan_new arr (symbol Func b) 0 count;
      if (clash : bool) then Some true else scan_builtin arr count table'
  end.

(** [LvnResult logAddPatterns(LvnLogPattern* pLogPatterns, uint32_t count)]
    on the user patterns of the context: the result and the patterns
    afterwards.  [pLogPatterns] is [None] for the null pointer, else the
    array it points to. *)
Definition logAddPatterns (pLogPatterns : option (list (LvnLogPattern Func))) (count : nat)
    (userLogPatterns : list (LvnLogPattern Func)) : option (LvnResult * list (LvnLogPattern Func)) :=
  match pLogPatterns with
  | None => Some (Lvn_Result_Failure, userLogPatterns)
  | Some arr =>
      p0 ← arr !! 0%nat;
      if Ascii.eqb (symbol Func p0) zero then Some (Lvn_Result_Failure, userLogPatterns)
      else
        clash ← scan_builtin arr count (s_LogPatterns Func builtin);
        if (clash : bool) then Some (Lvn_Result_Failure, userLogPatterns)
        else
          if (length arr <? count)%nat then None
          else Some (Lvn_Result_Success, userLogPatterns ++ take count arr)
  end.

(** A sequence of calls, each with its array and count. *)
Fixpoint add_run (calls : list (option (list (LvnLogPattern Func)) * nat))
    (userLogPatterns : list (LvnLogPattern Func)) : option (list (LvnLogPattern Func)) :=
  match calls with
  | [] => Some userLogPatterns
  | (arr, count) :: calls' =>
      r ← logAddPatterns arr count userLogPatterns;
      add_run calls' (snd r)
  end.

Definition is_builtin (x : ascii) : bool :=
  existsb (fun p => Ascii.eqb x (symbol Func p)) (s_LogPatterns Func builtin).

Definition apart (user : list (LvnLogPattern Func)) : Prop :=
  Forall (fun p => is_builtin (symbol Func p) = false) user.

Lemma scan_new_false arr sym n : forall j,
  scan_new arr sym j n = Some false ->
  forall i p, (j <= i < j + n)%nat -> arr !! i = Some p -> symbol Func p <> sym.
Proof.
  induction n as [|n IH]; intros j H i p Hi Hp; [lia|].
  cbn [scan_new] in H. destruct (arr !! j) as [pj|] eqn:Hj; [|discriminate].
  cbn [mbind option_bind] in H.
  destruct (Ascii.eqb_spec (symbol Func pj) sym) as [|Hne]; [discriminate|].
  destruct (decide (i = j)) as [->|Hij]; [congruence|].
  apply (IH (S j) H i p); [lia|exact Hp].
Qed.

Lemma scan_builtin_false arr count table :
  scan_builtin arr count table = Some false ->
  forall b p, b ∈ table -> p ∈ take count arr -> symbol Func p <> symbol Func b.
Proof.
  induction table as [|b0 table IH]; intros H b p Hb Hp; [inversion Hb|].
  cbn [scan_builtin] in H.
  destruct (scan_new arr (symbol Func b0) 0 count) as [[|]|] eqn:Hs; try discriminate.
  cbn [mbind option_bind] in H.
  apply elem_of_cons in Hb as [->|Hb]; [|exact (IH H b p Hb Hp)].
  apply list_elem_of_lookup in Hp as (i & Hi).
  apply lookup_take_Some in Hi as [Hi Hlt].
  apply (scan_new_false arr _ count 0 Hs i p); [lia|exact Hi].
Qed.

Lemma is_builtin_false x :
  is_builtin x = false <->
  forall b, b ∈ s_LogPatterns Func builtin -> x <> symbol Func b.
Proof.
  unfold is_builtin. generalize (s_LogPatterns Func builtin) as table.
  induction table as [|b0 table IH]; cbn [existsb].
  - split; [intros _ b Hb; inversion Hb|reflexivity].
  - rewrite orb_false_iff, IH. split.
    + intros [H0 H] b Hb. apply elem_of_cons in Hb as [->|Hb]; [|exact (H b Hb)].
      destruct (Ascii.eqb_spec x (symbol Func b0)); [discriminate|assumption].
    + intros H. split.
      * destruct (Ascii.eqb_spec x (symbol Func b0)) as [E|]; [|reflexivity].
        exfalso. apply (H b0); [left|exact E].
      * intros b Hb. apply H. right. exact Hb.
Qed.

Lemma logAddPatterns_spec arr count user r user' :
  logAddPatterns arr count user = Some (r, user') ->
  (r = Lvn_Result_Failure /\ user' = user) \/
  (r = Lvn_Result_Success /\ exists a, arr = Some a /\ (count <= length a)%nat /\
     user' = user ++ take count a /\ apart (take count a)).
Proof.
  unfold logAddPatterns. destruct arr as [a|]; [|intros [= <- <-]; left; auto].
  destruct (a !! 0%nat) as [p0|]; [|discriminate]. cbn [mbind option_bind].
  destruct (Ascii.eqb (symbol Func p0) zero); [intros [= <- <-]; left; auto|].
  destruct (scan_builtin a count (s_LogPatterns Func builtin)) as [[|]|] eqn:Hs;
    cbn [mbind option_bind]; [intros [= <- <-]; left; auto| |discriminate].
  destruct (Nat.ltb_spec (length a) count) as [|Hle]; [discriminate|].
  intros [= <- <-]. right. split; [reflexivity|]. exists a.
  split; [reflexivity|]. split; [exact Hle|]. split; [reflexivity|].
  apply list.Forall_forall. intros p Hp. apply is_builtin_false. intros b Hb.
  exact (scan_builtin_false a count _ Hs b p Hb Hp).
Qed.

Lemma add_run_apart calls : forall user user',
  apart user -> add_run calls user = Some user' -> apart user'.
Proof.
  induction calls as [|[arr count] calls IH]; intros user user' Hu H.
  - cbn in H. injection H as <-. exact Hu.
  - cbn [add_run] in H.
    destruct (logAddPatterns arr count user) as [[r u1]|] eqn:Hc; [|discriminate].
    cbn [mbind option_bind snd] in H.
    apply (IH u1 user'); [|exact H].
    destruct (logAddPatterns_spec _ _ _ _ _ Hc) as [[_ ->]|(_ & a & _ & _ & -> & Ha)];
      [exact Hu|].
    apply Forall_app. split; assumption.
Qed.

Lemma matching_apart x user :
  apart user -> is_builtin x = true -> matching Func x user = [].
Proof.
  intros Hu Hx. unfold matching. induction user as [|p user IH]; [reflexivity|].
  apply Forall_cons_1 in Hu as [Hp Hu]. cbn [List.filter].
  destruct (Ascii.eqb_spec x (symbol Func p)) as [E|_]; [|exact (IH Hu)].
  rewrite <- E in Hp. congruence.
Qed.

(** X17. Whatever calls of [logAddPatterns] built the user patterns of
    the context, an escape [%x] never mixes the two tables: when [x] is
    the symbol of a built-in pattern the escape stands for that one
    pattern alone, and otherwise for the user patterns with that symbol,
    in the order they were added.  A call that fails leaves the user
    patterns as they were; one that succeeds appends its [count] patterns,
    none of which has a built-in symbol. *)
Theorem logAddPatterns_apart calls user x :
  add_run calls [] = Some user ->
  token_patterns Func builtin user (Esc x) =
    (if is_builtin x
     then [{| symbol := x; func := Some (builtin x) |}]
     else matching Func x user) /\
  forall arr count r user',
    logAddPatterns arr count user = Some (r, user') ->
    (r = Lvn_Result_Failure /\ user' = user) \/
    (r = Lvn_Result_Success /\ exists a, arr = Some a /\ (count <= length a)%nat /\
       user' = user ++ take count a /\ apart (take count a)).
Proof.
  intros Hrun. split; [|intros arr count r user'; apply logAddPatterns_spec].
  pose proof (add_run_apart calls [] user (Forall_nil_2 _) Hrun) as Hu.
  cbn [token_patterns]. destruct (is_builtin x) eqn:Hx.
  - rewrite (matching_apart x user Hu Hx), app_nil_r.
    unfold is_builtin, s_LogPatterns in Hx. cbn [fmap list_fmap existsb symbol] in Hx.
    repeat (apply orb_true_iff in Hx as [Hx|Hx];
            [apply Ascii.eqb_eq in Hx; subst x; reflexivity|]).
    discriminate.
  - assert (Hm : matching Func x (s_LogPatterns Func builtin) = []).
    { pose proof (proj1 (is_builtin_false x) Hx) as Hx'. clear Hx. unfold matching.
      induction (s_LogPatterns Func builtin) as [|b table IH]; [reflexivity|].
      cbn [List.filter]. destruct (Ascii.eqb_spec x (symbol Func b)) as [E|_].
      - exfalso. apply (Hx' b); [left|exact E].
      - apply IH. intros b' Hb'. apply Hx'. right. exact Hb'. }
    rewrite Hm. reflexivity.
Qed.

End UserPatterns.

(** A user pattern that shares the symbol [v] with a built-in one; the
    functions are named by characters. *)
Definition demo_user_patterns : list (LvnLogPattern ascii) :=
  [{| symbol := "v"%char; func := Some "u"%char |}].

Definition demo_tokens : list Token :=
  [Lit "["%char; Esc "l"%char; Lit "]"%char; Esc "q"%char].

Lemma demo_tokens_plain : Forall plain demo_tokens.
Proof.
  repeat (apply List.Forall_cons; [first [exact I|discriminate]|]).
  apply List.Forall_nil.
Defined.

Lemma logParseFormat_tokens_witness :
  logParseFormat ascii id demo_user_patterns
    (Some ["["; "%"; "l"; "]"; "%"; "q"; "%"; "v"]%char)
  = Some [{| symbol := "["%char; func := None |};
          {| symbol := "l"%char; func := Some "l"%char |};
          {| symbol := "]"%char; func := None |};
          {| symbol := "v"%char; func := Some "v"%char |};
          {| symbol := "v"%char; func := Some "u"%char |}] /\
  logParseFormat ascii id demo_user_patterns
    (Some ["["; "%"; "l"; "]"; "%"; "q"; "!"]%char)
  = Some [{| symbol := "["%char; func := None |};
          {| symbol := "l"%char; func := Some "l"%char |};
          {| symbol := "]"%char; func := None |}].
Proof.
  destruct (logParseFormat_tokens ascii id demo_user_patterns demo_tokens
              "v"%char "!"%char demo_tokens_plain) as (H1 & H2 & _).
  - vm_compute. reflexivity.
  - split; [exact H1|exact H2].
Defined.

Lemma logParseFormat_returns_witness :
  exists toks tail,
    Forall plain toks /\
    ["a"; "%"; "%"; "%"]%char = (toks ≫= token_chars) ++ tail /\
    (length tail <= 1)%nat /\
    logParseFormat ascii id demo_user_patterns (Some ["a"; "%"; "%"; "%"]%char)
      = Some (toks ≫= token_patterns ascii id demo_user_patterns).
Proof.
  apply (logParseFormat_returns ascii id demo_user_patterns ["a"; "%"; "%"; "%"]%char).
  vm_compute. reflexivity.
Defined.

(** Three calls: two patterns with free symbols; one with the built-in
    symbol [v], which fails; and one with the null pointer, which fails. *)
Definition demo_calls : list (option (list (LvnLogPattern ascii)) * nat) :=
  [(Some [{| symbol := "q"%char; func := Some "1"%char |};
          {| symbol := "r"%char; func := Some "2"%char |}], 2%nat);
   (Some [{| symbol := "v"%char; func := Some "3"%char |}], 1%nat);
   (None, 3%nat)].

Lemma logAddPatterns_apart_witness :
  add_run ascii id demo_calls []
    = Some [{| symbol := "q"%char; func := Some "1"%char |};
            {| symbol := "r"%char; func := Some "2"%char |}] /\
  token_patterns ascii id
    [{| symbol := "q"%char; func := Some "1"%char |};
     {| symbol := "r"%char; func := Some "2"%char |}] (Esc "v"%char)
    = [{| symbol := "v"%char; func := Some "v"%char |}].
Proof.
  split; [reflexivity|].
  destruct (logAddPatterns_apart ascii id demo_calls
              [{| symbol := "q"%char; func := Some "1"%char |};
               {| symbol := "r"%char; func := Some "2"%char |}] "v"%char eq_refl)
    as [H _].
  exact H.
Defined.

End LogFormat.

(** ** [LvnHashMap] in use: reading back, [clear], growth *)

Module HashMapUse.

Import HashMap.

Section HashMapUse.

Variable T : Type.
Variable T_default : T.

Local Open Scope nat_scope.

(** [T& operator[](const K& key)] *)
Definition index_operator (fuel : nat) (k : Z) (m : LvnHashMap T)
    : option (T * LvnHashMap T) :=
  at_key T T_default fuel k m.

(** [void clear()]: the destructors of the values of the taken entries
    run, when the map counts any; the entries keep their keys and flags. *)
Definition clear (m : LvnHashMap T) : LvnHashMap T :=
  {| m_HashEntries := m_HashEntries T m; m_Size := 0; m_Capacity := m_Capacity T m |}.

(** What the search of [at] finds, [contains] finds. *)
Lemma lookup_contains k m v :
  lookup_entry T k m = Some (Some v) -> (0 < m_Size T m) ->
  contains T k m = Some true.
Proof.
  unfold lookup_entry, contains. intros H Hs.
  destruct (Nat.eqb_spec (m_Size T m) 0) as [|_]; [lia|].
  destruct (home k (m_Capacity T m)) as [h|]; [|discriminate].
  cbn [mbind option_bind] in *.
  destruct (m_HashEntries T m !! h) as [e|]; [|discriminate].
  cbn [mbind option_bind] in *.
  destruct (Z.eqb_spec k (key T e)) as [|Hne]; [reflexivity|].
  destruct (taken T e && (key T e =? k)%Z) eqn:E.
  { apply andb_true_iff in E as [_ E]. apply Z.eqb_eq in E. congruence. }
  destruct (find_in_chain T _ _ k h) as [[idx found]|]; [|discriminate].
  cbn [mbind option_bind] in *.
  destruct (m_HashEntries T m !! idx); [|discriminate].
  cbn in H. destruct found; [reflexivity|discriminate].
Qed.

Lemma at_key_found fuel k m v :
  lookup_entry T k m = Some (Some v) -> (0 < m_Size T m) ->
  at_key T T_default (S fuel) k m = Some (v, m).
Proof.
  intros H Hs. rewrite at_key_S.
  destruct (Nat.eqb_spec (m_Size T m) 0) as [|_]; [lia|].
  cbn [mbind option_bind]. rewrite H. reflexivity.
Qed.

(** X18. On every state that [insert], [erase] and [at] lead to from the
    empty map, [insert(k, v)] returns and adds at most one to the size;
    right after it [at(k)] and [operator[]] return [v] and leave the map
    as it is, and [contains(k)] is true. *)
Theorem insert_then_at fuel ops k v :
  exists m m',
    map_run T T_default (S (S fuel)) ops (empty T) = Some m /\
    insert T T_default (S (S fuel)) k v m = Some m' /\
    at_key T T_default (S (S fuel)) k m' = Some (v, m') /\
    index_operator (S (S fuel)) k m' = Some (v, m') /\
    contains T k m' = Some true.
Proof.
  destruct (map_run_spec T T_default fuel ops (empty T) (Inv_empty T))
    as (m & Hrun & Hinv).
  destruct (insert_spec T T_default fuel k v m Hinv)
    as (m' & Hins & Hinv' & Hlook & _ & Hpos).
  exists m, m'. split; [exact Hrun|]. split; [exact Hins|].
  pose proof (at_key_found (S fuel) k m' v Hlook Hpos) as Hat.
  split; [exact Hat|]. split; [exact Hat|].
  exact (lookup_contains k m' v Hlook Hpos).
Qed.

(** X19. On every such state [at(k)] returns a value [v]; afterwards the
    key is in the map with that value, so that a second [at(k)] returns
    [v] again and changes nothing.  Either the key was found, and the map
    is as it was, or [v] is the default value, which [at] has inserted. *)
Theorem at_materialises fuel ops k :
  exists m v m',
    map_run T T_default (S (S fuel)) ops (empty T) = Some m /\
    at_key T T_default (S (S fuel)) k m = Some (v, m') /\
    lookup_entry T k m' = Some (Some v) /\
    at_key T T_default (S (S fuel)) k m' = Some (v, m') /\
    contains T k m' = Some true /\
    (m' = m /\ lookup_entry T k m = Some (Some v) \/
     v = T_default /\ insert T T_default (S (S fuel)) k T_default m = Some m').
Proof.
  destruct (map_run_spec T T_default fuel ops (empty T) (Inv_empty T))
    as (m & Hrun & Hinv).
  exists m. rewrite at_key_S.
  destruct (Nat.eqb_spec (m_Size T m) 0) as [Hz|Hnz].
  - destruct (insert_spec T T_default fuel k T_default m Hinv)
      as (m1 & Hins & Hinv1 & Hlook & _ & Hpos).
    exists T_default, m1. split; [exact Hrun|].
    rewrite Hins. cbn [mbind option_bind]. rewrite Hlook. cbn [mbind option_bind].
    split; [reflexivity|]. split; [reflexivity|].
    split; [exact (at_key_found (S fuel) k m1 _ Hlook Hpos)|].
    split; [exact (lookup_contains k m1 _ Hlook Hpos)|]. right. auto.
  - cbn [mbind option_bind]. pose proof Hinv as ((r & Hwf) & Hcount & Hload).
    destruct (lookup_entry_total T r k m Hwf) as (o & Ho); [lia|].
    rewrite Ho. cbn [mbind option_bind]. destruct o as [v|].
    + exists v, m. split; [exact Hrun|]. split; [reflexivity|]. split; [exact Ho|].
      split; [exact (at_key_found (S fuel) k m v Ho ltac:(lia))|].
      split; [exact (lookup_contains k m v Ho ltac:(lia))|]. left. auto.
    + destruct (insert_spec T T_default fuel k T_default m Hinv)
        as (m2 & Hins & Hinv2 & Hlook & _ & Hpos).
      exists T_default, m2. split; [exact Hrun|].
      rewrite Hins. cbn [mbind option_bind].
      rewrite (at_key_found fuel k m2 _ Hlook Hpos).
      split; [reflexivity|]. split; [exact Hlook|].
      split; [exact (at_key_found (S fuel) k m2 _ Hlook Hpos)|].
      split; [exact (lookup_contains k m2 _ Hlook Hpos)|]. right. auto.
Qed.

(** *** [clear] *)

Lemma find_in_chain_set_data es k j ej v fuel :
  es !! j = Some ej ->
  forall i, find_in_chain T fuel (<[j := set_data T ej v]> es) k i
            = find_in_chain T fuel es k i.
Proof.
  intros Hj.
  assert (Hlk : forall a,
            <[j := set_data T ej v]> es !! a =
            (fun e => if decide (a = j) then set_data T e v else e) <$> es !! a).
  { intros a. destruct (decide (a = j)) as [->|Hne].
    - rewrite list_lookup_insert_eq by (eapply lookup_lt_Some; eauto).
      rewrite Hj. reflexivity.
    - rewrite list_lookup_insert_ne by congruence.
      destruct (es !! a); reflexivity. }
  induction fuel as [|fuel IH]; intros i; [reflexivity|].
  cbn [find_in_chain]. rewrite Hlk.
  destruct (es !! i) as [e|]; [|reflexivity]. cbn [fmap option_fmap option_map mbind option_bind].
  assert (Hh : hasNext T (if decide (i = j) then set_data T e v else e) = hasNext T e)
    by (destruct (decide (i = j)); reflexivity).
  assert (Hn : nextIndex T (if decide (i = j) then set_data T e v else e) = nextIndex T e)
    by (destruct (decide (i = j)); reflexivity).
  rewrite Hh, Hn. destruct (hasNext T e); [|reflexivity].
  rewrite Hlk. destruct (es !! nextIndex T e) as [e'|]; [|reflexivity].
  cbn [fmap option_fmap option_map mbind option_bind].
  assert (Hk : key T (if decide (nextIndex T e = j) then set_data T e' v else e') = key T e')
    by (destruct (decide (nextIndex T e = j)); reflexivity).
  rewrite Hk. destruct (key T e' =? k)%Z; [reflexivity|apply IH].
Qed.

(** When the search of [at] finds the key, [insert] writes the value into
    the entry found and leaves the size as it is. *)
Lemma insert_entry_overwrites k v m v0 :
  lookup_entry T k m = Some (Some v0) ->
  exists es',
    insert_entry T k v m = Some (set_entries T m es') /\
    lookup_entry T k (set_entries T m es') = Some (Some v).
Proof.
  unfold lookup_entry, insert_entry. intros H.
  destruct (home k (m_Capacity T m)) as [h|] eqn:Hh; [|discriminate].
  cbn [mbind option_bind] in *.
  destruct (m_HashEntries T m !! h) as [e|] eqn:He; [|discriminate].
  cbn [mbind option_bind] in *.
  destruct (taken T e && (key T e =? k)%Z) eqn:E.
  - eexists. split; [reflexivity|].
    cbn [set_entries m_HashEntries m_Capacity]. rewrite Hh. cbn [mbind option_bind].
    rewrite list_lookup_insert_eq by (eapply lookup_lt_Some; eauto).
    cbn [mbind option_bind set_data taken key data]. rewrite E. reflexivity.
  - destruct (find_in_chain T (m_Capacity T m) (m_HashEntries T m) k h)
      as [[idx found]|] eqn:Hf; [|discriminate].
    cbn [mbind option_bind] in *.
    destruct (m_HashEntries T m !! idx) as [entry|] eqn:Hi; [|discriminate].
    cbn [mbind option_bind] in *. destruct found; [|discriminate].
    eexists. split; [reflexivity|].
    cbn [set_entries m_HashEntries m_Capacity]. rewrite Hh. cbn [mbind option_bind].
    rewrite (find_in_chain_set_data _ k idx entry v _ Hi), Hf.
    destruct (decide (h = idx)) as [->|Hne].
    + rewrite list_lookup_insert_eq by (eapply lookup_lt_Some; eauto).
      cbn [mbind option_bind set_data taken key data].
      assert (entry = e) as -> by congruence. rewrite E.
      cbn [mbind option_bind].
      rewrite list_lookup_insert_eq by (eapply lookup_lt_Some; eauto).
      reflexivity.
    + rewrite list_lookup_insert_ne by congruence. rewrite He.
      cbn [mbind option_bind]. rewrite E. cbn [mbind option_bind].
      rewrite list_lookup_insert_eq by (eapply lookup_lt_Some; eauto).
      reflexivity.
Qed.

Lemma lookup_capacity k m o :
  lookup_entry T k m = Some o -> 0 < m_Capacity T m.
Proof.
  unfold lookup_entry, home. destruct (Nat.eqb_spec (m_Capacity T m) 0); [discriminate|lia].
Qed.

Lemma insert_size_zero fuel k v m v0 :
  lookup_entry T k m = Some (Some v0) -> m_Size T m = 0 ->
  exists m',
    insert T T_default (S fuel) k v m = Some m' /\ m_Size T m' = 0 /\
    m_Capacity T m' = m_Capacity T m /\
    lookup_entry T k m' = Some (Some v).
Proof.
  intros H Hz. pose proof (lookup_capacity k m _ H) as Hc.
  rewrite insert_no_rehash by lia.
  destruct (insert_entry_overwrites k v m v0 H) as (es' & Hins & Hlook).
  exists (set_entries T m es'). split; [exact Hins|]. split; [exact Hz|].
  split; [reflexivity|exact Hlook].
Qed.

(** X20. [clear()] sets the size to 0 and leaves the entries in the table.
    When a key that the search of [at] finds is inserted again after
    [clear()], the value is written into its old entry and the size stays
    0: [contains] says the key is not there, and [at] replaces the value
    just inserted by the default value and returns that. *)
Theorem clear_then_insert fuel k v0 v m :
  lookup_entry T k m = Some (Some v0) ->
  exists m2 m3,
    insert T T_default (S fuel) k v (clear m) = Some m2 /\
    m_Size T m2 = 0 /\
    lookup_entry T k m2 = Some (Some v) /\
    contains T k m2 = Some false /\
    at_key T T_default (S fuel) k m2 = Some (T_default, m3) /\
    m_Size T m3 = 0 /\
    lookup_entry T k m3 = Some (Some T_default).
Proof.
  intros H.
  destruct (insert_size_zero fuel k v (clear m) v0 H eq_refl)
    as (m2 & Hins & Hz & Hc & Hlook).
  destruct (insert_size_zero fuel k T_default m2 v Hlook Hz)
    as (m3 & Hins3 & Hz3 & Hc3 & Hlook3).
  exists m2, m3. split; [exact Hins|]. split; [exact Hz|]. split; [exact Hlook|].
  split; [unfold contains; rewrite Hz; reflexivity|].
  split; [|split; assumption].
  rewrite at_key_S, Hz. cbn [Nat.eqb]. rewrite Hins3. cbn [mbind option_bind].
  rewrite Hlook3. reflexivity.
Qed.

Lemma forallb_lookup {A} (f : A -> bool) (l : list A) : forall i x,
  forallb f l = true -> l !! i = Some x -> f x = true.
Proof.
  induction l as [|a l IH]; intros i x H Hi; [rewrite lookup_nil in Hi; discriminate|].
  cbn [forallb] in H. apply andb_true_iff in H as [Ha Hl].
  destruct i as [|i]; cbn in Hi; [congruence|exact (IH i x Hl Hi)].
Qed.

Lemma find_free_full es cap :
  forallb (taken T) es = true ->
  forall fuel idx, find_free T fuel es cap idx = None.
Proof.
  intros Hall. induction fuel as [|fuel IH]; intros idx; [reflexivity|].
  cbn [find_free]. destruct (es !! idx) as [e|] eqn:He; [|reflexivity].
  cbn [mbind option_bind].
  rewrite (forallb_lookup _ _ _ _ Hall He). apply IH.
Qed.

(** X21. When every entry of the table is taken, the loop of [insert]
    that looks for a free entry finds a taken one at each step, however
    long it runs.  So on such a table, below the load factor, the
    [insert] of a key that the search does not find never returns.
    [clear()] leads to such tables: it lowers the size and frees no
    entry. *)
Theorem insert_full_table k v m :
  forallb (taken T) (m_HashEntries T m) = true ->
  lookup_entry T k m = Some None ->
  m_Size T m * 10 < m_Capacity T m * 7 ->
  (forall steps idx,
     find_free T steps (m_HashEntries T m) (m_Capacity T m) idx = None) /\
  forall fuel, insert T T_default fuel k v m = None.
Proof.
  intros Hall Hlook Hload.
  pose proof (find_free_full (m_HashEntries T m) (m_Capacity T m) Hall) as Hfree.
  split; [exact Hfree|]. intros [|fuel]; [reflexivity|].
  rewrite insert_no_rehash by exact Hload.
  revert Hlook. unfold lookup_entry, insert_entry.
  destruct (home k (m_Capacity T m)) as [h|]; [|reflexivity].
  cbn [mbind option_bind].
  destruct (m_HashEntries T m !! h) as [e|]; [|reflexivity].
  cbn [mbind option_bind].
  destruct (taken T e && (key T e =? k)%Z); [discriminate|].
  destruct (find_in_chain T _ _ k h) as [[idx found]|]; [|reflexivity].
  cbn [mbind option_bind].
  destruct (m_HashEntries T m !! idx) as [entry|]; [|reflexivity].
  cbn [mbind option_bind]. destruct found; [discriminate|]. intros _.
  rewrite Hfree. reflexivity.
Qed.

(** *** The destructors that [reserve] runs *)

(** [std::is_trivially_destructible_v<T>] *)
Variable trivially_destructible : bool.

(** The loop of [destruct()], from entry [i] on [n] entries: the indices
    of the entries whose value it destructs. *)
Fixpoint destruct_from (es : list (LvnHashEntry T)) (i n : nat) : option (list nat) :=
  match n with
  | O => Some []
  | S n' =>
      e ← es !! i;
      rest ← destruct_from es (S i) n';
      Some (if taken T e then i :: rest else rest)
  end.

(** [void destruct()] on the table the map has at the time of the call. *)
Definition destruct (m : LvnHashMap T) : option (list nat) :=
  if trivially_destructible then Some []
  else destruct_from (m_HashEntries T m) 0 (m_Capacity T m).

(** [reserve], with the indices of the entries that the [destruct()] at
    its end destructs. *)
Definition reserve_traced (ins : Z -> T -> LvnHashMap T -> option (LvnHashMap T))
    (size : nat) (m : LvnHashMap T) : option (LvnHashMap T * list nat) :=
  if (size <=? m_Size T m)%nat then Some (m, [])
  else
    m' ← rehash T ins (m_HashEntries T m)
           {| m_HashEntries := replicate size (new_entry T T_default); m_Size := 0;
              m_Capacity := size |};
    ds ← destruct m';
    Some (m', ds).

(** [insert], with the indices that the [destruct()] of its [reserve]
    destructs. *)
Definition insert_traced (fuel : nat) (k : Z) (value : T) (m : LvnHashMap T)
    : option (LvnHashMap T * list nat) :=
  match fuel with
  | O => None
  | S fuel' =>
      '(m1, ds) ← (if (m_Capacity T m * 7 <=? m_Size T m * 10)%nat
                   then reserve_traced (insert T T_default fuel')
                          (if (m_Capacity T m =? 0)%nat then 8 else m_Capacity T m * 2)%nat m
                   else Some (m, []));
      m' ← insert_entry T k value m1;
      Some (m', ds)
  end.

Lemma destruct_from_spec es n : forall i,
  i + n <= length es ->
  exists ds, destruct_from es i n = Some ds /\
    forall j e, i <= j < i + n -> es !! j = Some e -> taken T e = true -> j ∈ ds.
Proof.
  induction n as [|n IH]; intros i Hi.
  - exists []. split; [reflexivity|]. intros j e Hj. lia.
  - destruct (lookup_lt_is_Some_2 es i) as (e & He); [lia|].
    destruct (IH (S i) ltac:(lia)) as (rest & Hrest & Hin).
    cbn [destruct_from]. rewrite He. cbn [mbind option_bind]. rewrite Hrest.
    cbn [mbind option_bind]. eexists. split; [reflexivity|].
    intros j e' Hj He' Ht. destruct (decide (j = i)) as [->|Hne].
    + assert (e' = e) as -> by congruence. rewrite Ht. left.
    + assert (j ∈ rest) by (apply (Hin j e'); [lia|assumption..]).
      destruct (taken T e); [right|]; assumption.
Qed.

(** The entries of other keys that are taken after [insert_entry] were
    taken before it, in the same place. *)
Lemma insert_entry_others k v m m' :
  insert_entry T k v m = Some m' ->
  forall i e', m_HashEntries T m' !! i = Some e' -> taken T e' = true ->
    key T e' <> k ->
    exists e, m_HashEntries T m !! i = Some e /\ taken T e = true.
Proof.
  unfold insert_entry. intros H i e' Hi Ht Hk.
  destruct (home k (m_Capacity T m)) as [h|]; [|discriminate].
  cbn [mbind option_bind] in H.
  destruct (m_HashEntries T m !! h) as [e|] eqn:He; [|discriminate].
  cbn [mbind option_bind] in H.
  assert (Hset : forall j ej, m_HashEntries T m !! j = Some ej ->
            m_HashEntries T m' = <[j := set_data T ej v]> (m_HashEntries T m) ->
            exists e0, m_HashEntries T m !! i = Some e0 /\ taken T e0 = true).
  { intros j ej Hj Hes. rewrite Hes in Hi.
    destruct (decide (i = j)) as [->|Hne].
    - rewrite list_lookup_insert_eq in Hi by (eapply lookup_lt_Some; eauto).
      injection Hi as <-. eauto.
    - rewrite list_lookup_insert_ne in Hi by congruence. eauto. }
  destruct (taken T e && (key T e =? k)%Z) eqn:E.
  { injection H as <-. exact (Hset h e He eq_refl). }
  destruct (find_in_chain T (m_Capacity T m) (m_HashEntries T m) k h)
    as [[idx found]|] eqn:Hf; [|discriminate].
  cbn [mbind option_bind] in H.
  destruct (m_HashEntries T m !! idx) as [entry|] eqn:Hidx; [|discriminate].
  cbn [mbind option_bind] in H. destruct found.
  { injection H as <-. exact (Hset idx entry Hidx eq_refl). }
  destruct (find_free T _ _ _ idx) as [free|]; [|discriminate].
  cbn [mbind option_bind] in H.
  destruct (m_HashEntries T m !! free) as [findEntry|] eqn:Hfree; [|discriminate].
  cbn [mbind option_bind] in H.
  set (filled := {| data := v; key := k; nextIndex := nextIndex T findEntry;
                    taken := true; hasNext := hasNext T findEntry |}) in *.
  set (es1 := <[free := filled]> (m_HashEntries T m)) in *.
  destruct (es1 !! idx) as [entry'|] eqn:Hidx'; [|discriminate].
  cbn [mbind option_bind] in H. injection H as <-. cbn [m_HashEntries] in Hi.
  assert (H1 : forall e1, es1 !! i = Some e1 -> taken T e1 = true -> key T e1 <> k ->
            exists e0, m_HashEntries T m !! i = Some e0 /\ taken T e0 = true).
  { intros e1 Hi1 Ht1 Hk1. unfold es1 in Hi1.
    destruct (decide (i = free)) as [->|Hne].
    - rewrite list_lookup_insert_eq in Hi1 by (eapply lookup_lt_Some; eauto).
      injection Hi1 as <-. cbn in Hk1. congruence.
    - rewrite list_lookup_insert_ne in Hi1 by congruence. eauto. }
  destruct (negb (key T entry' =? k)%Z).
  - destruct (decide (i = idx)) as [->|Hne].
    + rewrite list_lookup_insert_eq in Hi by (eapply lookup_lt_Some; eauto).
      injection Hi as <-. apply (H1 entry' Hidx'); assumption.
    + rewrite list_lookup_insert_ne in Hi by congruence. exact (H1 e' Hi Ht Hk).
  - exact (H1 e' Hi Ht Hk).
Qed.

(** X22. An [insert] that finds the map at seven tenths of its capacity
    moves the entries into a new table, and then [reserve] calls
    [destruct()] on the new table, not on the old one.  So for a type
    that is not trivially destructible, when such an [insert] returns,
    the value of every taken entry other than the one of the key just
    inserted has had its destructor run. *)
Theorem insert_growth_destructs fuel k v m :
  Inv T m ->
  m_Capacity T m * 7 <= m_Size T m * 10 ->
  trivially_destructible = false ->
  exists m' ds,
    insert_traced (S (S fuel)) k v m = Some (m', ds) /\
    insert T T_default (S (S fuel)) k v m = Some m' /\
    forall i e, m_HashEntries T m' !! i = Some e -> taken T e = true ->
      key T e <> k -> i ∈ ds.
Proof.
  intros ((r & Hwf) & Hcount & Hload) Hfull Htd.
  unfold insert_traced. rewrite insert_S.
  destruct (Nat.leb_spec (m_Capacity T m * 7) (m_Size T m * 10)) as [_|]; [|lia].
  set (newcap := (if (m_Capacity T m =? 0)%nat then 8 else m_Capacity T m * 2)%nat).
  assert (Hnew : (m_Size T m < newcap /\ m_Capacity T m * 10 < newcap * 7 /\
                  0 < newcap)%nat).
  { unfold newcap. destruct (Nat.eqb_spec (m_Capacity T m) 0); lia. }
  clearbody newcap. destruct Hnew as (Hn1 & Hn2 & Hn3).
  unfold reserve_traced, reserve_with.
  destruct (Nat.leb_spec newcap (m_Size T m)) as [|_]; [lia|].
  destruct (rehash_spec T T_default fuel (m_HashEntries T m)
              {| m_HashEntries := replicate newcap (new_entry T T_default);
                 m_Size := 0; m_Capacity := newcap |})
    as (m1 & Hre & (r1 & Hwf1) & Hc1 & Hcap1 & Hsz1).
  { cbn. exists (fun _ => 0%nat). apply wf_replicate. }
  { cbn. rewrite count_taken_replicate. lia. }
  { cbn. destruct Hwf as (Hlen & _). rewrite Hlen. lia. }
  { cbn. lia. }
  rewrite Hre. cbn [mbind option_bind]. cbn in Hcap1, Hsz1.
  assert (Hlen : length (m_HashEntries T m) = m_Capacity T m) by apply Hwf.
  assert (Hlen1 : length (m_HashEntries T m1) = m_Capacity T m1) by apply Hwf1.
  unfold destruct. rewrite Htd.
  destruct (destruct_from_spec (m_HashEntries T m1) (m_Capacity T m1) 0)
    as (ds & Hds & Hin); [lia|].
  rewrite Hds. cbn [mbind option_bind].
  destruct (insert_entry_spec T r1 m1 k v Hwf1)
    as (r' & m' & Hins & _); [lia|lia|].
  rewrite Hins. cbn [mbind option_bind].
  exists m', ds. split; [reflexivity|]. split; [reflexivity|].
  intros i e Hi Ht Hk.
  destruct (insert_entry_others k v m1 m' Hins i e Hi Ht Hk) as (e0 & Hi0 & Ht0).
  apply (Hin i e0); [|exact Hi0|exact Ht0].
  apply lookup_lt_Some in Hi0. lia.
Qed.

End HashMapUse.

(** *** The theorems on maps of integers *)

Definition demo_run (ops : list (MapOp Z)) (m : LvnHashMap Z) : LvnHashMap Z :=
  default m (map_run Z 0 2 ops m).

(** Two insertions. *)
Definition demo_map : LvnHashMap Z :=
  demo_run [Insert Z 1 10; Insert Z 2 20] (empty Z).

(** Five insertions, [clear()], and three insertions of new keys: the
    table of eight entries is full, and the size is 3. *)
Definition demo_full : LvnHashMap Z :=
  demo_run [Insert Z 6 60; Insert Z 7 70; Insert Z 8 80]
    (clear Z (demo_run [Insert Z 1 10; Insert Z 2 20; Insert Z 3 30; Insert Z 4 40;
                        Insert Z 5 50] (empty Z))).

Lemma clear_then_insert_witness :
  exists m2 m3,
    insert Z 0 2 1 11 (clear Z demo_map) = Some m2 /\
    m_Size Z m2 = 0%nat /\
    lookup_entry Z 1 m2 = Some (Some 11) /\
    contains Z 1 m2 = Some false /\
    at_key Z 0 2 1 m2 = Some (0, m3) /\
    m_Size Z m3 = 0%nat /\
    lookup_entry Z 1 m3 = Some (Some 0).
Proof.
  apply (clear_then_insert Z 0 1 1 10 11 demo_map).
  vm_compute. reflexivity.
Defined.

Lemma insert_full_table_witness :
  m_Size Z demo_full = 3%nat /\ m_Capacity Z demo_full = 8%nat /\
  (forall steps idx,
     find_free Z steps (m_HashEntries Z demo_full) (m_Capacity Z demo_full) idx = None) /\
  forall fuel, insert Z 0 fuel 9 90 demo_full = None.
Proof.
  split; [reflexivity|]. split; [reflexivity|].
  apply (insert_full_table Z 0 9 90 demo_full).
  - vm_compute. reflexivity.
  - vm_compute. reflexivity.
  - vm_compute. lia.
Defined.

Lemma insert_growth_destructs_witness :
  exists m m' ds,
    map_run Z 0 2 [Insert Z 1 10; Insert Z 2 20; Insert Z 3 30; Insert Z 4 40;
                   Insert Z 5 50; Insert Z 6 60] (empty Z) = Some m /\
    insert_traced Z 0 false 2 7 70 m = Some (m', ds) /\
    insert Z 0 2 7 70 m = Some m' /\
    length ds = 6%nat /\
    forall i e, m_HashEntries Z m' !! i = Some e -> taken Z e = true ->
      key Z e <> 7%Z -> i ∈ ds.
Proof.
  destruct (map_run_spec Z 0 0
              [Insert Z 1 10; Insert Z 2 20; Insert Z 3 30; Insert Z 4 40;
               Insert Z 5 50; Insert Z 6 60] (empty Z) (Inv_empty Z))
    as (m & Hrun & Hinv).
  destruct (insert_growth_destructs Z 0 false 0 7 70 m Hinv)
    as (m' & ds & Ht & Hi & Hd).
  - vm_compute in Hrun. injection Hrun as <-. vm_compute. lia.
  - reflexivity.
  - exists m, m', ds. split; [exact Hrun|]. split; [exact Ht|]. split; [exact Hi|].
    split; [|exact Hd].
    vm_compute in Hrun. injection Hrun as <-.
    vm_compute in Ht. injection Ht as _ <-. reflexivity.
Defined.

End HashMapUse.

(** ** [LvnHashMap] as a finite map, under [insert] and [at] *)

Module HashMapModel.

Import HashMap.

Section HashMapModel.

Variable T : Type.
Variable T_default : T.

Local Open Scope nat_scope.

(** The table after [insert] has put a new entry into the free slot [f]
    and linked it behind the end [idx] of the chain. *)
Definition linked (es : list (LvnHashEntry T)) (k : Z) (v : T) (idx f : nat)
    (eidx ef : LvnHashEntry T) : list (LvnHashEntry T) :=
  let es1 := <[f := filled_entry T k v ef]> es in
  if decide (idx = f) then es1 else <[idx := set_link T eidx f true]> es1.

(** What [insert_entry] does, by cases: it overwrites the value of the
    entry the search finds, or fills a free slot and links it. *)
Lemma insert_entry_shape r m k v :
  wf T r (m_HashEntries T m) (m_Capacity T m) ->
  count_taken T (m_HashEntries T m) < m_Capacity T m ->
  exists h eh,
    home k (m_Capacity T m) = Some h /\ m_HashEntries T m !! h = Some eh /\
    ((exists j ej,
        m_HashEntries T m !! j = Some ej /\ key T ej = k /\
        (j = h /\ taken T ej = true \/
         (taken T eh && (key T eh =? k)%Z = false) /\
         chain_to T (m_HashEntries T m) k h j true) /\
        insert_entry T k v m =
          Some (set_entries T m (<[j := set_data T ej v]> (m_HashEntries T m)))) \/
     (exists idx eidx f ef,
        taken T eh && (key T eh =? k)%Z = false /\
        chain_to T (m_HashEntries T m) k h idx false /\
        m_HashEntries T m !! idx = Some eidx /\ hasNext T eidx = false /\
        m_HashEntries T m !! f = Some ef /\ taken T ef = false /\
        (idx <> f -> taken T eidx = true /\ key T eidx <> k) /\
        insert_entry T k v m =
          Some {| m_HashEntries := linked (m_HashEntries T m) k v idx f eidx ef;
                  m_Size := m_Size T m + 1; m_Capacity := m_Capacity T m |})).
Proof.
  intros Hwf Hcount. pose proof Hwf as (Hlen & Hrange & Hfree & Hrank).
  destruct m as [es size cap]. cbn [m_HashEntries m_Size m_Capacity] in *.
  destruct (home_total k cap) as (h & Hh); [lia|].
  pose proof (home_lt k cap h Hh) as Hhc.
  destruct (lookup_lt_is_Some_2 es h) as (eh & Heh); [lia|].
  exists h, eh. split; [exact Hh|]. split; [exact Heh|].
  unfold insert_entry. cbn [m_HashEntries m_Size m_Capacity].
  rewrite Hh. cbn [mbind option_bind]. rewrite Heh. cbn [mbind option_bind].
  destruct (taken T eh && (key T eh =? k)%Z) eqn:Hhit.
  - left. exists h, eh. apply andb_true_iff in Hhit as (Ht & Hk).
    apply Z.eqb_eq in Hk. split; [exact Heh|]. split; [exact Hk|].
    split; [left; auto|reflexivity].
  - destruct (find_in_chain_total T r es cap k Hwf cap h Hhc) as (idx & found & Hwalk & Hic).
    { apply count_below_lt. exact Hhc. }
    rewrite Hwalk. cbn [mbind option_bind].
    pose proof (find_in_chain_sound T es k cap h idx found Hwalk) as Hchain.
    destruct (chain_to_end T es k h idx found Hchain) as (eidx & Heidx & Hfound & Hnot).
    rewrite Heidx. cbn [mbind option_bind]. destruct found.
    + left. exists idx, eidx. split; [exact Heidx|]. split; [auto|].
      split; [right; auto|reflexivity].
    + right. destruct (Hnot eq_refl) as (Hnidx & Hkidx).
      destruct (find_free_total T es cap idx Hlen Hcount Hic)
        as (f & ef & Hff & Hfc & Hef & Htf & Hfi).
      rewrite Hff. cbn [mbind option_bind]. rewrite Hef. cbn [mbind option_bind].
      fold (filled_entry T k v ef).
      exists idx, eidx, f, ef. split; [reflexivity|]. split; [exact Hchain|].
      split; [exact Heidx|]. split; [exact Hnidx|]. split; [exact Hef|].
      split; [exact Htf|].
      assert (Hside : idx <> f -> taken T eidx = true /\ key T eidx <> k).
      { intros Hif. destruct (Hfi ltac:(congruence)) as (e0 & He0 & Ht0).
        assert (e0 = eidx) as -> by congruence. split; [exact Ht0|].
        destruct (decide (idx = h)) as [->|Hih]; [|auto].
        assert (eidx = eh) as -> by congruence.
        rewrite Ht0 in Hhit. cbn in Hhit. apply Z.eqb_neq. exact Hhit. }
      split; [exact Hside|]. unfold linked.
      destruct (decide (idx = f)) as [->|Hif].
      * rewrite list_lookup_insert_eq by lia. cbn [mbind option_bind filled_entry key].
        rewrite Z.eqb_refl. reflexivity.
      * rewrite list_lookup_insert_ne by congruence. rewrite Heidx.
        cbn [mbind option_bind]. destruct (Hside Hif) as (_ & Hk).
        destruct (Z.eqb_spec (key T eidx) k) as [|_]; [contradiction|]. reflexivity.
Qed.

(** *** The invariant of a table that only grows *)

(** The links lead to taken entries. *)
Definition links_taken (es : list (LvnHashEntry T)) : Prop :=
  forall i e, es !! i = Some e -> hasNext T e = true ->
    exists e', es !! nextIndex T e = Some e' /\ taken T e' = true.

(** The search of [at] on a table. *)
Definition found (es : list (LvnHashEntry T)) (cap : nat) (k : Z) : option (option T) :=
  lookup_entry T k {| m_HashEntries := es; m_Size := 0; m_Capacity := cap |}.

(** Every taken entry is what the search finds under its key. *)
Definition all_found (es : list (LvnHashEntry T)) (cap : nat) : Prop :=
  forall i e, es !! i = Some e -> taken T e = true ->
    found es cap (key T e) = Some (Some (data T e)).

Definition keys_distinct (es : list (LvnHashEntry T)) : Prop :=
  forall i j ei ej, es !! i = Some ei -> es !! j = Some ej ->
    taken T ei = true -> taken T ej = true -> key T ei = key T ej -> i = j.

(** An entry that is not taken has the key 0. *)
Definition free_keys (es : list (LvnHashEntry T)) : Prop :=
  forall i e, es !! i = Some e -> taken T e = false -> key T e = 0%Z.

Definition Core (es : list (LvnHashEntry T)) (cap : nat) : Prop :=
  (exists r, wf T r es cap) /\ links_taken es /\ all_found es cap /\
  keys_distinct es /\ free_keys es.

(** The table holds the value [d] under the key [k]. *)
Definition holds (es : list (LvnHashEntry T)) (k : Z) (d : T) : Prop :=
  exists i e, es !! i = Some e /\ taken T e = true /\ key T e = k /\ data T e = d.

(** The table holds the finite map [f]. *)
Definition Rel (es : list (LvnHashEntry T)) (f : Z -> option T) : Prop :=
  forall k d, holds es k d <-> f k = Some d.

Lemma found_lookup k m :
  lookup_entry T k m = found (m_HashEntries T m) (m_Capacity T m) k.
Proof. reflexivity. Qed.

(** The search by cases. *)
Lemma found_hit es cap k h eh :
  home k cap = Some h -> es !! h = Some eh -> taken T eh = true -> key T eh = k ->
  found es cap k = Some (Some (data T eh)).
Proof.
  intros Hh Heh Ht Hk. unfold found, lookup_entry. cbn [m_HashEntries m_Capacity].
  rewrite Hh. cbn [mbind option_bind]. rewrite Heh. cbn [mbind option_bind].
  rewrite Ht, Hk, Z.eqb_refl. reflexivity.
Qed.

Lemma found_chain r es cap k h eh idx fnd e :
  wf T r es cap ->
  home k cap = Some h -> es !! h = Some eh ->
  taken T eh && (key T eh =? k)%Z = false ->
  chain_to T es k h idx fnd -> es !! idx = Some e ->
  found es cap k = Some (if fnd then Some (data T e) else None).
Proof.
  intros Hwf Hh Heh Hhit Hc He. unfold found, lookup_entry.
  cbn [m_HashEntries m_Capacity].
  rewrite Hh. cbn [mbind option_bind]. rewrite Heh. cbn [mbind option_bind].
  rewrite Hhit.
  destruct (find_in_chain_total T r es cap k Hwf cap h (home_lt _ _ _ Hh))
    as (x & b & Hw & _).
  { apply count_below_lt. exact (home_lt _ _ _ Hh). }
  rewrite Hw. cbn [mbind option_bind].
  pose proof (find_in_chain_sound T es k cap h x b Hw) as Hc'.
  destruct (chain_to_det T _ _ _ _ _ Hc _ _ Hc') as (-> & ->).
  rewrite He. reflexivity.
Qed.

(** What the search returns is the value of an entry with the key: the
    home entry when it is taken, or an entry a link leads to. *)
Lemma found_inv r es cap k d :
  wf T r es cap -> found es cap k = Some (Some d) ->
  exists h eh idx e,
    home k cap = Some h /\ es !! h = Some eh /\
    es !! idx = Some e /\ key T e = k /\ data T e = d /\
    (idx = h /\ taken T e = true \/
     taken T eh && (key T eh =? k)%Z = false /\ chain_to T es k h idx true).
Proof.
  intros Hwf. unfold found, lookup_entry. cbn [m_HashEntries m_Capacity].
  destruct (home k cap) as [h|] eqn:Hh; [|discriminate]. cbn [mbind option_bind].
  destruct (es !! h) as [eh|] eqn:Heh; [|discriminate]. cbn [mbind option_bind].
  destruct (taken T eh && (key T eh =? k)%Z) eqn:Hhit.
  - intros [= <-]. apply andb_true_iff in Hhit as (Ht & Hk). apply Z.eqb_eq in Hk.
    exists h, eh, h, eh. repeat split; auto.
  - destruct (find_in_chain T cap es k h) as [[idx fnd]|] eqn:Hw; [|discriminate].
    cbn [mbind option_bind].
    destruct (es !! idx) as [e|] eqn:He; [|discriminate]. cbn [mbind option_bind].
    destruct fnd; [|discriminate]. intros [= <-].
    pose proof (find_in_chain_sound T es k cap h idx true Hw) as Hc.
    destruct (chain_to_end T es k h idx true Hc) as (e' & He' & Hk & _).
    assert (e' = e) as -> by congruence.
    exists h, eh, idx, e. repeat split; auto.
Qed.

(** An entry a walk ends at with the key, the walk having hopped, is the
    target of a link. *)
Lemma chain_found_target es k i idx :
  chain_to T es k i idx true ->
  exists j e, es !! j = Some e /\ hasNext T e = true /\ nextIndex T e = idx.
Proof.
  remember true as fnd eqn:E.
  induction 1 as [i e He Hn|i e e' He Hn He' Hk|i e e' idx found He Hn He' Hk Hc IH];
    [discriminate|eauto|auto].
Qed.

Lemma found_holds r es cap k d :
  wf T r es cap -> links_taken es -> found es cap k = Some (Some d) -> holds es k d.
Proof.
  intros Hwf Hl Hf.
  destruct (found_inv r es cap k d Hwf Hf)
    as (h & eh & idx & e & Hh & Heh & He & Hk & Hd & [[-> Ht]|[Hhit Hc]]).
  - exists h, e. auto.
  - destruct (chain_found_target es k h idx Hc) as (j & ej & Hj & Hn & Hni).
    destruct (Hl j ej Hj Hn) as (e' & He' & Ht'). rewrite Hni in He'.
    assert (e' = e) as -> by congruence. exists idx, e. auto.
Qed.

Lemma found_total r es cap k :
  wf T r es cap -> 0 < cap -> exists o, found es cap k = Some o.
Proof.
  intros Hwf Hc.
  exact (lookup_entry_total T r k {| m_HashEntries := es; m_Size := 0; m_Capacity := cap |}
           Hwf Hc).
Qed.

(** On a table of the invariant that holds the map [f], the search of
    [at] returns what [f] has. *)
Lemma found_Rel es cap f k :
  Core es cap -> Rel es f -> 0 < cap -> found es cap k = Some (f k).
Proof.
  intros ((r & Hwf) & Hl & Haf & Hkd & Hfk) HR Hc.
  destruct (f k) as [d|] eqn:Hfk'.
  - apply HR in Hfk' as (i & e & Hi & Ht & <- & <-). exact (Haf i e Hi Ht).
  - destruct (found_total r es cap k Hwf Hc) as ([d|] & Ho); [|exact Ho].
    pose proof (found_holds r es cap k d Hwf Hl Ho) as Hh.
    apply HR in Hh. congruence.
Qed.

(** *** [insert] writes over the value of an entry *)

Section Overwrite.

Variables (es : list (LvnHashEntry T)) (cap : nat) (k : Z) (v : T).
Variables (j : nat) (ej : LvnHashEntry T).
Hypothesis Hcore : Core es cap.
Hypothesis Hj : es !! j = Some ej.
Hypothesis Hkey : key T ej = k.
Hypothesis Htaken : taken T ej = true.

Let es' := <[j := set_data T ej v]> es.

Lemma overwrite_lookup i :
  es' !! i = (fun e => if decide (i = j) then set_data T e v else e) <$> es !! i.
Proof.
  unfold es'. destruct (decide (i = j)) as [->|Hne].
  - rewrite list_lookup_insert_eq by (eapply lookup_lt_Some; eauto).
    rewrite Hj. reflexivity.
  - rewrite list_lookup_insert_ne by congruence. destruct (es !! i); reflexivity.
Qed.

Lemma overwrite_entry i e' :
  es' !! i = Some e' ->
  exists e, es !! i = Some e /\ taken T e' = taken T e /\ key T e' = key T e /\
            nextIndex T e' = nextIndex T e /\ hasNext T e' = hasNext T e /\
            (i <> j -> e' = e) /\ (i = j -> data T e' = v).
Proof.
  rewrite overwrite_lookup. destruct (es !! i) as [e|]; [|discriminate].
  cbn. intros [= <-]. exists e. split; [reflexivity|].
  destruct (decide (i = j)); cbn; repeat split; auto; congruence.
Qed.

Lemma overwrite_found_other k2 :
  k2 <> k -> found es' cap k2 = found es cap k2.
Proof.
  intros Hne. destruct Hcore as ((r & Hwf) & _).
  unfold found, lookup_entry. cbn [m_HashEntries m_Capacity].
  destruct (home k2 cap) as [h|]; [|reflexivity]. cbn [mbind option_bind].
  rewrite overwrite_lookup. destruct (es !! h) as [eh|] eqn:Heh; [|reflexivity].
  cbn [fmap option_fmap option_map mbind option_bind].
  assert (Ht : taken T (if decide (h = j) then set_data T eh v else eh) = taken T eh)
    by (destruct (decide (h = j)); reflexivity).
  assert (Hk : key T (if decide (h = j) then set_data T eh v else eh) = key T eh)
    by (destruct (decide (h = j)); reflexivity).
  rewrite Ht, Hk. destruct (taken T eh && (key T eh =? k2)%Z) eqn:Hhit.
  - destruct (decide (h = j)) as [->|]; [|reflexivity].
    assert (eh = ej) as -> by congruence.
    apply andb_true_iff in Hhit as (_ & E). apply Z.eqb_eq in E. congruence.
  - unfold es'. rewrite (HashMapUse.find_in_chain_set_data T es k2 j ej v cap Hj).
    destruct (find_in_chain T cap es k2 h) as [[idx fnd]|] eqn:Hw; [|reflexivity].
    cbn [mbind option_bind]. fold es'. rewrite overwrite_lookup.
    destruct (es !! idx) as [e|] eqn:He; [|reflexivity].
    cbn [fmap option_fmap option_map mbind option_bind].
    destruct fnd; [|reflexivity].
    destruct (decide (idx = j)) as [->|]; [|reflexivity].
    pose proof (find_in_chain_sound T es k2 cap h j true Hw) as Hc.
    destruct (chain_to_end T es k2 h j true Hc) as (e' & He' & Hk' & _).
    assert (e' = ej) by congruence. subst e'. specialize (Hk' eq_refl). congruence.
Qed.

Lemma overwrite_Core :
  found es' cap k = Some (Some v) -> Core es' cap.
Proof.
  intros Hfound. destruct Hcore as ((r & Hwf) & Hl & Haf & Hkd & Hfk).
  split; [|split; [|split; [|split]]].
  - exists r. unfold es'. eapply wf_insert_same_links; eauto.
    intros Hn. cbn in Hn. congruence.
  - intros i e' Hi Hn. destruct (overwrite_entry i e' Hi) as (e & He & _ & _ & Hni & Hhn & _).
    rewrite Hhn in Hn. destruct (Hl i e He Hn) as (t & Ht & Htt).
    rewrite Hni. rewrite overwrite_lookup, Ht. cbn. eexists. split; [reflexivity|].
    destruct (decide (nextIndex T e = j)); exact Htt.
  - intros i e' Hi Ht.
    destruct (overwrite_entry i e' Hi) as (e & He & Hte & Hke & _ & _ & Hsame & Hdat).
    rewrite Hte in Ht. destruct (decide (i = j)) as [->|Hne].
    + assert (e = ej) as -> by congruence. rewrite Hke, Hkey, (Hdat eq_refl).
      exact Hfound.
    + rewrite (Hsame Hne). rewrite overwrite_found_other; [exact (Haf i e He Ht)|].
      intros Hk. apply Hne. apply (Hkd i j e ej He Hj Ht Htaken). congruence.
  - intros i1 i2 e1 e2 H1 H2 Ht1 Ht2 Hk.
    destruct (overwrite_entry i1 e1 H1) as (a1 & Ha1 & Hta1 & Hka1 & _).
    destruct (overwrite_entry i2 e2 H2) as (a2 & Ha2 & Hta2 & Hka2 & _).
    apply (Hkd i1 i2 a1 a2 Ha1 Ha2); congruence.
  - intros i e' Hi Ht. destruct (overwrite_entry i e' Hi) as (e & He & Hte & Hke & _).
    rewrite Hke. apply (Hfk i e He). congruence.
Qed.

Lemma overwrite_Rel f :
  Rel es f -> Rel es' (<[k := Some v]> f).
Proof.
  intros HR k2 d. destruct Hcore as (_ & _ & _ & Hkd & _).
  destruct (decide (k2 = k)) as [->|Hne].
  - rewrite fn_lookup_insert. split.
    + intros (i & e' & Hi & Ht & Hk & Hd).
      destruct (overwrite_entry i e' Hi) as (e & He & Hte & Hke & _ & _ & _ & Hdat).
      assert (i = j) as ->.
      { apply (Hkd i j e ej He Hj); congruence. }
      rewrite <- Hd, (Hdat eq_refl). reflexivity.
    + intros [= <-]. exists j, (set_data T ej v).
      rewrite overwrite_lookup, Hj. cbn. destruct (decide (j = j)); [|congruence].
      repeat split; auto.
  - rewrite fn_lookup_insert_ne by congruence. rewrite <- (HR k2 d). split.
    + intros (i & e' & Hi & Ht & Hk & Hd).
      destruct (overwrite_entry i e' Hi) as (e & He & Hte & Hke & _ & _ & Hsame & _).
      assert (Hij : i <> j) by (intros ->; assert (e = ej) by congruence; congruence).
      rewrite (Hsame Hij) in *. exists i, e. auto.
    + intros (i & e & Hi & Ht & Hk & Hd).
      assert (Hij : i <> j) by (intros ->; assert (e = ej) by congruence; congruence).
      exists i, e. rewrite overwrite_lookup, Hi. cbn.
      destruct (decide (i = j)); [contradiction|]. auto.
Qed.

End Overwrite.

(** *** [insert] fills a free slot *)

Section NewEntry.

Variables (es : list (LvnHashEntry T)) (cap : nat) (k : Z) (v : T).
Variables (h idx f : nat) (eh eidx ef : LvnHashEntry T).
Hypothesis Hcore : Core es cap.
Hypothesis Hh : home k cap = Some h.
Hypothesis Heh : es !! h = Some eh.
Hypothesis Hhit : taken T eh && (key T eh =? k)%Z = false.
Hypothesis Hchain : chain_to T es k h idx false.
Hypothesis Hidx : es !! idx = Some eidx.
Hypothesis Hend : hasNext T eidx = false.
Hypothesis Hf : es !! f = Some ef.
Hypothesis Hfree : taken T ef = false.
Hypothesis Hside : idx <> f -> taken T eidx = true /\ key T eidx <> k.

Let es2 := linked es k v idx f eidx ef.

Lemma new_free_unlinked : hasNext T ef = false.
Proof.
  destruct Hcore as ((r & _ & _ & Hfr & _) & _). exact (Hfr f ef Hf Hfree).
Qed.

Lemma new_absent : found es cap k = Some None.
Proof.
  destruct Hcore as ((r & Hwf) & _).
  exact (found_chain r es cap k h eh idx false eidx Hwf Hh Heh Hhit Hchain Hidx).
Qed.

Lemma new_key_fresh i e : es !! i = Some e -> taken T e = true -> key T e <> k.
Proof.
  intros Hi Ht Hk. destruct Hcore as (_ & _ & Haf & _).
  pose proof (Haf i e Hi Ht) as H. rewrite Hk, new_absent in H. discriminate.
Qed.

Lemma linked_lookup i :
  es2 !! i =
    if decide (i = f) then Some (filled_entry T k v ef)
    else if decide (i = idx) then Some (set_link T eidx f true)
    else es !! i.
Proof.
  pose proof (lookup_lt_Some _ _ _ Hf) as Hfl.
  pose proof (lookup_lt_Some _ _ _ Hidx) as Hil.
  unfold es2, linked. destruct (decide (idx = f)) as [->|Hne].
  - destruct (decide (i = f)) as [->|Hif].
    + apply list_lookup_insert_eq. exact Hfl.
    + apply list_lookup_insert_ne. congruence.
  - destruct (decide (i = f)) as [->|Hif].
    + rewrite list_lookup_insert_ne by congruence. apply list_lookup_insert_eq. exact Hfl.
    + destruct (decide (i = idx)) as [->|Hii].
      * apply list_lookup_insert_eq. rewrite length_insert. exact Hil.
      * rewrite !list_lookup_insert_ne by congruence. reflexivity.
Qed.

(** Away from the new entry, the entries keep their flags, keys and
    values: only the link of the end of the chain changes. *)
Lemma linked_entry i e :
  i <> f -> es !! i = Some e ->
  exists e', es2 !! i = Some e' /\ taken T e' = taken T e /\ key T e' = key T e /\
             data T e' = data T e /\
             (i <> idx -> e' = e) /\
             (i = idx -> hasNext T e' = true /\ nextIndex T e' = f).
Proof.
  intros Hif Hi. rewrite linked_lookup. destruct (decide (i = f)); [contradiction|].
  destruct (decide (i = idx)) as [->|Hii].
  - assert (e = eidx) as -> by congruence. eexists. split; [reflexivity|].
    cbn. repeat split; auto. contradiction.
  - exists e. repeat split; auto. contradiction.
Qed.

Lemma linked_entry_inv i e' :
  i <> f -> es2 !! i = Some e' ->
  exists e, es !! i = Some e /\ taken T e' = taken T e /\ key T e' = key T e /\
            data T e' = data T e.
Proof.
  intros Hif. rewrite linked_lookup. destruct (decide (i = f)); [contradiction|].
  destruct (decide (i = idx)) as [->|Hii].
  - intros [= <-]. exists eidx. auto.
  - intros Hi. exists e'. auto.
Qed.

Lemma linked_new : es2 !! f = Some (filled_entry T k v ef).
Proof. rewrite linked_lookup. destruct (decide (f = f)); [reflexivity|congruence]. Qed.

(** The walk for another key goes as before; where it ended at the end of
    the chain that has the new link, it hops to the new entry and ends
    there. *)
Lemma chain_linked k2 : k2 <> k ->
  forall i j fnd, chain_to T es k2 i j fnd -> i <> f ->
    exists j', chain_to T es2 k2 i j' fnd /\ (fnd = true -> j' = j /\ j <> f).
Proof.
  intros Hne. destruct Hcore as (_ & Hl & _).
  induction 1 as [i e He Hn|i e e' He Hn He' Hk|i e e' j fnd He Hn He' Hk Hc IH];
    intros Hif.
  - destruct (decide (i = idx)) as [->|Hii].
    + exists f. split; [|discriminate].
      destruct (linked_entry idx e Hif He) as (a & Ha & _ & _ & _ & _ & Hlink).
      destruct (Hlink eq_refl) as (Hn' & Hni').
      eapply (chain_hop T es2 k2 idx a (filled_entry T k v ef));
        [exact Ha|exact Hn'|rewrite Hni'; exact linked_new|cbn; congruence|].
      rewrite Hni'. eapply chain_end; [exact linked_new|]. cbn. exact new_free_unlinked.
    + exists i. split; [|discriminate].
      destruct (linked_entry i e Hif He) as (a & Ha & _ & _ & _ & Hsame & _).
      rewrite (Hsame Hii) in Ha. eapply chain_end; eauto.
  - assert (Hii : i <> idx) by (intros ->; congruence).
    destruct (linked_entry i e Hif He) as (a & Ha & _ & _ & _ & Hsame & _).
    rewrite (Hsame Hii) in Ha.
    destruct (Hl i e He Hn) as (t & Ht & Htt).
    assert (t = e') as -> by congruence.
    assert (Hnf : nextIndex T e <> f) by (intros E; rewrite E in He'; congruence).
    destruct (linked_entry _ e' Hnf He') as (b & Hb & _ & Hkb & _).
    exists (nextIndex T e). split; [|auto].
    eapply chain_hit; [exact Ha|exact Hn|exact Hb|congruence].
  - assert (Hii : i <> idx) by (intros ->; congruence).
    destruct (linked_entry i e Hif He) as (a & Ha & _ & _ & _ & Hsame & _).
    rewrite (Hsame Hii) in Ha.
    destruct (Hl i e He Hn) as (t & Ht & Htt).
    assert (t = e') as -> by congruence.
    assert (Hnf : nextIndex T e <> f) by (intros E; rewrite E in He'; congruence).
    destruct (linked_entry _ e' Hnf He') as (b & Hb & _ & Hkb & _).
    destruct (IH Hnf) as (j' & Hc' & Hj').
    exists j'. split; [|exact Hj'].
    eapply chain_hop; [exact Ha|exact Hn|exact Hb|congruence|exact Hc'].
Qed.

Lemma linked_found_other r' k2 :
  wf T r' es2 cap -> k2 <> k -> found es2 cap k2 = found es cap k2.
Proof.
  intros Hwf2 Hne. destruct Hcore as ((r & Hwf) & Hl & _).
  pose proof Hwf as (Hlen & _).
  destruct (home k2 cap) as [h2|] eqn:Hh2.
  2:{ unfold found, lookup_entry. cbn [m_HashEntries m_Capacity]. rewrite Hh2.
      reflexivity. }
  pose proof (home_lt _ _ _ Hh2) as Hh2c.
  destruct (lookup_lt_is_Some_2 es h2) as (e2 & He2); [lia|].
  destruct (decide (h2 = f)) as [->|Hhf].
  - assert (e2 = ef) as -> by congruence.
    rewrite (found_chain r es cap k2 f ef f false ef Hwf Hh2 Hf).
    + rewrite (found_chain r' es2 cap k2 f (filled_entry T k v ef) f false
                 (filled_entry T k v ef) Hwf2 Hh2 linked_new).
      * reflexivity.
      * cbn. destruct (Z.eqb_spec k k2); [congruence|reflexivity].
      * eapply chain_end; [exact linked_new|]. cbn. exact new_free_unlinked.
      * exact linked_new.
    + rewrite Hfree. reflexivity.
    + eapply chain_end; [exact Hf|exact new_free_unlinked].
    + exact Hf.
  - destruct (linked_entry h2 e2 Hhf He2) as (a & Ha & Hta & Hka & Hda & _).
    destruct (taken T e2 && (key T e2 =? k2)%Z) eqn:Hhit2.
    + apply andb_true_iff in Hhit2 as (Ht2 & Hk2). apply Z.eqb_eq in Hk2.
      rewrite (found_hit es cap k2 h2 e2 Hh2 He2 Ht2 Hk2).
      rewrite (found_hit es2 cap k2 h2 a Hh2 Ha); congruence.
    + destruct (find_in_chain_total T r es cap k2 Hwf cap h2 Hh2c) as (j & fnd & Hw & Hjc).
      { apply count_below_lt. exact Hh2c. }
      pose proof (find_in_chain_sound T es k2 cap h2 j fnd Hw) as Hc.
      destruct (lookup_lt_is_Some_2 es j) as (ej & Hej); [lia|].
      rewrite (found_chain r es cap k2 h2 e2 j fnd ej Hwf Hh2 He2 Hhit2 Hc Hej).
      destruct (chain_linked k2 Hne h2 j fnd Hc Hhf) as (j' & Hc' & Hj').
      assert (Hhit2' : taken T a && (key T a =? k2)%Z = false) by congruence.
      destruct fnd.
      * destruct (Hj' eq_refl) as (-> & Hjf).
        destruct (linked_entry j ej Hjf Hej) as (b & Hb & _ & _ & Hdb & _).
        rewrite (found_chain r' es2 cap k2 h2 a j true b Hwf2 Hh2 Ha Hhit2' Hc' Hb).
        congruence.
      * destruct (chain_to_end T es2 k2 h2 j' false Hc') as (b & Hb & _).
        rewrite (found_chain r' es2 cap k2 h2 a j' false b Hwf2 Hh2 Ha Hhit2' Hc' Hb).
        reflexivity.
Qed.

Lemma linked_Core r' :
  wf T r' es2 cap -> found es2 cap k = Some (Some v) -> Core es2 cap.
Proof.
  intros Hwf2 Hfound. pose proof Hcore as ((r & Hwf) & Hl & Haf & Hkd & Hfk).
  split; [eauto|]. split; [|split; [|split]].
  - intros i e' Hi Hn. destruct (decide (i = f)) as [->|Hif].
    + rewrite linked_new in Hi. injection Hi as <-. cbn in Hn.
      rewrite new_free_unlinked in Hn. discriminate.
    + destruct (decide (i = idx)) as [->|Hii].
      * destruct (linked_entry idx eidx Hif Hidx) as (a & Ha & _ & _ & _ & _ & Hlink).
        assert (a = e') as -> by congruence.
        destruct (Hlink eq_refl) as (_ & ->). eexists. split; [exact linked_new|reflexivity].
      * pose proof Hi as Hi'. rewrite linked_lookup in Hi'.
        destruct (decide (i = f)); [contradiction|].
        destruct (decide (i = idx)); [contradiction|].
        destruct (Hl i e' Hi' Hn) as (t & Ht & Htt).
        assert (Hnf : nextIndex T e' <> f) by (intros E; rewrite E in Ht; congruence).
        destruct (linked_entry _ t Hnf Ht) as (b & Hb & Htb & _).
        exists b. split; [exact Hb|congruence].
  - intros i e' Hi Ht. destruct (decide (i = f)) as [->|Hif].
    + rewrite linked_new in Hi. injection Hi as <-. exact Hfound.
    + destruct (linked_entry_inv i e' Hif Hi) as (e & He & Hte & Hke & Hde).
      rewrite Hte in Ht. rewrite Hke, Hde.
      rewrite (linked_found_other r' (key T e) Hwf2); [exact (Haf i e He Ht)|].
      exact (new_key_fresh i e He Ht).
  - intros i1 i2 e1 e2 H1 H2 Ht1 Ht2 Hk.
    destruct (decide (i1 = f)) as [->|Hf1]; destruct (decide (i2 = f)) as [->|Hf2];
      [reflexivity| | |].
    + rewrite linked_new in H1. injection H1 as <-. cbn in Hk.
      destruct (linked_entry_inv i2 e2 Hf2 H2) as (a & Ha & Hta & Hka & _).
      exfalso. apply (new_key_fresh i2 a Ha); congruence.
    + rewrite linked_new in H2. injection H2 as <-. cbn in Hk.
      destruct (linked_entry_inv i1 e1 Hf1 H1) as (a & Ha & Hta & Hka & _).
      exfalso. apply (new_key_fresh i1 a Ha); congruence.
    + destruct (linked_entry_inv i1 e1 Hf1 H1) as (a1 & Ha1 & Hta1 & Hka1 & _).
      destruct (linked_entry_inv i2 e2 Hf2 H2) as (a2 & Ha2 & Hta2 & Hka2 & _).
      apply (Hkd i1 i2 a1 a2 Ha1 Ha2); congruence.
  - intros i e' Hi Ht. destruct (decide (i = f)) as [->|Hif].
    + rewrite linked_new in Hi. injection Hi as <-. discriminate.
    + destruct (linked_entry_inv i e' Hif Hi) as (e & He & Hte & Hke & _).
      rewrite Hke. apply (Hfk i e He). congruence.
Qed.

Lemma linked_Rel g :
  Rel es g -> Rel es2 (<[k := Some v]> g).
Proof.
  intros HR k2 d. destruct (decide (k2 = k)) as [->|Hne].
  - rewrite fn_lookup_insert. split.
    + intros (i & e' & Hi & Ht & Hk & Hd). destruct (decide (i = f)) as [->|Hif].
      * rewrite linked_new in Hi. injection Hi as <-. cbn in Hd. congruence.
      * destruct (linked_entry_inv i e' Hif Hi) as (e & He & Hte & Hke & _).
        exfalso. apply (new_key_fresh i e He); congruence.
    + intros [= <-]. exists f, (filled_entry T k v ef).
      split; [exact linked_new|]. repeat split.
  - rewrite fn_lookup_insert_ne by congruence. rewrite <- (HR k2 d). split.
    + intros (i & e' & Hi & Ht & Hk & Hd). destruct (decide (i = f)) as [->|Hif].
      * rewrite linked_new in Hi. injection Hi as <-. cbn in Hk. congruence.
      * destruct (linked_entry_inv i e' Hif Hi) as (e & He & Hte & Hke & Hde).
        exists i, e. repeat split; congruence.
    + intros (i & e & Hi & Ht & Hk & Hd).
      assert (Hif : i <> f) by (intros ->; congruence).
      destruct (linked_entry i e Hif Hi) as (a & Ha & Hta & Hka & Hda & _).
      exists i, a. repeat split; congruence.
Qed.

End NewEntry.

(** *** [insert], [reserve] and [at] on the invariant *)

Lemma insert_entry_model m k v g :
  Core (m_HashEntries T m) (m_Capacity T m) ->
  count_taken T (m_HashEntries T m) < m_Capacity T m ->
  count_taken T (m_HashEntries T m) = m_Size T m ->
  Rel (m_HashEntries T m) g ->
  exists m',
    insert_entry T k v m = Some m' /\
    Core (m_HashEntries T m') (m_Capacity T m') /\
    Rel (m_HashEntries T m') (<[k := Some v]> g) /\
    m_Capacity T m' = m_Capacity T m /\
    m_Size T m <= m_Size T m' <= m_Size T m + 1 /\
    count_taken T (m_HashEntries T m') = m_Size T m' /\
    0 < m_Size T m'.
Proof.
  intros Hcore Hcount Hcs HR. pose proof Hcore as ((r & Hwf) & Hl & _).
  destruct (insert_entry_spec T r m k v Hwf Hcount ltac:(lia))
    as (r' & m' & Hins & Hwf' & Hcap & Hsz & Hc & Hlook & Hpos).
  rewrite found_lookup in Hlook.
  exists m'. split; [exact Hins|].
  destruct (insert_entry_shape r m k v Hwf Hcount)
    as (h & eh & Hh & Heh &
        [(j & ej & Hj & Hk & Hwhere & Hins')
        |(idx & eidx & f & ef & Hhit & Hchain & Hidx & Hend & Hf & Hfree & Hside & Hins')]);
    rewrite Hins in Hins'; injection Hins' as ->;
    cbn [m_HashEntries m_Capacity m_Size set_entries] in *.
  - assert (Ht : taken T ej = true).
    { destruct Hwhere as [[_ Ht]|[_ Hc']]; [exact Ht|].
      destruct (chain_found_target _ _ _ _ Hc') as (a & ea & Ha & Hn & Hni).
      destruct (Hl a ea Ha Hn) as (t & Ht & Htt). rewrite Hni in Ht. congruence. }
    split; [exact (overwrite_Core _ _ k v j ej Hcore Hj Hk Ht Hlook)|].
    split; [exact (overwrite_Rel _ _ k v j ej Hcore Hj Hk Ht g HR)|].
    repeat split; lia.
  - split; [exact (linked_Core _ _ k v h idx f eh eidx ef Hcore Hh Heh Hhit Hchain Hidx
                     Hend Hf Hfree Hside r' Hwf' Hlook)|].
    split; [exact (linked_Rel _ _ k v h idx f eh eidx ef Hcore Hh Heh Hhit Hchain Hidx
                     Hf Hfree Hside g HR)|].
    repeat split; lia.
Qed.

(** The map that the taken entries of a table make, read in order. *)
Definition fold_entries (temp : list (LvnHashEntry T)) (g : Z -> option T)
    : Z -> option T :=
  foldl (fun g e => if taken T e then <[key T e := Some (data T e)]> g else g) g temp.

Lemma Rel_ext es g g' : Rel es g -> (forall k, g k = g' k) -> Rel es g'.
Proof. intros HR He k d. rewrite <- He. apply HR. Qed.

Lemma rehash_model fuel temp : forall m g,
  Core (m_HashEntries T m) (m_Capacity T m) ->
  count_taken T (m_HashEntries T m) = m_Size T m ->
  (m_Size T m + length temp) * 10 <= m_Capacity T m * 7 ->
  0 < m_Capacity T m ->
  Rel (m_HashEntries T m) g ->
  exists m',
    rehash T (insert T T_default (S fuel)) temp m = Some m' /\
    Core (m_HashEntries T m') (m_Capacity T m') /\
    count_taken T (m_HashEntries T m') = m_Size T m' /\
    m_Capacity T m' = m_Capacity T m /\
    m_Size T m' <= m_Size T m + length temp /\
    Rel (m_HashEntries T m') (fold_entries temp g).
Proof.
  induction temp as [|e temp IH]; intros m g Hcore Hcs Hsize Hcap HR.
  - exists m. cbn [rehash fold_entries foldl length].
    split; [reflexivity|]. split; [exact Hcore|]. split; [exact Hcs|].
    split; [reflexivity|]. split; [lia|exact HR].
  - cbn [rehash length fold_entries foldl] in *. destruct (taken T e).
    + rewrite insert_no_rehash by lia.
      destruct (insert_entry_model m (key T e) (data T e) g Hcore ltac:(lia) Hcs HR)
        as (m1 & Hins & Hcore1 & HR1 & Hcap1 & Hsz1 & Hcs1 & _).
      rewrite Hins. cbn [mbind option_bind].
      destruct (IH m1 _ Hcore1 Hcs1 ltac:(lia) ltac:(lia) HR1)
        as (m' & Hre & Hcore' & Hcs' & Hcap' & Hsz' & HR').
      exists m'. split; [exact Hre|]. split; [exact Hcore'|]. split; [exact Hcs'|].
      split; [congruence|]. split; [lia|exact HR'].
    + cbn [mbind option_bind].
      destruct (IH m g Hcore Hcs ltac:(lia) Hcap HR)
        as (m' & Hre & Hcore' & Hcs' & Hcap' & Hsz' & HR').
      exists m'. split; [exact Hre|]. split; [exact Hcore'|]. split; [exact Hcs'|].
      split; [congruence|]. split; [lia|exact HR'].
Qed.

Lemma keys_distinct_app l e :
  keys_distinct (l ++ [e]) -> keys_distinct l.
Proof.
  intros H i j ei ej Hi Hj. apply (H i j ei ej); apply lookup_app_l_Some; assumption.
Qed.

Lemma holds_app l e k d :
  holds (l ++ [e]) k d <->
  holds l k d \/ (taken T e = true /\ key T e = k /\ data T e = d).
Proof.
  split.
  - intros (i & a & Hi & Ht & Hk & Hd).
    apply lookup_app_Some in Hi as [Hi|[Hlen Hi]].
    + left. exists i, a. auto.
    + right. destruct (i - length l) as [|n]; cbn in Hi;
        [|first [discriminate|rewrite lookup_nil in Hi; discriminate]].
      injection Hi as <-. auto.
  - intros [(i & a & Hi & Ht & Hk & Hd)|(Ht & Hk & Hd)].
    + exists i, a. split; [apply lookup_app_l_Some; exact Hi|auto].
    + exists (length l), e. split; [|auto].
      rewrite lookup_app_r by lia. rewrite Nat.sub_diag. reflexivity.
Qed.

Lemma fold_entries_holds l :
  keys_distinct l ->
  forall k d, fold_entries l (fun _ => None) k = Some d <-> holds l k d.
Proof.
  induction l as [|e l IH] using rev_ind; intros Hkd k d.
  - cbn. split; [discriminate|]. intros (i & a & Hi & _).
    rewrite lookup_nil in Hi. discriminate.
  - specialize (IH (keys_distinct_app l e Hkd)).
    unfold fold_entries in *. rewrite foldl_app. cbn [foldl].
    rewrite holds_app. destruct (taken T e) eqn:Ht.
    + destruct (decide (k = key T e)) as [->|Hne].
      * rewrite fn_lookup_insert. split.
        -- intros [= <-]. right. auto.
        -- intros [(i & a & Hi & Hta & Hka & Hda)|(_ & _ & <-)]; [|reflexivity].
           assert (i = length l).
           { apply (Hkd i (length l) a e); auto.
             - apply lookup_app_l_Some. exact Hi.
             - rewrite lookup_app_r by lia. rewrite Nat.sub_diag. reflexivity. }
           apply lookup_lt_Some in Hi. lia.
      * rewrite fn_lookup_insert_ne by congruence. rewrite IH. split; [auto|].
        intros [H|(_ & Hk & _)]; [exact H|congruence].
    + rewrite IH. split; [auto|]. intros [H|(Hc & _)]; [exact H|discriminate].
Qed.

Lemma fold_entries_Rel es g :
  keys_distinct es -> Rel es g -> forall k, fold_entries es (fun _ => None) k = g k.
Proof.
  intros Hkd HR k.
  destruct (g k) as [d|] eqn:Hg.
  - apply (fold_entries_holds es Hkd k d), HR. exact Hg.
  - destruct (fold_entries es (fun _ => None) k) as [d|] eqn:Hf; [|reflexivity].
    pose proof (proj1 (fold_entries_holds es Hkd k d) Hf) as Hh.
    apply HR in Hh. congruence.
Qed.

(** The invariant of the map. *)
Definition Good (m : LvnHashMap T) : Prop :=
  Core (m_HashEntries T m) (m_Capacity T m) /\
  count_taken T (m_HashEntries T m) = m_Size T m /\
  m_Size T m * 10 < m_Capacity T m * 7 + 10.

Lemma Core_fresh n : Core (replicate n (new_entry T T_default)) n.
Proof.
  split; [exists (fun _ => 0); apply wf_replicate|].
  split; [|split; [|split]].
  - intros i e Hi Hn. apply lookup_replicate in Hi as [-> _]. discriminate.
  - intros i e Hi Ht. apply lookup_replicate in Hi as [-> _]. discriminate.
  - intros i j ei ej Hi Hj Hti. apply lookup_replicate in Hi as [-> _]. discriminate.
  - intros i e Hi _. apply lookup_replicate in Hi as [-> _]. reflexivity.
Qed.

Lemma Rel_fresh n : Rel (replicate n (new_entry T T_default)) (fun _ => None).
Proof.
  intros k d. split; [|discriminate].
  intros (i & e & Hi & Ht & _). apply lookup_replicate in Hi as [-> _]. discriminate.
Qed.

Lemma Good_empty : Good (empty T).
Proof.
  split; [|split; [reflexivity|cbn; lia]].
  exact (Core_fresh 0).
Qed.

Lemma insert_model fuel k v m g :
  Good m -> Rel (m_HashEntries T m) g ->
  exists m',
    insert T T_default (S (S fuel)) k v m = Some m' /\
    Good m' /\ Rel (m_HashEntries T m') (<[k := Some v]> g) /\
    0 < m_Size T m'.
Proof.
  intros (Hcore & Hcs & Hload) HR. pose proof Hcore as ((r & Hwf) & _ & _ & Hkd & _).
  rewrite insert_S.
  destruct (Nat.leb_spec (m_Capacity T m * 7) (m_Size T m * 10)) as [Hfull|Hroom].
  - set (newcap := (if (m_Capacity T m =? 0)%nat then 8 else m_Capacity T m * 2)%nat).
    assert (Hnew : (m_Size T m < newcap /\ m_Capacity T m * 10 < newcap * 7 /\
                    0 < newcap)%nat).
    { unfold newcap. destruct (Nat.eqb_spec (m_Capacity T m) 0); lia. }
    clearbody newcap. destruct Hnew as (Hn1 & Hn2 & Hn3).
    unfold reserve_with.
    destruct (Nat.leb_spec newcap (m_Size T m)) as [|_]; [lia|].
    assert (Hlen : length (m_HashEntries T m) = m_Capacity T m) by apply Hwf.
    destruct (rehash_model fuel (m_HashEntries T m)
                {| m_HashEntries := replicate newcap (new_entry T T_default);
                   m_Size := 0; m_Capacity := newcap |} (fun _ => None))
      as (m1 & Hre & Hcore1 & Hcs1 & Hcap1 & Hsz1 & HR1).
    + exact (Core_fresh newcap).
    + cbn. apply count_taken_replicate.
    + cbn. lia.
    + cbn. lia.
    + exact (Rel_fresh newcap).
    + rewrite Hre. cbn [mbind option_bind]. cbn in Hcap1, Hsz1.
      pose proof (Rel_ext _ _ g HR1 (fold_entries_Rel _ g Hkd HR)) as HR1'.
      destruct (insert_entry_model m1 k v g Hcore1 ltac:(lia) Hcs1 HR1')
        as (m' & Hins & Hcore' & HR' & Hcap' & Hsz' & Hcs' & Hpos).
      exists m'. split; [exact Hins|]. split; [|split; assumption].
      split; [exact Hcore'|]. split; [exact Hcs'|lia].
  - cbn [mbind option_bind].
    destruct (insert_entry_model m k v g Hcore ltac:(lia) Hcs HR)
      as (m' & Hins & Hcore' & HR' & Hcap' & Hsz' & Hcs' & Hpos).
    exists m'. split; [exact Hins|]. split; [|split; assumption].
    split; [exact Hcore'|]. split; [exact Hcs'|lia].
Qed.

Lemma Good_capacity m g k d :
  Good m -> Rel (m_HashEntries T m) g -> g k = Some d ->
  0 < m_Size T m /\ 0 < m_Capacity T m.
Proof.
  intros (((r & Hwf) & _) & Hcs & _) HR Hg.
  apply HR in Hg as (i & e & Hi & Ht & _).
  pose proof (count_taken_pos T _ i e Hi Ht).
  pose proof (lookup_lt_Some _ _ _ Hi). destruct Hwf as (Hlen & _). lia.
Qed.

Lemma Good_size_capacity m : Good m -> 0 < m_Size T m -> 0 < m_Capacity T m.
Proof.
  intros (((r & Hwf) & _) & Hcs & _) Hs. destruct Hwf as (Hlen & _).
  pose proof (count_taken_le T (m_HashEntries T m)). lia.
Qed.

(** The value [at] returns, and the map it leaves. *)
Definition at_value (g : Z -> option T) (k : Z) : T := default T_default (g k).

Definition at_map (g : Z -> option T) (k : Z) : Z -> option T :=
  match g k with
  | Some _ => g
  | None => <[k := Some T_default]> g
  end.

Lemma at_model fuel k m g :
  Good m -> Rel (m_HashEntries T m) g ->
  exists m',
    at_key T T_default (S (S fuel)) k m = Some (at_value g k, m') /\
    Good m' /\ Rel (m_HashEntries T m') (at_map g k) /\
    (is_Some (g k) -> m' = m).
Proof.
  intros HG HR. rewrite at_key_S. unfold at_value, at_map.
  destruct (Nat.eqb_spec (m_Size T m) 0) as [Hz|Hnz].
  - assert (Hg : g k = None).
    { destruct (g k) as [d|] eqn:Hg; [|reflexivity].
      destruct (Good_capacity m g k d HG HR Hg). lia. }
    rewrite Hg. cbn [default].
    destruct (insert_model fuel k T_default m g HG HR) as (m1 & Hins & HG1 & HR1 & Hpos).
    rewrite Hins. cbn [mbind option_bind].
    pose proof (Good_size_capacity m1 HG1 Hpos) as Hc1.
    rewrite found_lookup, (found_Rel _ _ _ k (proj1 HG1) HR1 Hc1), fn_lookup_insert.
    cbn [mbind option_bind]. exists m1. split; [reflexivity|].
    split; [exact HG1|]. split; [exact HR1|]. intros [? ?]. discriminate.
  - cbn [mbind option_bind].
    pose proof (Good_size_capacity m HG ltac:(lia)) as Hc.
    rewrite found_lookup, (found_Rel _ _ _ k (proj1 HG) HR Hc).
    cbn [mbind option_bind]. destruct (g k) as [d|] eqn:Hg.
    + exists m. cbn [default]. split; [reflexivity|]. split; [exact HG|].
      split; [exact HR|]. intros _. reflexivity.
    + destruct (insert_model fuel k T_default m g HG HR) as (m2 & Hins & HG2 & HR2 & Hpos).
      rewrite Hins. cbn [mbind option_bind default].
      pose proof (Good_size_capacity m2 HG2 Hpos) as Hc2.
      rewrite (HashMapUse.at_key_found T T_default fuel k m2 T_default); [| |exact Hpos].
      * exists m2. split; [reflexivity|]. split; [exact HG2|]. split; [exact HR2|].
        intros [? ?]. discriminate.
      * rewrite found_lookup, (found_Rel _ _ _ k (proj1 HG2) HR2 Hc2), fn_lookup_insert.
        reflexivity.
Qed.

(** The sequences of [insert] and [at] calls, and the finite map they
    describe. *)
Definition no_erase (ops : list (MapOp T)) : bool :=
  forallb (fun op => match op with Erase _ _ => false | _ => true end) ops.

Definition spec_step (g : Z -> option T) (op : MapOp T) : Z -> option T :=
  match op with
  | Insert _ k v => <[k := Some v]> g
  | At _ k => at_map g k
  | Erase _ _ => g
  end.

Definition spec_run (ops : list (MapOp T)) (g : Z -> option T) : Z -> option T :=
  foldl spec_step g ops.

Lemma run_model fuel ops : forall m g,
  no_erase ops = true -> Good m -> Rel (m_HashEntries T m) g ->
  exists m',
    map_run T T_default (S (S fuel)) ops m = Some m' /\
    Good m' /\ Rel (m_HashEntries T m') (spec_run ops g).
Proof.
  induction ops as [|op ops IH]; intros m g Hno HG HR.
  - exists m. auto.
  - cbn [no_erase forallb] in Hno. apply andb_true_iff in Hno as [Hop Hno].
    cbn [map_run spec_run foldl]. destruct op as [k v|k|k]; [| discriminate |].
    + cbn [map_step].
      destruct (insert_model fuel k v m g HG HR) as (m1 & Hins & HG1 & HR1 & _).
      rewrite Hins. cbn [mbind option_bind]. exact (IH m1 _ Hno HG1 HR1).
    + cbn [map_step].
      destruct (at_model fuel k m g HG HR) as (m1 & Hat & HG1 & HR1 & _).
      rewrite Hat. cbn [fmap option_fmap option_map mbind option_bind snd].
      exact (IH m1 _ Hno HG1 HR1).
Qed.

Lemma contains_absent m g k :
  Good m -> Rel (m_HashEntries T m) g -> g k = None -> k <> 0%Z ->
  contains T k m = Some false.
Proof.
  intros HG HR Hg Hk0. unfold contains.
  destruct (Nat.eqb_spec (m_Size T m) 0) as [|Hnz]; [reflexivity|].
  pose proof (Good_size_capacity m HG ltac:(lia)) as Hc.
  pose proof (found_Rel _ _ _ k (proj1 HG) HR Hc) as Hf. rewrite Hg in Hf.
  destruct HG as ((_ & _ & _ & _ & Hfk) & _).
  revert Hf. unfold found, lookup_entry. cbn [m_HashEntries m_Capacity].
  destruct (home k (m_Capacity T m)) as [h|]; [|discriminate].
  cbn [mbind option_bind].
  destruct (m_HashEntries T m !! h) as [e|] eqn:He; [|discriminate].
  cbn [mbind option_bind].
  destruct (taken T e) eqn:Ht; cbn [andb].
  - rewrite (Z.eqb_sym k). destruct (key T e =? k)%Z; [discriminate|].
    destruct (find_in_chain T _ _ k h) as [[idx fnd]|]; [|discriminate].
    cbn [mbind option_bind]. destruct (m_HashEntries T m !! idx); [|discriminate].
    cbn [mbind option_bind]. destruct fnd; [discriminate|reflexivity].
  - rewrite (Hfk h e He Ht). destruct (Z.eqb_spec k 0) as [|_]; [contradiction|].
    destruct (find_in_chain T _ _ k h) as [[idx fnd]|]; [|discriminate].
    cbn [mbind option_bind]. destruct (m_HashEntries T m !! idx); [|discriminate].
    cbn [mbind option_bind]. destruct fnd; [discriminate|reflexivity].
Qed.

(** X23. Without [erase] the map is a finite map.  After every sequence
    of [insert] and [at] calls on an empty map, with [g] the finite map
    the calls describe (an [insert] binds the key to the value, an [at]
    binds a key that has no value to the default value): [at(k)] returns
    the value [g] has for [k] and leaves the map as it is, and
    [contains(k)] is true, for every key that [g] has; [at(k)] returns
    the default value for every other key, and [contains(k)] is false for
    it unless [k] is 0; and [size()] is the number of taken entries. *)
Theorem hash_map_finite_map fuel ops :
  no_erase ops = true ->
  exists m,
    map_run T T_default (S (S fuel)) ops (empty T) = Some m /\
    (forall k d, spec_run ops (fun _ => None) k = Some d ->
       at_key T T_default (S (S fuel)) k m = Some (d, m) /\
       contains T k m = Some true) /\
    (forall k, spec_run ops (fun _ => None) k = None ->
       (exists m', at_key T T_default (S (S fuel)) k m = Some (T_default, m')) /\
       (k <> 0%Z -> contains T k m = Some false)) /\
    m_Size T m = count_taken T (m_HashEntries T m).
Proof.
  intros Hno.
  destruct (run_model fuel ops (empty T) (fun _ => None) Hno Good_empty (Rel_fresh 0))
    as (m & Hrun & HG & HR).
  exists m. split; [exact Hrun|]. split; [|split].
  - intros k d Hg.
    destruct (Good_capacity m _ k d HG HR Hg) as (Hs & Hc).
    pose proof (found_Rel _ _ _ k (proj1 HG) HR Hc) as Hf. rewrite Hg in Hf.
    split.
    + exact (HashMapUse.at_key_found T T_default (S fuel) k m d Hf Hs).
    + exact (HashMapUse.lookup_contains T k m d Hf Hs).
  - intros k Hg. split.
    + destruct (at_model fuel k m _ HG HR) as (m' & Hat & _).
      unfold at_value in Hat. rewrite Hg in Hat. eauto.
    + intros Hk0. exact (contains_absent m _ k HG HR Hg Hk0).
  - symmetry. apply HG.
Qed.

End HashMapModel.

Definition demo_ops : list (MapOp Z) :=
  [Insert Z 1 10; Insert Z 2 20; At Z 3; Insert Z 1 11; Insert Z 9 90;
   Insert Z 17 170; Insert Z 25 250; At Z 2].

Lemma hash_map_finite_map_witness :
  exists m,
    map_run Z 0 2 demo_ops (empty Z) = Some m /\
    at_key Z 0 2 1 m = Some (11%Z, m) /\
    contains Z 3 m = Some true /\
    contains Z 7 m = Some false /\
    m_Size Z m = 6%nat.
Proof.
  destruct (hash_map_finite_map Z 0 0 demo_ops eq_refl) as (m & Hrun & Hin & Hout & Hs).
  exists m. split; [exact Hrun|].
  split; [apply (Hin 1%Z 11%Z); reflexivity|].
  split; [apply (Hin 3%Z 0%Z); reflexivity|].
  split; [apply (Hout 7%Z); [reflexivity|discriminate]|].
  vm_compute in Hrun. injection Hrun as <-. reflexivity.
Defined.

End HashMapModel.

(** ** [imageFlipVertically] *)

Module Image.

(** [uint32_t] arithmetic. *)
Definition wrap32 (z : Z) : Z := z mod 2 ^ 32.

(** [struct LvnImageData]; the pixels are the bytes of the buffer. *)
Record LvnImageData := {
  pixels : list Z;
  width : Z;
  height : Z;
  channels : Z;
  size : Z
}.

Definition set_pixels (img : LvnImageData) (data : list Z) : LvnImageData :=
  {| pixels := data; width := width img; height := height img;
     channels := channels img; size := size img |}.

(** The [n] bytes from offset [off]; [None] when they are not all in the
    buffer. *)
Definition read_bytes (d : list Z) (off n : nat) : option (list Z) :=
  if (off + n <=? length d)%nat then Some (take n (drop off d)) else None.

(** The buffer with the bytes [bs] from offset [off] on. *)
Definition write_bytes (d : list Z) (off : nat) (bs : list Z) : option (list Z) :=
  if (off + length bs <=? length d)%nat
  then Some (take off d ++ bs ++ drop (off + length bs) d)
  else None.

(** [for (i = lo; i < lo + n; i++) s = body(i, s)], for a body that can
    fail. *)
Fixpoint for_opt {S : Type} (lo n : nat) (body : nat -> S -> option S) (s : S)
    : option S :=
  match n with
  | O => Some s
  | Datatypes.S n' => s' ← body lo s; for_opt (Datatypes.S lo) n' body s'
  end.

(** The body of the loop of [imageFlipVertically]: the three [memcpy]
    calls, through [tempRow]. *)
Definition flip_rows (height rowSize : Z) (y : nat) (data : list Z)
    : option (list Z) :=
  let rowTop := Z.to_nat (wrap32 (Z.of_nat y * rowSize)) in
  let rowBottom :=
    Z.to_nat (wrap32 (wrap32 (wrap32 (height - Z.of_nat y) - 1) * rowSize)) in
  tempRow ← read_bytes data rowTop (Z.to_nat rowSize);
  bottom ← read_bytes data rowBottom (Z.to_nat rowSize);
  data1 ← write_bytes data rowTop bottom;
  write_bytes data1 rowBottom tempRow.

(** [void imageFlipVertically(LvnImageData& imageData)] *)
Definition imageFlipVertically (imageData : LvnImageData) : option LvnImageData :=
  let rowSize := wrap32 (width imageData * channels imageData) in
  data ← for_opt 0 (Z.to_nat (height imageData / 2))
            (flip_rows (height imageData) rowSize) (pixels imageData);
  Some (set_pixels imageData data).

(** The byte of channel [c] of the pixel in column [x] of row [y]. *)
Definition pixel (img : LvnImageData) (x y c : Z) : option Z :=
  pixels img !! Z.to_nat ((y * width img + x) * channels img + c).

(** An image whose buffer has the bytes of its pixels, below 2^32 of
    them. *)
Definition wf_image (img : LvnImageData) : Prop :=
  0 <= width img < 2 ^ 32 /\ 0 <= height img < 2 ^ 32 /\
  0 <= channels img < 2 ^ 32 /\
  width img * height img * channels img < 2 ^ 32 /\
  length (pixels img) = Z.to_nat (width img * height img * channels img).

Section Rows.

Local Open Scope nat_scope.

Lemma for_opt_ext {S} (body body' : nat -> S -> option S) n : forall lo s,
  (forall i s, lo <= i < lo + n -> body i s = body' i s) ->
  for_opt lo n body s = for_opt lo n body' s.
Proof.
  induction n as [|n IH]; intros lo s H; [reflexivity|].
  cbn [for_opt]. rewrite H by lia. destruct (body' lo s); [|reflexivity].
  cbn [mbind option_bind]. apply IH. intros i s' Hi. apply H. lia.
Qed.

Lemma for_opt_snoc {S} (body : nat -> S -> option S) n : forall lo s,
  for_opt lo (Datatypes.S n) body s = s' ← for_opt lo n body s; body (lo + n) s'.
Proof.
  induction n as [|n IH]; intros lo s.
  - cbn. rewrite Nat.add_0_r. destruct (body lo s); reflexivity.
  - cbn [for_opt] in *. destruct (body lo s) as [s1|]; [|reflexivity].
    cbn [mbind option_bind]. rewrite IH.
    replace (Datatypes.S lo + n) with (lo + Datatypes.S n) by lia. reflexivity.
Qed.

Lemma read_bytes_spec d off n :
  off + n <= length d ->
  exists bs, read_bytes d off n = Some bs /\ length bs = n /\
    forall q, q < n -> bs !! q = d !! (off + q).
Proof.
  intros H. unfold read_bytes. destruct (Nat.leb_spec (off + n) (length d)); [|lia].
  eexists. split; [reflexivity|]. split.
  - rewrite length_take, length_drop. lia.
  - intros q Hq. rewrite lookup_take_lt by exact Hq. apply lookup_drop.
Qed.

Lemma write_bytes_spec d off bs :
  off + length bs <= length d ->
  exists d', write_bytes d off bs = Some d' /\ length d' = length d /\
    forall p, d' !! p =
      if decide (off <= p < off + length bs) then bs !! (p - off) else d !! p.
Proof.
  intros H. unfold write_bytes.
  destruct (Nat.leb_spec (off + length bs) (length d)); [|lia].
  eexists. split; [reflexivity|]. split.
  - rewrite !length_app, length_take, length_drop. lia.
  - intros p. destruct (decide (off <= p < off + length bs)) as [Hp|Hp].
    + rewrite lookup_app_r by (rewrite length_take; lia).
      rewrite length_take, Nat.min_l by lia.
      apply lookup_app_l. lia.
    + destruct (decide (p < off)).
      * rewrite lookup_app_l by (rewrite length_take; lia).
        apply lookup_take_lt. lia.
      * rewrite lookup_app_r by (rewrite length_take; lia).
        rewrite length_take, Nat.min_l by lia.
        rewrite lookup_app_r by lia. rewrite lookup_drop. f_equal. lia.
Qed.

(** The rows as [memcpy] sees them, in [nat]. *)
Definition swap_rows (R H y : nat) (data : list Z) : option (list Z) :=
  tempRow ← read_bytes data (y * R) R;
  bottom ← read_bytes data ((H - 1 - y) * R) R;
  data1 ← write_bytes data (y * R) bottom;
  write_bytes data1 ((H - 1 - y) * R) tempRow.

Lemma row_block r q y R :
  q < R -> (y * R <= r * R + q < y * R + R <-> r = y).
Proof.
  intros Hq. split; [|intros ->; lia].
  intros [H1 H2]. destruct (Nat.lt_trichotomy r y) as [Hlt|[->|Hgt]]; [|reflexivity|].
  - assert ((r + 1) * R <= y * R) by (apply Nat.mul_le_mono_r; lia). lia.
  - assert ((y + 1) * R <= r * R) by (apply Nat.mul_le_mono_r; lia). lia.
Qed.

Lemma swap_rows_spec R H y d :
  y < H - 1 - y -> length d = H * R ->
  exists d', swap_rows R H y d = Some d' /\ length d' = H * R /\
    forall r q, r < H -> q < R ->
      d' !! (r * R + q) =
      d !! ((if decide (r = y) then H - 1 - y
             else if decide (r = H - 1 - y) then y else r) * R + q).
Proof.
  intros Hy Hlen. unfold swap_rows.
  assert (Htop : y * R + R <= length d).
  { rewrite Hlen. assert ((y + 1) * R <= H * R) by (apply Nat.mul_le_mono_r; lia). lia. }
  assert (Hbot : (H - 1 - y) * R + R <= length d).
  { rewrite Hlen.
    assert ((H - 1 - y + 1) * R <= H * R) by (apply Nat.mul_le_mono_r; lia). lia. }
  destruct (read_bytes_spec d (y * R) R Htop) as (tempRow & -> & Hlt & Ht).
  destruct (read_bytes_spec d ((H - 1 - y) * R) R Hbot) as (bottom & -> & Hlb & Hb).
  cbn [mbind option_bind].
  destruct (write_bytes_spec d (y * R) bottom ltac:(lia)) as (d1 & -> & Hl1 & H1).
  cbn [mbind option_bind].
  destruct (write_bytes_spec d1 ((H - 1 - y) * R) tempRow ltac:(lia))
    as (d2 & -> & Hl2 & H2).
  exists d2. split; [reflexivity|]. split; [lia|].
  intros r q Hr Hq. rewrite H2, Hlt.
  destruct (decide ((H - 1 - y) * R <= r * R + q < (H - 1 - y) * R + R)) as [Hin|Hout].
  - apply (row_block r q (H - 1 - y) R Hq) in Hin. subst r.
    destruct (decide (H - 1 - y = y)); [lia|].
    destruct (decide (H - 1 - y = H - 1 - y)); [|congruence].
    rewrite Ht by lia. f_equal. lia.
  - assert (Hne : r <> H - 1 - y).
    { intros E. apply Hout. apply (row_block r q (H - 1 - y) R Hq). exact E. }
    rewrite H1, Hlb.
    destruct (decide (y * R <= r * R + q < y * R + R)) as [Hin|Hout'].
    + apply (row_block r q y R Hq) in Hin. subst r.
      destruct (decide (y = y)); [|congruence].
      rewrite Hb by lia. f_equal. lia.
    + assert (Hne' : r <> y).
      { intros E. apply Hout'. apply (row_block r q y R Hq). exact E. }
      destruct (decide (r = y)); [contradiction|].
      destruct (decide (r = H - 1 - y)); [contradiction|]. reflexivity.
Qed.

(** After the first [n] steps of the loop the outer [n] rows at each end
    have changed places. *)
Lemma flip_loop R H d0 : length d0 = H * R ->
  forall n, n <= H / 2 ->
  exists d', for_opt 0 n (swap_rows R H) d0 = Some d' /\ length d' = H * R /\
    forall r q, r < H -> q < R ->
      d' !! (r * R + q) =
      d0 !! ((if decide (r < n \/ H - n <= r) then H - 1 - r else r) * R + q).
Proof.
  intros Hlen. induction n as [|n IH]; intros Hn.
  - exists d0. split; [reflexivity|]. split; [exact Hlen|].
    intros r q Hr Hq. destruct (decide (r < 0 \/ H - 0 <= r)); [lia|reflexivity].
  - destruct (IH ltac:(lia)) as (d1 & Hrun & Hl1 & H1).
    rewrite for_opt_snoc, Hrun. cbn [mbind option_bind Nat.add].
    assert (Hhalf : 2 * (H / 2) <= H) by (apply Nat.Div0.mul_div_le).
    destruct (swap_rows_spec R H n d1 ltac:(lia) Hl1) as (d2 & -> & Hl2 & H2).
    exists d2. split; [reflexivity|]. split; [exact Hl2|].
    intros r q Hr Hq. rewrite H2 by assumption.
    destruct (decide (r = n)) as [->|Hrn].
    + rewrite H1 by lia.
      destruct (decide (H - 1 - n < n \/ H - n <= H - 1 - n)); [lia|].
      destruct (decide (n < Datatypes.S n \/ H - Datatypes.S n <= n)); [reflexivity|lia].
    + destruct (decide (r = H - 1 - n)) as [->|Hrb].
      * rewrite H1 by lia.
        destruct (decide (n < n \/ H - n <= n)); [lia|].
        destruct (decide (H - 1 - n < Datatypes.S n \/
                          H - Datatypes.S n <= H - 1 - n)); [|lia].
        replace (H - 1 - (H - 1 - n)) with n by lia. reflexivity.
      * rewrite H1 by assumption.
        destruct (decide (r < n \/ H - n <= r));
          destruct (decide (r < Datatypes.S n \/ H - Datatypes.S n <= r));
          try reflexivity; lia.
Qed.

Lemma full_flip R H d0 : length d0 = H * R ->
  exists d', for_opt 0 (H / 2) (swap_rows R H) d0 = Some d' /\ length d' = H * R /\
    forall r q, r < H -> q < R -> d' !! (r * R + q) = d0 !! ((H - 1 - r) * R + q).
Proof.
  intros Hlen. destruct (flip_loop R H d0 Hlen (H / 2) (le_n _)) as (d' & Hrun & Hl & Hd).
  exists d'. split; [exact Hrun|]. split; [exact Hl|].
  intros r q Hr Hq. rewrite Hd by assumption.
  destruct (decide (r < H / 2 \/ H - H / 2 <= r)) as [|Hmid]; [reflexivity|].
  pose proof (Nat.div_mod_eq H 2) as E.
  pose proof (Nat.mod_upper_bound H 2 ltac:(lia)).
  replace (H - 1 - r) with r by lia. reflexivity.
Qed.

Lemma flip_twice R H d0 d1 d2 : length d0 = H * R ->
  for_opt 0 (H / 2) (swap_rows R H) d0 = Some d1 ->
  for_opt 0 (H / 2) (swap_rows R H) d1 = Some d2 ->
  d2 = d0.
Proof.
  intros Hlen H1 H2.
  destruct (full_flip R H d0 Hlen) as (d1' & H1' & Hl1 & Hd1).
  assert (d1' = d1) as -> by congruence.
  destruct (full_flip R H d1 Hl1) as (d2' & H2' & Hl2 & Hd2).
  assert (d2' = d2) as -> by congruence.
  apply list_eq. intros p. destruct (decide (p < H * R)) as [Hp|Hp].
  - assert (HR : 0 < R) by (destruct R; [lia|lia]).
    pose proof (Nat.div_mod_eq p R) as E.
    pose proof (Nat.mod_upper_bound p R ltac:(lia)) as Hq.
    assert (Hr : p / R < H).
    { apply Nat.Div0.div_lt_upper_bound. lia. }
    rewrite E, (Nat.mul_comm R). rewrite Hd2, Hd1 by lia.
    replace (H - 1 - (H - 1 - p / R)) with (p / R) by lia. reflexivity.
  - rewrite !lookup_ge_None_2 by lia. reflexivity.
Qed.

End Rows.

Lemma wrap32_small z : 0 <= z < 2 ^ 32 -> wrap32 z = z.
Proof. intros H. apply Z.mod_small. exact H. Qed.

(** On an image with at least two rows, the body of the loop is the
    exchange of two rows. *)
Lemma flip_rows_swap img y data :
  wf_image img -> (y < Z.to_nat (height img / 2))%nat ->
  flip_rows (height img) (wrap32 (width img * channels img)) y data =
  swap_rows (Z.to_nat (width img * channels img)) (Z.to_nat (height img)) y data.
Proof.
  intros ((Hw & Hw') & (Hh & Hh') & (Hc & Hc') & Hsize & Hlen) Hy.
  assert (Hy' : 2 * Z.of_nat y + 1 < height img).
  { pose proof (Z.div_mod (height img) 2 ltac:(lia)).
    pose proof (Z.mod_pos_bound (height img) 2 ltac:(lia)). lia. }
  assert (Hrow : 0 <= width img * channels img).
  { apply Z.mul_nonneg_nonneg; lia. }
  assert (Hrows : forall a, 0 <= a < height img ->
            0 <= a * (width img * channels img) < 2 ^ 32).
  { intros a Ha. split; [apply Z.mul_nonneg_nonneg; lia|].
    apply Z.le_lt_trans with (height img * (width img * channels img)); [|lia].
    apply Z.mul_le_mono_nonneg_r; lia. }
  assert (Hrs : wrap32 (width img * channels img) = width img * channels img).
  { apply wrap32_small. pose proof (Hrows 1 ltac:(lia)). lia. }
  unfold flip_rows, swap_rows. rewrite Hrs.
  rewrite (wrap32_small (Z.of_nat y * _)) by (apply Hrows; lia).
  rewrite (wrap32_small (height img - Z.of_nat y)) by lia.
  rewrite (wrap32_small (height img - Z.of_nat y - 1)) by lia.
  rewrite (wrap32_small ((height img - Z.of_nat y - 1) * _)) by (apply Hrows; lia).
  rewrite !Z2Nat.inj_mul by lia. rewrite Nat2Z.id.
  replace (Z.to_nat (height img - Z.of_nat y - 1))
    with (Z.to_nat (height img) - 1 - y)%nat by lia.
  reflexivity.
Qed.

Lemma index_nat x y c w ch :
  0 <= x -> 0 <= y -> 0 <= c -> 0 <= w -> 0 <= ch ->
  Z.to_nat ((y * w + x) * ch + c) =
    (Z.to_nat y * (Z.to_nat w * Z.to_nat ch)
     + (Z.to_nat x * Z.to_nat ch + Z.to_nat c))%nat.
Proof.
  intros Hx Hy Hc Hw Hch.
  assert (0 <= y * w) by (apply Z.mul_nonneg_nonneg; lia).
  assert (0 <= (y * w + x) * ch) by (apply Z.mul_nonneg_nonneg; lia).
  rewrite Z2Nat.inj_add, Z2Nat.inj_mul, Z2Nat.inj_add, Z2Nat.inj_mul by lia.
  lia.
Qed.

(** X24. On an image whose buffer holds the bytes of its pixels, fewer
    than 2^32 of them, [imageFlipVertically] returns without a read or
    write outside the buffer; the width, height and channels stay; every
    pixel of row [y] is the pixel that was in the same column of row
    [height - 1 - y]; and a second call gives the first image back. *)
Theorem imageFlipVertically_flips img :
  wf_image img ->
  exists img',
    imageFlipVertically img = Some img' /\
    width img' = width img /\ height img' = height img /\
    channels img' = channels img /\ wf_image img' /\
    (forall x y c,
       0 <= x < width img -> 0 <= y < height img -> 0 <= c < channels img ->
       pixel img' x y c = pixel img x (height img - 1 - y) c) /\
    imageFlipVertically img' = Some img.
Proof.
  intros Hwf. pose proof Hwf as ((Hw & Hw') & (Hh & Hh') & (Hc & Hc') & Hsize & Hlen).
  set (R := Z.to_nat (width img * channels img)).
  set (H := Z.to_nat (height img)).
  assert (Hrow : 0 <= width img * channels img) by (apply Z.mul_nonneg_nonneg; lia).
  assert (HL : length (pixels img) = (H * R)%nat).
  { rewrite Hlen. unfold H, R. rewrite <- Z2Nat.inj_mul by lia. f_equal. lia. }
  assert (Hhalf : Z.to_nat (height img / 2) = (H / 2)%nat).
  { unfold H. rewrite Z2Nat.inj_div by lia. reflexivity. }
  assert (Hloop : forall d,
    for_opt 0 (Z.to_nat (height img / 2))
      (flip_rows (height img) (wrap32 (width img * channels img))) d
    = for_opt 0 (H / 2) (swap_rows R H) d).
  { intros d. rewrite <- Hhalf. apply for_opt_ext. intros i s Hi.
    apply flip_rows_swap; [exact Hwf|lia]. }
  destruct (full_flip R H (pixels img) HL) as (d1 & Hrun1 & Hl1 & Hd1).
  destruct (full_flip R H d1 Hl1) as (d2 & Hrun2 & Hl2 & Hd2).
  exists (set_pixels img d1).
  unfold imageFlipVertically. rewrite Hloop, Hrun1. cbn [mbind option_bind].
  split; [reflexivity|]. split; [reflexivity|]. split; [reflexivity|].
  split; [reflexivity|]. split; [|split].
  - unfold wf_image. cbn [set_pixels pixels width height channels].
    repeat split; try assumption. lia.
  - intros x y c Hx Hy Hcc. unfold pixel. cbn [set_pixels pixels width channels].
    rewrite !index_nat by lia.
    assert (HR : R = (Z.to_nat (width img) * Z.to_nat (channels img))%nat).
    { unfold R. apply Z2Nat.inj_mul; lia. }
    rewrite <- HR.
    assert (Hq : (Z.to_nat x * Z.to_nat (channels img) + Z.to_nat c < R)%nat).
    { rewrite HR.
      assert ((Z.to_nat x + 1) * Z.to_nat (channels img)
              <= Z.to_nat (width img) * Z.to_nat (channels img))%nat
        by (apply Nat.mul_le_mono_r; lia).
      lia. }
    rewrite Hd1 by (unfold H; lia).
    replace (Z.to_nat (height img - 1 - y)) with (H - 1 - Z.to_nat y)%nat
      by (unfold H; lia).
    reflexivity.
  - cbn [set_pixels pixels width height channels]. rewrite Hloop, Hrun2.
    cbn [mbind option_bind]. rewrite (flip_twice R H (pixels img) d1 d2 HL Hrun1 Hrun2).
    destruct img; reflexivity.
Qed.

(** An image of two columns and three rows, with two channels. *)
Definition demo_image : LvnImageData :=
  {| pixels := [11; 12; 13; 14; 21; 22; 23; 24; 31; 32; 33; 34];
     width := 2; height := 3; channels := 2; size := 12 |}.

Lemma imageFlipVertically_flips_witness :
  imageFlipVertically demo_image =
    Some (set_pixels demo_image [31; 32; 33; 34; 21; 22; 23; 24; 11; 12; 13; 14]) /\
  exists img',
    imageFlipVertically demo_image = Some img' /\
    width img' = width demo_image /\ height img' = height demo_image /\
    channels img' = channels demo_image /\ wf_image img' /\
    (forall x y c,
       0 <= x < width demo_image -> 0 <= y < height demo_image ->
       0 <= c < channels demo_image ->
       pixel img' x y c = pixel demo_image x (height demo_image - 1 - y) c) /\
    imageFlipVertically img' = Some demo_image.
Proof.
  split; [vm_compute; reflexivity|].
  apply (imageFlipVertically_flips demo_image).
  unfold wf_image. cbn. repeat split; lia.
Defined.

End Image.

(** * [LvnArenaList]: the copy of a list *)

Module ArenaListCopy.

Import ArenaList.

Section ArenaListCopy.

Variable T : Type.
Variable fresh_node : nat -> LvnLinkedIndexNode T.

Local Open Scope nat_scope.

(** [memNew<X>(n, false)] and the loop
    [for (i = 0; i < n; i++) new (&dst[i]) X(src[i])]: an array of [n]
    elements, each a copy of the one of [src] at its index.  A read past
    the end of [src] has no result. *)
Definition copy_array {X : Type} (n : nat) (src : list X) : option (list X) :=
  mapM (fun i => src !! i) (seq 0 n).

(** [LvnArenaList(const LvnArenaList<T>& other)]; the body of
    [operator=(const LvnArenaList<T>&)] after it has released the old
    arrays is the same.  The node array gets [other.m_Capacity] nodes, the
    free-index array [other.m_FreeSize] indices. *)
Definition copy (other : LvnArenaList T) : option (LvnArenaList T) :=
  nodes ← copy_array (m_Capacity T other) (m_Nodes T other);
  free ← copy_array (m_FreeSize T other) (m_FreeNodes T other);
  Some {| m_Nodes := nodes; m_FreeNodes := free;
          m_Size := m_Size T other; m_Capacity := m_Capacity T other;
          m_FreeSize := m_FreeSize T other;
          m_FreeCapacity := m_FreeCapacity T other;
          m_Head := m_Head T other; m_Tail := m_Tail T other |}.

Lemma copy_array_from {X : Type} (src : list X) n : forall lo,
  lo + n <= length src ->
  mapM (fun i => src !! i) (seq lo n) = Some (take n (drop lo src)).
Proof.
  induction n as [|n IH]; intros lo Hlen.
  - reflexivity.
  - cbn [seq mapM]. destruct (lookup_lt_is_Some_2 src lo ltac:(lia)) as (x & Hx).
    rewrite Hx. cbn. rewrite (IH (S lo)) by lia. cbn.
    rewrite (drop_S src x lo Hx). reflexivity.
Qed.

Lemma copy_array_take {X : Type} (src : list X) n :
  n <= length src -> copy_array n src = Some (take n src).
Proof.
  intros Hlen. unfold copy_array. rewrite (copy_array_from src n 0) by lia.
  reflexivity.
Qed.

Lemma copy_Inv l cells : Inv T l cells ->
  copy l = Some {| m_Nodes := m_Nodes T l;
                   m_FreeNodes := take (m_FreeSize T l) (m_FreeNodes T l);
                   m_Size := m_Size T l; m_Capacity := m_Capacity T l;
                   m_FreeSize := m_FreeSize T l;
                   m_FreeCapacity := m_FreeCapacity T l;
                   m_Head := m_Head T l; m_Tail := m_Tail T l |}.
Proof.
  intros HI. unfold copy.
  pose proof (inv_nodes T l cells HI) as Hn.
  pose proof (inv_free_len T l cells HI) as Hf.
  pose proof (inv_room T l cells HI) as Hr.
  rewrite (copy_array_take (m_Nodes T l)) by lia. cbn.
  rewrite (copy_array_take (m_FreeNodes T l)) by lia. cbn.
  rewrite <- Hn, firstn_all. reflexivity.
Qed.

Lemma push_free_short index (c : LvnArenaList T) :
  length (m_FreeNodes T c) = m_FreeSize T c -> push_free T index c = None.
Proof.
  intros Hlen. unfold push_free.
  destruct (negb (m_FreeSize T c <? m_FreeCapacity T c)); [reflexivity|].
  rewrite (lookup_ge_None_2 (m_FreeNodes T c) (m_FreeSize T c)) by lia.
  reflexivity.
Qed.

Lemma removal_short (c : LvnArenaList T) :
  length (m_FreeNodes T c) = m_FreeSize T c -> 2 <= m_Size T c ->
  pop_back T c = None /\ pop_front T c = None /\
  forall k, erase_index T k c = None.
Proof.
  intros Hlen Hsize.
  assert (Hb : pop_back T c = None).
  { unfold pop_back.
    destruct (m_Size T c =? 0) eqn:E0; [apply Nat.eqb_eq in E0; lia|].
    destruct (m_Size T c =? 1) eqn:E1; [apply Nat.eqb_eq in E1; lia|].
    rewrite (push_free_short _ c Hlen). reflexivity. }
  assert (Hf : pop_front T c = None).
  { unfold pop_front.
    destruct (m_Size T c =? 0) eqn:E0; [apply Nat.eqb_eq in E0; lia|].
    destruct (m_Size T c =? 1) eqn:E1; [apply Nat.eqb_eq in E1; lia|].
    rewrite (push_free_short _ c Hlen). reflexivity. }
  split; [assumption|]. split; [assumption|].
  intros k. unfold erase_index.
  destruct (negb (k <? m_Size T c)); [reflexivity|].
  destruct (k =? 0); [assumption|].
  destruct (k =? m_Size T c - 1); [assumption|].
  destruct (node_index T k c) as [i|]; [|reflexivity]. cbn.
  destruct (m_Nodes T c !! i) as [node|]; [|reflexivity]. cbn.
  destruct (if hasNext T node
            then upd T (next T node) (set_prev_index T (prev T node)) (m_Nodes T c)
            else Some (m_Nodes T c)) as [nodes1|]; [|reflexivity]. cbn.
  destruct (if hasPrev T node
            then upd T (prev T node) (set_next_index T (next T node)) nodes1
            else Some nodes1) as [nodes2|]; [|reflexivity]. cbn.
  rewrite (push_free_short _ c Hlen). reflexivity.
Qed.

Hypothesis fresh_clean : forall i,
  taken T (fresh_node i) = false /\
  hasPrev T (fresh_node i) = false /\ hasNext T (fresh_node i) = false.

(** X25. The copy of a list that supported operations built holds the
    same elements in the same order, and its free-index array has
    [m_FreeSize] slots while [m_FreeCapacity] says [m_Capacity].  So on a
    copy of two or more elements the assertion of [pop_back], [pop_front]
    and [erase_index] before the write [m_FreeNodes[m_FreeSize]] passes,
    and the write is past the end of the array. *)
Theorem copy_then_remove ops :
  run_ok T fresh_node ops (empty T) = true ->
  exists l c,
    list_run T fresh_node ops (empty T) = Some l /\
    copy l = Some c /\
    (forall k, at_index T k c = model_run T ops [] !! k) /\
    m_Size T c = length (model_run T ops []) /\
    length (m_FreeNodes T c) = m_FreeSize T c /\
    (2 <= length (model_run T ops []) ->
       m_FreeSize T c < m_FreeCapacity T c /\
       m_FreeNodes T c !! m_FreeSize T c = None /\
       pop_back T c = None /\ pop_front T c = None /\
       forall k, erase_index T k c = None).
Proof.
  intros Hok.
  destruct (list_run_Inv T fresh_node fresh_clean ops (empty T) []
              (Inv_empty_list T) Hok) as (l & cells & Hl & HI & Hv).
  change (cells.*2 = model_run T ops []) in Hv.
  eexists l, _. split; [assumption|]. split; [apply (copy_Inv l cells HI)|].
  pose proof (ArenaListAccess.Inv_access T l cells HI) as (Hat & _ & _ & Hsz).
  pose proof (inv_free_len T l cells HI) as Hf.
  pose proof (inv_room T l cells HI) as Hr.
  assert (Hlen : length (take (m_FreeSize T l) (m_FreeNodes T l)) = m_FreeSize T l)
    by (rewrite length_take; lia).
  rewrite <- Hv. split; [|split; [|split]].
  - intros k. rewrite <- Hat. reflexivity.
  - exact Hsz.
  - exact Hlen.
  - intros H2. cbn [m_FreeSize m_FreeCapacity m_FreeNodes].
    split; [|split].
    + rewrite (inv_free_cap T l cells HI). apply (inv_room0 T l cells HI). lia.
    + apply lookup_ge_None_2. lia.
    + apply removal_short; [exact Hlen|]. cbn [m_Size]. lia.
Qed.

End ArenaListCopy.

Lemma copy_then_remove_witness :
  run_ok Z zero_storage all_operations (empty Z) = true /\
  exists l c,
    list_run Z zero_storage all_operations (empty Z) = Some l /\
    copy Z l = Some c /\
    (forall k, at_index Z k c = model_run Z all_operations [] !! k) /\
    m_Size Z c = length (model_run Z all_operations []) /\
    length (m_FreeNodes Z c) = m_FreeSize Z c /\
    ((2 <= length (model_run Z all_operations []))%nat ->
       (m_FreeSize Z c < m_FreeCapacity Z c)%nat /\
       m_FreeNodes Z c !! m_FreeSize Z c = None /\
       pop_back Z c = None /\ pop_front Z c = None /\
       forall k, erase_index Z k c = None).
Proof.
  split; [vm_compute; reflexivity|].
  apply (copy_then_remove Z zero_storage).
  - intros i. repeat split.
  - vm_compute. reflexivity.
Defined.

End ArenaListCopy.

(** ** [imageGenWhiteNoise], [imageGenGrayScaleNoise] *)

Module ImageNoise.

Import Image.

Section ImageNoise.

(** [rand()]: the value of its [n]-th call after [srand(seed)], between 0
    and [RAND_MAX]. *)
Variable rand : Z -> nat -> Z.
Hypothesis rand_nonneg : forall seed n, 0 <= rand seed n.

(** [imgBuff[i] = v], the value converted to [uint8_t]; [None] for a write
    outside the buffer. *)
Definition store (imgBuff : list Z) (i : Z) (v : Z) : option (list Z) :=
  if (Z.to_nat i <? length imgBuff)%nat
  then Some (<[Z.to_nat i := v mod 2 ^ 8]> imgBuff)
  else None.

(** [y * width * channels + x * channels + c] in [uint32_t]. *)
Definition offset (width channels : Z) (y x c : nat) : Z :=
  wrap32 (wrap32 (wrap32 (wrap32 (Z.of_nat y * width) * channels)
                  + wrap32 (Z.of_nat x * channels))
          + Z.of_nat c).

(** [LvnImageData imageGenWhiteNoise(uint32_t width, uint32_t height,
    uint32_t channels, uint32_t seed)].  [LVN_MALLOC] returns zeroed
    bytes, none for the size 0, and ends the program when the allocator
    fails, which is left out; the second component of the state of the
    loops counts the calls of [rand()]. *)
Definition imageGenWhiteNoise (width height channels seed : Z)
    : option LvnImageData :=
  if negb ((0 <? channels) && (channels <=? 4)) then None
  else
    let imgSize := wrap32 (wrap32 (width * height) * channels) in
    let imgBuff := replicate (Z.to_nat imgSize) 0 in
    '(imgBuff, _) ←
      for_opt 0 (Z.to_nat height) (fun y =>
        for_opt 0 (Z.to_nat width) (fun x '(imgBuff, calls) =>
          let rn := Z.rem (rand seed calls) 2 in
          imgBuff ← for_opt 0 (Z.to_nat channels) (fun c imgBuff =>
                      store imgBuff (offset width channels y x c)
                        (if Z.of_nat c =? 3 then 255
                         else if rn =? 0 then 0 else 255))
                    imgBuff;
          Some (imgBuff, S calls)))
        (imgBuff, 0%nat);
    Some {| pixels := take (Z.to_nat imgSize) imgBuff;
            width := width; height := height; channels := channels;
            size := wrap32 (wrap32 (width * height) * channels) |}.

(** [LvnImageData imageGenGrayScaleNoise(uint32_t width, uint32_t height,
    uint32_t channels, uint32_t seed)] *)
Definition imageGenGrayScaleNoise (width height channels seed : Z)
    : option LvnImageData :=
  if negb ((0 <? channels) && (channels <=? 4)) then None
  else
    let imgSize := wrap32 (wrap32 (width * height) * channels) in
    let imgBuff := replicate (Z.to_nat imgSize) 0 in
    '(imgBuff, _) ←
      for_opt 0 (Z.to_nat height) (fun y =>
        for_opt 0 (Z.to_nat width) (fun x '(imgBuff, calls) =>
          let rn := Z.rem (rand seed calls) 256 in
          imgBuff ← for_opt 0 (Z.to_nat channels) (fun c imgBuff =>
                      store imgBuff (offset width channels y x c)
                        (if Z.of_nat c =? 3 then 255 else rn))
                    imgBuff;
          Some (imgBuff, S calls)))
        (imgBuff, 0%nat);
    Some {| pixels := take (Z.to_nat imgSize) imgBuff;
            width := width; height := height; channels := channels;
            size := wrap32 (wrap32 (width * height) * channels) |}.

(** *** The three loops *)

(** The loops with the value of a colour channel as [shade] of the
    random number modulo [modulus]. *)
Definition noise_loops (modulus : Z) (shade : Z -> Z)
    (width height channels seed : Z) (imgBuff : list Z)
    : option (list Z * nat) :=
  for_opt 0 (Z.to_nat height) (fun y =>
    for_opt 0 (Z.to_nat width) (fun x '(imgBuff, calls) =>
      let rn := Z.rem (rand seed calls) modulus in
      imgBuff ← for_opt 0 (Z.to_nat channels) (fun c imgBuff =>
                  store imgBuff (offset width channels y x c)
                    (if Z.of_nat c =? 3 then 255 else shade rn))
                imgBuff;
      Some (imgBuff, S calls)))
    (imgBuff, 0%nat).

(** The byte the loops leave at position [p] of the buffer. *)
Definition noise_byte (modulus : Z) (shade : Z -> Z) (seed : Z) (C p : nat) : Z :=
  (if Z.of_nat (p mod C) =? 3 then 255
   else shade (Z.rem (rand seed (p / C)) modulus)) mod 2 ^ 8.

Lemma for_opt_inv {S} (P : nat -> S -> Prop) (body : nat -> S -> option S) n :
  forall lo s,
  P lo s ->
  (forall i s, (lo <= i < lo + n)%nat -> P i s ->
     exists s', body i s = Some s' /\ P (Datatypes.S i) s') ->
  exists s', for_opt lo n body s = Some s' /\ P (lo + n)%nat s'.
Proof.
  induction n as [|n IH]; intros lo s HP Hstep.
  - exists s. rewrite Nat.add_0_r. auto.
  - cbn [for_opt]. destruct (Hstep lo s ltac:(lia) HP) as (s1 & -> & HP1).
    cbn [mbind option_bind].
    destruct (IH (Datatypes.S lo) s1 HP1) as (s' & Hs' & HP').
    { intros i s2 Hi. apply Hstep. lia. }
    exists s'. split; [exact Hs'|].
    replace (lo + Datatypes.S n)%nat with (Datatypes.S lo + n)%nat by lia. exact HP'.
Qed.

Lemma offset_nat w h ch y x c :
  0 <= w -> 0 <= h -> 0 < ch -> w * h * ch < 2 ^ 32 ->
  (y < Z.to_nat h)%nat -> (x < Z.to_nat w)%nat -> (c < Z.to_nat ch)%nat ->
  Z.to_nat (offset w ch y x c) = ((y * Z.to_nat w + x) * Z.to_nat ch + c)%nat /\
  ((y * Z.to_nat w + x) * Z.to_nat ch + c < Z.to_nat (w * h * ch))%nat.
Proof.
  intros Hw Hh Hch Hsz Hy Hx Hc.
  assert (Hy' : 0 <= Z.of_nat y <= h - 1) by lia.
  assert (Hx' : 0 <= Z.of_nat x <= w - 1) by lia.
  assert (Hc' : 0 <= Z.of_nat c <= ch - 1) by lia.
  assert (H1 : 0 <= Z.of_nat y * w) by (apply Z.mul_nonneg_nonneg; lia).
  assert (H2 : Z.of_nat y * w <= (h - 1) * w) by (apply Z.mul_le_mono_nonneg_r; lia).
  assert (H3 : 0 <= Z.of_nat x * ch) by (apply Z.mul_nonneg_nonneg; lia).
  assert (H4 : Z.of_nat x * ch <= (w - 1) * ch) by (apply Z.mul_le_mono_nonneg_r; lia).
  assert (H5 : 0 <= Z.of_nat y * w * ch) by (apply Z.mul_nonneg_nonneg; lia).
  assert (H6 : Z.of_nat y * w * ch <= (h - 1) * w * ch)
    by (apply Z.mul_le_mono_nonneg_r; lia).
  assert (H7 : (h - 1) * w * ch + (w - 1) * ch + (ch - 1) = w * h * ch - 1) by ring.
  assert (H8 : 0 <= (w - 1) * ch) by (apply Z.mul_nonneg_nonneg; lia).
  assert (H9 : 0 <= (h - 1) * w * ch)
    by (apply Z.mul_nonneg_nonneg; [apply Z.mul_nonneg_nonneg|]; lia).
  assert (Hval : offset w ch y x c =
                 Z.of_nat y * w * ch + Z.of_nat x * ch + Z.of_nat c).
  { unfold offset.
    rewrite (wrap32_small (Z.of_nat y * w)) by lia.
    rewrite (wrap32_small (Z.of_nat y * w * ch)) by lia.
    rewrite (wrap32_small (Z.of_nat x * ch)) by lia.
    rewrite (wrap32_small (Z.of_nat y * w * ch + Z.of_nat x * ch)) by lia.
    apply wrap32_small. lia. }
  assert (Hnat : Z.of_nat ((y * Z.to_nat w + x) * Z.to_nat ch + c) =
                 Z.of_nat y * w * ch + Z.of_nat x * ch + Z.of_nat c).
  { rewrite Nat2Z.inj_add, Nat2Z.inj_mul, Nat2Z.inj_add, Nat2Z.inj_mul.
    rewrite !Z2Nat.id by lia. ring. }
  split.
  - rewrite Hval, <- Hnat. apply Nat2Z.id.
  - apply Nat2Z.inj_lt. rewrite Hnat, Z2Nat.id by lia. lia.
Qed.

Lemma pixel_position (C n c : nat) :
  (c < C)%nat -> ((n * C + c) / C = n /\ (n * C + c) mod C = c)%nat.
Proof.
  intros Hc. split.
  - rewrite Nat.add_comm, Nat.div_add by lia. rewrite Nat.div_small by lia. reflexivity.
  - rewrite Nat.add_comm, Nat.Div0.mod_add. apply Nat.mod_small. exact Hc.
Qed.

Section Loops.

Variables (modulus : Z) (shade : Z -> Z) (w h ch seed : Z).
Hypothesis Hw : 0 <= w.
Hypothesis Hh : 0 <= h.
Hypothesis Hch : 0 < ch.
Hypothesis Hsz : w * h * ch < 2 ^ 32.

Local Open Scope nat_scope.

(** The buffer after the pixels before the [n]-th. *)
Definition filled (n : nat) (st : list Z * nat) : Prop :=
  length st.1 = Z.to_nat (w * h * ch) /\ st.2 = n /\
  forall p, p < n * Z.to_nat ch ->
    st.1 !! p = Some (noise_byte modulus shade seed (Z.to_nat ch) p).

Lemma channel_loop y x buf :
  y < Z.to_nat h -> x < Z.to_nat w ->
  filled (y * Z.to_nat w + x) (buf, y * Z.to_nat w + x) ->
  exists buf',
    for_opt 0 (Z.to_nat ch) (fun c imgBuff =>
      store imgBuff (offset w ch y x c)
        (if (Z.of_nat c =? 3)%Z then 255%Z
         else shade (Z.rem (rand seed (y * Z.to_nat w + x)) modulus))) buf
      = Some buf' /\
    filled (S (y * Z.to_nat w + x)) (buf', S (y * Z.to_nat w + x)).
Proof.
  intros Hy Hx (Hlen & _ & Hfill). cbn [fst snd] in *.
  set (n := y * Z.to_nat w + x) in *.
  destruct (for_opt_inv
              (fun c b => length b = Z.to_nat (w * h * ch) /\
                 forall p, p < n * Z.to_nat ch + c ->
                   b !! p = Some (noise_byte modulus shade seed (Z.to_nat ch) p))
              (fun c imgBuff =>
                 store imgBuff (offset w ch y x c)
                   (if (Z.of_nat c =? 3)%Z then 255%Z
                    else shade (Z.rem (rand seed n) modulus)))
              (Z.to_nat ch) 0 buf) as (buf' & Hrun & Hlen' & Hfill').
  - split; [exact Hlen|]. intros p Hp. apply Hfill. lia.
  - intros c b Hc (Hlb & Hb).
    destruct (offset_nat w h ch y x c Hw Hh Hch Hsz Hy Hx ltac:(lia)) as (Hoff & Hlt).
    fold n in Hoff, Hlt. unfold store. rewrite Hoff.
    destruct (Nat.ltb_spec (n * Z.to_nat ch + c) (length b)) as [_|Hge]; [|lia].
    eexists. split; [reflexivity|]. split; [rewrite length_insert; exact Hlb|].
    intros p Hp. destruct (decide (p = n * Z.to_nat ch + c)) as [->|Hne].
    + rewrite list_lookup_insert_eq by lia. unfold noise_byte.
      destruct (pixel_position (Z.to_nat ch) n c ltac:(lia)) as (-> & ->).
      reflexivity.
    + rewrite list_lookup_insert_ne by congruence. apply Hb. lia.
  - exists buf'. split; [exact Hrun|]. split; [exact Hlen'|]. split; [reflexivity|].
    cbn [fst]. intros p Hp. apply Hfill'. lia.
Qed.

Lemma noise_loops_filled buf :
  length buf = Z.to_nat (w * h * ch) ->
  exists st,
    noise_loops modulus shade w h ch seed buf = Some st /\
    filled (Z.to_nat h * Z.to_nat w) st.
Proof.
  intros Hlen. unfold noise_loops.
  destruct (for_opt_inv (fun y st => filled (y * Z.to_nat w) st)
              (fun y =>
                 for_opt 0 (Z.to_nat w) (fun x '(imgBuff, calls) =>
                   let rn := Z.rem (rand seed calls) modulus in
                   imgBuff ← for_opt 0 (Z.to_nat ch) (fun c imgBuff =>
                               store imgBuff (offset w ch y x c)
                                 (if (Z.of_nat c =? 3)%Z then 255%Z else shade rn))
                             imgBuff;
                   Some (imgBuff, S calls)))
              (Z.to_nat h) 0 (buf, 0)) as (st & Hrun & Hst).
  - split; [exact Hlen|]. split; [reflexivity|]. intros p Hp. cbn in Hp. lia.
  - intros y st Hy Hfill.
    destruct (for_opt_inv (fun x st => filled (y * Z.to_nat w + x) st)
                (fun x '(imgBuff, calls) =>
                   let rn := Z.rem (rand seed calls) modulus in
                   imgBuff ← for_opt 0 (Z.to_nat ch) (fun c imgBuff =>
                               store imgBuff (offset w ch y x c)
                                 (if (Z.of_nat c =? 3)%Z then 255%Z else shade rn))
                             imgBuff;
                   Some (imgBuff, S calls))
                (Z.to_nat w) 0 st) as (st' & Hrun' & Hst').
    + rewrite Nat.add_0_r. exact Hfill.
    + intros x [b k] Hx Hb. pose proof Hb as (_ & Hk & _). cbn [snd] in Hk. subst k.
      destruct (channel_loop y x b ltac:(lia) ltac:(lia) Hb) as (b' & Hb' & Hfill').
      cbv zeta. rewrite Hb'. cbn [mbind option_bind].
      eexists. split; [reflexivity|].
      replace (y * Z.to_nat w + S x) with (S (y * Z.to_nat w + x)) by lia.
      exact Hfill'.
    + exists st'. split; [exact Hrun'|].
      replace (S y * Z.to_nat w) with (y * Z.to_nat w + (0 + Z.to_nat w)) by lia.
      exact Hst'.
  - exists st. split; [exact Hrun|]. exact Hst.
Qed.

End Loops.

(** The image of the two generators, for a buffer the loops return. *)
Lemma noise_image modulus shade w h ch seed :
  0 <= w < 2 ^ 32 -> 0 <= h < 2 ^ 32 -> 0 < ch <= 4 -> w * h * ch < 2 ^ 32 ->
  exists buf calls,
    noise_loops modulus shade w h ch seed
      (replicate (Z.to_nat (wrap32 (wrap32 (w * h) * ch))) 0) = Some (buf, calls) /\
    let img := {| pixels := take (Z.to_nat (wrap32 (wrap32 (w * h) * ch))) buf;
                  width := w; height := h; channels := ch;
                  size := wrap32 (wrap32 (w * h) * ch) |} in
    wf_image img /\ size img = w * h * ch /\
    forall x y c, 0 <= x < w -> 0 <= y < h -> 0 <= c < ch ->
      pixel img x y c =
        Some ((if c =? 3 then 255
               else shade (Z.rem (rand seed (Z.to_nat (y * w + x))) modulus))
              mod 2 ^ 8).
Proof.
  intros Hw Hh Hch Hsz.
  assert (Hwh : 0 <= w * h) by (apply Z.mul_nonneg_nonneg; lia).
  assert (Hwh' : w * h <= w * h * ch) by nia.
  assert (Hsize : wrap32 (wrap32 (w * h) * ch) = w * h * ch).
  { rewrite (wrap32_small (w * h)) by lia. apply wrap32_small. nia. }
  rewrite Hsize.
  destruct (noise_loops_filled modulus shade w h ch seed
              ltac:(lia) ltac:(lia) ltac:(lia) Hsz
              (replicate (Z.to_nat (w * h * ch)) 0))
    as ([buf calls] & Hrun & Hlen & _ & Hfill).
  { apply length_replicate. }
  cbn [fst snd] in *.
  exists buf, calls. split; [exact Hrun|]. cbv zeta.
  rewrite <- Hlen, firstn_all.
  split; [|split].
  - unfold wf_image. cbn [width height channels pixels]. repeat split; lia.
  - reflexivity.
  - intros x y c Hx Hy Hc. unfold pixel. cbn [pixels width channels].
    assert (Hpos : Z.to_nat ((y * w + x) * ch + c) =
                   (Z.to_nat (y * w + x) * Z.to_nat ch + Z.to_nat c)%nat).
    { assert (0 <= y * w + x) by nia.
      assert (0 <= (y * w + x) * ch) by nia.
      rewrite Z2Nat.inj_add, Z2Nat.inj_mul by lia. reflexivity. }
    rewrite Hpos, Hfill.
    + unfold noise_byte.
      destruct (pixel_position (Z.to_nat ch) (Z.to_nat (y * w + x)) (Z.to_nat c)
                  ltac:(lia)) as (-> & ->).
      rewrite Z2Nat.id by lia. reflexivity.
    + assert (Z.to_nat (y * w + x) < Z.to_nat h * Z.to_nat w)%nat.
      { rewrite <- Z2Nat.inj_mul by lia. apply Z2Nat.inj_lt; nia. }
      assert (Z.to_nat c < Z.to_nat ch)%nat by lia.
      nia.
Qed.

(** X26. For sizes within 32 bits and one to four channels,
    [imageGenWhiteNoise] returns an image of [width * height * channels]
    bytes in which the pixel in column [x] of row [y] takes the
    [y * width + x]-th random number: its channels 0 to 2 are all 0 when
    the number is even and all 255 when it is odd, and its channel 3 is
    255. *)
Theorem imageGenWhiteNoise_pixels w h ch seed :
  0 <= w < 2 ^ 32 -> 0 <= h < 2 ^ 32 -> 0 < ch <= 4 -> w * h * ch < 2 ^ 32 ->
  exists img,
    imageGenWhiteNoise w h ch seed = Some img /\
    width img = w /\ height img = h /\ channels img = ch /\
    size img = w * h * ch /\ wf_image img /\
    forall x y c, 0 <= x < w -> 0 <= y < h -> 0 <= c < ch ->
      pixel img x y c =
        Some (if c =? 3 then 255
              else if Z.even (rand seed (Z.to_nat (y * w + x))) then 0 else 255).
Proof.
  intros Hw Hh Hch Hsz.
  destruct (noise_image 2 (fun rn => if rn =? 0 then 0 else 255) w h ch seed
              Hw Hh Hch Hsz) as (buf & calls & Hrun & Hwf & Hsize & Hpx).
  unfold imageGenWhiteNoise.
  destruct (Z.ltb_spec 0 ch) as [_|]; [|lia].
  destruct (Z.leb_spec ch 4) as [_|]; [|lia].
  cbn [andb negb]. cbv zeta.
  change (for_opt 0 (Z.to_nat h) _ _) with
    (noise_loops 2 (fun rn => if rn =? 0 then 0 else 255) w h ch seed
       (replicate (Z.to_nat (wrap32 (wrap32 (w * h) * ch))) 0)).
  rewrite Hrun. cbn [mbind option_bind].
  eexists. split; [reflexivity|]. repeat (split; [first [reflexivity|assumption]|]).
  intros x y c Hx Hy Hc. rewrite (Hpx x y c Hx Hy Hc). f_equal.
  destruct (c =? 3); [reflexivity|].
  pose proof (rand_nonneg seed (Z.to_nat (y * w + x))) as Hr.
  rewrite Z.rem_mod_nonneg by lia.
  rewrite Zmod_even. destruct (Z.even _); reflexivity.
Qed.

(** X27. For sizes within 32 bits and one to four channels,
    [imageGenGrayScaleNoise] returns an image of
    [width * height * channels] bytes in which the pixel in column [x] of
    row [y] takes the [y * width + x]-th random number: its channels 0 to
    2 all hold the number modulo 256, and its channel 3 is 255. *)
Theorem imageGenGrayScaleNoise_pixels w h ch seed :
  0 <= w < 2 ^ 32 -> 0 <= h < 2 ^ 32 -> 0 < ch <= 4 -> w * h * ch < 2 ^ 32 ->
  exists img,
    imageGenGrayScaleNoise w h ch seed = Some img /\
    width img = w /\ height img = h /\ channels img = ch /\
    size img = w * h * ch /\ wf_image img /\
    forall x y c, 0 <= x < w -> 0 <= y < h -> 0 <= c < ch ->
      pixel img x y c =
        Some (if c =? 3 then 255 else rand seed (Z.to_nat (y * w + x)) mod 256).
Proof.
  intros Hw Hh Hch Hsz.
  destruct (noise_image 256 (fun rn => rn) w h ch seed
              Hw Hh Hch Hsz) as (buf & calls & Hrun & Hwf & Hsize & Hpx).
  unfold imageGenGrayScaleNoise.
  destruct (Z.ltb_spec 0 ch) as [_|]; [|lia].
  destruct (Z.leb_spec ch 4) as [_|]; [|lia].
  cbn [andb negb]. cbv zeta.
  change (for_opt 0 (Z.to_nat h) _ _) with
    (noise_loops 256 (fun rn => rn) w h ch seed
       (replicate (Z.to_nat (wrap32 (wrap32 (w * h) * ch))) 0)).
  rewrite Hrun. cbn [mbind option_bind].
  eexists. split; [reflexivity|]. repeat (split; [first [reflexivity|assumption]|]).
  intros x y c Hx Hy Hc. rewrite (Hpx x y c Hx Hy Hc). f_equal.
  destruct (c =? 3); [reflexivity|].
  pose proof (rand_nonneg seed (Z.to_nat (y * w + x))) as Hr.
  rewrite Z.rem_mod_nonneg by lia.
  change (2 ^ 8) with 256. apply Z.mod_mod. lia.
Qed.

End ImageNoise.

(** A linear congruential [rand()]. *)
Fixpoint demo_rand (seed : Z) (n : nat) : Z :=
  match n with
  | O => (seed * 1103515245 + 12345) mod 2 ^ 31
  | S n' => (demo_rand seed n' * 1103515245 + 12345) mod 2 ^ 31
  end.

Lemma demo_rand_nonneg seed n : 0 <= demo_rand seed n.
Proof. destruct n; cbn [demo_rand]; apply Z.mod_pos_bound; lia. Qed.

Lemma imageGenWhiteNoise_pixels_witness :
  exists img,
    imageGenWhiteNoise demo_rand 3 2 4 7 = Some img /\
    width img = 3 /\ height img = 2 /\ channels img = 4 /\
    size img = 3 * 2 * 4 /\ wf_image img /\
    forall x y c, 0 <= x < 3 -> 0 <= y < 2 -> 0 <= c < 4 ->
      pixel img x y c =
        Some (if c =? 3 then 255
              else if Z.even (demo_rand 7 (Z.to_nat (y * 3 + x))) then 0 else 255).
Proof.
  apply (imageGenWhiteNoise_pixels demo_rand demo_rand_nonneg 3 2 4 7); lia.
Defined.

Lemma imageGenGrayScaleNoise_pixels_witness :
  exists img,
    imageGenGrayScaleNoise demo_rand 3 2 3 7 = Some img /\
    width img = 3 /\ height img = 2 /\ channels img = 3 /\
    size img = 3 * 2 * 3 /\ wf_image img /\
    forall x y c, 0 <= x < 3 -> 0 <= y < 2 -> 0 <= c < 3 ->
      pixel img x y c =
        Some (if c =? 3 then 255 else demo_rand 7 (Z.to_nat (y * 3 + x)) mod 256).
Proof.
  apply (imageGenGrayScaleNoise_pixels demo_rand demo_rand_nonneg 3 2 3 7); lia.
Defined.

End ImageNoise.

(** ** [LvnVector]: copies *)

Module VectorCopy.

Import Vector.

Section VectorCopy.

Variable T : Type.
Variable T_default : T.
Variable trivially_destructible : bool.

Local Open Scope nat_scope.

(** The loop [for (i = 0; i < n; i++) new (&m_Data[i]) T(other.m_Data[i])]. *)
Definition construct_from (n : nat) (src : list (option T)) (d : list (option T))
    : list (option T) :=
  for_range 0 n (fun i d => <[i := slot T src i]> d) d.

(** [LvnVector(const LvnVector& other)] *)
Definition copy (other : LvnVector T) : LvnVector T :=
  {| m_Data := construct_from (m_Size T other) (m_Data T other)
                 (replicate (m_Size T other) None);
     m_Size := m_Size T other;
     m_Capacity := m_Size T other |}.

(** The same loop with a record of the slots in which an object lives
    when the new element is constructed there: the placement [new] runs
    no destructor. *)
Definition construct_over (n : nat) (src : list (option T))
    (st : list (option T) * list nat) : list (option T) * list nat :=
  for_range 0 n
    (fun i st => (<[i := slot T src i]> (fst st),
                  match slot T (fst st) i with
                  | Some _ => snd st ++ [i]
                  | None => snd st
                  end)) st.

(** [LvnVector& operator=(const LvnVector& other)], for [other] another
    vector than [*this]: [resize], then the elements of [other] are
    constructed in the slots.  The second component is the record of
    [construct_over]. *)
Definition assign_over (other v : LvnVector T) : LvnVector T * list nat :=
  let v1 := resize T T_default trivially_destructible (m_Size T other) v in
  let st := construct_over (m_Size T v1) (m_Data T other) (m_Data T v1, []) in
  ({| m_Data := fst st; m_Size := m_Size T v1; m_Capacity := m_Capacity T v1 |},
   snd st).

Definition assign (other v : LvnVector T) : LvnVector T :=
  fst (assign_over other v).

Lemma construct_over_spec src k : forall lo d acc,
  (forall j, lo <= j < lo + k -> exists x, d !! j = Some (Some x)) ->
  for_range lo k
    (fun i st => (<[i := slot T src i]> (fst st),
                  match slot T (fst st) i with
                  | Some _ => snd st ++ [i]
                  | None => snd st
                  end)) (d, acc) =
  (for_range lo k (fun i d => <[i := slot T src i]> d) d, acc ++ seq lo k).
Proof.
  induction k as [|k IH]; intros lo d acc Hlive.
  - cbn. rewrite app_nil_r. reflexivity.
  - cbn [for_range fst snd]. destruct (Hlive lo ltac:(lia)) as (x & Hx).
    rewrite (slot_lookup T d lo x Hx). rewrite IH.
    + cbn [seq]. rewrite <- app_assoc. reflexivity.
    + intros j Hj. rewrite list_lookup_insert_ne by lia. apply Hlive. lia.
Qed.

Lemma construct_from_Rep n src d cap l :
  length d = cap -> n = length l -> n <= cap ->
  (forall j x, l !! j = Some x -> src !! j = Some (Some x)) ->
  Rep T {| m_Data := construct_from n src d; m_Size := n; m_Capacity := cap |} l.
Proof.
  intros Hd Hn Hcap Hsrc. unfold Rep, construct_from. cbn [m_Data m_Size m_Capacity].
  split; [exact Hn|]. split; [rewrite for_range_write_length; exact Hd|].
  split; [lia|]. intros j x Hj.
  pose proof (lookup_lt_Some _ _ _ Hj) as Hlt.
  rewrite for_range_write_lookup.
  destruct (decide (0 <= j < 0 + n /\ j < length d)) as [_|Hno]; [|lia].
  f_equal. apply slot_lookup. apply Hsrc. exact Hj.
Qed.

(** X28. The copy of a vector holds the same elements and has no spare
    capacity.  Assignment from another vector gives the same elements in
    a buffer of the larger of the old capacity and the new size; and in
    every slot it fills an object lives when the new element is
    constructed there (an old element or the copy [reserve] made of it,
    or the element [resize] has just default-constructed), so that none
    of these objects is destructed. *)
Theorem vector_copy other v l l0 :
  Rep T other l -> Rep T v l0 ->
  Rep T (copy other) l /\
  m_Capacity T (copy other) = length l /\
  Rep T (assign other v) l /\
  m_Capacity T (assign other v) = Nat.max (length l) (m_Capacity T v) /\
  snd (assign_over other v) = seq 0 (length l).
Proof.
  intros HRo HRv. pose proof HRo as (Hs & Hlen & Hcap & Hel).
  split; [|split].
  - unfold copy. apply construct_from_Rep; auto. apply length_replicate.
  - cbn. exact Hs.
  - unfold assign, assign_over. cbv zeta.
    rewrite VectorOps.resize_is_resize_value.
    destruct (VectorOps.resize_value_Rep T trivially_destructible
                (m_Size T other) T_default v l0 HRv) as ((Hs1 & Hlen1 & Hcap1 & Hel1) & Hc).
    set (v1 := VectorOps.resize_value T trivially_destructible
                 (m_Size T other) T_default v) in *.
    assert (Hn : m_Size T v1 = length l).
    { rewrite Hs1, length_app, length_take, length_replicate. lia. }
    unfold construct_over. rewrite construct_over_spec.
    + cbn [fst snd]. split; [|split].
      * apply (construct_from_Rep (m_Size T v1)); auto. lia.
      * cbn [m_Capacity]. rewrite Hc, Hs. reflexivity.
      * rewrite Hn. reflexivity.
    + intros j Hj.
      destruct (lookup_lt_is_Some_2
                  (take (m_Size T other) l0 ++
                   replicate (m_Size T other - length l0) T_default) j)
        as (x & Hx); [rewrite <- Hs1; lia|].
      exists x. apply Hel1. exact Hx.
Qed.

End VectorCopy.

(** The vector of 5 alone. *)
Definition short_vector : LvnVector Z :=
  VectorOps.push_all Z 0 false [5]%Z (empty Z).

Lemma short_vector_Rep : Rep Z short_vector [5]%Z.
Proof.
  split; [reflexivity|]. split; [reflexivity|]. split; [vm_compute; lia|].
  intros [|j] x H; cbn in H; try discriminate; injection H as <-; reflexivity.
Defined.

Lemma vector_copy_witness :
  Rep Z (copy Z short_vector) (5 :: nil)%Z /\
  (m_Capacity Z (copy Z short_vector) = 1%nat) /\
  Rep Z (assign Z 0 false short_vector VectorOps.demo_vector) (5 :: nil)%Z /\
  (m_Capacity Z (assign Z 0 false short_vector VectorOps.demo_vector) =
     Nat.max 1 (m_Capacity Z VectorOps.demo_vector)) /\
  (snd (assign_over Z 0 false short_vector VectorOps.demo_vector) = [0]%nat).
Proof.
  apply (vector_copy Z 0 false short_vector VectorOps.demo_vector [5]%Z [4; 7; 7; 9]%Z).
  - exact short_vector_Rep.
  - exact VectorOps.demo_vector_Rep.
Defined.

End VectorCopy.
